(** * csvmonkey: a shallow embedding of [csvmonkey.hpp]

    The header defines three layers: the 16-byte character-class spanners
    ([StringSpannerFallback], [StringSpannerSse42]), the stream cursors
    ([MappedFileCursor], [BufferedStreamCursor], [FdStreamCursor]) and the
    row parser ([CsvReader::try_parse], [CsvReader::read_row]) which hands
    out [CsvCell] views.

    Conventions of the embedding.
    - A byte ([char] or [unsigned char]) is a [Z]; the bytes of real inputs
      lie in [0, 256).
    - A pointer into a cursor's storage is the offset of the addressed byte
      from the start of that storage (the file mapping, or [&vec_[0]]).  A
      [CsvCell::ptr] is an [option Z]: [None] is the null pointer.
    - [size_t] and [int] quantities are [Z]; every subtraction the parser
      performs on them is shown non-negative where a claim depends on it. *)

From Stdlib Require Import ZArith List Bool Lia.
Import ListNotations.
Local Open Scope Z_scope.

(** ** Bytes and memory *)

Abbreviation byte := Z (only parsing).

(** [s[i]] for a storage or window [s]; bytes outside of it read as 0.
    Past a file mapping that is what the source reads, from the rest of
    the last page and from the guard page.  Past the end of [vec_] a load
    is undefined in the source. *)
Definition peek (s : list byte) (i : Z) : byte :=
  if i <? 0 then 0 else nth (Z.to_nat i) s 0.

(** The sixteen bytes [s[p] .. s[p+15]], the operand of one spanner call. *)
Definition window (s : list byte) (p : Z) : list byte :=
  map (fun j => peek s (p + Z.of_nat j)) (seq 0 16).

(** [l[n] = v] for an index inside [l]. *)
Fixpoint list_set {A} (l : list A) (n : nat) (v : A) : list A :=
  match l, n with
  | [], _ => []
  | _ :: t, O => v :: t
  | h :: t, S n' => h :: list_set t n' v
  end.

Definition len {A} (l : list A) : Z := Z.of_nat (length l).

(** ['\r'] or ['\n']. *)
Definition is_newline (c : byte) : bool := (c =? 13) || (c =? 10).

(** A [const char *] argument is given by the bytes it points at.
    [strlen]: the bytes before the first NUL.  The end of the list stands
    for a NUL as well, as in [peek]. *)
Fixpoint strlen (str : list byte) : Z :=
  match str with
  | [] => 0
  | c :: t => if c =? 0 then 0 else 1 + strlen t
  end.

(** The characters of a C string, without the NUL. *)
Definition c_str (str : list byte) : list byte :=
  firstn (Z.to_nat (strlen str)) str.

(** [operator==] of [std::string]: the same length and the same bytes. *)
Fixpoint string_eqb (a b : list byte) : bool :=
  match a, b with
  | [], [] => true
  | x :: a', y :: b' => (x =? y) && string_eqb a' b'
  | _, _ => false
  end.

(** ** The spanners *)

Module StringSpannerFallback.

(** [(unsigned) c] for a [char c] holding the byte [c]: [char] is signed
    on the x86 targets of this header, so a byte of 0x80 and above is
    negative and converts to a 32-bit value of 0xFFFFFF80 and above. *)
Definition unsigned_of_char (c : byte) : Z :=
  if c <? 128 then c else c + (2 ^ 32 - 256).

(** [charset_[i] = v].  A store outside the 256 entries is undefined
    behaviour; the model gives [None] for it. *)
Definition store (charset_ : list Z) (i : Z) (v : Z) : option (list Z) :=
  if (0 <=? i) && (i <? 256)
  then Some (list_set charset_ (Z.to_nat i) v)
  else None.

Definition bind {A B} (o : option A) (f : A -> option B) : option B :=
  match o with Some a => f a | None => None end.

(** The constructor: clear the table, mark the four bytes, clear slot 0. *)
Definition new (c1 c2 c3 c4 : byte) : option (list Z) :=
  let charset_ := repeat 0 256 in
  bind (store charset_ (unsigned_of_char c1) 1) (fun charset_ =>
  bind (store charset_ (unsigned_of_char c2) 1) (fun charset_ =>
  bind (store charset_ (unsigned_of_char c3) 1) (fun charset_ =>
  bind (store charset_ (unsigned_of_char c4) 1) (fun charset_ =>
  store charset_ 0 0)))).

(** [charset_[p[k]]] as a condition, [p] being an offset into [s]. *)
Definition hit (charset_ : list Z) (s : list byte) (i : Z) : bool :=
  negb (peek charset_ (peek s i) =? 0).

(** The [do { ... } while (p < e)] loop, [e] being [s + 16]; [n] bounds
    the number of further iterations. *)
Fixpoint scan (n : nat) (charset_ : list Z) (s : list byte) (p : Z) : Z :=
  if hit charset_ s p then p
  else if hit charset_ s (p + 1) then p + 1
  else if hit charset_ s (p + 2) then p + 2
  else if hit charset_ s (p + 3) then p + 3
  else
    let p := p + 4 in
    match n with
    | O => p
    | S n' => if p <? 16 then scan n' charset_ s p else p
    end.

(** [operator()]: four iterations reach [e]. *)
Definition call (charset_ : list Z) (s : list byte) : Z :=
  scan 3 charset_ s 0.

End StringSpannerFallback.

Module StringSpannerSse42.

(** The constructor: [__v16qi vq = {c1, c2, c3, c4}], the other twelve
    lanes are zero. *)
Definition new (c1 c2 c3 c4 : byte) : list byte :=
  [c1; c2; c3; c4] ++ repeat 0 12.

(** Length of an implicit-length operand of PCMPISTRI: the lanes before
    the first zero lane. *)
Fixpoint implicit_length (v : list byte) : nat :=
  match v with
  | [] => O
  | c :: t => if c =? 0 then O else S (implicit_length t)
  end.

(** The valid lanes of an implicit-length operand. *)
Definition valid (v : list byte) : list byte :=
  firstn (implicit_length v) v.

(** [_mm_cmpistri(a, b, 0)], after the instruction's definition for the
    control byte 0: unsigned bytes, "equal any" aggregation, positive
    polarity, least significant index.  Lane [j] of [b] is selected when
    it is valid (before the first zero lane of [b]) and equals some valid
    lane of [a]; the result is the first selected lane, or 16. *)
Fixpoint first_selected (set : list byte) (b : list byte) (j : Z) : Z :=
  match b with
  | [] => 16
  | c :: t =>
      if existsb (Z.eqb c) set then j else first_selected set t (j + 1)
  end.

Definition mm_cmpistri (a b : list byte) : Z :=
  first_selected (valid (firstn 16 a)) (valid (firstn 16 b)) 0.

(** [operator()]. *)
Definition call (v_ : list byte) (buf : list byte) : Z :=
  mm_cmpistri v_ buf.

End StringSpannerSse42.

(** [StringSpanner] is an alias chosen at compile time by [CSM_USE_SSE42];
    a value of the sum records which of the two was compiled in. *)
Inductive StringSpanner : Type :=
| Fallback (charset_ : list Z)
| Sse42 (v_ : list byte).

Module Spanner.

Definition new (CSM_USE_SSE42 : bool) (c1 c2 c3 c4 : byte)
  : option StringSpanner :=
  if CSM_USE_SSE42
  then Some (Sse42 (StringSpannerSse42.new c1 c2 c3 c4))
  else option_map Fallback (StringSpannerFallback.new c1 c2 c3 c4).

Definition call (sp : StringSpanner) (s : list byte) : Z :=
  match sp with
  | Fallback charset_ => StringSpannerFallback.call charset_ s
  | Sse42 v_ => StringSpannerSse42.call v_ s
  end.

End Spanner.

(** The bytes a spanner built from [c1 .. c4] is meant to stop at: the
    four bytes, zero excepted. *)
Definition targets (c1 c2 c3 c4 b : byte) : bool :=
  negb (b =? 0) && ((b =? c1) || (b =? c2) || (b =? c3) || (b =? c4)).

(** ** Stream cursors *)

(** The [StreamCursor] interface.  [storage] is ghost: the bytes behind
    [buf()], so that a pointer handed out by the parser can be read back.
    [buf] is the offset of [buf()] in that storage. *)
Class StreamCursor (S : Type) : Type := {
  storage : S -> list byte;
  buf : S -> Z;
  size : S -> Z;
  consume : Z -> S -> S;
  fill : S -> bool * S
}.

Module MappedFileCursor.

(** [mapping] holds the bytes of the file; the rest of its last page and
    the guard page after it are anonymous memory, which reads as zero, as
    [peek] does past the end of [mapping].  [startp_] is offset 0. *)
Record t : Type := mk {
  mapping : list byte;
  endp_ : Z;
  p_ : Z
}.

(** [open()] for a file holding [data], the system calls taken to
    succeed where they can: the cursor it leaves behind, or [None] where
    it throws.  It throws for an empty file, because [mmap] fails for a
    length of zero and the file is then not placed below the guard
    page. *)
Definition open (data : list byte) : option t :=
  match data with
  | [] => None
  | _ :: _ => Some {| mapping := data; endp_ := len data; p_ := 0 |}
  end.

(** [open()]: [rounded], the file size rounded up to whole pages, in
    64-bit [unsigned long] arithmetic.  The anonymous reservation is
    [rounded + page_size] bytes long and [guardp_] is [rounded] bytes
    after its start. *)
Definition rounded (page_size st_size : Z) : Z :=
  let page_mask := (page_size - 1) mod 2 ^ 64 in
  if negb (Z.land st_size page_mask =? 0)
  then (Z.land st_size (Z.lxor page_mask (2 ^ 64 - 1)) + page_size)
       mod 2 ^ 64
  else st_size.

Definition buf (c : t) : Z := p_ c.

Definition size (c : t) : Z := endp_ c - p_ c.

Definition consume (n : Z) (c : t) : t :=
  {| mapping := mapping c; endp_ := endp_ c;
     p_ := p_ c + Z.min n (endp_ c - p_ c) |}.

Definition fill (c : t) : bool * t := (false, c).

End MappedFileCursor.

#[export] Instance MappedFileCursor_StreamCursor
  : StreamCursor MappedFileCursor.t := {
  storage := MappedFileCursor.mapping;
  buf := MappedFileCursor.buf;
  size := MappedFileCursor.size;
  consume := MappedFileCursor.consume;
  fill := MappedFileCursor.fill
}.

Module BufferedStreamCursor.

Record t : Type := mk {
  vec_ : list byte;
  read_pos_ : Z;
  write_pos_ : Z
}.

Definition new : t :=
  {| vec_ := repeat 0 (Z.to_nat 131072); read_pos_ := 0; write_pos_ := 0 |}.

(** [vec_.resize(n)]: new elements are zero. *)
Definition resize (v : list byte) (n : Z) : list byte :=
  firstn (Z.to_nat n) v ++ repeat 0 (Z.to_nat (n - len v)).

Definition ensure (capacity : Z) (c : t) : t :=
  let available := len (vec_ c) - write_pos_ c in
  if available <? capacity
  then {| vec_ := resize (vec_ c) (16 + (len (vec_ c) + capacity));
          read_pos_ := read_pos_ c; write_pos_ := write_pos_ c |}
  else c.

Definition buf (c : t) : Z := read_pos_ c.

Definition size (c : t) : Z := write_pos_ c - read_pos_ c.

Definition consume (n : Z) (c : t) : t :=
  {| vec_ := vec_ c;
     read_pos_ := read_pos_ c + Z.min n (write_pos_ c - read_pos_ c);
     write_pos_ := write_pos_ c |}.

(** [memcpy(&v[dst], &v[src], n)], the source bytes taken as they were
    before the copy. *)
Definition memcpy (v : list byte) (dst src n : Z) : list byte :=
  firstn (Z.to_nat dst) v
  ++ firstn (Z.to_nat n) (skipn (Z.to_nat src) v)
  ++ skipn (Z.to_nat (dst + n)) v.

Section Fill.
(** [readmore()] is pure virtual: [X] is what the derived class adds,
    and [readmore] returns the [ssize_t] result with the new state. *)
Context {X : Type}.
Variable readmore : t -> X -> Z * t * X.

Definition fill (cx : t * X) : bool * (t * X) :=
  let (c, x) := cx in
  let c :=
    if read_pos_ c =? 0 then c
    else
      let n := write_pos_ c - read_pos_ c in
      {| vec_ := memcpy (vec_ c) 0 (read_pos_ c) n;
         read_pos_ := 0;
         write_pos_ := write_pos_ c - read_pos_ c |} in
  let c :=
    if write_pos_ c =? len (vec_ c)
    then ensure (len (vec_ c) / 2) c
    else c in
  let '(rc, c, x) := readmore c x in
  if rc =? -1 then (false, (c, x))
  else
    let c := {| vec_ := vec_ c; read_pos_ := read_pos_ c;
                write_pos_ := write_pos_ c + rc |} in
    (0 <? write_pos_ c, (c, x)).
End Fill.

End BufferedStreamCursor.

(** What a descriptor will deliver.  Each entry is the outcome of one
    [read()] that finds something: [Data bs] makes up to [length bs] bytes
    available ([Data []] is a zero-length read), [Fail] makes the call
    return -1.  Past the last entry the descriptor is at end of file. *)
Module Fd.

Inductive chunk : Type :=
| Data (bytes : list byte)
| Fail.

Definition t : Type := list chunk.

(** [::read(fd, dst, count)]: the result, the bytes stored at [dst] and
    the descriptor afterwards. *)
Definition read (fd : t) (count : Z) : Z * list byte * t :=
  match fd with
  | [] => (0, [], [])
  | Fail :: rest => (-1, [], rest)
  | Data bs :: rest =>
      if len bs <=? count then (len bs, bs, rest)
      else (Z.max 0 count, firstn (Z.to_nat count) bs,
            Data (skipn (Z.to_nat count) bs) :: rest)
  end.

End Fd.

Module FdStreamCursor.

Definition t : Type := (BufferedStreamCursor.t * Fd.t)%type.

Definition new (fd : Fd.t) : t := (BufferedStreamCursor.new, fd).

Definition readmore (c : BufferedStreamCursor.t) (fd_ : Fd.t)
  : Z * BufferedStreamCursor.t * Fd.t :=
  let w := BufferedStreamCursor.write_pos_ c in
  let v := BufferedStreamCursor.vec_ c in
  let '(rc, bs, fd_) := Fd.read fd_ (len v - w) in
  (rc,
   {| BufferedStreamCursor.vec_ :=
        firstn (Z.to_nat w) v ++ bs ++ skipn (Z.to_nat (w + len bs)) v;
      BufferedStreamCursor.read_pos_ := BufferedStreamCursor.read_pos_ c;
      BufferedStreamCursor.write_pos_ := w |},
   fd_).

Definition fill : t -> bool * t := BufferedStreamCursor.fill readmore.

End FdStreamCursor.

#[export] Instance FdStreamCursor_StreamCursor
  : StreamCursor FdStreamCursor.t := {
  storage := fun c => BufferedStreamCursor.vec_ (fst c);
  buf := fun c => BufferedStreamCursor.buf (fst c);
  size := fun c => BufferedStreamCursor.size (fst c);
  consume := fun n c => (BufferedStreamCursor.consume n (fst c), snd c);
  fill := FdStreamCursor.fill
}.

(** ** Cells *)

Module CsvCell.

Record t : Type := mk {
  ptr : option Z;
  size : Z;
  escaped : bool
}.

(** A value-initialised cell, as [std::vector<CsvCell>(n)] creates it. *)
Definition zero : t := {| ptr := None; size := 0; escaped := false |}.

(** [std::string(ptr, size)] over the storage [m]. *)
Definition raw (m : list byte) (c : t) : list byte :=
  match ptr c with
  | None => []
  | Some a =>
      map (fun j => peek m (a + Z.of_nat j)) (seq 0 (Z.to_nat (size c)))
  end.

Definition is_escape (escapechar quotechar c : byte) : bool :=
  (negb (escapechar =? 0) && (c =? escapechar)) || (c =? quotechar).

(** The [for] loop of [as_str], rewriting [s] in place.  [s[i]] at
    [i = s.size()] is the terminating NUL of the string, which [peek]
    gives as well.  [n] bounds the iterations.  The [int] counters [o]
    and [i] are taken not to wrap: cells are shorter than 2^31 bytes. *)
Fixpoint as_str_loop (n : nat) (escapechar quotechar : byte)
         (s : list byte) (o i : Z) : list byte * Z :=
  match n with
  | O => (s, o)
  | S n' =>
      if i <? len s then
        let c := peek s i in
        let i := if is_escape escapechar quotechar c then i + 1 else i in
        let s := list_set s (Z.to_nat o) (peek s i) in
        as_str_loop n' escapechar quotechar s (o + 1) (i + 1)
      else (s, o)
  end.

Definition as_str (escapechar quotechar : byte) (m : list byte) (c : t)
  : list byte :=
  let s := raw m c in
  if escaped c then
    let (s, o) := as_str_loop (length s) escapechar quotechar s 0 0 in
    firstn (Z.to_nat o) s
  else s.

(** [startswith(str)]: the first [min(size, strlen(str))] bytes of the
    cell, compared with the whole of [str]. *)
Definition startswith (m : list byte) (c : t) (str : list byte) : bool :=
  string_eqb
    (raw m {| ptr := ptr c; size := Z.min (size c) (strlen str);
              escaped := escaped c |})
    (c_str str).

Definition equals (m : list byte) (c : t) (str : list byte) : bool :=
  (strlen str =? size c) && startswith m c str.

End CsvCell.

Module CsvCursor.

Record t : Type := mk {
  cells : list CsvCell.t;
  count : Z
}.

Definition new : t := {| cells := repeat CsvCell.zero 32; count := 0 |}.

(** The [for] loop of [by_value] from index [i] on: the index of the
    first cell whose [as_str(0, 0)] is [value].  [n] bounds the
    iterations. *)
Fixpoint by_value_loop (n : nat) (m : list byte) (cur : t)
         (value : list byte) (i : Z) : option Z :=
  match n with
  | O => None
  | S n' =>
      if i <? count cur then
        if string_eqb value
             (CsvCell.as_str 0 0 m (nth (Z.to_nat i) (cells cur) CsvCell.zero))
        then Some i
        else by_value_loop n' m cur value (i + 1)
      else None
  end.

(** [by_value(value, cell)].  [cell] is the caller's pointer, an index
    into [cells] here; it is written when a cell is found, and only
    then. *)
Definition by_value (m : list byte) (cur : t) (value : list byte)
           (cell : option Z) : bool * option Z :=
  match by_value_loop (Z.to_nat (count cur)) m cur value 0 with
  | Some i => (true, Some i)
  | None => (false, cell)
  end.

End CsvCursor.

(** ** The row parser *)

Inductive CsmTryParseReturnType : Type :=
| kCsmTryParseOkay
| kCsmTryParseOverflow
| kCsmTryParseUnderrun.

(** The labels of [try_parse]. *)
Inductive label : Type :=
| newline_skip
| cell_start
| in_quoted_cell
| in_escape_or_end_of_quoted_cell
| in_unquoted_cell
| in_escape_or_end_of_unquoted_cell.

Module TryParse.

(** What one activation of [try_parse] works on: its position in the
    code, its locals ([p], [cell_start], [cell] as an index into
    [row_.cells]) and the members it writes ([row_.cells], [row_.count],
    [in_newline_skip], [p_]). *)
Record frame : Type := mk {
  pc : label;
  p : Z;
  start : Z;
  cell : Z;
  cells : list CsvCell.t;
  count : Z;
  in_newline_skip : bool;
  p_ : Z
}.

Definition goto (l : label) (f : frame) : frame :=
  mk l (p f) (start f) (cell f) (cells f) (count f) (in_newline_skip f)
     (p_ f).

Definition set_p (v : Z) (f : frame) : frame :=
  mk (pc f) v (start f) (cell f) (cells f) (count f) (in_newline_skip f)
     (p_ f).

Definition set_start (v : Z) (f : frame) : frame :=
  mk (pc f) (p f) v (cell f) (cells f) (count f) (in_newline_skip f)
     (p_ f).

Definition set_cell (v : Z) (f : frame) : frame :=
  mk (pc f) (p f) (start f) v (cells f) (count f) (in_newline_skip f)
     (p_ f).

Definition set_cells (v : list CsvCell.t) (f : frame) : frame :=
  mk (pc f) (p f) (start f) (cell f) v (count f) (in_newline_skip f)
     (p_ f).

Definition set_count (v : Z) (f : frame) : frame :=
  mk (pc f) (p f) (start f) (cell f) (cells f) v (in_newline_skip f)
     (p_ f).

Definition set_in_newline_skip (v : bool) (f : frame) : frame :=
  mk (pc f) (p f) (start f) (cell f) (cells f) (count f) v (p_ f).

Definition set_p_ (v : Z) (f : frame) : frame :=
  mk (pc f) (p f) (start f) (cell f) (cells f) (count f)
     (in_newline_skip f) v.

(** [cell->field = ...]: rewrite the cell [cell] points at. *)
Definition on_cell (g : CsvCell.t -> CsvCell.t) (f : frame) : frame :=
  let i := Z.to_nat (cell f) in
  set_cells (list_set (cells f) i (g (nth i (cells f) CsvCell.zero))) f.

Definition set_escaped (b : bool) (c : CsvCell.t) : CsvCell.t :=
  CsvCell.mk (CsvCell.ptr c) (CsvCell.size c) b.

Definition set_ptr (a : option Z) (c : CsvCell.t) : CsvCell.t :=
  CsvCell.mk a (CsvCell.size c) (CsvCell.escaped c).

Definition set_size (n : Z) (c : CsvCell.t) : CsvCell.t :=
  CsvCell.mk (CsvCell.ptr c) n (CsvCell.escaped c).

Section Step.
(** The storage behind the cursor and the members [try_parse] only
    reads. *)
Variable s : list byte.
Variable endp_ : Z.
Variables delimiter_ quotechar_ : byte.
Variables quoted_cell_spanner_ unquoted_cell_spanner_ : StringSpanner.

Definition result : Type := (CsmTryParseReturnType * frame)%type.

(** The code from one label to the next [goto] or [return].  A return
    leaves [pc] at the label it returns from. *)
Definition step (f : frame) : frame + result :=
  match pc f with
  | newline_skip =>
      let f := set_in_newline_skip true f in
      if endp_ <=? p f then inr (kCsmTryParseUnderrun, f)
      else if is_newline (peek s (p f))
      then inl (goto newline_skip (set_p (p f + 1) f))
      else inl (goto cell_start f)
  | cell_start =>
      let f := set_in_newline_skip false f in
      if endp_ <=? p f then inr (kCsmTryParseUnderrun, f)
      else
        let f := on_cell (set_escaped false) f in
        if is_newline (peek s (p f)) then
          let f := on_cell (set_ptr None) f in
          let f := on_cell (set_size 0) f in
          let f := set_count (count f + 1) f in
          let f := set_p_ (p f + 1) f in
          inr (kCsmTryParseOkay, f)
        else if peek s (p f) =? quotechar_ then
          let f := set_p (p f + 1) f in
          let f := set_start (p f) f in
          inl (goto in_quoted_cell f)
        else
          let f := set_start (p f) f in
          inl (goto in_unquoted_cell f)
  | in_quoted_cell =>
      if endp_ <=? p f then inr (kCsmTryParseUnderrun, f)
      else
        let rc := Spanner.call quoted_cell_spanner_ (window s (p f)) in
        if rc =? 16
        then inl (goto in_quoted_cell (set_p (p f + 16) f))
        else inl (goto in_escape_or_end_of_quoted_cell
                       (set_p (p f + (rc + 1)) f))
  | in_escape_or_end_of_quoted_cell =>
      if endp_ <=? p f then inr (kCsmTryParseUnderrun, f)
      else if peek s (p f) =? delimiter_ then
        let f := on_cell (set_ptr (Some (start f))) f in
        let f := on_cell (set_size (p f - start f - 1)) f in
        let f := set_count (count f + 1) f in
        let f := set_cell (cell f + 1) f in
        if count f =? len (cells f) then inr (kCsmTryParseOverflow, f)
        else inl (goto cell_start (set_p (p f + 1) f))
      else if is_newline (peek s (p f)) then
        let f := on_cell (set_ptr (Some (start f))) f in
        let f := on_cell (set_size (p f - start f - 1)) f in
        let f := set_count (count f + 1) f in
        let f := set_p_ (p f + 1) f in
        inr (kCsmTryParseOkay, f)
      else
        let f := on_cell (set_escaped true) f in
        inl (goto in_quoted_cell (set_p (p f + 1) f))
  | in_unquoted_cell =>
      if endp_ <=? p f then inr (kCsmTryParseUnderrun, f)
      else
        let rc := Spanner.call unquoted_cell_spanner_ (window s (p f)) in
        if rc =? 16
        then inl (goto in_unquoted_cell (set_p (p f + 16) f))
        else inl (goto in_escape_or_end_of_unquoted_cell
                       (set_p (p f + rc) f))
  | in_escape_or_end_of_unquoted_cell =>
      if endp_ <=? p f then inr (kCsmTryParseUnderrun, f)
      else if peek s (p f) =? delimiter_ then
        let f := on_cell (set_ptr (Some (start f))) f in
        let f := on_cell (set_size (p f - start f)) f in
        let f := set_count (count f + 1) f in
        let f := set_cell (cell f + 1) f in
        if count f =? len (cells f) then inr (kCsmTryParseOverflow, f)
        else inl (goto cell_start (set_p (p f + 1) f))
      else if is_newline (peek s (p f)) then
        let f := on_cell (set_ptr (Some (start f))) f in
        let f := on_cell (set_size (p f - start f)) f in
        let f := set_count (count f + 1) f in
        let f := set_p_ (p f + 1) f in
        inr (kCsmTryParseOkay, f)
      else
        let f := on_cell (set_escaped true) f in
        inl (goto in_unquoted_cell (set_p (p f + 1) f))
  end.

(** Follow the [goto]s until a [return]; [None] when [n] steps were
    not enough. *)
Fixpoint run (n : nat) (f : frame) : option result :=
  match n with
  | O => None
  | S n' =>
      match step f with
      | inl f' => run n' f'
      | inr r => Some r
      end
  end.

(** A number of steps that is always enough, see [run_total]: between
    two advances of [p] at most three labels are passed. *)
Definition steps (f : frame) : nat :=
  Z.to_nat (4 * Z.max 0 (endp_ - p f) + 8).

End Step.

End TryParse.

Module CsvReader.

Section WithStream.
Context {C : Type} `{StreamCursor C}.

(** [stream_] is a reference to the caller's cursor, which the reader
    borrows for its whole life: the cursor's state is carried here. *)
Record t : Type := mk {
  endp_ : Z;
  p_ : Z;
  delimiter_ : byte;
  quotechar_ : byte;
  escapechar_ : byte;
  yield_incomplete_row_ : bool;
  in_newline_skip : bool;
  stream_ : C;
  quoted_cell_spanner_ : StringSpanner;
  unquoted_cell_spanner_ : StringSpanner;
  row_ : CsvCursor.t
}.

(** The constructor.  [CSM_USE_SSE42] is the compile-time choice of
    spanner; the result is [None] when building a spanner is undefined.
    [in_newline_skip] is left uninitialised by the source and is
    written by [try_parse] before anything reads it. *)
Definition new (CSM_USE_SSE42 : bool) (stream : C)
           (delimiter quotechar escapechar : byte)
           (yield_incomplete_row : bool) : option t :=
  match Spanner.new CSM_USE_SSE42 quotechar escapechar 0 0,
        Spanner.new CSM_USE_SSE42 delimiter 13 10 escapechar with
  | Some q, Some u =>
      Some {| endp_ := buf stream + size stream;
              p_ := buf stream;
              delimiter_ := delimiter;
              quotechar_ := quotechar;
              escapechar_ := escapechar;
              yield_incomplete_row_ := yield_incomplete_row;
              in_newline_skip := false;
              stream_ := stream;
              quoted_cell_spanner_ := q;
              unquoted_cell_spanner_ := u;
              row_ := CsvCursor.new |}
  | _, _ => None
  end.

Definition set_window (p e : Z) (r : t) : t :=
  mk e p (delimiter_ r) (quotechar_ r) (escapechar_ r)
     (yield_incomplete_row_ r) (in_newline_skip r) (stream_ r)
     (quoted_cell_spanner_ r) (unquoted_cell_spanner_ r) (row_ r).

Definition set_stream (st : C) (r : t) : t :=
  mk (endp_ r) (p_ r) (delimiter_ r) (quotechar_ r) (escapechar_ r)
     (yield_incomplete_row_ r) (in_newline_skip r) st
     (quoted_cell_spanner_ r) (unquoted_cell_spanner_ r) (row_ r).

Definition set_row (row : CsvCursor.t) (r : t) : t :=
  mk (endp_ r) (p_ r) (delimiter_ r) (quotechar_ r) (escapechar_ r)
     (yield_incomplete_row_ r) (in_newline_skip r) (stream_ r)
     (quoted_cell_spanner_ r) (unquoted_cell_spanner_ r) row.

(** The frame [try_parse] starts from. *)
Definition enter (r : t) : TryParse.frame :=
  {| TryParse.pc := newline_skip;
     TryParse.p := p_ r;
     TryParse.start := 0;
     TryParse.cell := 0;
     TryParse.cells := CsvCursor.cells (row_ r);
     TryParse.count := 0;
     TryParse.in_newline_skip := in_newline_skip r;
     TryParse.p_ := p_ r |}.

(** The members as the frame leaves them. *)
Definition leave (r : t) (f : TryParse.frame) : t :=
  mk (endp_ r) (TryParse.p_ f) (delimiter_ r) (quotechar_ r)
     (escapechar_ r) (yield_incomplete_row_ r)
     (TryParse.in_newline_skip f) (stream_ r)
     (quoted_cell_spanner_ r) (unquoted_cell_spanner_ r)
     (CsvCursor.mk (TryParse.cells f) (TryParse.count f)).

Definition run_frame (r : t) (n : nat) (f : TryParse.frame)
  : option TryParse.result :=
  TryParse.run (storage (stream_ r)) (endp_ r) (delimiter_ r)
               (quotechar_ r) (quoted_cell_spanner_ r)
               (unquoted_cell_spanner_ r) n f.

(** [try_parse()].  The last case is never taken: the run always returns
    within these steps ([ReaderFacts.try_parse_run]). *)
Definition try_parse (r : t) : CsmTryParseReturnType * t :=
  match run_frame r (TryParse.steps (endp_ r) (enter r)) (enter r) with
  | Some (rc, f) => (rc, leave r f)
  | None => (kCsmTryParseUnderrun, r)
  end.

(** Ghost trace of what one [read_row()] does to the cursor and to the
    cell vector: each [try_parse()] with its result, the cursor it ran
    on and the capacity of [row_.cells]; each [resize], [fill()] and
    [consume(n)]. *)
Inductive event : Type :=
| EvParse (rc : CsmTryParseReturnType) (stream : C) (capacity : Z)
| EvResize (capacity : Z)
| EvFill (ok : bool)
| EvConsume (n : Z).

Definition resize_cells (n : Z) (r : t) : t :=
  let v := CsvCursor.cells (row_ r) in
  set_row (CsvCursor.mk
             (firstn (Z.to_nat n) v
              ++ repeat CsvCell.zero (Z.to_nat (n - len v)))
             (CsvCursor.count (row_ r))) r.

(** [read_row()].  Both the [do ... while] loop and the recursive call
    on overflow start over at the top, so both are the recursive call
    here; [None] when [n] rounds were not enough.  The third component
    is the ghost trace. *)
Fixpoint read_row (n : nat) (r : t) : option (bool * t * list event) :=
  match n with
  | O => None
  | S n' =>
      let p := buf (stream_ r) in
      let r := set_window p (p + size (stream_ r)) r in
      let ev := EvParse (fst (try_parse r)) (stream_ r)
                        (len (CsvCursor.cells (row_ r))) in
      let later (evs : list event) o :=
        match o with
        | Some (b, r', log) => Some (b, r', ev :: evs ++ log)
        | None => None
        end in
      match try_parse r with
      | (kCsmTryParseOkay, r) =>
          Some (true,
                set_stream (consume (p_ r - p) (stream_ r)) r,
                [ev; EvConsume (p_ r - p)])
      | (kCsmTryParseOverflow, r) =>
          let c := 2 * len (CsvCursor.cells (row_ r)) in
          later [EvResize c] (read_row n' (resize_cells c r))
      | (kCsmTryParseUnderrun, r) =>
          let (ok, st) := fill (stream_ r) in
          let r := set_stream st r in
          if ok then later [EvFill true] (read_row n' r)
          else if negb (CsvCursor.count (row_ r) =? 0)
                  && yield_incomplete_row_ r
          then Some (true,
                     set_stream (consume (endp_ r - p) (stream_ r)) r,
                     [ev; EvFill false; EvConsume (endp_ r - p)])
          else Some (false, r, [ev; EvFill false])
      end
  end.

(** [row()]: the cells of the current row, decoded with the parser's
    own escape and quote characters. *)
Definition row_cells (r : t) : list CsvCell.t :=
  firstn (Z.to_nat (CsvCursor.count (row_ r)))
         (CsvCursor.cells (row_ r)).

Definition decoded_row (r : t) : list (list byte) :=
  map (CsvCell.as_str (escapechar_ r) (quotechar_ r)
                      (storage (stream_ r)))
      (row_cells r).

End WithStream.

Arguments t C : clear implicits.
Arguments event C : clear implicits.

End CsvReader.

(** ** Rows, byte by byte *)

(** The state machine of the row parser as the specification tabulates
    it, written for one byte at a time: the states [NewlineSkip],
    [CellStart], [InQuoted], [AfterQuote] and [InUnquoted], the last one
    standing for the table's AfterUnquotedBreak as well, which looks at the
    byte the bulk scan stopped at.  A bulk scan is the passing over bytes
    that leave the state unchanged.  As in the source, a delimiter where a
    cell starts is found by the unquoted scan, and a zero byte is never a
    byte a scan stops at. *)
Module RowSpec.

Inductive state : Type :=
| NewlineSkip
| CellStart
| InQuoted
| AfterQuote
| InUnquoted.

(** What a byte does: move to a state, close the cell, or close the cell
    and the row. *)
Inductive action : Type :=
| Goto (st : state)
| EndCell
| EndRow.

Section Dialect.
Variables delimiter quotechar escapechar : byte.
Variable yield_incomplete_row : bool.

(** The byte after a closing quote, or the byte an unquoted scan stopped
    at. *)
Definition after_break (b : byte) (otherwise : state) : action :=
  if b =? delimiter then EndCell
  else if is_newline b then EndRow
  else Goto otherwise.

Definition in_unquoted (b : byte) : action :=
  if targets delimiter 13 10 escapechar b then after_break b InUnquoted
  else Goto InUnquoted.

Definition at_cell_start (b : byte) : action :=
  if is_newline b then EndRow
  else if b =? quotechar then Goto InQuoted
  else in_unquoted b.

Definition on_byte (st : state) (b : byte) : action :=
  match st with
  | NewlineSkip => if is_newline b then Goto NewlineSkip else at_cell_start b
  | CellStart => at_cell_start b
  | InQuoted =>
      if targets quotechar escapechar 0 0 b then Goto AfterQuote
      else Goto InQuoted
  | AfterQuote => after_break b InQuoted
  | InUnquoted => in_unquoted b
  end.

(** The rows [read_row()] finds in an input: one for every line
    terminator that closes a row, that is, every [EndRow]; a line
    terminator inside a quoted cell or among the leading ones of a row is
    none.  With [yield_incomplete_row], one more when the input ends in a
    row of which a cell has been closed: this is the test of [row_.count]
    that [read_row()] makes. *)
Fixpoint rows (st : state) (have_cell : bool) (l : list byte) : nat :=
  match l with
  | [] => if yield_incomplete_row && have_cell then 1%nat else 0%nat
  | b :: t =>
      match on_byte st b with
      | Goto st' => rows st' have_cell t
      | EndCell => rows CellStart true t
      | EndRow => S (rows NewlineSkip false t)
      end
  end.

Definition expected_rows (l : list byte) : nat := rows NewlineSkip false l.

(** The rows as the specification counts them: one for every line
    terminator that closes a row and, with [yield_incomplete_row], one
    more when a partial trailing row exists, that is, when the input ends
    anywhere but at the start of a row. *)
Definition at_row_start (st : state) : bool :=
  match st with NewlineSkip => true | _ => false end.

Fixpoint stated_rows_from (st : state) (l : list byte) : nat :=
  match l with
  | [] =>
      if yield_incomplete_row && negb (at_row_start st) then 1%nat else 0%nat
  | b :: t =>
      match on_byte st b with
      | Goto st' => stated_rows_from st' t
      | EndCell => stated_rows_from CellStart t
      | EndRow => S (stated_rows_from NewlineSkip t)
      end
  end.

Definition stated_rows (l : list byte) : nat :=
  stated_rows_from NewlineSkip l.

(** The input ends inside the first cell of a row: a partial trailing
    row exists and none of its cells has been closed by a delimiter. *)
Fixpoint ends_in_first_cell_from (st : state) (have_cell : bool)
         (l : list byte) : bool :=
  match l with
  | [] => negb (at_row_start st) && negb have_cell
  | b :: t =>
      match on_byte st b with
      | Goto st' => ends_in_first_cell_from st' have_cell t
      | EndCell => ends_in_first_cell_from CellStart true t
      | EndRow => ends_in_first_cell_from NewlineSkip false t
      end
  end.

Definition ends_in_first_cell (l : list byte) : bool :=
  ends_in_first_cell_from NewlineSkip false l.

(** One row: what [try_parse] is to return on the bytes [l], read from
    position [pos] on in state [st] with [k] cells closed and room for
    [cap] cells; with the count it leaves and, for a row, the position
    after its line terminator. *)
Fixpoint expect (cap : Z) (st : state) (k pos : Z) (l : list byte)
  : CsmTryParseReturnType * Z * Z :=
  match l with
  | [] => (kCsmTryParseUnderrun, k, 0)
  | b :: t =>
      match on_byte st b with
      | Goto st' => expect cap st' k (pos + 1) t
      | EndCell =>
          if k + 1 =? cap then (kCsmTryParseOverflow, k + 1, 0)
          else expect cap CellStart (k + 1) (pos + 1) t
      | EndRow => (kCsmTryParseOkay, k + 1, pos + 1)
      end
  end.

End Dialect.

End RowSpec.

(** ** Rows, as they are written *)

(** The text of a row as a CSV writer lays it out, the reference for
    what the parser reads back: fields separated by the delimiter and
    closed by one line terminator; a field is written as it is, or between
    quote characters with every byte that [CsvCell::as_str] takes for a
    quote or escape character written twice. *)
Module RowText.

Inductive field : Type :=
| Plain (t : list byte)
| Quoted (t : list byte).

Definition text (f : field) : list byte :=
  match f with Plain t | Quoted t => t end.

Section Dialect.
Variables delimiter quotechar escapechar : byte.

Fixpoint double (t : list byte) : list byte :=
  match t with
  | [] => []
  | b :: t' =>
      if CsvCell.is_escape escapechar quotechar b
      then b :: b :: double t'
      else b :: double t'
  end.

Definition written (f : field) : list byte :=
  match f with
  | Plain t => t
  | Quoted t => quotechar :: double t ++ [quotechar]
  end.

Fixpoint write_fields (fs : list field) : list byte :=
  match fs with
  | [] => []
  | f :: fs' =>
      match fs' with
      | [] => written f
      | _ :: _ => written f ++ delimiter :: write_fields fs'
      end
  end.

Definition write_row (fs : list field) (terminator : byte) : list byte :=
  write_fields fs ++ [terminator].

(** Rows one after the other, each closed by the same end of line, one
    line terminator or several. *)
Definition write_lines (eol : list byte) (rows : list (list field))
  : list byte :=
  concat (map (fun fs => write_fields fs ++ eol) rows).

(** A field that can be written without quotes: it holds no delimiter,
    line terminator or escape character, and does not start with the
    quote character. *)
Definition plain (t : list byte) : Prop :=
  (forall b, In b t -> targets delimiter 13 10 escapechar b = false)
  /\ match t with b :: _ => b <> quotechar | [] => True end.

Definition valid (f : field) : Prop :=
  match f with Plain t => plain t | Quoted _ => True end.

(** A dialect a writer can use: the delimiter and the quote character
    are two non-zero bytes, and neither they nor the escape character, if
    there is one, are line terminators; the escape character is not the
    delimiter. *)
Definition sane : Prop :=
  delimiter <> 0 /\ quotechar <> 0 /\ quotechar <> delimiter
  /\ is_newline delimiter = false /\ is_newline quotechar = false
  /\ (escapechar <> 0 ->
      escapechar <> delimiter /\ is_newline escapechar = false).

End Dialect.

End RowText.

(** * Properties *)

(** ** Lists and memory *)

Lemma length_list_set {A} (l : list A) n v :
  length (list_set l n v) = length l.
Proof.
  revert n; induction l as [|h t IH]; intros [|n]; simpl; auto.
Qed.

Lemma nth_list_set {A} (l : list A) n m v d :
  nth n (list_set l m v) d =
  if (n =? m)%nat && (m <? length l)%nat then v else nth n l d.
Proof.
  revert n m; induction l as [|h t IH]; intros n m.
  - simpl. rewrite andb_false_r. destruct n; reflexivity.
  - destruct m as [|m], n as [|n]; simpl; try reflexivity.
    rewrite IH. reflexivity.
Qed.

Lemma nth_firstn_lt {A} (l : list A) n i d :
  (i < n)%nat -> nth i (firstn n l) d = nth i l d.
Proof.
  intros Hi. rewrite nth_firstn.
  destruct (Nat.ltb_spec i n); [reflexivity | lia].
Qed.

Lemma peek_nonneg s i : 0 <= i -> peek s i = nth (Z.to_nat i) s 0.
Proof.
  intros Hi. unfold peek. destruct (Z.ltb_spec i 0); [lia | reflexivity].
Qed.

Lemma peek_window s p k :
  0 <= k < 16 -> peek (window s p) k = peek s (p + k).
Proof.
  intros Hk. rewrite (peek_nonneg _ k (proj1 Hk)). unfold window.
  assert (Hlt : (Z.to_nat k < 16)%nat) by lia.
  rewrite (nth_indep _ 0 (peek s (p + Z.of_nat 0)))
    by (rewrite length_map, length_seq; exact Hlt).
  rewrite (map_nth (fun j => peek s (p + Z.of_nat j))).
  rewrite seq_nth by exact Hlt. f_equal. lia.
Qed.

(** ** What a spanner stops at *)

Module SpannerFacts.

Import StringSpannerFallback.

Lemma store_some t i v t' :
  store t i v = Some t' ->
  0 <= i < 256 /\ t' = list_set t (Z.to_nat i) v.
Proof.
  unfold store. destruct (Z.leb_spec 0 i), (Z.ltb_spec i 256); simpl;
    intros E; inversion E; split; auto; lia.
Qed.

Lemma unsigned_of_char_range c :
  0 <= unsigned_of_char c < 256 -> unsigned_of_char c = c /\ 0 <= c < 128.
Proof.
  unfold unsigned_of_char. destruct (Z.ltb_spec c 128); lia.
Qed.

(** The constructor is defined exactly for four ASCII bytes, and the
    table it builds is the characteristic function of [targets]. *)
Lemma new_some c1 c2 c3 c4 t :
  new c1 c2 c3 c4 = Some t ->
  (0 <= c1 < 128 /\ 0 <= c2 < 128 /\ 0 <= c3 < 128 /\ 0 <= c4 < 128)
  /\ forall b, negb (peek t b =? 0) = targets c1 c2 c3 c4 b.
Proof.
  unfold new, bind. intros E.
  destruct (store _ (unsigned_of_char c1) 1) as [t1|] eqn:E1; [|discriminate].
  destruct (store t1 (unsigned_of_char c2) 1) as [t2|] eqn:E2; [|discriminate].
  destruct (store t2 (unsigned_of_char c3) 1) as [t3|] eqn:E3; [|discriminate].
  destruct (store t3 (unsigned_of_char c4) 1) as [t4|] eqn:E4; [|discriminate].
  apply store_some in E1, E2, E3, E4, E.
  destruct E1 as [R1 ->], E2 as [R2 ->], E3 as [R3 ->], E4 as [R4 ->],
           E as [_ ->].
  apply unsigned_of_char_range in R1, R2, R3, R4.
  destruct R1 as [-> R1], R2 as [-> R2], R3 as [-> R3], R4 as [-> R4].
  split; [auto|]. intros b. unfold targets, peek.
  destruct (Z.ltb_spec b 0) as [Hb|Hb].
  { destruct (Z.eqb_spec b c1), (Z.eqb_spec b c2), (Z.eqb_spec b c3),
      (Z.eqb_spec b c4); lia. }
  rewrite !nth_list_set, !length_list_set, repeat_length, nth_repeat.
  change (Z.to_nat 0) with 0%nat.
  assert (L : forall c, 0 <= c < 128 -> (Z.to_nat c <? 256)%nat = true)
    by (intros c Hc; apply Nat.ltb_lt; lia).
  assert (Q : forall c, 0 <= c ->
                        (Z.to_nat b =? Z.to_nat c)%nat = (b =? c)).
  { intros c Hc. destruct (Z.eqb_spec b c) as [->|Hne];
      [apply Nat.eqb_refl | apply Nat.eqb_neq; lia]. }
  rewrite (L c1 R1), (L c2 R2), (L c3 R3), (L c4 R4).
  change 0%nat with (Z.to_nat 0).
  rewrite (Q 0), (Q c1), (Q c2), (Q c3), (Q c4) by lia.
  destruct (b =? 0); [reflexivity|].
  destruct (b =? c4), (b =? c3), (b =? c2), (b =? c1); reflexivity.
Qed.

(** The fallback loop returns the first offset whose byte is marked in
    the table, or 16. *)
Lemma call_first_hit t w :
  let k := StringSpannerFallback.call t w in
  0 <= k <= 16
  /\ (k < 16 -> hit t w k = true)
  /\ (forall j, 0 <= j < k -> hit t w j = false).
Proof.
  unfold StringSpannerFallback.call. cbn -[hit].
  repeat match goal with
         | |- context [if hit ?a ?b ?i then _ else _] =>
             destruct (hit a b i) eqn:?
         end;
    (split; [lia|]; split; [intros; first [assumption | lia]|]);
    intros j Hj;
    repeat match goal with
           | H : hit _ _ ?i = false |- _ =>
               destruct (Z.eq_dec j i); [subst; exact H|]; clear H
           end;
    lia.
Qed.

Import StringSpannerSse42.

Lemma valid_nth v i :
  (i < length (valid v))%nat ->
  nth i (valid v) 0 = nth i v 0 /\ nth i v 0 <> 0.
Proof.
  unfold valid. revert i. induction v as [|c t IH]; intros i; simpl.
  - intros Hi; inversion Hi.
  - destruct (Z.eqb_spec c 0) as [->|Hc]; simpl.
    + intros Hi; inversion Hi.
    + destruct i as [|i]; [auto|]. intros Hi. apply IH. lia.
Qed.

Lemma valid_reaches v j :
  (forall i, (i <= j)%nat -> nth i v 0 <> 0) -> (j < length (valid v))%nat.
Proof.
  unfold valid. revert j. induction v as [|c t IH]; intros j Hnz.
  - exfalso. apply (Hnz j (Nat.le_refl j)). destruct j; reflexivity.
  - simpl. destruct (Z.eqb_spec c 0) as [->|Hc].
    + exfalso. apply (Hnz 0%nat); [lia | reflexivity].
    + simpl. destruct j as [|j]; [lia|].
      apply (fun H => proj1 (Nat.succ_lt_mono _ _) (IH j H)).
      intros i Hi. apply (Hnz (S i)). lia.
Qed.

Lemma valid_in v x : In x (valid v) -> x <> 0 /\ In x v.
Proof.
  intros Hin. destruct (In_nth _ _ 0 Hin) as (i & Hi & <-).
  destruct (valid_nth v i Hi) as [-> Hnz]. split; [exact Hnz|].
  apply nth_In. unfold valid in Hi. rewrite length_firstn in Hi. lia.
Qed.

Lemma first_selected_spec set b j0 :
  j0 + len b <= 16 ->
  let k := first_selected set b j0 in
  (k = 16 \/ j0 <= k < j0 + len b)
  /\ (k <> 16 ->
      existsb (Z.eqb (nth (Z.to_nat (k - j0)) b 0)) set = true)
  /\ (forall j, j0 <= j < j0 + len b -> j < k ->
      existsb (Z.eqb (nth (Z.to_nat (j - j0)) b 0)) set = false).
Proof.
  revert j0. unfold len. induction b as [|c t IH]; intros j0 Hb.
  - simpl. split; [auto|]. split; intros; simpl in *; lia.
  - cbn [first_selected]. rewrite length_cons in *.
    destruct (existsb (Z.eqb c) set) eqn:Ec.
    + split; [right; lia|]. split; [|intros; lia].
      intros _. replace (j0 - j0) with 0 by lia. exact Ec.
    + destruct (IH (j0 + 1)) as (R & Hit & Miss); [lia|].
      split; [destruct R; [auto | right; lia]|]. split.
      * intros Hk. destruct R as [R|R]; [contradiction|].
        replace (Z.to_nat (first_selected set t (j0 + 1) - j0))
          with (S (Z.to_nat (first_selected set t (j0 + 1) - (j0 + 1))))
          by lia.
        apply Hit. exact Hk.
      * intros j Hj Hlt. destruct (Z.eq_dec j j0) as [->|Hne].
        { replace (j0 - j0) with 0 by lia. exact Ec. }
        replace (Z.to_nat (j - j0)) with (S (Z.to_nat (j - (j0 + 1))))
          by lia.
        apply Miss; lia.
Qed.

(** [_mm_cmpistri] returns the first valid lane of [b] that equals a
    valid lane of [a], or 16. *)
Lemma mm_cmpistri_spec a b :
  let k := mm_cmpistri a b in
  0 <= k <= 16
  /\ (k < 16 -> peek b k <> 0 /\ In (peek b k) (valid (firstn 16 a)))
  /\ (forall j, 0 <= j < k ->
      (forall i, 0 <= i <= j -> peek b i <> 0) ->
      ~ In (peek b j) (valid (firstn 16 a))).
Proof.
  unfold mm_cmpistri. set (va := valid (firstn 16 a)).
  set (vb := valid (firstn 16 b)).
  assert (Hlen : 0 + len vb <= 16).
  { unfold len, vb, valid. rewrite !length_firstn. lia. }
  destruct (first_selected_spec va vb 0 Hlen) as (R & Hit & Miss).
  set (k := first_selected va vb 0) in *.
  assert (Hnth : forall i, 0 <= i < len vb ->
                           nth (Z.to_nat i) vb 0 = peek b i /\ peek b i <> 0).
  { intros i Hi. unfold len in Hi.
    destruct (valid_nth (firstn 16 b) (Z.to_nat i)) as [E Hnz];
      [fold vb; lia|].
    fold vb in E. rewrite (peek_nonneg b i) by lia.
    assert (E16 : nth (Z.to_nat i) (firstn 16 b) 0 = nth (Z.to_nat i) b 0).
    { apply nth_firstn_lt. unfold vb, valid in Hi.
      rewrite !length_firstn in Hi. lia. }
    rewrite E16 in E, Hnz. auto. }
  split; [lia|]. split.
  - intros Hk. destruct R as [R|R]; [lia|].
    destruct (Hnth k) as [E Hnz]; [lia|]. split; [exact Hnz|].
    assert (Hk' : k <> 16) by lia. specialize (Hit Hk').
    replace (k - 0) with k in Hit by lia. rewrite E in Hit.
    apply existsb_exists in Hit. destruct Hit as (x & Hx & Ex).
    apply Z.eqb_eq in Ex. subst x. exact Hx.
  - intros j Hj Hnz Hin.
    assert (Hjv : (Z.to_nat j < length vb)%nat).
    { apply valid_reaches. intros i Hi.
      rewrite nth_firstn_lt by lia.
      specialize (Hnz (Z.of_nat i)). rewrite peek_nonneg in Hnz by lia.
      rewrite Nat2Z.id in Hnz. apply Hnz. lia. }
    unfold len in *. specialize (Miss j). replace (j - 0) with j in Miss by lia.
    destruct (Hnth j) as [E _]; [unfold len; lia|]. rewrite E in Miss.
    assert (Hm : existsb (Z.eqb (peek b j)) va = false)
      by (apply Miss; lia).
    assert (Ht : existsb (Z.eqb (peek b j)) va = true).
    { apply existsb_exists. exists (peek b j). split; [exact Hin|].
      apply Z.eqb_refl. }
    congruence.
Qed.

End SpannerFacts.

Module SpannerSpec.

Import SpannerFacts.

Lemma targets_true c1 c2 c3 c4 b :
  targets c1 c2 c3 c4 b = true <->
  b <> 0 /\ (b = c1 \/ b = c2 \/ b = c3 \/ b = c4).
Proof.
  unfold targets.
  destruct (Z.eqb_spec b 0), (Z.eqb_spec b c1), (Z.eqb_spec b c2),
    (Z.eqb_spec b c3), (Z.eqb_spec b c4); simpl; intuition congruence.
Qed.

(** The needle of the vector spanner holds the targets up to the first
    zero among them. *)
Lemma sse42_needle c1 c2 c3 c4 x :
  In x (StringSpannerSse42.valid
          (firstn 16 (StringSpannerSse42.new c1 c2 c3 c4))) ->
  targets c1 c2 c3 c4 x = true.
Proof.
  intros Hin. apply valid_in in Hin. destruct Hin as [Hnz Hin].
  apply targets_true. split; [exact Hnz|].
  simpl in Hin. intuition congruence.
Qed.

(** Zero is used as padding only: no target follows a zero. *)
Definition padded (c1 c2 c3 c4 : byte) : Prop :=
  (c1 = 0 -> c2 = 0) /\ (c2 = 0 -> c3 = 0) /\ (c3 = 0 -> c4 = 0).

Lemma sse42_needle_padded c1 c2 c3 c4 x :
  padded c1 c2 c3 c4 ->
  targets c1 c2 c3 c4 x = true ->
  In x (StringSpannerSse42.valid
          (firstn 16 (StringSpannerSse42.new c1 c2 c3 c4))).
Proof.
  intros (P1 & P2 & P3) Ht. apply targets_true in Ht.
  destruct Ht as [Hnz Hx].
  unfold StringSpannerSse42.valid, StringSpannerSse42.new. simpl.
  destruct (Z.eqb_spec c1 0) as [E1|N1]; [intuition congruence|].
  destruct (Z.eqb_spec c2 0) as [E2|N2];
    [simpl; specialize (P2 E2); specialize (P3 P2); intuition congruence|].
  destruct (Z.eqb_spec c3 0) as [E3|N3];
    [simpl; specialize (P3 E3); intuition congruence|].
  destruct (Z.eqb_spec c4 0) as [E4|N4]; simpl; intuition congruence.
Qed.

(** Every spanner stops only at a target, and never at a zero byte. *)
Lemma call_sound sse c1 c2 c3 c4 sp w :
  Spanner.new sse c1 c2 c3 c4 = Some sp ->
  0 <= Spanner.call sp w <= 16
  /\ (Spanner.call sp w < 16 ->
      targets c1 c2 c3 c4 (peek w (Spanner.call sp w)) = true).
Proof.
  unfold Spanner.new. destruct sse.
  - intros E; inversion E; subst sp; clear E. simpl.
    unfold StringSpannerSse42.call.
    destruct (mm_cmpistri_spec (StringSpannerSse42.new c1 c2 c3 c4) w)
      as (R & Hit & _).
    split; [exact R|]. intros Hk. apply sse42_needle. apply Hit, Hk.
  - destruct (StringSpannerFallback.new c1 c2 c3 c4) as [t|] eqn:En;
      [|discriminate].
    intros E; inversion E; subst sp; clear E. simpl.
    destruct (call_first_hit t w) as (R & Hit & _).
    split; [exact R|]. intros Hk.
    destruct (new_some _ _ _ _ _ En) as [_ Ht]. rewrite <- Ht.
    apply Hit, Hk.
Qed.

(** The scalar spanner skips no target. *)
Lemma fallback_exact c1 c2 c3 c4 sp w j :
  Spanner.new false c1 c2 c3 c4 = Some sp ->
  0 <= j < Spanner.call sp w ->
  targets c1 c2 c3 c4 (peek w j) = false.
Proof.
  unfold Spanner.new.
  destruct (StringSpannerFallback.new c1 c2 c3 c4) as [t|] eqn:En;
    [|discriminate].
  intros E; inversion E; subst sp; clear E. simpl. intros Hj.
  destruct (call_first_hit t w) as (_ & _ & Miss).
  destruct (new_some _ _ _ _ _ En) as [_ Ht]. rewrite <- Ht.
  apply Miss, Hj.
Qed.

(** The vector spanner skips no target either, as long as no zero byte
    comes first and the targets are zero-padded. *)
Lemma sse42_exact c1 c2 c3 c4 sp w j :
  padded c1 c2 c3 c4 ->
  Spanner.new true c1 c2 c3 c4 = Some sp ->
  0 <= j < Spanner.call sp w ->
  (forall i, 0 <= i <= j -> peek w i <> 0) ->
  targets c1 c2 c3 c4 (peek w j) = false.
Proof.
  intros Hp E Hj Hnz. inversion E; subst sp; clear E.
  simpl in Hj. unfold StringSpannerSse42.call in Hj.
  destruct (mm_cmpistri_spec (StringSpannerSse42.new c1 c2 c3 c4) w)
    as (_ & _ & Miss).
  destruct (targets c1 c2 c3 c4 (peek w j)) eqn:Ht; [|reflexivity].
  exfalso. apply (Miss j Hj Hnz). apply sse42_needle_padded; assumption.
Qed.

(** On windows without a zero byte, and for zero-padded ASCII targets,
    the two spanners return the same offset. *)
Lemma spanners_agree c1 c2 c3 c4 fb ve w :
  padded c1 c2 c3 c4 ->
  Spanner.new false c1 c2 c3 c4 = Some fb ->
  Spanner.new true c1 c2 c3 c4 = Some ve ->
  (forall i, 0 <= i < 16 -> peek w i <> 0) ->
  Spanner.call fb w = Spanner.call ve w.
Proof.
  intros Hp Ef Ev Hnz.
  destruct (call_sound false c1 c2 c3 c4 fb w Ef) as [Rf Hf].
  destruct (call_sound true c1 c2 c3 c4 ve w Ev) as [Rv Hv].
  destruct (Z.lt_trichotomy (Spanner.call fb w) (Spanner.call ve w))
    as [Hlt|[Heq|Hgt]]; [|exact Heq|].
  - assert (Hk : Spanner.call fb w < 16) by lia. specialize (Hf Hk).
    rewrite (sse42_exact c1 c2 c3 c4 ve w (Spanner.call fb w) Hp Ev) in Hf;
      [discriminate | lia |].
    intros i Hi. apply Hnz. lia.
  - assert (Hk : Spanner.call ve w < 16) by lia. specialize (Hv Hk).
    rewrite (fallback_exact c1 c2 c3 c4 fb w (Spanner.call ve w) Ef) in Hv;
      [discriminate | lia].
Qed.

End SpannerSpec.

(** ** Decoding a cell *)

Module CellFacts.

Import CsvCell.

(** [as_str] on an escaped cell, as a function of the raw bytes: an
    escape byte is dropped and the byte after it is kept as it is; after
    a final escape byte the string's terminating NUL is kept. *)
Fixpoint unescape (escapechar quotechar : byte) (s : list byte)
  : list byte :=
  match s with
  | [] => []
  | c :: t =>
      if is_escape escapechar quotechar c then
        match t with
        | [] => [0]
        | d :: t' => d :: unescape escapechar quotechar t'
        end
      else c :: unescape escapechar quotechar t
  end.

Lemma skipn_cons_nth (l : list Z) i c t :
  skipn i l = c :: t ->
  nth i l 0 = c /\ skipn (S i) l = t /\ (i < length l)%nat.
Proof.
  revert i. induction l as [|h l IH]; intros i E.
  - rewrite skipn_nil in E. discriminate.
  - destruct i as [|i]; simpl in *.
    + inversion E. auto with arith.
    + destruct (IH i E) as (A & B & D). auto with arith.
Qed.

Lemma skipn_list_set {A} (l : list A) o k v :
  (o < k)%nat -> skipn k (list_set l o v) = skipn k l.
Proof.
  revert o k. induction l as [|h l IH]; intros o k Hlt.
  - destruct o; reflexivity.
  - destruct k as [|k]; [lia|]. destruct o as [|o]; simpl; [reflexivity|].
    apply IH. lia.
Qed.

Lemma firstn_list_set_snoc {A} (l : list A) o v :
  (o < length l)%nat -> firstn (S o) (list_set l o v) = firstn o l ++ [v].
Proof.
  revert o. induction l as [|h l IH]; intros o Hlt; simpl in Hlt; [lia|].
  destruct o as [|o]; [reflexivity|].
  cbn [list_set]. rewrite !firstn_cons. cbn [app]. f_equal. apply IH. lia.
Qed.

Lemma as_str_loop_exit n e q s o i :
  len s <= i -> as_str_loop n e q s o i = (s, o).
Proof.
  intros Hi. destruct n; simpl; [reflexivity|].
  destruct (Z.ltb_spec i (len s)); [lia | reflexivity].
Qed.

(** The in-place loop computes [unescape] of what it has yet to read. *)
Lemma as_str_loop_unescape e q n :
  forall s o i rest,
    0 <= o <= i ->
    skipn (Z.to_nat i) s = rest ->
    (length rest <= n)%nat ->
    firstn (Z.to_nat (snd (as_str_loop n e q s o i)))
           (fst (as_str_loop n e q s o i))
    = firstn (Z.to_nat o) s ++ unescape e q rest.
Proof.
  induction n as [|n IH]; intros s o i rest Ho Hs Hn.
  - destruct rest; [|simpl in Hn; lia]. simpl. rewrite app_nil_r.
    reflexivity.
  - destruct rest as [|c t].
    { rewrite as_str_loop_exit.
      - simpl. rewrite app_nil_r. reflexivity.
      - apply skipn_all_iff in Hs. unfold len. lia. }
    destruct (skipn_cons_nth _ _ _ _ Hs) as (Hc & Ht & Hlt).
    cbn [as_str_loop].
    destruct (Z.ltb_spec i (len s)) as [_|Hge]; [|unfold len in Hge; lia].
    rewrite (peek_nonneg s i) by lia. rewrite Hc.
    cbn [unescape]. destruct (is_escape e q c).
    + rewrite (peek_nonneg s (i + 1)) by lia.
      replace (Z.to_nat (i + 1)) with (S (Z.to_nat i)) by lia.
      destruct t as [|d t'].
      * rewrite as_str_loop_exit.
        2:{ unfold len. rewrite length_list_set.
            apply skipn_all_iff in Ht. lia. }
        cbn [fst snd]. replace (Z.to_nat (o + 1)) with (S (Z.to_nat o)) by lia.
        rewrite firstn_list_set_snoc by lia.
        rewrite nth_overflow; [reflexivity|].
        apply skipn_all_iff in Ht. lia.
      * destruct (skipn_cons_nth _ _ _ _ Ht) as (Hd & Ht' & Hlt').
        rewrite Hd.
        rewrite (IH _ (o + 1) (i + 1 + 1) t').
        -- replace (Z.to_nat (o + 1)) with (S (Z.to_nat o)) by lia.
           rewrite firstn_list_set_snoc by lia.
           rewrite <- app_assoc. reflexivity.
        -- lia.
        -- replace (Z.to_nat (i + 1 + 1)) with (S (S (Z.to_nat i))) by lia.
           rewrite skipn_list_set by lia. exact Ht'.
        -- simpl in Hn. lia.
    + rewrite (peek_nonneg s i) by lia. rewrite Hc.
      rewrite (IH _ (o + 1) (i + 1) t).
      * replace (Z.to_nat (o + 1)) with (S (Z.to_nat o)) by lia.
        rewrite firstn_list_set_snoc by lia.
        rewrite <- app_assoc. reflexivity.
      * lia.
      * replace (Z.to_nat (i + 1)) with (S (Z.to_nat i)) by lia.
        rewrite skipn_list_set by lia. exact Ht.
      * simpl in Hn. lia.
Qed.

Lemma as_str_unescape e q m c :
  as_str e q m c = if escaped c then unescape e q (raw m c) else raw m c.
Proof.
  unfold as_str. destruct (escaped c); [|reflexivity].
  pose proof (as_str_loop_unescape e q (length (raw m c)) (raw m c) 0 0
                (raw m c)) as L.
  destruct (as_str_loop (length (raw m c)) e q (raw m c) 0 0) as [s o].
  apply L; [lia | reflexivity | lia].
Qed.

(** Decoding never lengthens a string. *)
Lemma length_unescape e q n :
  forall s, (length s <= n)%nat ->
    (length (unescape e q s) <= length s)%nat.
Proof.
  induction n as [|n IH]; intros s Hn.
  - destruct s; [|simpl in Hn; lia]. simpl. lia.
  - destruct s as [|c t]; [simpl; lia|].
    cbn [unescape]. destruct (is_escape e q c).
    + destruct t as [|d t']; [simpl; lia|].
      specialize (IH t'). simpl in *. lia.
    + specialize (IH t). simpl in *. lia.
Qed.

(** A string that decoding leaves as it is holds no escape byte, a zero
    byte excepted (which a zero [quotechar] makes an escape byte). *)
Lemma unescape_fixed e q s :
  unescape e q s = s ->
  forall b, In b s -> is_escape e q b = true -> b = 0.
Proof.
  induction s as [|c t IH]; intros E b Hin Hb; [destruct Hin|].
  cbn [unescape] in E. destruct (is_escape e q c) eqn:Ec.
  - destruct t as [|d t'].
    + inversion E. destruct Hin as [<-|[]]. congruence.
    + exfalso. inversion E as [[Ed Et]].
      pose proof (length_unescape e q (length t') t' (Nat.le_refl _)) as L.
      rewrite Et in L. simpl in L. lia.
  - inversion E as [Et]. destruct Hin as [<-|Hin]; [congruence|].
    apply (IH Et b Hin Hb).
Qed.

End CellFacts.

(** ** Invariants of [try_parse] *)

Module ParseFacts.

Import TryParse SpannerFacts SpannerSpec.

(** [cells[i]]. *)
Definition cell_at (l : list CsvCell.t) (i : Z) : CsvCell.t :=
  nth (Z.to_nat i) l CsvCell.zero.

Lemma len_list_set {A} (l : list A) n v : len (list_set l n v) = len l.
Proof. unfold len. rewrite length_list_set. reflexivity. Qed.

Lemma cell_at_set_eq l j v :
  0 <= j < len l -> cell_at (list_set l (Z.to_nat j) v) j = v.
Proof.
  intros Hj. unfold cell_at, len in *. rewrite nth_list_set.
  rewrite Nat.eqb_refl.
  destruct (Nat.ltb_spec (Z.to_nat j) (length l)); [reflexivity | lia].
Qed.

Lemma cell_at_set_ne l i j v :
  0 <= i -> 0 <= j -> i <> j ->
  cell_at (list_set l (Z.to_nat j) v) i = cell_at l i.
Proof.
  intros Hi Hj Hne. unfold cell_at. rewrite nth_list_set.
  destruct (Nat.eqb_spec (Z.to_nat i) (Z.to_nat j)); [lia | reflexivity].
Qed.

(** A spanner that stops only at the targets [c1 .. c4]. *)
Definition stops_at (sp : StringSpanner) (c1 c2 c3 c4 : byte) : Prop :=
  forall w,
    0 <= Spanner.call sp w <= 16
    /\ (Spanner.call sp w < 16 ->
        targets c1 c2 c3 c4 (peek w (Spanner.call sp w)) = true).

Lemma new_stops_at sse c1 c2 c3 c4 sp :
  Spanner.new sse c1 c2 c3 c4 = Some sp -> stops_at sp c1 c2 c3 c4.
Proof. intros E w. exact (call_sound sse c1 c2 c3 c4 sp w E). Qed.

Lemma call_range sp w : 0 <= Spanner.call sp w <= 16.
Proof.
  destruct sp as [t|v]; simpl.
  - apply (call_first_hit t w).
  - apply (mm_cmpistri_spec v w).
Qed.

(** *** Termination *)

Section Termination.
Variable s : list byte.
Variable endp_ : Z.
Variables delimiter_ quotechar_ : byte.
Variables qsp usp : StringSpanner.

Local Abbreviation step := (step s endp_ delimiter_ quotechar_ qsp usp).
Local Abbreviation run := (run s endp_ delimiter_ quotechar_ qsp usp).

(** Labels that can be passed without advancing [p] come in the order
    [newline_skip], [cell_start], [in_unquoted_cell],
    [in_escape_or_end_of_unquoted_cell]. *)
Definition rank (l : label) : Z :=
  match l with
  | newline_skip => 3
  | cell_start => 2
  | in_quoted_cell | in_unquoted_cell => 1
  | in_escape_or_end_of_quoted_cell
  | in_escape_or_end_of_unquoted_cell => 0
  end.

Definition measure (f : frame) : Z :=
  4 * Z.max 0 (endp_ - p f) + rank (pc f).

Lemma step_decreases f f' :
  step f = inl f' -> 0 <= measure f' < measure f.
Proof.
  destruct f as [l p st c cs n nls p_]. unfold TryParse.step.
  pose proof (call_range qsp (window s p)) as Rq.
  pose proof (call_range usp (window s p)) as Ru.
  destruct l;
    cbn [pc TryParse.p goto set_p set_start set_cell set_cells
         set_count set_in_newline_skip set_p_ on_cell];
    (destruct (Z.leb_spec endp_ p); [discriminate|]);
    repeat match goal with
           | |- context [if ?b then _ else _] => destruct b
           end;
    intros E; inversion E; subst f'; unfold measure;
    cbn [pc TryParse.p rank goto set_p set_start set_cell set_cells
         set_count set_in_newline_skip set_p_ on_cell]; lia.
Qed.

Lemma run_enough n :
  forall f, measure f < Z.of_nat n -> exists r, run n f = Some r.
Proof.
  induction n as [|n IH]; intros f Hm.
  - exfalso. unfold measure in Hm.
    destruct (pc f); cbn [rank] in Hm; lia.
  - simpl. destruct (step f) as [f'|r] eqn:Es; [|eauto].
    apply IH. pose proof (step_decreases f f' Es). lia.
Qed.

Lemma run_total f : exists r, run (steps endp_ f) f = Some r.
Proof.
  apply run_enough. unfold measure, steps.
  destruct (pc f); cbn [rank]; lia.
Qed.

Lemma run_more n m f r :
  run n f = Some r -> (n <= m)%nat -> run m f = Some r.
Proof.
  revert m f. induction n as [|n IH]; intros m f Hr Hle; [discriminate|].
  destruct m as [|m]; [lia|]. simpl in *.
  destruct (step f); [apply IH; [exact Hr | lia] | exact Hr].
Qed.

(** Any run that returns gives what the run of [try_parse] gives. *)
Lemma run_steps n f r :
  run n f = Some r -> run (steps endp_ f) f = Some r.
Proof.
  intros Hr. destruct (run_total f) as [r' Hr'].
  destruct (Nat.le_ge_cases n (steps endp_ f)) as [Hle|Hge].
  - apply (run_more _ _ _ _ Hr Hle).
  - rewrite (run_more _ _ _ _ Hr' Hge) in Hr. congruence.
Qed.

End Termination.

(** *** Independence from the old contents of the cell vector *)

Section Erasure.
Variable s : list byte.
Variable endp_ : Z.
Variables delimiter_ quotechar_ : byte.
Variables qsp usp : StringSpanner.

Local Abbreviation step := (step s endp_ delimiter_ quotechar_ qsp usp).
Local Abbreviation run := (run s endp_ delimiter_ quotechar_ qsp usp).

(** Two frames that differ at most in what the cells hold and in the
    flag [in_newline_skip], neither of which [try_parse] reads. *)
Definition alike (f g : frame) : Prop :=
  pc f = pc g /\ p f = p g /\ start f = start g /\ cell f = cell g
  /\ count f = count g /\ p_ f = p_ g /\ len (cells f) = len (cells g).

Lemma step_alike f g :
  alike f g ->
  match step f, step g with
  | inl f', inl g' => alike f' g'
  | inr (rc, f'), inr (rc', g') => rc = rc' /\ alike f' g'
  | _, _ => False
  end.
Proof.
  destruct f as [l p st c cs n nls p_0], g as [l' p' st' c' cs' n' nls' p_1].
  unfold alike. cbn [pc TryParse.p start cell count TryParse.p_ cells].
  intros (<- & <- & <- & <- & <- & <- & Hlen).
  unfold TryParse.step.
  destruct l;
    cbn [pc TryParse.p start cell count TryParse.p_ cells goto set_p
         set_start set_cell set_cells set_count set_in_newline_skip
         set_p_ on_cell];
    rewrite ?len_list_set; rewrite <- ?Hlen;
    repeat match goal with
           | |- context [if ?b then _ else _] => destruct b
           end;
    cbn [pc TryParse.p start cell count TryParse.p_ cells goto set_p
         set_start set_cell set_cells set_count set_in_newline_skip
         set_p_ on_cell];
    rewrite ?len_list_set; auto 10.
Qed.

Lemma run_alike n :
  forall f g,
    alike f g ->
    match run n f, run n g with
    | Some (rc, f'), Some (rc', g') => rc = rc' /\ alike f' g'
    | None, None => True
    | _, _ => False
    end.
Proof.
  induction n as [|n IH]; intros f g Hfg; [exact I|].
  cbn [TryParse.run]. pose proof (step_alike f g Hfg) as Hs.
  destruct (step f) as [f'|[rc f']], (step g) as [g'|[rc' g']];
    try contradiction; [apply IH, Hs | exact Hs].
Qed.

(** No step changes the capacity of the cell vector. *)
Lemma step_len f :
  match step f with
  | inl f' | inr (_, f') => len (cells f') = len (cells f)
  end.
Proof.
  destruct f as [l p st c cs n nls p_0]. unfold TryParse.step.
  destruct l;
    cbn [pc TryParse.p start cell count TryParse.p_ cells goto set_p
         set_start set_cell set_cells set_count set_in_newline_skip
         set_p_ on_cell];
    repeat match goal with
           | |- context [if ?b then _ else _] => destruct b
           end;
    cbn [pc TryParse.p start cell count TryParse.p_ cells goto set_p
         set_start set_cell set_cells set_count set_in_newline_skip
         set_p_ on_cell];
    rewrite ?len_list_set; reflexivity.
Qed.

Lemma run_len n :
  forall f rc f', run n f = Some (rc, f') ->
                  len (cells f') = len (cells f).
Proof.
  induction n as [|n IH]; intros f rc f' Hr; [discriminate|].
  cbn [TryParse.run] in Hr. pose proof (step_len f) as Hs.
  destruct (step f) as [f1|[rc1 f1]].
  - rewrite (IH _ _ _ Hr). exact Hs.
  - inversion Hr; subst. exact Hs.
Qed.

End Erasure.

Section Invariant.
Variable s : list byte.
Variables endp_ p0 : Z.
Variables delimiter_ quotechar_ escapechar_ : byte.
Variables qsp usp : StringSpanner.
Hypothesis Hq : stops_at qsp quotechar_ escapechar_ 0 0.
Hypothesis Hu : stops_at usp delimiter_ 13 10 escapechar_.

Local Abbreviation step := (step s endp_ delimiter_ quotechar_ qsp usp).
Local Abbreviation run := (run s endp_ delimiter_ quotechar_ qsp usp).

(** A byte that [as_str] drops, and that is not zero. *)
Definition special (b : byte) : Prop :=
  CsvCell.is_escape escapechar_ quotechar_ b = true /\ b <> 0.

(** A cell closed by a delimiter or a line terminator: it lies in the
    part of the buffer the parse has passed, and when it is flagged
    as escaped one of its bytes is [special]. *)
Definition finished (c : CsvCell.t) : Prop :=
  exists a,
    CsvCell.ptr c = Some a /\ p0 <= a /\ 0 <= CsvCell.size c
    /\ a + CsvCell.size c < endp_
    /\ (CsvCell.escaped c = true ->
        exists q, a <= q < a + CsvCell.size c /\ special (peek s q)).

(** The empty last cell after a trailing delimiter. *)
Definition null (c : CsvCell.t) : Prop :=
  CsvCell.ptr c = None /\ CsvCell.size c = 0
  /\ CsvCell.escaped c = false.

(** The cell being scanned: if it is flagged, a [special] byte lies at
    least [d] bytes behind [p]. *)
Definition open_cell (f : frame) (d : Z) : Prop :=
  p0 <= start f
  /\ (CsvCell.escaped (cell_at (cells f) (cell f)) = true ->
      exists q, start f <= q /\ q + d <= p f /\ special (peek s q)).

Definition inv (f : frame) : Prop :=
  cell f = count f /\ 0 <= count f < len (cells f) /\ p0 <= p f
  /\ (forall i, 0 <= i < count f -> finished (cell_at (cells f) i))
  /\ match pc f with
     | newline_skip | cell_start => True
     | in_quoted_cell => start f <= p f /\ open_cell f 2
     | in_escape_or_end_of_quoted_cell =>
         start f + 1 <= p f /\ open_cell f 2 /\ special (peek s (p f - 1))
     | in_unquoted_cell => start f <= p f /\ open_cell f 1
     | in_escape_or_end_of_unquoted_cell =>
         start f <= p f /\ open_cell f 1
         /\ targets delimiter_ 13 10 escapechar_ (peek s (p f)) = true
     end.

Definition last_is_null (rc : CsmTryParseReturnType) (f : frame) : bool :=
  match rc, pc f with
  | kCsmTryParseOkay, cell_start => true
  | _, _ => false
  end.

Definition post (rc : CsmTryParseReturnType) (f : frame) : Prop :=
  0 <= count f <= len (cells f)
  /\ (rc = kCsmTryParseOkay -> 0 < count f /\ p0 < p_ f <= endp_)
  /\ (forall i, 0 <= i < count f - 1 -> finished (cell_at (cells f) i))
  /\ (0 < count f ->
      if last_is_null rc f then null (cell_at (cells f) (count f - 1))
      else finished (cell_at (cells f) (count f - 1))).

Lemma quoted_target b :
  targets quotechar_ escapechar_ 0 0 b = true -> special b.
Proof.
  intros Ht. apply targets_true in Ht. destruct Ht as [Hnz Hb].
  split; [|exact Hnz]. unfold CsvCell.is_escape.
  destruct (Z.eqb_spec b quotechar_); [apply orb_true_r|].
  destruct (Z.eqb_spec b escapechar_) as [<-|];
    [|exfalso; intuition congruence].
  destruct (Z.eqb_spec b 0); [contradiction | reflexivity].
Qed.

Lemma unquoted_target b :
  targets delimiter_ 13 10 escapechar_ b = true ->
  (b =? delimiter_) = false -> is_newline b = false -> special b.
Proof.
  intros Ht Hd Hn. apply targets_true in Ht. destruct Ht as [Hnz Hb].
  split; [|exact Hnz]. unfold CsvCell.is_escape, is_newline in *.
  destruct (Z.eqb_spec b delimiter_); [discriminate|].
  destruct (Z.eqb_spec b 13); [discriminate|].
  destruct (Z.eqb_spec b 10); [discriminate|].
  destruct (Z.eqb_spec b escapechar_) as [<-|];
    [|exfalso; intuition congruence].
  destruct (Z.eqb_spec b 0); [contradiction | reflexivity].
Qed.

Ltac fold_cell_at :=
  repeat match goal with
         | |- context [nth (Z.to_nat ?i) ?l CsvCell.zero] =>
             change (nth (Z.to_nat i) l CsvCell.zero) with (cell_at l i)
         end.

Lemma step_inv f :
  inv f ->
  match step f with
  | inl f' => inv f' /\ len (cells f') = len (cells f)
  | inr (rc, f') => post rc f' /\ len (cells f') = len (cells f)
  end.
Proof.
  destruct f as [l p st c cs n nls p_]. unfold inv, TryParse.step. simpl.
  intros (-> & Hn & Hp & Hdone & Hl).
  assert (Hpost : forall l' p' st' c' nls' p_',
             post kCsmTryParseUnderrun (mk l' p' st' c' cs n nls' p_')).
  { intros l' p' st' c' nls' p_'. unfold post. simpl.
    split; [lia|]. split; [discriminate|].
    split; intros; apply Hdone; lia. }
  destruct l; simpl.
  - (* newline_skip *)
    destruct (Z.leb_spec endp_ p).
    + split; [apply Hpost | reflexivity].
    + destruct (is_newline (peek s p)); simpl;
        (split; [|reflexivity]); repeat split; auto; lia.
  - (* cell_start *)
    destruct (Z.leb_spec endp_ p).
    + split; [apply Hpost | reflexivity].
    + unfold on_cell. simpl. fold_cell_at.
      destruct (is_newline (peek s p)) eqn:Enl; simpl.
      * fold_cell_at. rewrite !len_list_set. split; [|reflexivity].
        unfold post. simpl. rewrite !len_list_set.
        split; [lia|]. split; [lia|]. split.
        -- intros i Hi. rewrite !cell_at_set_ne by lia. apply Hdone. lia.
        -- intros _. replace (n + 1 - 1) with n by lia.
           rewrite !cell_at_set_eq by (rewrite ?len_list_set; lia).
           repeat split.
      * assert (Hopen : forall l' d p' st',
                   p0 <= st' ->
                   open_cell
                     (mk l' p' st' n
                         (list_set cs (Z.to_nat n)
                            (set_escaped false (cell_at cs n)))
                         n false p_) d).
        { intros l' d p' st' Hst. split; [exact Hst|]. simpl.
          rewrite cell_at_set_eq by lia. discriminate. }
        destruct (peek s p =? quotechar_); simpl; rewrite len_list_set;
          (split; [|reflexivity]);
          (split; [reflexivity|]); (split; [lia|]); (split; [lia|]);
          (split; [intros i Hi; rewrite cell_at_set_ne by lia;
                   apply Hdone; lia|]);
          (split; [lia|]); apply Hopen; simpl; lia.
  - (* in_quoted_cell *)
    destruct Hl as (Hst & Hop0 & Hop). simpl in Hop0, Hop.
    destruct (Z.leb_spec endp_ p).
    + split; [apply Hpost | reflexivity].
    + destruct (Hq (window s p)) as [R Hit].
      destruct (Z.eqb_spec (Spanner.call qsp (window s p)) 16) as [E|E];
        simpl; (split; [|reflexivity]);
        (split; [reflexivity|]); (split; [lia|]); (split; [lia|]);
        (split; [exact Hdone|]).
      * split; [lia|]. split; [exact Hop0|]. simpl. intros He.
        destruct (Hop He) as (q & Hq1 & Hq2 & Hq3). exists q.
        split; [exact Hq1|]. split; [lia | exact Hq3].
      * split; [lia|]. split.
        -- split; [exact Hop0|]. simpl. intros He.
           destruct (Hop He) as (q & Hq1 & Hq2 & Hq3). exists q.
           split; [exact Hq1|]. split; [lia | exact Hq3].
        -- replace (p + (Spanner.call qsp (window s p) + 1) - 1)
             with (p + Spanner.call qsp (window s p)) by lia.
           rewrite <- peek_window by lia.
           apply quoted_target, Hit. lia.
  - (* in_escape_or_end_of_quoted_cell *)
    destruct Hl as (Hst & (Hop0 & Hop) & Hsp). simpl in Hop0, Hop.
    destruct (Z.leb_spec endp_ p).
    + split; [apply Hpost | reflexivity].
    + assert (Hfin : forall cs',
                 cell_at cs' n
                 = CsvCell.mk (Some st) (p - st - 1)
                              (CsvCell.escaped (cell_at cs n)) ->
                 finished (cell_at cs' n)).
      { intros cs' ->. exists st. simpl.
        repeat split; auto; try lia. intros He.
        destruct (Hop He) as (q & Hq1 & Hq2 & Hq3). exists q.
        split; [lia | exact Hq3]. }
      unfold on_cell. simpl. fold_cell_at.
      set (cs' := list_set (list_set cs (Z.to_nat n) _) (Z.to_nat n) _).
      assert (Hn' : cell_at cs' n
                    = CsvCell.mk (Some st) (p - st - 1)
                                 (CsvCell.escaped (cell_at cs n))).
      { unfold cs'. rewrite !cell_at_set_eq by (rewrite ?len_list_set; lia).
        reflexivity. }
      assert (Hlen' : len cs' = len cs)
        by (unfold cs'; rewrite !len_list_set; reflexivity).
      assert (Hold : forall i, 0 <= i < n -> cell_at cs' i = cell_at cs i).
      { intros i Hi. unfold cs'. rewrite !cell_at_set_ne by lia.
        reflexivity. }
      assert (Hall : forall i, 0 <= i < n + 1 -> finished (cell_at cs' i)).
      { intros i Hi. destruct (Z.eq_dec i n) as [->|Hne];
          [apply Hfin, Hn' | rewrite Hold by lia; apply Hdone; lia]. }
      destruct (peek s p =? delimiter_).
      * simpl. destruct (Z.eqb_spec (n + 1) (len cs')); simpl;
          (split; [|exact Hlen']).
        -- unfold post. simpl. split; [lia|]. split; [discriminate|].
           split; intros; apply Hall; lia.
        -- repeat split; auto; lia.
      * destruct (is_newline (peek s p)); simpl; fold_cell_at.
        -- split; [|exact Hlen'].
           unfold post. simpl. split; [lia|]. split; [lia|].
           split.
           ++ intros i Hi. apply Hall. lia.
           ++ intros _. replace (n + 1 - 1) with n by lia.
              apply Hfin, Hn'.
        -- rewrite len_list_set. split; [|reflexivity].
           split; [reflexivity|]. split; [lia|]. split; [lia|].
           split; [intros i Hi; rewrite cell_at_set_ne by lia;
                   apply Hdone; lia|].
           split; [lia|]. split; [exact Hop0|]. simpl. intros _.
           exists (p - 1). split; [lia|]. split; [lia | exact Hsp].
  - (* in_unquoted_cell *)
    destruct Hl as (Hst & Hop0 & Hop). simpl in Hop0, Hop.
    destruct (Z.leb_spec endp_ p).
    + split; [apply Hpost | reflexivity].
    + destruct (Hu (window s p)) as [R Hit].
      destruct (Z.eqb_spec (Spanner.call usp (window s p)) 16) as [E|E];
        simpl; (split; [|reflexivity]);
        (split; [reflexivity|]); (split; [lia|]); (split; [lia|]);
        (split; [exact Hdone|]).
      * split; [lia|]. split; [exact Hop0|]. simpl. intros He.
        destruct (Hop He) as (q & Hq1 & Hq2 & Hq3). exists q.
        split; [exact Hq1|]. split; [lia | exact Hq3].
      * split; [lia|]. split.
        -- split; [exact Hop0|]. simpl. intros He.
           destruct (Hop He) as (q & Hq1 & Hq2 & Hq3). exists q.
           split; [exact Hq1|]. split; [lia | exact Hq3].
        -- rewrite <- peek_window by lia. apply Hit. lia.
  - (* in_escape_or_end_of_unquoted_cell *)
    destruct Hl as (Hst & (Hop0 & Hop) & Hsp). simpl in Hop0, Hop.
    destruct (Z.leb_spec endp_ p).
    + split; [apply Hpost | reflexivity].
    + assert (Hfin : forall cs',
                 cell_at cs' n
                 = CsvCell.mk (Some st) (p - st)
                              (CsvCell.escaped (cell_at cs n)) ->
                 finished (cell_at cs' n)).
      { intros cs' ->. exists st. simpl.
        repeat split; auto; try lia. intros He.
        destruct (Hop He) as (q & Hq1 & Hq2 & Hq3). exists q.
        split; [lia | exact Hq3]. }
      unfold on_cell. simpl. fold_cell_at.
      set (cs' := list_set (list_set cs (Z.to_nat n) _) (Z.to_nat n) _).
      assert (Hn' : cell_at cs' n
                    = CsvCell.mk (Some st) (p - st)
                                 (CsvCell.escaped (cell_at cs n))).
      { unfold cs'. rewrite !cell_at_set_eq by (rewrite ?len_list_set; lia).
        reflexivity. }
      assert (Hlen' : len cs' = len cs)
        by (unfold cs'; rewrite !len_list_set; reflexivity).
      assert (Hold : forall i, 0 <= i < n -> cell_at cs' i = cell_at cs i).
      { intros i Hi. unfold cs'. rewrite !cell_at_set_ne by lia.
        reflexivity. }
      assert (Hall : forall i, 0 <= i < n + 1 -> finished (cell_at cs' i)).
      { intros i Hi. destruct (Z.eq_dec i n) as [->|Hne];
          [apply Hfin, Hn' | rewrite Hold by lia; apply Hdone; lia]. }
      destruct (peek s p =? delimiter_) eqn:Ed.
      * simpl. destruct (Z.eqb_spec (n + 1) (len cs')); simpl;
          (split; [|exact Hlen']).
        -- unfold post. simpl. split; [lia|]. split; [discriminate|].
           split; intros; apply Hall; lia.
        -- repeat split; auto; lia.
      * destruct (is_newline (peek s p)) eqn:Enl; simpl; fold_cell_at.
        -- split; [|exact Hlen'].
           unfold post. simpl. split; [lia|]. split; [lia|].
           split.
           ++ intros i Hi. apply Hall. lia.
           ++ intros _. replace (n + 1 - 1) with n by lia.
              apply Hfin, Hn'.
        -- rewrite len_list_set. split; [|reflexivity].
           split; [reflexivity|]. split; [lia|]. split; [lia|].
           split; [intros i Hi; rewrite cell_at_set_ne by lia;
                   apply Hdone; lia|].
           split; [lia|]. split; [exact Hop0|]. simpl. intros _.
           exists p. split; [lia|]. split; [lia|].
           apply unquoted_target; assumption.
Qed.

(** Whatever [try_parse] returns, the cells it counts are well formed. *)
Lemma run_inv n :
  forall f rc f',
    inv f -> run n f = Some (rc, f') ->
    post rc f' /\ len (cells f') = len (cells f).
Proof.
  induction n as [|n IH]; intros f rc f' Hinv Hrun; [discriminate|].
  simpl in Hrun. pose proof (step_inv f Hinv) as Hs.
  destruct (step f) as [f1|[rc1 f1]].
  - destruct Hs as [Hinv1 Hlen1].
    destruct (IH f1 rc f' Hinv1 Hrun) as [Hpost Hlen].
    split; [exact Hpost | congruence].
  - inversion Hrun; subst. exact Hs.
Qed.

End Invariant.
End ParseFacts.

(** ** The reader *)

Module ReaderFacts.

Import TryParse SpannerFacts SpannerSpec ParseFacts CsvReader.

Section WithStream.
Context {C : Type} `{StreamCursor C}.

(** What the constructor establishes and every operation keeps: the
    cell vector is not empty and the spanners were built from the
    dialect. *)
Definition well_formed (r : CsvReader.t C) : Prop :=
  0 < len (CsvCursor.cells (row_ r))
  /\ exists sse,
      Spanner.new sse (quotechar_ r) (escapechar_ r) 0 0
      = Some (quoted_cell_spanner_ r)
      /\ Spanner.new sse (delimiter_ r) 13 10 (escapechar_ r)
         = Some (unquoted_cell_spanner_ r).

Lemma new_well_formed sse (stream : C) d q e y r :
  CsvReader.new sse stream d q e y = Some r -> well_formed r.
Proof.
  unfold CsvReader.new.
  destruct (Spanner.new sse q e 0 0) as [qs|] eqn:Eq; [|discriminate].
  destruct (Spanner.new sse d 13 10 e) as [us|] eqn:Eu; [|discriminate].
  intros E; inversion E; subst r; clear E. split; [reflexivity|].
  exists sse. simpl. auto.
Qed.

Lemma well_formed_stops r :
  well_formed r ->
  stops_at (quoted_cell_spanner_ r) (quotechar_ r) (escapechar_ r) 0 0
  /\ stops_at (unquoted_cell_spanner_ r) (delimiter_ r) 13 10
              (escapechar_ r).
Proof.
  intros (_ & sse & Eq & Eu).
  split; eapply new_stops_at; eassumption.
Qed.

(** [try_parse] is total: the run it makes always returns. *)
Lemma try_parse_run (r : CsvReader.t C) :
  exists f,
    run_frame r (steps (endp_ r) (enter r)) (enter r)
    = Some (fst (try_parse r), f)
    /\ snd (try_parse r) = leave r f.
Proof.
  unfold try_parse, run_frame.
  destruct (run_total (storage (stream_ r)) (endp_ r) (delimiter_ r)
              (quotechar_ r) (quoted_cell_spanner_ r)
              (unquoted_cell_spanner_ r) (enter r)) as [[rc f] Hr].
  rewrite Hr. exists f. split; reflexivity.
Qed.

Lemma enter_inv (r : CsvReader.t C) :
  well_formed r ->
  inv (storage (stream_ r)) (endp_ r) (p_ r) (delimiter_ r)
      (quotechar_ r) (escapechar_ r) (enter r).
Proof.
  intros [Hlen _]. unfold inv, enter. simpl.
  repeat split; auto; try lia.
Qed.

(** The cells [try_parse] counts, whatever it returns. *)
Lemma try_parse_post (r : CsvReader.t C) :
  well_formed r ->
  exists f,
    snd (try_parse r) = leave r f
    /\ run_frame r (steps (endp_ r) (enter r)) (enter r)
       = Some (fst (try_parse r), f)
    /\ post (storage (stream_ r)) (endp_ r) (p_ r) (quotechar_ r)
            (escapechar_ r) (fst (try_parse r)) f
    /\ len (cells f) = len (CsvCursor.cells (row_ r)).
Proof.
  intros Hwf. destruct (try_parse_run r) as (f & Hrun & Hleave).
  exists f. split; [exact Hleave|]. split; [exact Hrun|].
  destruct (well_formed_stops r Hwf) as [Hq Hu].
  apply (run_inv _ _ _ _ _ _ _ _ Hq Hu _ _ _ _ (enter_inv r Hwf) Hrun).
Qed.

(** A closed cell is flagged exactly when decoding changes it. *)
Lemma finished_decoded s endp p0 q e c :
  finished s endp p0 q e c ->
  CsvCell.escaped c = true <-> CsvCell.as_str e q s c <> CsvCell.raw s c.
Proof.
  intros (a & Hptr & Ha & Hsz & Hend & Hesc).
  rewrite CellFacts.as_str_unescape.
  destruct (CsvCell.escaped c).
  - split; [intros _ Heq | reflexivity].
    destruct (Hesc eq_refl) as (q0 & Hq0 & Hsp & Hnz).
    apply Hnz.
    apply (CellFacts.unescape_fixed e q (CsvCell.raw s c) Heq);
      [|exact Hsp].
    unfold CsvCell.raw. rewrite Hptr. apply in_map_iff.
    exists (Z.to_nat (q0 - a)). split; [f_equal; lia|].
    apply in_seq. lia.
  - split; [discriminate|]. intros Hne. exfalso. apply Hne. reflexivity.
Qed.

Lemma null_decoded s q e c :
  null c ->
  CsvCell.escaped c = true <-> CsvCell.as_str e q s c <> CsvCell.raw s c.
Proof.
  intros (_ & _ & Hesc). unfold CsvCell.as_str. rewrite Hesc.
  split; [discriminate|]. intros Hne. exfalso. apply Hne. reflexivity.
Qed.

(** Every cell of the row is the closed cell of some index, or the
    null cell at the end. *)
Lemma row_cells_post (r : CsvReader.t C) c :
  well_formed r ->
  In c (row_cells (snd (try_parse r))) ->
  finished (storage (stream_ r)) (endp_ r) (p_ r) (quotechar_ r)
           (escapechar_ r) c
  \/ null c.
Proof.
  intros Hwf Hin.
  destruct (try_parse_post r Hwf) as (f & Hleave & _ & Hpost & _).
  rewrite Hleave in Hin. unfold row_cells, leave in Hin. simpl in Hin.
  destruct Hpost as (Hcount & _ & Hdone & Hlast).
  destruct (In_nth _ _ CsvCell.zero Hin) as (i & Hi & <-).
  rewrite length_firstn in Hi. unfold len in Hcount.
  rewrite nth_firstn_lt by lia.
  replace i with (Z.to_nat (Z.of_nat i)) by lia.
  fold (cell_at (cells f) (Z.of_nat i)).
  destruct (Z.eq_dec (Z.of_nat i) (count f - 1)) as [E|E].
  - rewrite E. specialize (Hlast ltac:(lia)).
    destruct (last_is_null (fst (try_parse r)) f); auto.
  - left. apply Hdone. lia.
Qed.

End WithStream.

End ReaderFacts.

(** ** Rounds of [read_row] *)

Module ReadRowFacts.

Import TryParse ParseFacts CsvReader ReaderFacts.

Section WithStream.
Context {C : Type} `{StreamCursor C}.

Lemma set_stream_same (r : CsvReader.t C) : set_stream (stream_ r) r = r.
Proof. destruct r; reflexivity. Qed.

(** The reader as a round of [read_row] hands it to [try_parse]. *)
Definition at_buf (r : CsvReader.t C) : CsvReader.t C :=
  set_window (buf (stream_ r)) (buf (stream_ r) + size (stream_ r)) r.

(** Two readers on the same bytes with the same dialect and the same
    capacity: only the contents of their cells may differ. *)
Definition same_input (r1 r2 : CsvReader.t C) : Prop :=
  stream_ r1 = stream_ r2
  /\ delimiter_ r1 = delimiter_ r2 /\ quotechar_ r1 = quotechar_ r2
  /\ escapechar_ r1 = escapechar_ r2
  /\ yield_incomplete_row_ r1 = yield_incomplete_row_ r2
  /\ quoted_cell_spanner_ r1 = quoted_cell_spanner_ r2
  /\ unquoted_cell_spanner_ r1 = unquoted_cell_spanner_ r2
  /\ len (CsvCursor.cells (row_ r1)) = len (CsvCursor.cells (row_ r2)).

(** [try_parse] touches neither the cursor nor the dialect nor the
    capacity. *)
Lemma try_parse_same_input r :
  same_input r (snd (try_parse r)) /\ endp_ (snd (try_parse r)) = endp_ r.
Proof.
  destruct (try_parse_run r) as (f & Hrun & ->).
  apply run_len in Hrun. unfold same_input, leave. simpl.
  unfold enter in Hrun. simpl in Hrun. auto 10.
Qed.

(** What [try_parse] returns, and the count and [p_] it leaves,
    depend on the input only. *)
Lemma try_parse_alike r1 r2 :
  same_input r1 r2 -> p_ r1 = p_ r2 -> endp_ r1 = endp_ r2 ->
  fst (try_parse r1) = fst (try_parse r2)
  /\ CsvCursor.count (row_ (snd (try_parse r1)))
     = CsvCursor.count (row_ (snd (try_parse r2)))
  /\ p_ (snd (try_parse r1)) = p_ (snd (try_parse r2)).
Proof.
  intros (E1 & E2 & E3 & E4 & E5 & E6 & E7 & E8) Ep Ee.
  destruct (try_parse_run r1) as (f1 & Hr1 & ->).
  destruct (try_parse_run r2) as (f2 & Hr2 & ->).
  unfold run_frame in Hr1, Hr2.
  assert (Hal : alike (enter r1) (enter r2)).
  { unfold alike, enter. simpl. auto 10. }
  assert (Hst : steps (endp_ r1) (enter r1) = steps (endp_ r2) (enter r2)).
  { unfold steps, enter. cbn [TryParse.p]. rewrite Ep, Ee. reflexivity. }
  pose proof (run_alike (storage (stream_ r1)) (endp_ r1) (delimiter_ r1)
                (quotechar_ r1) (quoted_cell_spanner_ r1)
                (unquoted_cell_spanner_ r1)
                (steps (endp_ r1) (enter r1)) _ _ Hal) as Hra.
  rewrite Hr1 in Hra. rewrite Hst, E1, Ee, E2, E3, E6, E7, Hr2 in Hra.
  destruct Hra as [Hrc (_ & _ & _ & _ & Hc & Hp & _)].
  simpl. auto.
Qed.

(** A round that underruns and whose [fill()] returns true goes on
    with the next round. *)
Lemma read_row_refill n (r : CsvReader.t C) :
  fst (try_parse (at_buf r)) = kCsmTryParseUnderrun ->
  fst (fill (stream_ (snd (try_parse (at_buf r))))) = true ->
  read_row (S n) r = None <->
  read_row n (set_stream
                (snd (fill (stream_ (snd (try_parse (at_buf r))))))
                (snd (try_parse (at_buf r)))) = None.
Proof.
  intros Hp Hf. cbn [read_row]. fold (at_buf r).
  destruct (try_parse (at_buf r)) as [rc r'] eqn:Et. simpl in Hp, Hf |- *.
  subst rc. destruct (fill (stream_ r')) as [ok st]. simpl in Hf |- *.
  subst ok.
  destruct (read_row n (set_stream st r')) as [[[b r''] log]|];
    split; intros E; try discriminate; reflexivity.
Qed.

End WithStream.

(** *** The buffered cursor at end of file *)

Lemma write_nothing (v : list byte) w :
  firstn (Z.to_nat w) v ++ [] ++ skipn (Z.to_nat (w + len (@nil byte))) v = v.
Proof.
  unfold len. simpl. rewrite Z.add_0_r. apply firstn_skipn.
Qed.

(** With nothing consumed since the last [fill()] and room left in
    [vec_], a [fill()] at end of file changes nothing, and returns true
    exactly when unread bytes remain. *)
Lemma fill_at_eof (c : BufferedStreamCursor.t) :
  BufferedStreamCursor.read_pos_ c = 0 ->
  BufferedStreamCursor.write_pos_ c <> len (BufferedStreamCursor.vec_ c) ->
  FdStreamCursor.fill (c, [])
  = (0 <? BufferedStreamCursor.write_pos_ c, (c, [])).
Proof.
  destruct c as [v rp wp]. simpl. intros -> Hw.
  unfold FdStreamCursor.fill, BufferedStreamCursor.fill. simpl.
  destruct (Z.eqb_spec wp (len v)); [contradiction|].
  unfold FdStreamCursor.readmore. simpl.
  rewrite write_nothing, Z.add_0_r. reflexivity.
Qed.

(** Once the descriptor is at end of file with unread bytes that do not
    make a row, [read_row] goes round forever. *)
Lemma read_row_stuck_at_eof n :
  forall r : CsvReader.t FdStreamCursor.t,
    snd (stream_ r) = [] ->
    BufferedStreamCursor.read_pos_ (fst (stream_ r)) = 0 ->
    0 < BufferedStreamCursor.write_pos_ (fst (stream_ r))
      < len (BufferedStreamCursor.vec_ (fst (stream_ r))) ->
    fst (try_parse (at_buf r)) = kCsmTryParseUnderrun ->
    read_row n r = None.
Proof.
  induction n as [|n IH]; intros r Hfd Hrp Hwp Hu; [reflexivity|].
  destruct (try_parse_same_input (at_buf r)) as [Hsame Hendp].
  set (r' := snd (try_parse (at_buf r))) in *.
  assert (Hst : stream_ r' = stream_ r) by (symmetry; apply Hsame).
  assert (Hfill : fill (stream_ r') = (true, stream_ r)).
  { rewrite Hst. destruct (stream_ r) as [c fd] eqn:Es. simpl in *.
    subst fd. change (FdStreamCursor.fill (c, []) = (true, (c, []))).
    rewrite fill_at_eof by lia.
    destruct (Z.ltb_spec 0 (BufferedStreamCursor.write_pos_ c));
      [reflexivity | lia]. }
  apply (read_row_refill n r Hu); fold r'; rewrite Hfill; [reflexivity|].
  simpl. apply IH; simpl; try assumption.
  rewrite <- Hu.
  apply try_parse_alike.
  - unfold at_buf, same_input.
    destruct Hsame as (A1 & A2 & A3 & A4 & A5 & A6 & A7 & A8).
    simpl in *. auto 10.
  - reflexivity.
  - reflexivity.
Qed.

End ReadRowFacts.

(** ** What one [read_row] does to the cursor *)

Module TraceFacts.

Import TryParse ParseFacts CsvReader ReaderFacts ReadRowFacts.

#[local] Arguments Z.mul _ _ : simpl never.

Section WithStream.
Context {C : Type} `{StreamCursor C}.

(** The traces of [read_row()].  [rounds y cnt st cap b st' pe log]:
    started on the cursor [st] with a cell vector of capacity [cap], the
    call of a reader whose [yield_incomplete_row_] is [y] returns [b] and
    leaves the cursor [st'], the member [p_] at [pe] and [cnt] in
    [row_.count], having done [log]. *)
Inductive rounds (y : bool) (cnt : Z)
  : C -> Z -> bool -> C -> Z -> list (event C) -> Prop :=
| rounds_okay st cap n :
    (* a row was parsed: one [consume], of the bytes of that row *)
    0 < n <= size st ->
    rounds y cnt st cap true (consume n st) (buf st + n)
           [EvParse kCsmTryParseOkay st cap; EvConsume n]
| rounds_overflow st cap b st' pe log :
    (* overflow: the capacity doubles, the cursor is as it was *)
    rounds y cnt st (2 * cap) b st' pe log ->
    rounds y cnt st cap b st' pe
           (EvParse kCsmTryParseOverflow st cap
            :: EvResize (2 * cap) :: log)
| rounds_refill st cap b st' pe log :
    (* underrun, and [fill()] found more: no [consume] *)
    fst (fill st) = true ->
    rounds y cnt (snd (fill st)) cap b st' pe log ->
    rounds y cnt st cap b st' pe
           (EvParse kCsmTryParseUnderrun st cap :: EvFill true :: log)
| rounds_end st cap pe :
    (* underrun at the end of input, and no cell was counted or
       incomplete rows are not asked for: no [consume] *)
    fst (fill st) = false ->
    cnt = 0 \/ y = false ->
    rounds y cnt st cap false (snd (fill st)) pe
           [EvParse kCsmTryParseUnderrun st cap; EvFill false]
| rounds_yield st cap pe :
    (* underrun at the end of input, a cell was counted and incomplete
       rows are asked for: the row is yielded, with one [consume], of
       all the bytes that were left *)
    fst (fill st) = false ->
    cnt <> 0 -> y = true ->
    rounds y cnt st cap true (consume (size st) (snd (fill st))) pe
           [EvParse kCsmTryParseUnderrun st cap; EvFill false;
            EvConsume (size st)].

Lemma well_formed_ext (r1 r2 : CsvReader.t C) :
  delimiter_ r1 = delimiter_ r2 -> quotechar_ r1 = quotechar_ r2 ->
  escapechar_ r1 = escapechar_ r2 ->
  quoted_cell_spanner_ r1 = quoted_cell_spanner_ r2 ->
  unquoted_cell_spanner_ r1 = unquoted_cell_spanner_ r2 ->
  0 < len (CsvCursor.cells (row_ r2)) ->
  well_formed r1 -> well_formed r2.
Proof.
  intros E1 E2 E3 E4 E5 Hlen (_ & sse & Hq & Hu).
  split; [exact Hlen|]. exists sse. split; congruence.
Qed.

Lemma len_resize_cells c (r : CsvReader.t C) :
  len (CsvCursor.cells (row_ r)) <= c ->
  len (CsvCursor.cells (row_ (resize_cells c r))) = c.
Proof.
  intros Hc. unfold resize_cells, len in *. simpl.
  rewrite length_app, length_firstn, repeat_length. lia.
Qed.

Lemma read_row_rounds n :
  forall (r : CsvReader.t C) b r' log,
    well_formed r ->
    read_row n r = Some (b, r', log) ->
    rounds (yield_incomplete_row_ r) (CsvCursor.count (row_ r'))
           (stream_ r) (len (CsvCursor.cells (row_ r))) b
           (stream_ r') (p_ r') log.
Proof.
  induction n as [|n IH]; intros r b r' log Hwf Hrr; [discriminate|].
  cbn [read_row] in Hrr. fold (at_buf r) in Hrr.
  assert (Hwf1 : well_formed (at_buf r)).
  { apply (well_formed_ext r); try reflexivity; apply Hwf. }
  destruct (try_parse_post (at_buf r) Hwf1)
    as (f & Hleave & _ & Hpost & Hlenf).
  destruct (try_parse_same_input (at_buf r)) as [Hsame Hendp].
  destruct Hsame as (S1 & S2 & S3 & S4 & S5 & S6 & S7 & S8).
  destruct (try_parse (at_buf r)) as [rc r1] eqn:Et. simpl in *.
  assert (Hwf2 : well_formed r1).
  { apply (well_formed_ext r); try assumption. rewrite <- S8. apply Hwf. }
  rewrite <- S8 in *.
  destruct rc.
  - (* okay *)
    inversion Hrr; subst b r' log; clear Hrr. simpl.
    destruct Hpost as (_ & Hok & _). destruct (Hok eq_refl) as [_ Hp].
    rewrite Hleave in *. simpl in *.
    replace (TryParse.p_ f) with (buf (stream_ r) + (TryParse.p_ f - buf (stream_ r))) at 2 by lia.
    apply rounds_okay. lia.
  - (* overflow *)
    set (c := 2 * len (CsvCursor.cells (row_ r))) in *.
    assert (Hlen : len (CsvCursor.cells (row_ (resize_cells c r1))) = c).
    { apply len_resize_cells. rewrite <- S8. unfold c.
      destruct Hwf as [Hpos _]. lia. }
    destruct (read_row n (resize_cells c r1)) as [[[b0 r0] log0]|] eqn:Er;
      [|discriminate].
    inversion Hrr; subst b r' log; clear Hrr. simpl.
    apply rounds_overflow. fold c. rewrite <- Hlen.
    replace (stream_ r) with (stream_ (resize_cells c r1))
      by (simpl; congruence).
    replace (yield_incomplete_row_ r)
      with (yield_incomplete_row_ (resize_cells c r1))
      by (simpl; congruence).
    apply IH; [|exact Er].
    apply (well_formed_ext r1); try reflexivity; [|exact Hwf2].
    rewrite Hlen. unfold c. destruct Hwf as [Hpos _]. lia.
  - (* underrun *)
    rewrite <- S1 in Hrr.
    destruct (fill (stream_ r)) as [ok st] eqn:Ef. destruct ok.
    + destruct (read_row n (set_stream st r1)) as [[[b0 r0] log0]|] eqn:Er;
        [|discriminate].
      inversion Hrr; subst b r' log; clear Hrr. simpl.
      apply rounds_refill; [rewrite Ef; reflexivity|].
      rewrite Ef. simpl.
      replace (len (CsvCursor.cells (row_ r)))
        with (len (CsvCursor.cells (row_ (set_stream st r1))))
        by (simpl; congruence).
      replace (yield_incomplete_row_ r)
        with (yield_incomplete_row_ (set_stream st r1))
        by (simpl; congruence).
      apply (IH (set_stream st r1)); [|exact Er].
      apply (well_formed_ext r1); try reflexivity; [|exact Hwf2].
      apply Hwf2.
    + simpl in Hrr.
      assert (Est : st = snd (fill (stream_ r)))
        by (rewrite Ef; reflexivity).
      destruct (negb (CsvCursor.count (row_ r1) =? 0)
                && yield_incomplete_row_ r1) eqn:Ey;
        inversion Hrr; subst b r' log; clear Hrr; simpl; rewrite Est.
      * rewrite Hendp.
        replace (buf (stream_ r) + size (stream_ r) - buf (stream_ r))
          with (size (stream_ r)) by lia.
        apply andb_prop in Ey. destruct Ey as [Ec Ey].
        apply rounds_yield; [rewrite Ef; reflexivity | | congruence].
        destruct (Z.eqb_spec (CsvCursor.count (row_ r1)) 0);
          [discriminate Ec | assumption].
      * apply rounds_end; [rewrite Ef; reflexivity|].
        apply andb_false_iff in Ey. destruct Ey as [Ec|Ey].
        -- left. destruct (Z.eqb_spec (CsvCursor.count (row_ r1)) 0);
             [assumption | discriminate Ec].
        -- right. congruence.
Qed.

(** Every trace starts with a [try_parse()] on the cursor and with the
    capacity the call started with. *)
Lemma rounds_head y cnt st cap b st' pe log :
  rounds y cnt st cap b st' pe log ->
  exists rc rest, log = EvParse rc st cap :: rest.
Proof. intros Hr. destruct Hr; eauto. Qed.

(** [consume] is called only to end a call that returns true. *)
Lemma rounds_consume y cnt st cap b st' pe log :
  rounds y cnt st cap b st' pe log ->
  forall pre k post,
    log = pre ++ EvConsume k :: post -> post = [] /\ b = true.
Proof.
  induction 1; intros pre k post E.
  - destruct pre as [|e1 [|e2 [|e3 pre]]]; inversion E; subst; auto.
  - destruct pre as [|e1 [|e2 pre]]; inversion E; subst.
    eapply IHrounds; reflexivity.
  - destruct pre as [|e1 [|e2 pre]]; inversion E; subst.
    eapply IHrounds; reflexivity.
  - destruct pre as [|e1 [|e2 [|e3 pre]]]; inversion E.
  - destruct pre as [|e1 [|e2 [|e3 [|e4 pre]]]]; inversion E; subst; auto.
Qed.

(** A call that returns true ends with a [consume]. *)
Lemma rounds_true y cnt st cap st' pe log :
  rounds y cnt st cap true st' pe log ->
  exists pre k, log = pre ++ [EvConsume k].
Proof.
  intros Hr. remember true as b eqn:Eb.
  induction Hr as [st cap n Hn | st cap b st' pe log Hr IH
                   | st cap b st' pe log Hf Hr IH | st cap pe Hf Hno
                   | st cap pe Hf Hc Hy].
  - exists [EvParse kCsmTryParseOkay st cap], n. reflexivity.
  - destruct (IH Eb) as (pre & k & ->).
    exists (EvParse kCsmTryParseOverflow st cap :: EvResize (2 * cap) :: pre),
      k. reflexivity.
  - destruct (IH Eb) as (pre & k & ->).
    exists (EvParse kCsmTryParseUnderrun st cap :: EvFill true :: pre), k.
    reflexivity.
  - discriminate.
  - exists [EvParse kCsmTryParseUnderrun st cap; EvFill false], (size st).
    reflexivity.
Qed.

(** After a [fill()] that returned false the call returns true, and so
    calls [consume], exactly when a cell has been counted and incomplete
    rows are asked for. *)
Lemma rounds_failed_fill y cnt st cap b st' pe log :
  rounds y cnt st cap b st' pe log ->
  In (EvFill false) log ->
  b = true <-> cnt <> 0 /\ y = true.
Proof.
  induction 1 as [st cap n Hn | st cap b st' pe log Hr IH
                  | st cap b st' pe log Hf Hr IH | st cap pe Hf Hno
                  | st cap pe Hf Hc Hy]; intros Hin.
  - destruct Hin as [E|[E|[]]]; discriminate E.
  - destruct Hin as [E|[E|Hin]]; [discriminate E | discriminate E|].
    exact (IH Hin).
  - destruct Hin as [E|[E|Hin]]; [discriminate E | discriminate E|].
    exact (IH Hin).
  - split; [discriminate|]. intros [Hc Hy]. exfalso.
    destruct Hno as [E|E]; [exact (Hc E) | congruence].
  - split; [intros _; split; assumption | reflexivity].
Qed.

End WithStream.
End TraceFacts.

(** ** Rows, byte by byte: one row and all rows *)

Module RowSpecFacts.

Import RowSpec.

Section Dialect.
Variables delimiter quotechar escapechar : byte.
Variable yield_incomplete_row : bool.

Local Abbreviation on_byte := (on_byte delimiter quotechar escapechar).
Local Abbreviation expect := (expect delimiter quotechar escapechar).
Local Abbreviation rows :=
  (rows delimiter quotechar escapechar yield_incomplete_row).

(** With room for more cells than there are bytes, no overflow. *)
Lemma expect_fits cap st k pos l :
  0 <= k -> k + len l < cap ->
  fst (fst (expect cap st k pos l)) <> kCsmTryParseOverflow.
Proof.
  revert st k pos. unfold len.
  induction l as [|b t IH]; intros st k pos Hk Hcap; cbn [RowSpec.expect].
  - discriminate.
  - rewrite length_cons in Hcap. destruct (on_byte st b).
    + apply IH; lia.
    + destruct (Z.eqb_spec (k + 1) cap); [lia|]. apply IH; lia.
    + discriminate.
Qed.

(** A row takes at least one byte and no more than there are; its cells
    are counted from [k] on. *)
Lemma expect_okay cap st k pos l c q :
  expect cap st k pos l = (kCsmTryParseOkay, c, q) ->
  pos < q <= pos + len l /\ k < c.
Proof.
  revert st k pos. unfold len.
  induction l as [|b t IH]; intros st k pos E; cbn [RowSpec.expect] in E.
  - discriminate.
  - rewrite length_cons. destruct (on_byte st b).
    + apply IH in E. lia.
    + destruct (k + 1 =? cap); [discriminate|]. apply IH in E. lia.
    + inversion E; subst. lia.
Qed.

Lemma expect_underrun cap st k pos l c q :
  expect cap st k pos l = (kCsmTryParseUnderrun, c, q) -> k <= c.
Proof.
  revert st k pos.
  induction l as [|b t IH]; intros st k pos E; cbn [RowSpec.expect] in E.
  - inversion E; subst. lia.
  - destruct (on_byte st b).
    + apply IH in E. lia.
    + destruct (k + 1 =? cap); [discriminate|]. apply IH in E. lia.
    + discriminate.
Qed.

(** The rows of an input are the row [expect] finds and the rows of what
    follows it. *)
Lemma rows_expect cap st k pos l :
  0 <= k ->
  match expect cap st k pos l with
  | (kCsmTryParseOkay, _, q) =>
      rows st (0 <? k) l
      = S (rows NewlineSkip false (skipn (Z.to_nat (q - pos)) l))
  | (kCsmTryParseUnderrun, c, _) =>
      rows st (0 <? k) l
      = if yield_incomplete_row && (0 <? c) then 1%nat else 0%nat
  | (kCsmTryParseOverflow, _, _) => True
  end.
Proof.
  revert st k pos.
  induction l as [|b t IH]; intros st k pos Hk; cbn [RowSpec.expect RowSpec.rows].
  - reflexivity.
  - destruct (on_byte st b) eqn:Eb.
    + specialize (IH st0 k (pos + 1) Hk).
      destruct (expect cap st0 k (pos + 1) t) as [[rc c] q] eqn:Ee.
      destruct rc; auto.
      destruct (expect_okay _ _ _ _ _ _ _ Ee) as [Hq _].
      replace (Z.to_nat (q - pos)) with (S (Z.to_nat (q - (pos + 1)))) by lia.
      exact IH.
    + destruct (Z.eqb_spec (k + 1) cap); [exact I|].
      specialize (IH CellStart (k + 1) (pos + 1) ltac:(lia)).
      replace (0 <? k + 1) with true in IH by (symmetry; apply Z.ltb_lt; lia).
      destruct (expect cap CellStart (k + 1) (pos + 1) t) as [[rc c] q] eqn:Ee.
      destruct rc; auto.
      destruct (expect_okay _ _ _ _ _ _ _ Ee) as [Hq _].
      replace (Z.to_nat (q - pos)) with (S (Z.to_nat (q - (pos + 1)))) by lia.
      exact IH.
    + replace (pos + 1 - pos) with 1 by lia. reflexivity.
Qed.

(** Only the start of a row leads back to the start of a row. *)
Lemma goto_row_start st b :
  on_byte st b = Goto NewlineSkip -> st = NewlineSkip.
Proof.
  destruct st; cbn [RowSpec.on_byte];
    unfold at_cell_start, in_unquoted, after_break;
    repeat match goal with
           | |- context [if ?c then _ else _] => destruct c
           end;
    intros E; try reflexivity; discriminate E.
Qed.

(** Unless the input ends inside the first cell of a row with
    [yield_incomplete_row] set, [read_row()] finds the rows the
    specification counts. *)
Lemma rows_stated l :
  forall st have_cell,
    (have_cell = true -> st <> NewlineSkip) ->
    (yield_incomplete_row = true ->
     ends_in_first_cell_from delimiter quotechar escapechar st have_cell l
     = false) ->
    rows st have_cell l
    = stated_rows_from delimiter quotechar escapechar yield_incomplete_row
                       st l.
Proof.
  induction l as [|b t IH]; intros st hc Hinv Hend;
    cbn [RowSpec.rows RowSpec.stated_rows_from
         RowSpec.ends_in_first_cell_from] in *.
  - destruct yield_incomplete_row; [|reflexivity].
    specialize (Hend eq_refl). cbn [andb].
    destruct hc.
    + destruct st; [exfalso; apply (Hinv eq_refl); reflexivity | ..];
        reflexivity.
    + rewrite andb_true_r in Hend. rewrite Hend. reflexivity.
  - destruct (on_byte st b) as [st'| |] eqn:Eb.
    + apply IH; [|exact Hend]. intros Hhc ->.
      apply (Hinv Hhc). exact (goto_row_start st b Eb).
    + apply IH; [discriminate | exact Hend].
    + f_equal. apply IH; [discriminate | exact Hend].
Qed.

End Dialect.

End RowSpecFacts.

(** ** [try_parse] against the byte-by-byte machine *)

Module SimFacts.

Import TryParse SpannerFacts SpannerSpec ParseFacts RowSpec RowSpecFacts.

(** The bytes [s[p] .. s[e-1]]. *)
Definition slice (s : list byte) (p e : Z) : list byte :=
  map (fun j => peek s (p + Z.of_nat j)) (seq 0 (Z.to_nat (e - p))).

Lemma slice_nil s p e : e <= p -> slice s p e = [].
Proof.
  intros Hle. unfold slice. replace (Z.to_nat (e - p)) with 0%nat by lia.
  reflexivity.
Qed.

Lemma slice_cons s p e :
  p < e -> slice s p e = peek s p :: slice s (p + 1) e.
Proof.
  intros Hlt. unfold slice.
  replace (Z.to_nat (e - p)) with (S (Z.to_nat (e - (p + 1)))) by lia.
  cbn [seq map]. rewrite Z.add_0_r. f_equal.
  rewrite <- seq_shift, map_map. apply map_ext. intros j. f_equal. lia.
Qed.

Lemma len_slice s p e : p <= e -> len (slice s p e) = e - p.
Proof.
  intros Hle. unfold len, slice. rewrite length_map, length_seq. lia.
Qed.

(** A spanner that passes over no target among the bytes of the input. *)
Definition skips_none (sp : StringSpanner) (c1 c2 c3 c4 : byte)
           (s : list byte) (p0 endp : Z) : Prop :=
  forall p j,
    p0 <= p -> 0 <= j < Spanner.call sp (window s p) -> p + j < endp ->
    targets c1 c2 c3 c4 (peek s (p + j)) = false.

(** The state a label stands for. *)
Definition state_of (l : label) : state :=
  match l with
  | newline_skip => NewlineSkip
  | cell_start => CellStart
  | in_quoted_cell => InQuoted
  | in_escape_or_end_of_quoted_cell => AfterQuote
  | in_unquoted_cell | in_escape_or_end_of_unquoted_cell => InUnquoted
  end.

(** What a return of [try_parse] leaves: the code, the count, and [p_]
    when a row was parsed. *)
Definition outcome (rc : CsmTryParseReturnType) (f : frame)
  : CsmTryParseReturnType * Z * Z :=
  (rc, count f, match rc with kCsmTryParseOkay => p_ f | _ => 0 end).

Section Simulation.
Variable s : list byte.
Variables endp_ p0 : Z.
Variables delimiter_ quotechar_ escapechar_ : byte.
Variables qsp usp : StringSpanner.
Hypothesis Hq : stops_at qsp quotechar_ escapechar_ 0 0.
Hypothesis Hu : stops_at usp delimiter_ 13 10 escapechar_.
Hypothesis Hqx : skips_none qsp quotechar_ escapechar_ 0 0 s p0 endp_.
Hypothesis Hux : skips_none usp delimiter_ 13 10 escapechar_ s p0 endp_.

Local Abbreviation step := (step s endp_ delimiter_ quotechar_ qsp usp).
Local Abbreviation run := (run s endp_ delimiter_ quotechar_ qsp usp).
Local Abbreviation inv :=
  (inv s endp_ p0 delimiter_ quotechar_ escapechar_).
Local Abbreviation expect := (expect delimiter_ quotechar_ escapechar_).
Local Abbreviation on_byte := (on_byte delimiter_ quotechar_ escapechar_).

(** What is expected of the frame [f]. *)
Definition expected (f : frame) : CsmTryParseReturnType * Z * Z :=
  expect (len (cells f)) (state_of (pc f)) (count f) (p f)
         (slice s (p f) endp_).

(** Bytes that are no targets keep a bulk scan where it is. *)
Lemma expect_skip_quoted cap k m :
  forall p,
    (forall j, 0 <= j < Z.of_nat m -> p + j < endp_ ->
               targets quotechar_ escapechar_ 0 0 (peek s (p + j)) = false) ->
    expect cap InQuoted k p (slice s p endp_)
    = expect cap InQuoted k (p + Z.of_nat m) (slice s (p + Z.of_nat m) endp_).
Proof.
  induction m as [|m IH]; intros p Hno.
  - rewrite Z.add_0_r. reflexivity.
  - destruct (Z.le_gt_cases endp_ p) as [Hle|Hlt].
    + rewrite !slice_nil by lia. reflexivity.
    + rewrite (slice_cons s p) by lia. cbn [RowSpec.expect RowSpec.on_byte].
      specialize (Hno 0 ltac:(lia) ltac:(lia)) as H0.
      rewrite Z.add_0_r in H0. rewrite H0.
      rewrite IH.
      * replace (p + 1 + Z.of_nat m) with (p + Z.of_nat (S m)) by lia.
        reflexivity.
      * intros j Hj Hje. replace (p + 1 + j) with (p + (j + 1)) by lia.
        apply Hno; lia.
Qed.

Lemma expect_skip_unquoted cap k m :
  forall p,
    (forall j, 0 <= j < Z.of_nat m -> p + j < endp_ ->
               targets delimiter_ 13 10 escapechar_ (peek s (p + j)) = false) ->
    expect cap InUnquoted k p (slice s p endp_)
    = expect cap InUnquoted k (p + Z.of_nat m)
             (slice s (p + Z.of_nat m) endp_).
Proof.
  induction m as [|m IH]; intros p Hno.
  - rewrite Z.add_0_r. reflexivity.
  - destruct (Z.le_gt_cases endp_ p) as [Hle|Hlt].
    + rewrite !slice_nil by lia. reflexivity.
    + rewrite (slice_cons s p) by lia.
      cbn [RowSpec.expect RowSpec.on_byte]. unfold in_unquoted.
      specialize (Hno 0 ltac:(lia) ltac:(lia)) as H0.
      rewrite Z.add_0_r in H0. rewrite H0.
      rewrite IH.
      * replace (p + 1 + Z.of_nat m) with (p + Z.of_nat (S m)) by lia.
        reflexivity.
      * intros j Hj Hje. replace (p + 1 + j) with (p + (j + 1)) by lia.
        apply Hno; lia.
Qed.

(** One step of [try_parse] leaves what is expected unchanged, and a
    return is what was expected. *)
Lemma step_expect f :
  inv f ->
  match step f with
  | inl f' => expected f' = expected f
  | inr (rc, f') => outcome rc f' = expected f
  end.
Proof.
  destruct f as [l p st c cs n nls p_0].
  unfold ParseFacts.inv, TryParse.step, expected, outcome.
  cbn [pc TryParse.p start cell count TryParse.p_ cells].
  intros (-> & Hn & Hp & Hdone & Hl).
  destruct l;
    cbn [pc TryParse.p start cell count TryParse.p_ cells goto set_p
         set_start set_cell set_cells set_count set_in_newline_skip
         set_p_ on_cell state_of];
    (destruct (Z.leb_spec endp_ p) as [Hend|Hin];
     [rewrite slice_nil by lia; reflexivity|]).
  - (* newline_skip *)
    rewrite (slice_cons s p) by lia.
    cbn [RowSpec.expect RowSpec.on_byte]. unfold at_cell_start.
    destruct (is_newline (peek s p)) eqn:Enl;
      cbn [pc TryParse.p start cell count TryParse.p_ cells goto set_p
           set_start set_cell set_cells set_count set_in_newline_skip
           set_p_ on_cell state_of].
    + reflexivity.
    + rewrite (slice_cons s p) by lia.
      cbn [RowSpec.expect RowSpec.on_byte]. unfold at_cell_start.
      rewrite Enl. reflexivity.
  - (* cell_start *)
    rewrite (slice_cons s p) by lia.
    cbn [RowSpec.expect RowSpec.on_byte]. unfold at_cell_start.
    destruct (is_newline (peek s p)) eqn:Enl;
      cbn [pc TryParse.p start cell count TryParse.p_ cells goto set_p
           set_start set_cell set_cells set_count set_in_newline_skip
           set_p_ on_cell state_of];
      [reflexivity|].
    destruct (peek s p =? quotechar_) eqn:Eq;
      cbn [pc TryParse.p start cell count TryParse.p_ cells goto set_p
           set_start set_cell set_cells set_count set_in_newline_skip
           set_p_ on_cell state_of];
      rewrite ?len_list_set; [reflexivity|].
    rewrite (slice_cons s p) by lia.
    cbn [RowSpec.expect RowSpec.on_byte]. reflexivity.
  - (* in_quoted_cell *)
    destruct (Hq (window s p)) as [R Hit].
    pose proof (Hqx p) as Hno.
    set (rc := Spanner.call qsp (window s p)) in *.
    destruct (Z.eqb_spec rc 16) as [E|E];
      cbn [pc TryParse.p start cell count TryParse.p_ cells goto set_p
           state_of].
    + symmetry.
      rewrite (expect_skip_quoted (len cs) n 16 p);
        [reflexivity|].
      intros j Hj Hje. apply Hno; lia.
    + symmetry.
      rewrite (expect_skip_quoted (len cs) n (Z.to_nat rc) p)
        by (intros j Hj Hje; apply Hno; lia).
      replace (Z.of_nat (Z.to_nat rc)) with rc by lia.
      destruct (Z.le_gt_cases endp_ (p + rc)) as [Hle|Hlt].
      * rewrite !slice_nil by lia. reflexivity.
      * rewrite (slice_cons s (p + rc)) by lia.
        cbn [RowSpec.expect RowSpec.on_byte].
        rewrite <- (peek_window s p rc) by lia. rewrite Hit by lia.
        replace (p + rc + 1) with (p + (rc + 1)) by lia. reflexivity.
  - (* in_escape_or_end_of_quoted_cell *)
    rewrite (slice_cons s p) by lia.
    cbn [RowSpec.expect RowSpec.on_byte]. unfold after_break.
    destruct (peek s p =? delimiter_);
      cbn [pc TryParse.p start cell count TryParse.p_ cells goto set_p
           set_start set_cell set_cells set_count set_in_newline_skip
           set_p_ on_cell state_of]; rewrite ?len_list_set.
    + destruct (n + 1 =? len cs);
        cbn [pc TryParse.p start cell count TryParse.p_ cells goto set_p
             set_start set_cell set_cells set_count set_in_newline_skip
             set_p_ on_cell state_of]; rewrite ?len_list_set; reflexivity.
    + destruct (is_newline (peek s p));
        cbn [pc TryParse.p start cell count TryParse.p_ cells goto set_p
             set_start set_cell set_cells set_count set_in_newline_skip
             set_p_ on_cell state_of]; rewrite ?len_list_set; reflexivity.
  - (* in_unquoted_cell *)
    destruct (Hu (window s p)) as [R Hit].
    pose proof (Hux p) as Hno.
    set (rc := Spanner.call usp (window s p)) in *.
    destruct (Z.eqb_spec rc 16) as [E|E];
      cbn [pc TryParse.p start cell count TryParse.p_ cells goto set_p
           state_of].
    + symmetry.
      rewrite (expect_skip_unquoted (len cs) n 16 p);
        [reflexivity|].
      intros j Hj Hje. apply Hno; lia.
    + symmetry.
      rewrite (expect_skip_unquoted (len cs) n (Z.to_nat rc) p)
        by (intros j Hj Hje; apply Hno; lia).
      replace (Z.of_nat (Z.to_nat rc)) with rc by lia. reflexivity.
  - (* in_escape_or_end_of_unquoted_cell *)
    destruct Hl as (_ & _ & Hbrk).
    cbn [TryParse.p] in Hbrk.
    rewrite (slice_cons s p) by lia.
    cbn [RowSpec.expect RowSpec.on_byte]. unfold in_unquoted, after_break.
    rewrite Hbrk.
    destruct (peek s p =? delimiter_);
      cbn [pc TryParse.p start cell count TryParse.p_ cells goto set_p
           set_start set_cell set_cells set_count set_in_newline_skip
           set_p_ on_cell state_of]; rewrite ?len_list_set.
    + destruct (n + 1 =? len cs);
        cbn [pc TryParse.p start cell count TryParse.p_ cells goto set_p
             set_start set_cell set_cells set_count set_in_newline_skip
             set_p_ on_cell state_of]; rewrite ?len_list_set; reflexivity.
    + destruct (is_newline (peek s p));
        cbn [pc TryParse.p start cell count TryParse.p_ cells goto set_p
             set_start set_cell set_cells set_count set_in_newline_skip
             set_p_ on_cell state_of]; rewrite ?len_list_set; reflexivity.
Qed.

(** [try_parse] returns what the byte-by-byte machine expects. *)
Lemma run_expect n :
  forall f rc f',
    inv f -> run n f = Some (rc, f') -> outcome rc f' = expected f.
Proof.
  induction n as [|n IH]; intros f rc f' Hinv Hrun; [discriminate|].
  cbn [TryParse.run] in Hrun.
  pose proof (step_inv s endp_ p0 delimiter_ quotechar_ escapechar_ qsp usp
                Hq Hu f Hinv) as Hs.
  pose proof (step_expect f Hinv) as He.
  destruct (step f) as [f1|[rc1 f1]].
  - rewrite <- He. apply IH; [apply Hs | exact Hrun].
  - inversion Hrun; subst. exact He.
Qed.

End Simulation.

Lemma skips_none_mono sp c1 c2 c3 c4 s p0 p0' endp :
  skips_none sp c1 c2 c3 c4 s p0 endp -> p0 <= p0' ->
  skips_none sp c1 c2 c3 c4 s p0' endp.
Proof. intros Hs Hle p j Hp. apply Hs. lia. Qed.

(** The scalar spanner passes over no target. *)
Lemma fallback_skips_none c1 c2 c3 c4 sp s p0 endp :
  Spanner.new false c1 c2 c3 c4 = Some sp ->
  skips_none sp c1 c2 c3 c4 s p0 endp.
Proof.
  intros E p j Hp Hj Hend.
  pose proof (call_range sp (window s p)) as R.
  rewrite <- peek_window by lia.
  apply (fallback_exact c1 c2 c3 c4 sp (window s p) j E Hj).
Qed.

(** Neither does the vector spanner, on an input without a zero byte
    and for zero-padded targets. *)
Lemma sse42_skips_none c1 c2 c3 c4 sp s p0 endp :
  padded c1 c2 c3 c4 ->
  Spanner.new true c1 c2 c3 c4 = Some sp ->
  (forall i, p0 <= i < endp -> peek s i <> 0) ->
  skips_none sp c1 c2 c3 c4 s p0 endp.
Proof.
  intros Hpad E Hnz p j Hp Hj Hend.
  pose proof (call_range sp (window s p)) as R.
  rewrite <- peek_window by lia.
  apply (sse42_exact c1 c2 c3 c4 sp (window s p) j Hpad E Hj).
  intros i Hi. rewrite peek_window by lia. apply Hnz. lia.
Qed.

End SimFacts.

(** ** Counting the rows of a mapped file *)

Module CountFacts.

Import TryParse SpannerFacts SpannerSpec ParseFacts RowSpec RowSpecFacts SimFacts.
Import CsvReader ReaderFacts ReadRowFacts TraceFacts.

#[local] Arguments Z.mul _ _ : simpl never.

Section WithStream.
Context {C : Type} `{StreamCursor C}.

(** The spanners of [r] pass over no target among the bytes between [p_]
    and [endp_]. *)
Definition exact (r : CsvReader.t C) : Prop :=
  skips_none (quoted_cell_spanner_ r) (quotechar_ r) (escapechar_ r) 0 0
             (storage (stream_ r)) (p_ r) (endp_ r)
  /\ skips_none (unquoted_cell_spanner_ r) (delimiter_ r) 13 10
                (escapechar_ r) (storage (stream_ r)) (p_ r) (endp_ r).

(** [try_parse] returns what the byte-by-byte machine expects of the
    bytes between [p_] and [endp_]. *)
Lemma try_parse_expect (r : CsvReader.t C) :
  well_formed r -> exact r ->
  (fst (try_parse r),
   CsvCursor.count (row_ (snd (try_parse r))),
   match fst (try_parse r) with
   | kCsmTryParseOkay => p_ (snd (try_parse r))
   | _ => 0
   end)
  = expect (delimiter_ r) (quotechar_ r) (escapechar_ r)
           (len (CsvCursor.cells (row_ r))) NewlineSkip 0 (p_ r)
           (slice (storage (stream_ r)) (p_ r) (endp_ r)).
Proof.
  intros Hwf [Hqx Hux].
  destruct (try_parse_run r) as (f & Hrun & Hleave).
  destruct (well_formed_stops r Hwf) as [Hq Hu].
  pose proof (run_expect _ _ _ _ _ _ _ _ Hq Hu Hqx Hux _ _ _ _
                (enter_inv r Hwf) Hrun) as He.
  rewrite Hleave. unfold outcome in He. unfold leave. simpl. exact He.
Qed.

(** The rows that successive calls of [read_row()] return before the
    first call that returns false. *)
Inductive rows_emitted : CsvReader.t C -> nat -> Prop :=
| emitted_none r n r' log :
    read_row n r = Some (false, r', log) -> rows_emitted r 0
| emitted_one_more r n r' log k :
    read_row n r = Some (true, r', log) ->
    rows_emitted r' k -> rows_emitted r (S k).

(** More rounds than a call needs change nothing. *)
Lemma read_row_more n :
  forall m (r : CsvReader.t C) x,
    read_row n r = Some x -> (n <= m)%nat -> read_row m r = Some x.
Proof.
  induction n as [|n IH]; intros m r x Hr Hle; [discriminate|].
  destruct m as [|m]; [lia|]. cbn [read_row] in *.
  destruct (try_parse _) as [rc r1]. destruct rc.
  - exact Hr.
  - destruct (read_row n _) as [[[b r'] log]|] eqn:En; [|discriminate].
    rewrite (IH m _ _ En) by lia. exact Hr.
  - destruct (fill (stream_ r1)) as [ok st]. destruct ok; [|exact Hr].
    destruct (read_row n _) as [[[b r'] log]|] eqn:En; [|discriminate].
    rewrite (IH m _ _ En) by lia. exact Hr.
Qed.

Lemma read_row_functional n m (r : CsvReader.t C) x y :
  read_row n r = Some x -> read_row m r = Some y -> x = y.
Proof.
  intros Hx Hy.
  pose proof (read_row_more n (Nat.max n m) r x Hx (Nat.le_max_l n m)) as Hx'.
  pose proof (read_row_more m (Nat.max n m) r y Hy (Nat.le_max_r n m)) as Hy'.
  congruence.
Qed.

(** The number of rows emitted is determined by the reader. *)
Lemma rows_emitted_unique (r : CsvReader.t C) a :
  rows_emitted r a -> forall b, rows_emitted r b -> a = b.
Proof.
  induction 1 as [r n r' log Hr | r n r' log k Hr Hk IH]; intros b Hb;
    inversion Hb as [r0 n0 r0' log0 Hr0 | r0 n0 r0' log0 k0 Hr0 Hk0]; subst.
  - reflexivity.
  - pose proof (read_row_functional _ _ _ _ _ Hr Hr0). discriminate.
  - pose proof (read_row_functional _ _ _ _ _ Hr Hr0). discriminate.
  - pose proof (read_row_functional _ _ _ _ _ Hr Hr0) as E.
    inversion E; subst. f_equal. apply IH. exact Hk0.
Qed.

End WithStream.

Lemma slice_skipn (m : list byte) p :
  0 <= p <= len m -> slice m p (len m) = skipn (Z.to_nat p) m.
Proof.
  intros Hp. unfold len in Hp.
  apply (nth_ext _ _ 0 0).
  - unfold slice, len. rewrite length_map, length_seq, length_skipn. lia.
  - intros i Hi. unfold slice, len in *.
    rewrite length_map, length_seq in Hi.
    rewrite (nth_indep _ 0 (peek m (p + Z.of_nat 0)))
      by (rewrite length_map, length_seq; exact Hi).
    rewrite (map_nth (fun j => peek m (p + Z.of_nat j))).
    rewrite seq_nth by exact Hi. rewrite nth_skipn, peek_nonneg by lia.
    f_equal. lia.
Qed.

(** A reader on the mapped file [data], between two calls. *)
Definition ready (data : list byte) (r : CsvReader.t MappedFileCursor.t)
  : Prop :=
  well_formed r
  /\ MappedFileCursor.mapping (stream_ r) = data
  /\ MappedFileCursor.endp_ (stream_ r) = len data
  /\ 0 <= MappedFileCursor.p_ (stream_ r) <= len data
  /\ skips_none (quoted_cell_spanner_ r) (quotechar_ r) (escapechar_ r) 0 0
                data 0 (len data)
  /\ skips_none (unquoted_cell_spanner_ r) (delimiter_ r) 13 10
                (escapechar_ r) data 0 (len data).

(** The bytes [r] has yet to read. *)
Definition rest (r : CsvReader.t MappedFileCursor.t) : list byte :=
  skipn (Z.to_nat (MappedFileCursor.p_ (stream_ r)))
        (MappedFileCursor.mapping (stream_ r)).

Definition rows_of (r : CsvReader.t MappedFileCursor.t) (l : list byte)
  : nat :=
  rows (delimiter_ r) (quotechar_ r) (escapechar_ r)
       (yield_incomplete_row_ r) NewlineSkip false l.

Definition same_dialect (r r' : CsvReader.t MappedFileCursor.t) : Prop :=
  delimiter_ r = delimiter_ r' /\ quotechar_ r = quotechar_ r'
  /\ escapechar_ r = escapechar_ r'
  /\ yield_incomplete_row_ r = yield_incomplete_row_ r'.

Lemma ready_at_buf data r :
  ready data r ->
  well_formed (at_buf r) /\ exact (at_buf r)
  /\ slice (storage (stream_ (at_buf r))) (p_ (at_buf r)) (endp_ (at_buf r))
     = rest r.
Proof.
  intros (Hwf & Hmap & Hend & Hp & Hqx & Hux).
  assert (He : endp_ (at_buf r) = len data).
  { simpl. unfold MappedFileCursor.buf, MappedFileCursor.size. lia. }
  split; [apply (well_formed_ext r); try reflexivity; apply Hwf|].
  split.
  - split; rewrite He; simpl; rewrite Hmap;
      (eapply skips_none_mono; [eassumption|]);
      unfold MappedFileCursor.buf; lia.
  - rewrite He. simpl. rewrite Hmap. unfold MappedFileCursor.buf, rest.
    rewrite Hmap. apply slice_skipn. exact Hp.
Qed.

(** One round on a mapped file: unless the cell vector overflows, the
    call returns, and it returns true exactly when the bytes left begin
    with a row, which it then removes from them. *)
Lemma round_mapped data r :
  ready data r ->
  match fst (try_parse (at_buf r)) with
  | kCsmTryParseOverflow =>
      len (CsvCursor.cells (row_ r)) <= len (rest r)
  | _ =>
      exists b r' log,
        read_row 1 r = Some (b, r', log)
        /\ ready data r' /\ same_dialect r r'
        /\ rows_of r (rest r)
           = (if b then S (rows_of r (rest r')) else 0%nat)
        /\ (b = true -> (length (rest r') < length (rest r))%nat)
  end.
Proof.
  intros Hready. destruct (ready_at_buf data r Hready) as (Hwf1 & Hex & Hsl).
  pose proof (try_parse_expect (at_buf r) Hwf1 Hex) as He. rewrite Hsl in He.
  destruct Hready as (Hwf & Hmap & Hend & Hp & Hqx & Hux).
  destruct (try_parse_same_input (at_buf r)) as [Hsame Hendp].
  destruct Hsame as (S1 & S2 & S3 & S4 & S5 & S6 & S7 & S8).
  cbn [read_row]. fold (at_buf r).
  destruct (try_parse (at_buf r)) as [rc r1] eqn:Et. simpl in S1, S2, S3, S4, S5, S6, S7, S8, Hendp, He |- *.
  assert (Hwf2 : well_formed r1).
  { apply (well_formed_ext r); try assumption. rewrite <- S8. apply Hwf. }
  assert (Hrest : len (rest r) = len data - MappedFileCursor.p_ (stream_ r)).
  { unfold rest, len. rewrite length_skipn, Hmap. unfold len in Hp. lia. }
  symmetry in He.
  destruct rc.
  - (* a row *)
    destruct (expect_okay _ _ _ _ _ _ _ _ _ _ He) as [Hq Hc].
    pose proof (rows_expect (delimiter_ r) (quotechar_ r) (escapechar_ r)
                  (yield_incomplete_row_ r)
                  (len (CsvCursor.cells (row_ r))) NewlineSkip 0
                  (MappedFileCursor.buf (stream_ r)) (rest r)
                  (Z.le_refl 0)) as Hrows.
    rewrite He in Hrows. change (0 <? 0) with false in Hrows.
    unfold MappedFileCursor.buf in *.
    do 3 eexists. split; [reflexivity|].
    assert (Hp' : MappedFileCursor.p_
                    (stream_ (set_stream
                                (MappedFileCursor.consume
                                   (p_ r1 - MappedFileCursor.p_ (stream_ r))
                                   (stream_ r1)) r1))
                  = p_ r1).
    { simpl. rewrite <- S1. rewrite Hend. lia. }
    assert (Hrest' : rest (set_stream
                             (MappedFileCursor.consume
                                (p_ r1 - MappedFileCursor.p_ (stream_ r))
                                (stream_ r1)) r1)
                     = skipn (Z.to_nat (p_ r1 - MappedFileCursor.p_ (stream_ r)))
                             (rest r)).
    { unfold rest at 1. rewrite Hp'. simpl. rewrite <- S1. unfold rest.
      rewrite skipn_skipn. f_equal. lia. }
    split; [|split; [|split]].
    + split; [apply (well_formed_ext r1); try reflexivity; apply Hwf2|].
      rewrite Hp'. simpl. rewrite <- S1, <- S2, <- S3, <- S4, <- S6, <- S7.
      repeat split; auto; lia.
    + unfold same_dialect. simpl. auto.
    + rewrite Hrest'. exact Hrows.
    + intros _. rewrite Hrest'. rewrite length_skipn.
      unfold len in Hrest, Hq. lia.
  - (* overflow *)
    destruct (Z.le_gt_cases (len (CsvCursor.cells (row_ r))) (len (rest r)))
      as [Hle|Hgt]; [exact Hle|].
    exfalso.
    apply (expect_fits (delimiter_ r) (quotechar_ r) (escapechar_ r)
             (len (CsvCursor.cells (row_ r))) NewlineSkip 0
             (MappedFileCursor.buf (stream_ r)) (rest r));
      [lia | lia | rewrite He; reflexivity].
  - (* the input ends *)
    pose proof (expect_underrun _ _ _ _ _ _ _ _ _ _ He) as Hc.
    pose proof (rows_expect (delimiter_ r) (quotechar_ r) (escapechar_ r)
                  (yield_incomplete_row_ r)
                  (len (CsvCursor.cells (row_ r))) NewlineSkip 0
                  (MappedFileCursor.buf (stream_ r)) (rest r)
                  (Z.le_refl 0)) as Hrows.
    rewrite He in Hrows. change (0 <? 0) with false in Hrows.
    unfold MappedFileCursor.buf in *.
    set (c := CsvCursor.count (row_ r1)) in *.
    destruct (negb (c =? 0) && yield_incomplete_row_ r1) eqn:Ey.
    + (* an incomplete row is yielded *)
      apply andb_prop in Ey. destruct Ey as [Ec Ey].
      assert (Hc0 : 0 < c) by (destruct (Z.eqb_spec c 0); [discriminate | lia]).
      do 3 eexists. split; [reflexivity|].
      rewrite (set_stream_same r1).
      assert (Hp' : MappedFileCursor.p_
                      (stream_ (set_stream
                                  (MappedFileCursor.consume
                                     (endp_ r1 - MappedFileCursor.p_ (stream_ r))
                                     (stream_ r1)) r1))
                    = len data).
      { simpl. rewrite <- S1. rewrite Hend, Hendp.
        unfold MappedFileCursor.size. lia. }
      assert (Hrest' : rest (set_stream
                               (MappedFileCursor.consume
                                  (endp_ r1 - MappedFileCursor.p_ (stream_ r))
                                  (stream_ r1)) r1)
                       = []).
      { unfold rest at 1. rewrite Hp'. simpl. rewrite <- S1, Hmap.
        apply skipn_all2. unfold len. lia. }
      split; [|split; [|split]].
      * split; [apply (well_formed_ext r1); try reflexivity; apply Hwf2|].
        rewrite Hp'. simpl. rewrite <- S1, <- S2, <- S3, <- S4, <- S6, <- S7.
        repeat split; auto; lia.
      * unfold same_dialect. simpl. auto.
      * rewrite Hrest'. unfold rows_of. rewrite Hrows, S5, Ey.
        replace (0 <? c) with true by (symmetry; apply Z.ltb_lt; exact Hc0).
        cbn [rows]. rewrite andb_false_r. reflexivity.
      * intros _. rewrite Hrest'. destruct (rest r) as [|b0 t] eqn:Er.
        -- cbn [expect] in He. inversion He. lia.
        -- simpl. lia.
    + (* nothing is left *)
      do 3 eexists. split; [reflexivity|].
      rewrite (set_stream_same r1).
      split; [|split; [|split]].
      * split; [apply (well_formed_ext r1); try reflexivity; apply Hwf2|].
        simpl. rewrite <- S1, <- S2, <- S3, <- S4, <- S6, <- S7.
        repeat split; auto; lia.
      * unfold same_dialect. simpl. auto.
      * unfold rows_of. rewrite Hrows, S5.
        destruct (yield_incomplete_row_ r1); [|reflexivity].
        rewrite andb_true_r in Ey. destruct (Z.eqb_spec c 0) as [->|];
          [reflexivity | discriminate].
      * discriminate.
Qed.

(** One call on a mapped file, with the rounds it takes to make room for
    the cells of the row. *)
Lemma read_row_mapped data k :
  forall r,
    ready data r ->
    (Z.to_nat (len (rest r) + 1 - len (CsvCursor.cells (row_ r))) <= k)%nat ->
    exists n b r' log,
      read_row n r = Some (b, r', log)
      /\ ready data r' /\ same_dialect r r'
      /\ rows_of r (rest r)
         = (if b then S (rows_of r (rest r')) else 0%nat)
      /\ (b = true -> (length (rest r') < length (rest r))%nat).
Proof.
  induction k as [|k IH]; intros r Hready Hk;
    pose proof (round_mapped data r Hready) as Hround;
    destruct (fst (try_parse (at_buf r))) eqn:Erc;
    try (destruct Hround as (b & r' & log & Hrr & Hrest);
         exists 1%nat, b, r', log; split; [exact Hrr | exact Hrest]).
  - (* no room is missing *)
    exfalso. destruct Hready as ((Hpos & _) & _). lia.
  - (* overflow: double and go round again *)
    destruct (try_parse_same_input (at_buf r)) as [Hsame Hendp].
    destruct Hsame as (S1 & S2 & S3 & S4 & S5 & S6 & S7 & S8).
    destruct (try_parse (at_buf r)) as [rc r1] eqn:Et.
    simpl in S1, S2, S3, S4, S5, S6, S7, S8, Hendp, Erc. subst rc.
    destruct Hready as (Hwf & Hmap & Hend & Hp & Hqx & Hux).
    pose proof Hwf as [Hpos _].
    set (c := 2 * len (CsvCursor.cells (row_ r1))).
    assert (Hlen : len (CsvCursor.cells (row_ (resize_cells c r1))) = c).
    { apply len_resize_cells. unfold c. lia. }
    assert (Hready2 : ready data (resize_cells c r1)).
    { split.
      - apply (well_formed_ext r); try assumption. rewrite Hlen. unfold c. lia.
      - simpl. rewrite <- S1, <- S2, <- S3, <- S4, <- S6, <- S7.
        repeat split; auto; lia. }
    assert (Hrest2 : rest (resize_cells c r1) = rest r).
    { unfold rest. simpl. rewrite <- S1. reflexivity. }
    destruct (IH (resize_cells c r1) Hready2)
      as (n & b & r' & log & Hrr & Hr' & Hd & Hrows & Hshort).
    { rewrite Hlen, Hrest2. unfold c. lia. }
    exists (S n), b, r'.
    eexists. split.
    { cbn [read_row]. fold (at_buf r). rewrite Et. cbn iota beta.
      fold c. rewrite Hrr. reflexivity. }
    split; [exact Hr'|]. rewrite Hrest2 in *.
    destruct Hd as (D1 & D2 & D3 & D4). simpl in D1, D2, D3, D4.
    split; [unfold same_dialect; repeat split; congruence|].
    split; [|exact Hshort].
    unfold rows_of in *. simpl in Hrows.
    rewrite S2, S3, S4, S5. exact Hrows.
Qed.


(** The calls on a mapped file return one row for each row of the bytes
    left, and then false. *)
Lemma rows_emitted_mapped data m :
  forall r,
    ready data r -> (length (rest r) <= m)%nat ->
    rows_emitted r (rows_of r (rest r)).
Proof.
  induction m as [|m IH]; intros r Hready Hm;
    destruct (read_row_mapped data _ r Hready (Nat.le_refl _))
      as (n & b & r' & log & Hrr & Hr' & Hd & Hrows & Hshort);
    rewrite Hrows; destruct b.
  - specialize (Hshort eq_refl). lia.
  - exact (emitted_none r n r' log Hrr).
  - apply (emitted_one_more r n r' log _ Hrr).
    replace (rows_of r (rest r')) with (rows_of r' (rest r')).
    + apply IH; [exact Hr'|]. specialize (Hshort eq_refl). lia.
    + destruct Hd as (D1 & D2 & D3 & D4). unfold rows_of.
      rewrite D1, D2, D3, D4. reflexivity.
  - exact (emitted_none r n r' log Hrr).
Qed.

(** A reader just built on a mapped file is [ready]: always with the
    scalar spanner, and with the vector spanner when the file holds no
    zero byte, the delimiter is not zero and an escape character comes
    with a quote character. *)
Lemma new_ready sse data c d q e y r :
  MappedFileCursor.open data = Some c ->
  CsvReader.new sse c d q e y = Some r ->
  (sse = true ->
   d <> 0 /\ (q = 0 -> e = 0) /\ forall b, In b data -> b <> 0) ->
  ready data r /\ rest r = data
  /\ delimiter_ r = d /\ quotechar_ r = q /\ escapechar_ r = e
  /\ yield_incomplete_row_ r = y.
Proof.
  intros Hopen Hnew Hsse.
  pose proof (new_well_formed _ _ _ _ _ _ _ Hnew) as Hwf.
  assert (Hc : c = MappedFileCursor.mk data (len data) 0).
  { unfold MappedFileCursor.open in Hopen.
    destruct data; inversion Hopen; reflexivity. }
  subst c. unfold CsvReader.new in Hnew.
  destruct (Spanner.new sse q e 0 0) as [qs|] eqn:Eq; [|discriminate].
  destruct (Spanner.new sse d 13 10 e) as [us|] eqn:Eu; [|discriminate].
  inversion Hnew; subst r; clear Hnew.
  split; [|simpl; auto 10].
  split; [exact Hwf|]. simpl. unfold len.
  split; [reflexivity|]. split; [reflexivity|]. split; [lia|].
  destruct sse.
  - destruct (Hsse eq_refl) as (Hd & Hqe & Hnz).
    assert (Hpeek : forall i, 0 <= i < Z.of_nat (length data) ->
                              peek data i <> 0).
    { intros i Hi. rewrite peek_nonneg by lia. apply Hnz, nth_In. lia. }
    split; (eapply sse42_skips_none; [|eassumption|exact Hpeek]);
      unfold padded; repeat split; intros; try lia; auto.
  - split; eapply fallback_skips_none; eassumption.
Qed.

End CountFacts.

Module CursorFacts.

(** [x & (2^k - 1)] and [x & ~(2^k - 1)] on 64 bits split [x] at bit [k]. *)
Lemma land_page_mask k x :
  0 <= k -> Z.land x (2 ^ k - 1) = x mod 2 ^ k.
Proof.
  intros Hk. rewrite <- Z.land_ones by exact Hk. rewrite Z.ones_equiv.
  rewrite Z.sub_1_r. reflexivity.
Qed.

Lemma land_not_page_mask k x :
  0 <= k <= 64 -> 0 <= x < 2 ^ 64 ->
  Z.land x (Z.lxor (2 ^ k - 1) (2 ^ 64 - 1)) = x - x mod 2 ^ k.
Proof.
  intros Hk Hx.
  assert (E : Z.lxor (2 ^ k - 1) (2 ^ 64 - 1) = Z.ldiff (Z.ones 64) (Z.ones k)).
  { rewrite !Z.ones_equiv, !Z.sub_1_r. apply Z.bits_inj'. intros n Hn.
    rewrite Z.lxor_spec, Z.ldiff_spec.
    change (Z.pred (2 ^ 64)) with (Z.ones 64).
    replace (Z.pred (2 ^ k)) with (Z.ones k)
      by (rewrite Z.ones_equiv; reflexivity).
    destruct (Z.ltb_spec n k) as [Hnk|Hnk].
    - rewrite (Z.ones_spec_low k n) by lia.
      rewrite (Z.ones_spec_low 64 n) by lia. reflexivity.
    - rewrite (Z.ones_spec_high k n) by lia.
      destruct (Z.testbit (Z.ones 64) n); reflexivity. }
  rewrite E. apply Z.bits_inj'. intros n Hn.
  rewrite Z.land_spec, Z.ldiff_spec.
  assert (Ex : x - x mod 2 ^ k = Z.shiftl (Z.shiftr x k) k).
  { rewrite Z.shiftl_mul_pow2, Z.shiftr_div_pow2 by lia.
    pose proof (Z.div_mod x (2 ^ k)) as D.
    assert (0 < 2 ^ k) by (apply Z.pow_pos_nonneg; lia). lia. }
  rewrite Ex.
  destruct (Z.ltb_spec n k) as [Hnk|Hnk].
  - rewrite (Z.ones_spec_low k n) by lia.
    rewrite Z.shiftl_spec_low by lia.
    rewrite andb_false_r, andb_false_r. reflexivity.
  - rewrite (Z.ones_spec_high k n) by lia.
    rewrite Z.shiftl_spec by lia. rewrite Z.shiftr_spec by lia.
    replace (n - k + k) with n by lia.
    destruct (Z.ltb_spec n 64) as [H64|H64].
    + rewrite (Z.ones_spec_low 64 n) by lia. simpl. apply andb_true_r.
    + rewrite (Z.ones_spec_high 64 n) by lia. simpl. rewrite andb_false_r.
      symmetry. apply Z.bits_above_log2; [lia|].
      destruct (Z.eq_dec x 0) as [->|Hx0]; [simpl; lia|].
      apply Z.log2_lt_pow2; [lia|].
      apply Z.lt_le_trans with (2 ^ 64); [lia|].
      apply Z.pow_le_mono_r; lia.
Qed.

Lemma rounded_spec k st_size :
  0 <= k -> 0 <= st_size -> st_size + 2 ^ k < 2 ^ 64 ->
  let r := MappedFileCursor.rounded (2 ^ k) st_size in
  r mod 2 ^ k = 0 /\ st_size <= r < st_size + 2 ^ k.
Proof.
  intros Hk Hs Hfit r. subst r. unfold MappedFileCursor.rounded.
  assert (Hp : 0 < 2 ^ k) by (apply Z.pow_pos_nonneg; lia).
  assert (Hk64 : k <= 64).
  { destruct (Z.le_gt_cases k 64) as [L|G]; [exact L|].
    assert (2 ^ 64 <= 2 ^ k) by (apply Z.pow_le_mono_r; lia). lia. }
  rewrite (Z.mod_small (2 ^ k - 1)) by lia.
  rewrite land_page_mask by exact Hk.
  rewrite land_not_page_mask by lia.
  pose proof (Z.mod_pos_bound st_size (2 ^ k) Hp) as Hm.
  destruct (Z.eqb_spec (st_size mod 2 ^ k) 0) as [E|E]; cbn [negb].
  - split; [exact E | lia].
  - rewrite (Z.mod_small (st_size - st_size mod 2 ^ k + 2 ^ k)) by lia.
    split; [|lia].
    pose proof (Z.div_mod st_size (2 ^ k)) as D.
    replace (st_size - st_size mod 2 ^ k + 2 ^ k)
      with ((st_size / 2 ^ k + 1) * 2 ^ k) by lia.
    apply Z.mod_mul. lia.
Qed.

(** *** The buffered cursor *)

Import BufferedStreamCursor.

(** The positions are in order and inside the vector. *)
Definition well_formed (c : BufferedStreamCursor.t) : Prop :=
  0 <= read_pos_ c <= write_pos_ c /\ write_pos_ c <= len (vec_ c).

(** The unread bytes: the [size()] bytes at [buf()]. *)
Definition unread (c : BufferedStreamCursor.t) : list byte :=
  firstn (Z.to_nat (write_pos_ c - read_pos_ c))
         (skipn (Z.to_nat (read_pos_ c)) (vec_ c)).

(** The bytes a descriptor has yet to deliver. *)
Fixpoint to_come (fd : Fd.t) : list byte :=
  match fd with
  | [] => []
  | Fd.Data bs :: rest => bs ++ to_come rest
  | Fd.Fail :: rest => to_come rest
  end.

Lemma len_app {A} (a b : list A) : len (a ++ b) = len a + len b.
Proof. unfold len. rewrite length_app. lia. Qed.

Lemma len_firstn {A} (l : list A) n :
  0 <= n <= len l -> len (firstn (Z.to_nat n) l) = n.
Proof. unfold len. intros Hn. rewrite length_firstn. lia. Qed.

Lemma len_skipn {A} (l : list A) n :
  0 <= n <= len l -> len (skipn (Z.to_nat n) l) = len l - n.
Proof. unfold len. intros Hn. rewrite length_skipn. lia. Qed.

Lemma len_nonneg {A} (l : list A) : 0 <= len l.
Proof. unfold len. lia. Qed.

Lemma len_unread c : well_formed c -> len (unread c) = write_pos_ c - read_pos_ c.
Proof.
  intros [Hr Hw]. unfold unread. apply len_firstn.
  rewrite len_skipn by lia. lia.
Qed.

Lemma len_resize (v : list byte) n : 0 <= n -> len (resize v n) = n.
Proof.
  intros Hn. unfold resize, len. rewrite length_app, length_firstn, repeat_length.
  unfold len. lia.
Qed.

Lemma resize_prefix (v : list byte) n :
  len v <= n -> firstn (length v) (resize v n) = v.
Proof.
  intros Hn. unfold resize. unfold len in Hn.
  rewrite (firstn_all2 (n:=Z.to_nat n)) by lia.
  rewrite firstn_app, Nat.sub_diag, firstn_all. simpl. apply app_nil_r.
Qed.

(** Bytes below [k] are those of a prefix of length [k]. *)
Lemma unread_prefix (v v' : list byte) r w :
  0 <= r <= w -> w <= len v ->
  firstn (Z.to_nat w) v' = firstn (Z.to_nat w) v ->
  firstn (Z.to_nat (w - r)) (skipn (Z.to_nat r) v')
  = firstn (Z.to_nat (w - r)) (skipn (Z.to_nat r) v).
Proof.
  intros Hr Hw E.
  rewrite !firstn_skipn_comm.
  replace (Z.to_nat r + Z.to_nat (w - r))%nat with (Z.to_nat w) by lia.
  rewrite E. reflexivity.
Qed.

Lemma ensure_spec capacity c :
  0 <= capacity -> well_formed c ->
  well_formed (ensure capacity c)
  /\ read_pos_ (ensure capacity c) = read_pos_ c
  /\ write_pos_ (ensure capacity c) = write_pos_ c
  /\ firstn (length (vec_ c)) (vec_ (ensure capacity c)) = vec_ c
  /\ capacity <= len (vec_ (ensure capacity c)) - write_pos_ c
  /\ (len (vec_ (ensure capacity c)) = len (vec_ c)
      \/ len (vec_ (ensure capacity c)) = 16 + (len (vec_ c) + capacity)).
Proof.
  intros Hc [Hr Hw]. unfold ensure.
  pose proof (len_nonneg (vec_ c)) as Hl.
  destruct (Z.ltb_spec (len (vec_ c) - write_pos_ c) capacity) as [Lt|Ge];
    cbn [vec_ read_pos_ write_pos_].
  - rewrite len_resize by lia. rewrite resize_prefix by lia.
    unfold well_formed; cbn [vec_ read_pos_ write_pos_].
    rewrite len_resize by lia. repeat split; lia.
  - rewrite firstn_all. repeat split; lia.
Qed.

Lemma ensure_unread capacity c :
  0 <= capacity -> well_formed c -> unread (ensure capacity c) = unread c.
Proof.
  intros Hc Hwf.
  destruct (ensure_spec capacity c Hc Hwf) as (_ & Er & Ew & Ev & _).
  unfold unread. rewrite Er, Ew. destruct Hwf as [Hr Hw].
  apply unread_prefix; [lia | lia |].
  transitivity (firstn (Z.to_nat (write_pos_ c))
                       (firstn (length (vec_ c))
                               (vec_ (ensure capacity c))));
    [|rewrite Ev; reflexivity].
  rewrite firstn_firstn. f_equal. unfold len in Hw. lia.
Qed.

(** The first step of [fill()]: the unread bytes move to the front. *)
Definition compact (c : BufferedStreamCursor.t) : BufferedStreamCursor.t :=
  if read_pos_ c =? 0 then c
  else {| vec_ := memcpy (vec_ c) 0 (read_pos_ c)
                         (write_pos_ c - read_pos_ c);
          read_pos_ := 0;
          write_pos_ := write_pos_ c - read_pos_ c |}.

Lemma compact_spec c :
  well_formed c ->
  well_formed (compact c) /\ read_pos_ (compact c) = 0
  /\ unread (compact c) = unread c
  /\ len (vec_ (compact c)) = len (vec_ c).
Proof.
  intros [Hr Hw]. unfold compact.
  destruct (Z.eqb_spec (read_pos_ c) 0) as [E|E].
  - repeat split; lia.
  - cbn [vec_ read_pos_ write_pos_]. unfold memcpy.
    change (Z.to_nat 0) with 0%nat. rewrite firstn_O, app_nil_l, Z.add_0_l.
    assert (L : len (firstn (Z.to_nat (write_pos_ c - read_pos_ c))
                       (skipn (Z.to_nat (read_pos_ c)) (vec_ c))
                     ++ skipn (Z.to_nat (write_pos_ c - read_pos_ c)) (vec_ c))
                = len (vec_ c)).
    { rewrite len_app, len_firstn, len_skipn; try lia.
      rewrite len_skipn by lia. lia. }
    unfold well_formed. cbn [vec_ read_pos_ write_pos_]. rewrite L.
    repeat split; try lia.
    unfold unread. cbn [vec_ read_pos_ write_pos_].
    change (Z.to_nat 0) with 0%nat. rewrite skipn_O, Z.sub_0_r.
    rewrite firstn_app, firstn_firstn, Nat.min_id.
    assert (Hn : length (firstn (Z.to_nat (write_pos_ c - read_pos_ c))
                          (skipn (Z.to_nat (read_pos_ c)) (vec_ c)))
                 = Z.to_nat (write_pos_ c - read_pos_ c)).
    { rewrite length_firstn, length_skipn. unfold len in Hw. lia. }
    rewrite Hn, Nat.sub_diag, firstn_O, app_nil_r. reflexivity.
Qed.

Lemma read_spec fd count :
  0 <= count ->
  let '(rc, bs, fd') := Fd.read fd count in
  to_come fd = bs ++ to_come fd'
  /\ ((rc = -1 /\ bs = []) \/ (rc = len bs /\ len bs <= count)).
Proof.
  intros Hc. destruct fd as [|[bs|] rest]; cbn [Fd.read].
  - split; [reflexivity|]. right. split; [reflexivity | exact Hc].
  - destruct (Z.leb_spec (len bs) count) as [Le|Gt].
    + split; [reflexivity|]. right. split; [reflexivity | exact Le].
    + cbn [to_come]. rewrite app_assoc, firstn_skipn.
      split; [reflexivity|]. right.
      rewrite len_firstn by lia. lia.
  - split; [reflexivity|]. left. split; reflexivity.
Qed.

Lemma read_data bs rest count :
  0 < count -> bs <> [] ->
  0 < fst (fst (Fd.read (Fd.Data bs :: rest) count)).
Proof.
  intros Hc Hbs. cbn [Fd.read].
  assert (0 < len bs) by (destruct bs; [congruence | unfold len; simpl; lia]).
  destruct (Z.leb_spec (len bs) count); cbn [fst]; lia.
Qed.

(** [readmore()] of the descriptor cursor: the bytes it reads land at
    [write_pos_], nothing else changes. *)
Lemma readmore_spec c fd :
  well_formed c ->
  let '(rc, c', fd') := FdStreamCursor.readmore c fd in
  read_pos_ c' = read_pos_ c /\ write_pos_ c' = write_pos_ c
  /\ len (vec_ c') = len (vec_ c)
  /\ exists bs,
      to_come fd = bs ++ to_come fd'
      /\ ((rc = -1 /\ bs = []) \/ rc = len bs)
      /\ write_pos_ c + len bs <= len (vec_ c)
      /\ firstn (Z.to_nat (write_pos_ c + len bs)) (vec_ c')
         = firstn (Z.to_nat (write_pos_ c)) (vec_ c) ++ bs.
Proof.
  intros [Hr Hw]. unfold FdStreamCursor.readmore.
  pose proof (read_spec fd (len (vec_ c) - write_pos_ c)) as R.
  destruct (Fd.read fd (len (vec_ c) - write_pos_ c)) as [[rc bs] fd'].
  specialize (R ltac:(lia)). destruct R as [Ec Hrc].
  cbn [vec_ read_pos_ write_pos_].
  assert (Hb : write_pos_ c + len bs <= len (vec_ c)).
  { destruct Hrc as [[_ ->]|[_ Hle]]; [change (len (@nil Z)) with 0; lia | lia]. }
  pose proof (len_nonneg bs) as Hbs.
  split; [reflexivity|]. split; [reflexivity|]. split.
  - rewrite !len_app, len_firstn, len_skipn by lia. lia.
  - exists bs. split; [exact Ec|]. split.
    { destruct Hrc as [H|[H _]]; [left; exact H | right; exact H]. }
    split; [exact Hb|].
    rewrite app_assoc. rewrite firstn_app.
    assert (Hn : length (firstn (Z.to_nat (write_pos_ c)) (vec_ c) ++ bs)
                 = Z.to_nat (write_pos_ c + len bs)).
    { rewrite length_app, length_firstn. unfold len in *. lia. }
    rewrite Hn, Nat.sub_diag, firstn_O, app_nil_r.
    rewrite <- Hn. apply firstn_all.
Qed.

(** [fill()] up to the call of [readmore()]: the unread bytes are at the
    front, and a vector they fill is enlarged. *)
Definition prepared (c : BufferedStreamCursor.t) : BufferedStreamCursor.t :=
  let c := compact c in
  if write_pos_ c =? len (vec_ c) then ensure (len (vec_ c) / 2) c else c.

Lemma fill_prepared c fd :
  FdStreamCursor.fill (c, fd)
  = let '(rc, c', fd') := FdStreamCursor.readmore (prepared c) fd in
    if rc =? -1 then (false, (c', fd'))
    else (0 <? write_pos_ c' + rc,
          ({| vec_ := vec_ c'; read_pos_ := read_pos_ c';
              write_pos_ := write_pos_ c' + rc |}, fd')).
Proof. reflexivity. Qed.

Lemma prepared_spec c :
  well_formed c ->
  well_formed (prepared c) /\ read_pos_ (prepared c) = 0
  /\ write_pos_ (prepared c) = write_pos_ c - read_pos_ c
  /\ unread (prepared c) = unread c
  /\ len (vec_ (prepared c))
     = (if write_pos_ c - read_pos_ c =? len (vec_ c)
        then (if 0 <? len (vec_ c) / 2
              then 16 + (len (vec_ c) + len (vec_ c) / 2)
              else len (vec_ c))
        else len (vec_ c)).
Proof.
  intros Hwf. destruct (compact_spec c Hwf) as (Hwf1 & Hr1 & Hu1 & Hl1).
  assert (Hw1 : write_pos_ (compact c) = write_pos_ c - read_pos_ c).
  { unfold compact. destruct (Z.eqb_spec (read_pos_ c) 0) as [E|E];
      cbn [write_pos_]; lia. }
  unfold prepared. cbv zeta. rewrite Hw1, Hl1.
  pose proof (len_nonneg (vec_ c)) as Hl.
  assert (Hh : 0 <= len (vec_ c) / 2) by (apply Z.div_pos; lia).
  destruct (Z.eqb_spec (write_pos_ c - read_pos_ c) (len (vec_ c))) as [E|E].
  - destruct (ensure_spec (len (vec_ c) / 2) (compact c) Hh Hwf1)
      as (Hwf2 & Hr2 & Hw2 & _ & _ & _).
    split; [exact Hwf2|]. split; [congruence|]. split; [congruence|].
    split; [rewrite ensure_unread by assumption; exact Hu1|].
    unfold ensure. rewrite Hw1, Hl1, E, Z.sub_diag.
    destruct (Z.ltb_spec 0 (len (vec_ c) / 2));
      cbn [vec_]; [apply len_resize; lia | exact Hl1].
  - repeat split; try assumption; apply Hwf1.
Qed.

(** What one [fill()] of the descriptor cursor does, with the bytes [bs]
    that its [read()] delivered and the result [rc] of that call. *)
Lemma fill_spec c fd :
  well_formed c ->
  exists rc bs c' fd',
    FdStreamCursor.readmore (prepared c) fd = (rc, c', fd')
    /\ to_come fd = bs ++ to_come fd'
    /\ ((rc = -1 /\ bs = []
         /\ FdStreamCursor.fill (c, fd) = (false, (c', fd'))
         /\ well_formed c' /\ read_pos_ c' = 0 /\ unread c' = unread c)
        \/ (rc = len bs
            /\ exists c'',
                FdStreamCursor.fill (c, fd)
                = (0 <? len (unread c) + len bs, (c'', fd'))
                /\ well_formed c'' /\ read_pos_ c'' = 0
                /\ unread c'' = unread c ++ bs))
    /\ len (vec_ c') = len (vec_ (prepared c)).
Proof.
  intros Hwf. destruct (prepared_spec c Hwf) as (Hwf2 & Hr2 & Hw2 & Hu2 & _).
  pose proof (readmore_spec (prepared c) fd Hwf2) as R.
  rewrite fill_prepared.
  destruct (FdStreamCursor.readmore (prepared c) fd) as [[rc c'] fd'].
  destruct R as (Hr3 & Hw3 & Hl3 & bs & Ec & Hrc & Hfit & Hv).
  exists rc, bs, c', fd'. split; [reflexivity|]. split; [exact Ec|].
  split; [|exact Hl3].
  pose proof (len_nonneg bs) as Hbs.
  pose proof (len_unread c Hwf) as Lu.
  destruct Hwf2 as [Hrw2 Hwl2].
  assert (Hprefix : forall k, 0 <= k -> k <= len bs ->
            firstn (Z.to_nat (write_pos_ (prepared c) + k)) (vec_ c')
            = firstn (Z.to_nat (write_pos_ (prepared c))) (vec_ (prepared c))
              ++ firstn (Z.to_nat k) bs).
  { intros k Hk0 Hk.
    replace (Z.to_nat (write_pos_ (prepared c) + k))
      with (Nat.min (Z.to_nat (write_pos_ (prepared c) + k))
                    (Z.to_nat (write_pos_ (prepared c) + len bs))) by lia.
    rewrite <- firstn_firstn, Hv, firstn_app, length_firstn.
    rewrite firstn_firstn. unfold len in Hwl2.
    f_equal; f_equal; lia. }
  assert (Hun : forall k, 0 <= k -> k <= len bs ->
            firstn (Z.to_nat (write_pos_ (prepared c) + k))
                   (vec_ c')
            = unread c ++ firstn (Z.to_nat k) bs).
  { intros k Hk0 Hk. rewrite Hprefix by assumption. f_equal.
    rewrite <- Hu2. unfold unread. rewrite Hr2.
    change (Z.to_nat 0) with 0%nat. rewrite skipn_O, Z.sub_0_r.
    reflexivity. }
  destruct Hrc as [[-> ->] | ->].
  - left. change (-1 =? -1) with true. cbv iota.
    split; [reflexivity|]. split; [reflexivity|]. split; [reflexivity|].
    split; [split; [lia | rewrite Hw3, Hl3; exact Hwl2]|].
    split; [congruence|].
    unfold unread at 1. rewrite Hr3, Hw3, Hr2.
    change (Z.to_nat 0) with 0%nat. rewrite skipn_O, Z.sub_0_r.
    specialize (Hun 0 ltac:(lia) ltac:(lia)).
    rewrite Z.add_0_r in Hun. rewrite Hun.
    change (Z.to_nat 0) with 0%nat. rewrite firstn_O. apply app_nil_r.
  - right. split; [reflexivity|].
    destruct (Z.eqb_spec (len bs) (-1)) as [E|_]; [lia|].
    exists {| vec_ := vec_ c'; read_pos_ := read_pos_ c';
              write_pos_ := write_pos_ c' + len bs |}.
    split.
    { rewrite Lu, <- Hw2, <- Hw3. reflexivity. }
    split; [split; cbn [vec_ read_pos_ write_pos_]; lia|].
    split; [cbn [read_pos_]; congruence|].
    unfold unread at 1. cbn [vec_ read_pos_ write_pos_]. rewrite Hr3, Hw3, Hr2.
    change (Z.to_nat 0) with 0%nat. rewrite skipn_O, Z.sub_0_r.
    rewrite (Hun (len bs)) by lia. unfold len. rewrite Nat2Z.id, firstn_all.
    reflexivity.
Qed.

End CursorFacts.

(** ** More on the vector spanner *)

Module Sse42Facts.

Import StringSpannerSse42 SpannerFacts.

(** An index [_mm_cmpistri] returns lies before the first zero lane of
    its second operand. *)
Lemma mm_cmpistri_before_nul a b i :
  mm_cmpistri a b < 16 -> 0 <= i <= mm_cmpistri a b -> peek b i <> 0.
Proof.
  unfold mm_cmpistri. set (va := valid (firstn 16 a)).
  set (vb := valid (firstn 16 b)). intros Hk Hi.
  assert (Hlen : 0 + len vb <= 16).
  { unfold len, vb, valid. rewrite !length_firstn. lia. }
  destruct (first_selected_spec va vb 0 Hlen) as (R & _ & _).
  destruct R as [R|R]; [lia|]. unfold len in R.
  destruct (valid_nth (firstn 16 b) (Z.to_nat i)) as [_ Hnz];
    [fold vb; lia|].
  rewrite nth_firstn_lt in Hnz.
  - rewrite peek_nonneg by lia. exact Hnz.
  - unfold vb, valid in R. rewrite !length_firstn in R. lia.
Qed.

End Sse42Facts.

(** ** What a reader sees of a cursor *)

Module CursorView.

Import SimFacts CursorFacts.

(** The [size()] bytes at [buf()]. *)
Definition visible {C} `{StreamCursor C} (st : C) : list byte :=
  slice (storage st) (buf st) (buf st + size st).

Lemma slice_skip s e n :
  forall p, slice s (p + Z.of_nat n) e = skipn n (slice s p e).
Proof.
  induction n as [|n IH]; intros p.
  - rewrite Z.add_0_r. reflexivity.
  - destruct (Z.lt_ge_cases p e) as [Lt|Ge].
    + rewrite (slice_cons s p e Lt). cbn [skipn]. rewrite <- IH.
      f_equal. lia.
    + rewrite !slice_nil by lia. reflexivity.
Qed.

Lemma slice_firstn s e e' k :
  forall p, e <= e' -> k = Z.to_nat (e - p) ->
            slice s p e = firstn k (slice s p e').
Proof.
  induction k as [|k IH]; intros p He Hk.
  - rewrite slice_nil by lia. reflexivity.
  - rewrite (slice_cons s p e) by lia. rewrite (slice_cons s p e') by lia.
    cbn [firstn]. f_equal. apply IH; lia.
Qed.

Lemma slice_inside s p e :
  0 <= p <= e -> e <= len s ->
  slice s p e = firstn (Z.to_nat (e - p)) (skipn (Z.to_nat p) s).
Proof.
  intros Hp He. rewrite <- CountFacts.slice_skipn by lia.
  apply slice_firstn; [exact He | reflexivity].
Qed.

Lemma visible_unread (c : FdStreamCursor.t) :
  well_formed (fst c) -> visible c = unread (fst c).
Proof.
  intros [Hr Hw]. unfold visible, unread. cbn [storage buf size].
  cbn [FdStreamCursor_StreamCursor storage buf size].
  unfold BufferedStreamCursor.buf, BufferedStreamCursor.size.
  rewrite slice_inside by lia. f_equal. f_equal. lia.
Qed.

Lemma mapped_consume (c : MappedFileCursor.t) n :
  0 <= n -> 0 <= size c ->
  visible (consume n c) = skipn (Z.to_nat n) (visible c)
  /\ size (consume n c) = Z.max 0 (size c - n)
  /\ storage (consume n c) = storage c.
Proof.
  intros Hn Hs. unfold visible.
  cbn [MappedFileCursor_StreamCursor storage buf size consume] in *.
  unfold MappedFileCursor.size, MappedFileCursor.buf, MappedFileCursor.consume
    in *.
  cbn [MappedFileCursor.mapping MappedFileCursor.endp_ MappedFileCursor.p_].
  split; [|split; [lia | reflexivity]].
  replace (MappedFileCursor.p_ c + (MappedFileCursor.endp_ c
                                    - MappedFileCursor.p_ c))
    with (MappedFileCursor.endp_ c) by lia.
  replace (MappedFileCursor.p_ c
           + Z.min n (MappedFileCursor.endp_ c - MappedFileCursor.p_ c)
           + (MappedFileCursor.endp_ c
              - (MappedFileCursor.p_ c
                 + Z.min n (MappedFileCursor.endp_ c
                            - MappedFileCursor.p_ c))))
    with (MappedFileCursor.endp_ c) by lia.
  destruct (Z.le_gt_cases n (MappedFileCursor.endp_ c - MappedFileCursor.p_ c))
    as [Le|Gt].
  - rewrite Z.min_l by exact Le.
    replace n with (Z.of_nat (Z.to_nat n)) at 1 by lia.
    rewrite <- slice_skip. reflexivity.
  - rewrite Z.min_r by lia. rewrite slice_nil by lia.
    symmetry. apply skipn_all2.
    pose proof (len_slice (MappedFileCursor.mapping c)
                  (MappedFileCursor.p_ c) (MappedFileCursor.endp_ c)) as L.
    unfold len in L. lia.
Qed.

(** [consume(n)] of the buffered cursor drops the first [n] unread bytes,
    all of them when there are fewer. *)
Lemma buffered_consume (c : FdStreamCursor.t) (n : Z) :
  0 <= n -> CursorFacts.well_formed (fst c) ->
  visible (consume n c)
  = skipn (Z.to_nat n) (visible c)
  /\ size (consume n c) = Z.max 0 (size c - n)
  /\ storage (consume n c) = storage c
  /\ CursorFacts.well_formed (fst (consume n c)).
Proof.
  intros Hn Hwf.
  assert (Hwf' : well_formed (fst (consume n c))).
  { destruct Hwf as [Hr Hw]. split;
      cbn [FdStreamCursor_StreamCursor consume fst];
      unfold BufferedStreamCursor.consume;
      cbn [BufferedStreamCursor.vec_ BufferedStreamCursor.read_pos_
           BufferedStreamCursor.write_pos_]; lia. }
  rewrite (visible_unread c Hwf).
  rewrite (visible_unread _ Hwf').
  destruct Hwf as [Hr Hw].
  cbn [FdStreamCursor_StreamCursor storage size consume fst].
  unfold BufferedStreamCursor.size, BufferedStreamCursor.consume,
    unread.
  cbn [BufferedStreamCursor.vec_ BufferedStreamCursor.read_pos_
       BufferedStreamCursor.write_pos_].
  split; [|split; [lia | split; [reflexivity | exact Hwf']]].
  set (r := BufferedStreamCursor.read_pos_ (fst c)) in *.
  set (w := BufferedStreamCursor.write_pos_ (fst c)) in *.
  set (v := BufferedStreamCursor.vec_ (fst c)) in *.
  rewrite skipn_firstn_comm, skipn_skipn.
  unfold len in Hw.
  destruct (Z.le_gt_cases n (w - r)) as [Le|Gt].
  - rewrite Z.min_l by exact Le. f_equal; [lia|]. f_equal. lia.
  - rewrite Z.min_r by lia.
    replace (Z.to_nat (w - (r + (w - r)))) with 0%nat by lia.
    replace (Z.to_nat (w - r) - Z.to_nat n)%nat with 0%nat by lia.
    reflexivity.
Qed.

(** The result of [readmore()] is that of its [read()], called with the
    room left in the vector. *)
Lemma readmore_read c fd :
  let '(rc, _, fd') := FdStreamCursor.readmore c fd in
  rc = fst (fst (Fd.read fd (len (BufferedStreamCursor.vec_ c)
                             - BufferedStreamCursor.write_pos_ c)))
  /\ fd' = snd (Fd.read fd (len (BufferedStreamCursor.vec_ c)
                            - BufferedStreamCursor.write_pos_ c)).
Proof.
  unfold FdStreamCursor.readmore.
  destruct (Fd.read fd _) as [[rc bs] fd']. split; reflexivity.
Qed.

(** After the preparation there is room for at least one byte. *)
Lemma prepared_room c :
  well_formed c -> 2 <= len (BufferedStreamCursor.vec_ c) ->
  0 < len (BufferedStreamCursor.vec_ (prepared c))
      - BufferedStreamCursor.write_pos_ (prepared c).
Proof.
  intros Hwf Hl. destruct (prepared_spec c Hwf) as (_ & _ & Hw & _ & Hlen).
  rewrite Hw, Hlen. destruct Hwf as [Hr Hwl].
  assert (1 <= len (BufferedStreamCursor.vec_ c) / 2)
    by (apply Z.div_le_lower_bound; lia).
  destruct (Z.eqb_spec (BufferedStreamCursor.write_pos_ c
                        - BufferedStreamCursor.read_pos_ c)
                       (len (BufferedStreamCursor.vec_ c))) as [E|E];
    [|lia].
  destruct (Z.ltb_spec 0 (len (BufferedStreamCursor.vec_ c) / 2)); lia.
Qed.

Lemma fill_vec_len c fd :
  well_formed c ->
  len (BufferedStreamCursor.vec_ (fst (snd (FdStreamCursor.fill (c, fd)))))
  = len (BufferedStreamCursor.vec_ (prepared c)).
Proof.
  intros Hwf. destruct (prepared_spec c Hwf) as (Hwf2 & _).
  pose proof (readmore_spec (prepared c) fd Hwf2) as R.
  rewrite fill_prepared.
  destruct (FdStreamCursor.readmore (prepared c) fd) as [[rc c'] fd'].
  destruct R as (_ & _ & Hl & _).
  destruct (rc =? -1); exact Hl.
Qed.

End CursorView.

(** ** More on cells *)

Module CellMore.

Import CsvCell CellFacts.

Lemma string_eqb_eq a : forall b, string_eqb a b = true <-> a = b.
Proof.
  induction a as [|x a IH]; intros [|y b]; cbn [string_eqb];
    try (split; [discriminate | discriminate]); [split; reflexivity|].
  rewrite andb_true_iff, Z.eqb_eq, IH. split.
  - intros [-> ->]. reflexivity.
  - intros E. injection E as -> ->. split; reflexivity.
Qed.

Lemma strlen_range str : 0 <= strlen str <= len str.
Proof.
  unfold len. induction str as [|c t IH]; cbn [strlen length]; [lia|].
  destruct (c =? 0); lia.
Qed.

Lemma length_c_str str : length (c_str str) = Z.to_nat (strlen str).
Proof.
  unfold c_str. rewrite length_firstn.
  pose proof (strlen_range str) as R. unfold len in R. lia.
Qed.

(** A C string holds no NUL. *)
Lemma c_str_no_nul str : ~ In 0 (c_str str).
Proof.
  unfold c_str. induction str as [|c t IH]; cbn [strlen]; [intros []|].
  destruct (Z.eqb_spec c 0) as [->|Hc]; [intros []|].
  pose proof (strlen_range t) as R.
  replace (Z.to_nat (1 + strlen t)) with (S (Z.to_nat (strlen t))) by lia.
  cbn [firstn]. intros [E|Hin]; [congruence | exact (IH Hin)].
Qed.

Lemma length_raw m c :
  length (raw m c)
  = match ptr c with Some _ => Z.to_nat (size c) | None => 0%nat end.
Proof.
  unfold raw. destruct (ptr c); [|reflexivity].
  rewrite length_map, length_seq. reflexivity.
Qed.

(** The string [startswith] builds is a prefix of the cell. *)
Lemma raw_min m c n :
  raw m {| ptr := ptr c; size := Z.min (size c) n; escaped := escaped c |}
  = firstn (Z.to_nat n) (raw m c).
Proof.
  unfold raw. cbn [ptr size]. destruct (ptr c) as [a|]; [|symmetry; apply firstn_nil].
  rewrite firstn_map. f_equal.
  replace (Z.to_nat (Z.min (size c) n))
    with (Nat.min (Z.to_nat n) (Z.to_nat (size c))) by lia.
  generalize (Z.to_nat (size c)) as k. generalize (Z.to_nat n) as j.
  generalize 0%nat as s0.
  intros s0 j. revert s0. induction j as [|j IH]; intros s0 k; [reflexivity|].
  destruct k as [|k]; [reflexivity|].
  cbn [Nat.min seq firstn]. f_equal. apply IH.
Qed.

Lemma firstn_prefix {A} (p l : list A) :
  firstn (length p) l = p <-> exists rest, l = p ++ rest.
Proof.
  split.
  - intros E. exists (skipn (length p) l). rewrite <- E at 1.
    symmetry. apply firstn_skipn.
  - intros [rest ->]. rewrite firstn_app, Nat.sub_diag, firstn_all.
    cbn [firstn]. apply app_nil_r.
Qed.

Lemma startswith_prefix m c str :
  startswith m c str = true <-> exists rest, raw m c = c_str str ++ rest.
Proof.
  unfold startswith. rewrite string_eqb_eq, raw_min.
  rewrite <- length_c_str. apply firstn_prefix.
Qed.

Lemma unescape_double e q t : unescape e q (RowText.double q e t) = t.
Proof.
  induction t as [|b t IH]; [reflexivity|]. cbn [RowText.double].
  destruct (is_escape e q b) eqn:Eb; cbn [unescape]; rewrite Eb, IH;
    reflexivity.
Qed.

Lemma double_plain e q t :
  (forall b, In b t -> is_escape e q b = false) -> RowText.double q e t = t.
Proof.
  induction t as [|b t IH]; intros Hp; [reflexivity|]. cbn [RowText.double].
  rewrite (Hp b (or_introl eq_refl)). f_equal. apply IH.
  intros x Hx. apply Hp. right. exact Hx.
Qed.

Lemma unescape_plain e q s :
  (forall b, In b s -> is_escape e q b = false) -> unescape e q s = s.
Proof.
  induction s as [|b s IH]; intros Hp; [reflexivity|]. cbn [unescape].
  rewrite (Hp b (or_introl eq_refl)). f_equal. apply IH.
  intros x Hx. apply Hp. right. exact Hx.
Qed.

(** The loop of [by_value] returns the first index from [i] on whose
    cell decodes to [value]. *)
Lemma by_value_loop_spec m cur value n :
  forall i, 0 <= i -> (Z.to_nat (CsvCursor.count cur - i) <= n)%nat ->
    let hit j :=
      as_str 0 0 m (nth (Z.to_nat j) (CsvCursor.cells cur) zero) = value in
    match CsvCursor.by_value_loop n m cur value i with
    | Some k =>
        i <= k < CsvCursor.count cur /\ hit k
        /\ forall j, i <= j < k -> ~ hit j
    | None => forall j, i <= j < CsvCursor.count cur -> ~ hit j
    end.
Proof.
  induction n as [|n IH]; intros i Hi Hn hit.
  - cbn [CsvCursor.by_value_loop]. intros j Hj. lia.
  - cbn [CsvCursor.by_value_loop].
    destruct (Z.ltb_spec i (CsvCursor.count cur)) as [Lt|Ge];
      [|intros j Hj; lia].
    destruct (string_eqb value _) eqn:E.
    + apply string_eqb_eq in E. split; [lia|]. split; [symmetry; exact E|].
      intros j Hj. lia.
    + assert (Hmiss : ~ hit i).
      { unfold hit. intros Eh. rewrite Eh in E.
        assert (T : string_eqb value value = true)
          by (apply string_eqb_eq; reflexivity).
        congruence. }
      specialize (IH (i + 1) ltac:(lia) ltac:(lia)). cbv zeta in IH.
      destruct (CsvCursor.by_value_loop n m cur value (i + 1)) as [k|].
      * destruct IH as (Hk & Hhit & Hbefore). split; [lia|].
        split; [exact Hhit|]. intros j Hj.
        destruct (Z.eq_dec j i) as [->|Hne]; [exact Hmiss|].
        apply Hbefore. lia.
      * intros j Hj. destruct (Z.eq_dec j i) as [->|Hne]; [exact Hmiss|].
        apply IH. lia.
Qed.

End CellMore.

(** ** More on [try_parse] *)

Module RunFacts.

Import TryParse ParseFacts.

Ltac unfold_step :=
  cbv beta iota zeta delta
      [TryParse.step on_cell goto set_p set_start set_cell set_cells
       set_count set_in_newline_skip set_p_
       pc p start cell cells count in_newline_skip p_].

Ltac split_ifs :=
  repeat match goal with
         | |- context [if ?b then _ else _] =>
             destruct b eqn:?;
             cbn [pc p start cell cells count in_newline_skip p_]
         end.

Section Run.
Variable s : list byte.
Variable endp_ : Z.
Variables delimiter_ quotechar_ : byte.
Variables qsp usp : StringSpanner.

Local Abbreviation step := (step s endp_ delimiter_ quotechar_ qsp usp).
Local Abbreviation run := (run s endp_ delimiter_ quotechar_ qsp usp).

(** An invariant of the steps holds for what the run returns. *)
Lemma run_invariant (I : frame -> Prop) (Q : result -> Prop) :
  (forall f, I f ->
             match step f with inl f' => I f' | inr r => Q r end) ->
  forall n f r, I f -> run n f = Some r -> Q r.
Proof.
  intros Hstep. induction n as [|n IH]; intros f r Hf Hrun; [discriminate|].
  cbn [TryParse.run] in Hrun. specialize (Hstep f Hf).
  destruct (step f) as [f'|r'].
  - exact (IH f' r Hstep Hrun).
  - injection Hrun as <-. exact Hstep.
Qed.

(** A line terminator met at the label [cell_start] follows a delimiter:
    the label is entered either at a byte that is no line terminator, from
    [newline_skip], or after a delimiter. *)
Definition after_delimiter (f : frame) : Prop :=
  pc f = cell_start ->
  is_newline (peek s (p f)) = false \/ peek s (p f - 1) = delimiter_.

Definition null_after_delimiter (r : result) : Prop :=
  fst r = kCsmTryParseOkay -> pc (snd r) = cell_start ->
  peek s (p_ (snd r) - 2) = delimiter_.

Lemma step_after_delimiter f :
  after_delimiter f ->
  match step f with
  | inl f' => after_delimiter f'
  | inr r => null_after_delimiter r
  end.
Proof.
  destruct f as [l p st c cs n nls p_].
  unfold after_delimiter, null_after_delimiter.
  cbn [TryParse.pc TryParse.p]. intros Hinv.
  destruct l; unfold_step; split_ifs;
    cbn [fst snd TryParse.pc TryParse.p TryParse.p_];
    try (intros; discriminate);
    try (intros _; left; assumption);
    try (intros _; right; replace (p + 1 - 1) with p by lia;
         apply Z.eqb_eq; assumption).
  intros _ _. replace (p + 1 - 2) with (p - 1) by lia.
  destruct (Hinv eq_refl) as [E|E]; [congruence | exact E].
Qed.

Lemma run_after_delimiter n f r :
  after_delimiter f -> run n f = Some r -> null_after_delimiter r.
Proof.
  apply (run_invariant after_delimiter null_after_delimiter).
  exact step_after_delimiter.
Qed.

(** [p_] is written by a return of [kCsmTryParseOkay] only, with the
    position after a line terminator. *)
Definition moved (p0 : Z) (r : result) : Prop :=
  match fst r with
  | kCsmTryParseOkay => is_newline (peek s (p_ (snd r) - 1)) = true
  | _ => p_ (snd r) = p0
  end.

Lemma step_moved p0 f :
  p_ f = p0 ->
  match step f with inl f' => p_ f' = p0 | inr r => moved p0 r end.
Proof.
  destruct f as [l p st c cs n nls p_]. cbn [TryParse.p_]. intros ->.
  unfold moved. destruct l; unfold_step; split_ifs; cbn [fst snd TryParse.p_];
    try reflexivity;
    replace (p + 1 - 1) with p by lia; assumption.
Qed.

Lemma run_moved n f r : run n f = Some r -> moved (p_ f) r.
Proof.
  apply (run_invariant (fun g => p_ g = p_ f) (moved (p_ f)));
    [apply step_moved | reflexivity].
Qed.

(** [in_newline_skip] tells whether the bytes from [p0] to [endp_] are
    line terminators, all of them. *)
Definition only_newlines (p0 : Z) : Prop :=
  forall i, p0 <= i < endp_ -> is_newline (peek s i) = true.

Definition skipping (p0 n0 : Z) (f : frame) : Prop :=
  match pc f with
  | newline_skip =>
      p0 <= p f /\ count f = n0
      /\ forall i, p0 <= i < p f -> is_newline (peek s i) = true
  | cell_start => ~ only_newlines p0
  | _ => in_newline_skip f = false /\ ~ only_newlines p0
  end.

Definition skipped (p0 n0 : Z) (r : result) : Prop :=
  (in_newline_skip (snd r) = true <-> only_newlines p0)
  /\ (in_newline_skip (snd r) = true ->
      fst r = kCsmTryParseUnderrun /\ count (snd r) = n0).

Lemma step_skipping p0 n0 f :
  skipping p0 n0 f ->
  match step f with
  | inl f' => skipping p0 n0 f'
  | inr r => skipped p0 n0 r
  end.
Proof.
  destruct f as [l p st c cs n nls p_]. unfold skipping, skipped.
  cbn [TryParse.pc TryParse.p TryParse.count TryParse.in_newline_skip].
  assert (Hno : forall P : Prop, ~ only_newlines p0 ->
                  (false = true <-> only_newlines p0) /\ (false = true -> P)).
  { intros P Hn. split; [split; [discriminate | intros H; destruct (Hn H)]
                        | discriminate]. }
  destruct l; intros Hinv; unfold_step; split_ifs; cbn [fst snd];
    try (apply Hno; tauto); try tauto;
    try (destruct Hinv as [-> Hn']; apply Hno; exact Hn').
  - (* newline_skip, at the end *)
    destruct Hinv as (Hp & Hn & Hall). split; [|auto].
    split; [intros _ i Hi; apply Hall; lia | reflexivity].
  - (* newline_skip, a line terminator *)
    destruct Hinv as (Hp & Hn & Hall). split; [lia|]. split; [exact Hn|].
    intros i Hi. destruct (Z.eq_dec i p) as [->|Hne];
      [assumption | apply Hall; lia].
  - (* newline_skip, the first byte of the row *)
    destruct Hinv as (Hp & Hn & Hall). intros Hall'.
    assert (E : is_newline (peek s p) = true) by (apply Hall'; lia).
    congruence.
Qed.

Lemma run_skipped p0 n0 n f r :
  skipping p0 n0 f -> run n f = Some r -> skipped p0 n0 r.
Proof.
  apply (run_invariant (skipping p0 n0) (skipped p0 n0)).
  apply step_skipping.
Qed.

(** An overflow is returned with as many cells closed as the vector
    holds. *)
Definition full (r : result) : Prop :=
  fst r = kCsmTryParseOverflow -> count (snd r) = len (cells (snd r)).

Lemma step_full f :
  match step f with inl _ => True | inr r => full r end.
Proof.
  destruct f as [l p st c cs n nls p_]. unfold full.
  destruct l; unfold_step; split_ifs; cbn [fst snd TryParse.count TryParse.cells];
    try exact I; try discriminate; intros _; lia.
Qed.

Lemma run_full n f r : run n f = Some r -> full r.
Proof.
  apply (run_invariant (fun _ => True) full); [|exact I].
  intros g _. apply step_full.
Qed.

End Run.

(** *** The cells of a row lie one after the other *)

(** The first [n] cells, null cells apart, end before [b], and each ends
    before the next one starts. *)
Definition ordered (g : Z -> CsvCell.t) (n b : Z) : Prop :=
  (forall i a, 0 <= i < n -> CsvCell.ptr (g i) = Some a ->
               a + CsvCell.size (g i) < b)
  /\ (forall i j a a', 0 <= i < j -> j < n ->
                       CsvCell.ptr (g i) = Some a ->
                       CsvCell.ptr (g j) = Some a' ->
                       a + CsvCell.size (g i) < a').

Lemma ordered_ext g g' n b b' :
  (forall i, 0 <= i < n -> g' i = g i) -> b <= b' ->
  ordered g n b -> ordered g' n b'.
Proof.
  intros He Hb [H1 H2]. split.
  - intros i a Hi Ha. rewrite He in * by lia.
    specialize (H1 i a Hi Ha). lia.
  - intros i j a a' Hi Hj Ha Ha'. rewrite !He in * by lia.
    exact (H2 i j a a' Hi Hj Ha Ha').
Qed.

Lemma ordered_snoc g g' n b b' :
  0 <= n ->
  (forall i, 0 <= i < n -> g' i = g i) ->
  (forall a, CsvCell.ptr (g' n) = Some a ->
             b <= a /\ a + CsvCell.size (g' n) < b') ->
  b <= b' ->
  ordered g n b -> ordered g' (n + 1) b'.
Proof.
  intros Hn He Hnew Hb [H1 H2]. split.
  - intros i a Hi Ha. destruct (Z.eq_dec i n) as [->|Hne].
    + apply (Hnew a Ha).
    + rewrite He in * by lia. specialize (H1 i a ltac:(lia) Ha). lia.
  - intros i j a a' Hi Hj Ha Ha'. rewrite He in Ha |- * by lia.
    destruct (Z.eq_dec j n) as [->|Hne].
    + destruct (Hnew a' Ha') as [Hlo _].
      specialize (H1 i a ltac:(lia) Ha). lia.
    + rewrite He in Ha' by lia. apply (H2 i j a a'); auto; lia.
Qed.

(** Cells in order fit in the bytes they lie in: there are no more of
    them than bytes. *)
Lemma ordered_count g lo b :
  forall n, 0 < n ->
    ordered g n b ->
    (forall i, 0 <= i < n ->
               exists a, CsvCell.ptr (g i) = Some a /\ lo <= a
                         /\ 0 <= CsvCell.size (g i)) ->
    lo + n <= b.
Proof.
  intros n Hn [H1 H2] Hall.
  assert (Hmono : forall k, (Z.of_nat k < n) ->
            exists a, CsvCell.ptr (g (Z.of_nat k)) = Some a
                      /\ lo + Z.of_nat k <= a).
  { induction k as [|k IH]; intros Hk.
    - destruct (Hall 0 ltac:(lia)) as (a & Ha & Hlo & _).
      exists a. simpl. split; [exact Ha | lia].
    - destruct (IH ltac:(lia)) as (a & Ha & Hlo).
      destruct (Hall (Z.of_nat (S k)) ltac:(lia)) as (a' & Ha' & _ & _).
      destruct (Hall (Z.of_nat k) ltac:(lia)) as (a0 & Ha0 & _ & Hsz).
      assert (a0 = a) by congruence. subst a0.
      pose proof (H2 (Z.of_nat k) (Z.of_nat (S k)) a a'
                     ltac:(lia) ltac:(lia) Ha Ha') as Hlt.
      exists a'. split; [exact Ha' | lia]. }
  destruct (Hmono (Z.to_nat (n - 1)) ltac:(lia)) as (a & Ha & Hlo).
  rewrite Z2Nat.id in Ha, Hlo by lia.
  destruct (Hall (n - 1) ltac:(lia)) as (a0 & Ha0 & _ & Hsz).
  assert (a0 = a) by congruence. subst a0.
  specialize (H1 (n - 1) a ltac:(lia) Ha). lia.
Qed.

Ltac fold_cell_at :=
  repeat match goal with
         | |- context [nth (Z.to_nat ?i) ?l CsvCell.zero] =>
             change (nth (Z.to_nat i) l CsvCell.zero) with (cell_at l i)
         end.

Section Order.
Variable s : list byte.
Variables endp_ p0 : Z.
Variables delimiter_ quotechar_ escapechar_ : byte.
Variables qsp usp : StringSpanner.
Hypothesis Hq : stops_at qsp quotechar_ escapechar_ 0 0.
Hypothesis Hu : stops_at usp delimiter_ 13 10 escapechar_.

Local Abbreviation step := (step s endp_ delimiter_ quotechar_ qsp usp).
Local Abbreviation run := (run s endp_ delimiter_ quotechar_ qsp usp).
Local Abbreviation inv :=
  (inv s endp_ p0 delimiter_ quotechar_ escapechar_).

(** Where the cells closed so far end: before the cell that is open, or
    before the position where the next one will start. *)
Definition bound (f : frame) : Z :=
  match pc f with
  | newline_skip | cell_start => p f
  | _ => start f
  end.

Definition in_order (f : frame) : Prop :=
  ordered (cell_at (cells f)) (count f) (bound f).

Definition returned_in_order (r : result) : Prop :=
  exists b, ordered (cell_at (cells (snd r))) (count (snd r)) b.

Lemma step_in_order f :
  inv f -> in_order f ->
  match step f with
  | inl f' => in_order f'
  | inr r => returned_in_order r
  end.
Proof.
  destruct f as [l p st c cs n nls p_].
  unfold ParseFacts.inv, in_order, returned_in_order, bound.
  cbn [TryParse.pc TryParse.p TryParse.start TryParse.cell TryParse.cells TryParse.count].
  intros (-> & Hn & Hp & Hdone & Hl) Ho.
  assert (Hsame : forall cs' b',
            (forall i, 0 <= i < n -> cell_at cs' i = cell_at cs i) ->
            (match l with
             | newline_skip | cell_start => p
             | _ => st
             end) <= b' ->
            ordered (cell_at cs') n b').
  { intros cs' b' He Hb. exact (ordered_ext _ _ _ _ _ He Hb Ho). }
  assert (Hkeep : forall v w i, 0 <= i < n ->
            cell_at (list_set (list_set cs (Z.to_nat n) v) (Z.to_nat n) w) i
            = cell_at cs i).
  { intros v w i Hi. rewrite !cell_at_set_ne by lia. reflexivity. }
  assert (Hkeep1 : forall v i, 0 <= i < n ->
            cell_at (list_set cs (Z.to_nat n) v) i = cell_at cs i).
  { intros v i Hi. rewrite !cell_at_set_ne by lia. reflexivity. }
  assert (Hkeep3 : forall u v w i, 0 <= i < n ->
            cell_at (list_set (list_set (list_set cs (Z.to_nat n) u)
                                        (Z.to_nat n) v) (Z.to_nat n) w) i
            = cell_at cs i).
  { intros u v w i Hi. rewrite !cell_at_set_ne by lia. reflexivity. }
  assert (Hclose : forall cs' k b',
            (forall i, 0 <= i < n -> cell_at cs' i = cell_at cs i) ->
            CsvCell.ptr (cell_at cs' n) = Some st ->
            CsvCell.size (cell_at cs' n) = k ->
            (match l with
             | newline_skip | cell_start => p
             | _ => st
             end) = st ->
            st <= b' -> st + k < b' ->
            ordered (cell_at cs') (n + 1) b').
  { intros cs' k b' He Hptr Hsz Hb Hst Hk. rewrite Hb in Ho.
    apply (ordered_snoc (cell_at cs) (cell_at cs') n st b');
      [lia | exact He | | exact Hst | exact Ho].
    intros a Ha. rewrite Hptr in Ha. injection Ha as <-. lia. }
  destruct l; unfold_step; split_ifs; cbn [fst snd TryParse.pc TryParse.p TryParse.start TryParse.cells TryParse.count];
    fold_cell_at;
    try (eexists; apply Hsame; [intros; reflexivity | apply Z.le_refl]);
    try (apply Hsame; [first [apply Hkeep | apply Hkeep1 | apply Hkeep3
                              | intros; reflexivity] | lia]).
  - (* cell_start, a line terminator: the null cell *)
    exists p. apply (ordered_snoc (cell_at cs) _ n p p); try lia.
    + apply Hkeep3.
    + intros a Ha. rewrite !cell_at_set_eq in Ha
        by (rewrite ?len_list_set; lia).
      discriminate Ha.
    + exact Ho.
  - (* quoted cell, delimiter, overflow *)
    exists (p + 1). destruct Hl as (Hst & _).
    apply (Hclose _ (p - st - 1)); [apply Hkeep | | | reflexivity | lia | lia];
      rewrite !cell_at_set_eq by (rewrite ?len_list_set; lia); reflexivity.
  - (* quoted cell, delimiter *)
    destruct Hl as (Hst & _).
    apply (Hclose _ (p - st - 1)); [apply Hkeep | | | reflexivity | lia | lia];
      rewrite !cell_at_set_eq by (rewrite ?len_list_set; lia); reflexivity.
  - (* quoted cell, line terminator *)
    exists (p + 1). destruct Hl as (Hst & _).
    apply (Hclose _ (p - st - 1)); [apply Hkeep | | | reflexivity | lia | lia];
      rewrite !cell_at_set_eq by (rewrite ?len_list_set; lia); reflexivity.
  - (* unquoted cell, delimiter, overflow *)
    exists (p + 1). destruct Hl as (Hst & _).
    apply (Hclose _ (p - st)); [apply Hkeep | | | reflexivity | lia | lia];
      rewrite !cell_at_set_eq by (rewrite ?len_list_set; lia); reflexivity.
  - (* unquoted cell, delimiter *)
    destruct Hl as (Hst & _).
    apply (Hclose _ (p - st)); [apply Hkeep | | | reflexivity | lia | lia];
      rewrite !cell_at_set_eq by (rewrite ?len_list_set; lia); reflexivity.
  - (* unquoted cell, line terminator *)
    exists (p + 1). destruct Hl as (Hst & _).
    apply (Hclose _ (p - st)); [apply Hkeep | | | reflexivity | lia | lia];
      rewrite !cell_at_set_eq by (rewrite ?len_list_set; lia); reflexivity.
Qed.

Lemma run_in_order n f r :
  inv f -> in_order f -> run n f = Some r -> returned_in_order r.
Proof.
  intros Hinv Ho.
  apply (run_invariant s endp_ delimiter_ quotechar_ qsp usp
           (fun g => inv g /\ in_order g) returned_in_order);
    [|split; assumption].
  intros g [Hg Hog]. pose proof (step_in_order g Hg Hog) as Hs.
  pose proof (step_inv s endp_ p0 delimiter_ quotechar_ escapechar_
                qsp usp Hq Hu g Hg) as Hi.
  destruct (TryParse.step s endp_ delimiter_ quotechar_ qsp usp g)
    as [g'|[rc g']].
  - split; [apply Hi | exact Hs].
  - exact Hs.
Qed.

End Order.

End RunFacts.

(** ** More on the reader *)

Module ReaderMore.

Import TryParse ParseFacts RunFacts ReaderFacts CsvReader.

Section WithStream.
Context {C : Type} `{StreamCursor C}.

Lemma enter_in_order (r : CsvReader.t C) :
  in_order (enter r).
Proof.
  unfold in_order, ordered, enter. cbn [count].
  split; intros; lia.
Qed.

(** The cells of the row [try_parse] leaves, as a function of the
    index. *)
Definition row_cell (r : CsvReader.t C) (i : Z) : CsvCell.t :=
  cell_at (CsvCursor.cells (row_ r)) i.

Lemma try_parse_in_order (r : CsvReader.t C) i j a a' :
  well_formed r ->
  0 <= i < j -> j < CsvCursor.count (row_ (snd (try_parse r))) ->
  CsvCell.ptr (row_cell (snd (try_parse r)) i) = Some a ->
  CsvCell.ptr (row_cell (snd (try_parse r)) j) = Some a' ->
  a + CsvCell.size (row_cell (snd (try_parse r)) i) < a'.
Proof.
  intros Hwf Hi Hj Ha Ha'.
  destruct (try_parse_run r) as (f & Hrun & Hleave).
  destruct (well_formed_stops r Hwf) as [Hq Hu].
  pose proof (run_in_order _ _ _ _ _ _ _ _ Hq Hu _ _ _
                (enter_inv r Hwf) (enter_in_order r) Hrun) as [b [_ Ho]].
  rewrite Hleave in *. unfold row_cell, leave in *.
  cbn [row_ CsvCursor.cells CsvCursor.count fst snd] in *.
  exact (Ho i j a a' Hi Hj Ha Ha').
Qed.

(** An overflow means that the window holds at least as many bytes as
    the vector holds cells. *)
Lemma overflow_bound (r : CsvReader.t C) :
  well_formed r ->
  fst (try_parse r) = kCsmTryParseOverflow ->
  len (CsvCursor.cells (row_ r)) <= endp_ r - p_ r.
Proof.
  intros Hwf Hov.
  destruct (try_parse_post r Hwf) as (f & Hleave & Hrun & Hpost & Hlen).
  destruct (well_formed_stops r Hwf) as [Hq Hu].
  pose proof (run_in_order _ _ _ _ _ _ _ _ Hq Hu _ _ _
                (enter_inv r Hwf) (enter_in_order r) Hrun) as [b [_ Ho]].
  pose proof (run_full _ _ _ _ _ _ _ _ _ Hrun Hov) as Hfull.
  cbn [fst snd] in Ho, Hfull.
  destruct Hpost as (Hcount & _ & Hdone & Hlast).
  rewrite Hov in Hlast. cbn [last_is_null] in Hlast.
  destruct Hwf as [Hpos _].
  assert (Hall : forall i, 0 <= i < count f ->
            finished (storage (stream_ r)) (endp_ r) (p_ r) (quotechar_ r)
                     (escapechar_ r) (cell_at (cells f) i)).
  { intros i Hi. destruct (Z.eq_dec i (count f - 1)) as [->|Hne];
      [apply Hlast; lia | apply Hdone; lia]. }
  assert (Hord : ordered (cell_at (cells f)) (count f) (endp_ r)).
  { split; [|exact Ho]. intros i a Hi Ha.
    destruct (Hall i Hi) as (a0 & Ha0 & _ & _ & Hend & _).
    assert (a0 = a) by congruence. subst a0. exact Hend. }
  pose proof (ordered_count (cell_at (cells f)) (p_ r) (endp_ r) (count f)
                ltac:(lia) Hord) as Hb.
  rewrite <- Hlen, <- Hfull.
  assert (p_ r + count f <= endp_ r); [|lia].
  apply Hb. intros i Hi.
  destruct (Hall i Hi) as (a & Ha & Hlo & Hsz & _). exists a. auto.
Qed.

(** What [try_parse] does to [p_]. *)
Lemma try_parse_moved (r : CsvReader.t C) :
  match fst (try_parse r) with
  | kCsmTryParseOkay =>
      is_newline (peek (storage (stream_ r)) (p_ (snd (try_parse r)) - 1))
      = true
  | _ => p_ (snd (try_parse r)) = p_ r
  end.
Proof.
  destruct (try_parse_run r) as (f & Hrun & Hleave).
  pose proof (run_moved _ _ _ _ _ _ _ _ _ Hrun) as Hm.
  unfold moved in Hm. cbn [fst snd] in Hm. rewrite Hleave.
  exact Hm.
Qed.

(** A row that [try_parse] returns from the label [cell_start] ends in a
    delimiter and the line terminator. *)
Lemma try_parse_after_delimiter (r : CsvReader.t C) n f :
  run_frame r n (enter r) = Some (kCsmTryParseOkay, f) ->
  TryParse.pc f = cell_start ->
  peek (storage (stream_ r)) (TryParse.p_ f - 2) = delimiter_ r.
Proof.
  intros Hrun Hpc.
  assert (Hs : after_delimiter (storage (stream_ r)) (delimiter_ r)
                               (enter r))
    by (unfold after_delimiter, enter; cbn [TryParse.pc]; discriminate).
  exact (run_after_delimiter _ _ _ _ _ _ _ _ _ Hs Hrun eq_refl Hpc).
Qed.

(** What [try_parse] leaves in [in_newline_skip]. *)
Lemma try_parse_skipped (r : CsvReader.t C) :
  (in_newline_skip (snd (try_parse r)) = true <->
   forall i, p_ r <= i < endp_ r ->
             is_newline (peek (storage (stream_ r)) i) = true)
  /\ (in_newline_skip (snd (try_parse r)) = true ->
      fst (try_parse r) = kCsmTryParseUnderrun
      /\ CsvCursor.count (row_ (snd (try_parse r))) = 0).
Proof.
  destruct (try_parse_run r) as (f & Hrun & Hleave).
  assert (Hs : skipping (storage (stream_ r)) (endp_ r) (p_ r) 0 (enter r)).
  { unfold skipping, enter. cbn [TryParse.pc TryParse.p TryParse.count].
    split; [lia|]. split; [reflexivity|]. intros i Hi. lia. }
  pose proof (run_skipped _ _ _ _ _ _ _ _ _ _ _ Hs Hrun) as [Hiff Hthen].
  rewrite Hleave. exact (conj Hiff Hthen).
Qed.

(** [read_row()] keeps the reader well formed. *)
Lemma read_row_well_formed n :
  forall (r : CsvReader.t C) b r' log,
    well_formed r -> read_row n r = Some (b, r', log) -> well_formed r'.
Proof.
  induction n as [|n IH]; intros r b r' log Hwf Hrr; [discriminate|].
  cbn [read_row] in Hrr. fold (ReadRowFacts.at_buf r) in Hrr.
  destruct (ReadRowFacts.try_parse_same_input (ReadRowFacts.at_buf r))
    as [(S1 & S2 & S3 & S4 & S5 & S6 & S7 & S8) _].
  destruct (try_parse (ReadRowFacts.at_buf r)) as [rc r1] eqn:Et.
  cbn [snd ReadRowFacts.at_buf set_window stream_ delimiter_ quotechar_
       escapechar_ quoted_cell_spanner_ unquoted_cell_spanner_ row_
       yield_incomplete_row_] in S1, S2, S3, S4, S5, S6, S7, S8.
  pose proof Hwf as [Hpos _].
  assert (Hwf1 : well_formed r1).
  { apply (TraceFacts.well_formed_ext r); try assumption. lia. }
  assert (Hset : forall st, well_formed (set_stream st r1)).
  { intros st. apply (TraceFacts.well_formed_ext r1); try reflexivity;
      [apply Hwf1 | exact Hwf1]. }
  destruct rc.
  - injection Hrr as _ <- _. apply Hset.
  - destruct (read_row n _) as [[[b0 r0] log0]|] eqn:Er; [|discriminate].
    injection Hrr as _ <- _. revert Er. apply IH.
    apply (TraceFacts.well_formed_ext r1); try reflexivity; [|exact Hwf1].
    rewrite TraceFacts.len_resize_cells by lia. lia.
  - destruct (fill (stream_ r1)) as [ok st]. destruct ok.
    + destruct (read_row n _) as [[[b0 r0] log0]|] eqn:Er; [|discriminate].
      injection Hrr as _ <- _. revert Er. apply IH. apply Hset.
    + destruct (negb (CsvCursor.count (row_ (set_stream st r1)) =? 0) && _);
        injection Hrr as _ <- _; [|apply Hset].
      apply (TraceFacts.well_formed_ext r1); try reflexivity;
        [apply Hwf1 | exact Hwf1].
Qed.

End WithStream.

Section Mapped.

(** Once [read_row()] has returned false on a mapped file it returns
    false again, and the cursor stays where it is. *)
Lemma read_row_false_final n :
  forall (r r' : CsvReader.t MappedFileCursor.t) log,
    read_row n r = Some (false, r', log) ->
    stream_ r' = stream_ r
    /\ exists r'' log',
        read_row 1 r' = Some (false, r'', log')
        /\ stream_ r'' = stream_ r'.
Proof.
  induction n as [|n IH]; intros r r' log Hrr; [discriminate|].
  cbn [read_row] in Hrr. fold (ReadRowFacts.at_buf r) in Hrr.
  destruct (ReadRowFacts.try_parse_same_input (ReadRowFacts.at_buf r))
    as [(S1 & S2 & S3 & S4 & S5 & S6 & S7 & S8) _].
  pose proof (ReadRowFacts.try_parse_alike (ReadRowFacts.at_buf r)) as Hal.
  destruct (try_parse (ReadRowFacts.at_buf r)) as [rc r1] eqn:Et.
  cbn [fst snd ReadRowFacts.at_buf set_window stream_ delimiter_ quotechar_
       escapechar_ quoted_cell_spanner_ unquoted_cell_spanner_ row_
       yield_incomplete_row_] in S1, S2, S3, S4, S5, S6, S7, S8.
  destruct rc.
  - discriminate Hrr.
  - destruct (read_row n _) as [[[b0 r0] log0]|] eqn:Er; [|discriminate].
    injection Hrr as -> -> _.
    destruct (IH _ _ _ Er) as [Hs Hagain]. split; [|exact Hagain].
    rewrite Hs. cbn [resize_cells set_row stream_]. congruence.
  - cbn [fill MappedFileCursor_StreamCursor] in Hrr.
    unfold MappedFileCursor.fill in Hrr. cbn iota beta in Hrr.
    rewrite (ReadRowFacts.set_stream_same r1) in Hrr.
    destruct (negb (CsvCursor.count (row_ r1) =? 0)
              && yield_incomplete_row_ r1) eqn:Ey; [discriminate|].
    injection Hrr as <- _. split; [congruence|].
    cbn [read_row]. fold (ReadRowFacts.at_buf r1).
    destruct (ReadRowFacts.try_parse_same_input (ReadRowFacts.at_buf r1))
      as [(T1 & T2 & T3 & T4 & T5 & T6 & T7 & T8) _].
    destruct (Hal (ReadRowFacts.at_buf r1)) as (Erc & Ec & _).
    + unfold ReadRowFacts.same_input.
      cbn [ReadRowFacts.at_buf set_window stream_ delimiter_ quotechar_
           escapechar_ quoted_cell_spanner_ unquoted_cell_spanner_ row_
           yield_incomplete_row_]. auto 10.
    + cbn [ReadRowFacts.at_buf set_window p_]. congruence.
    + cbn [ReadRowFacts.at_buf set_window endp_]. congruence.
    + destruct (try_parse (ReadRowFacts.at_buf r1)) as [rc2 r2] eqn:Et2.
      cbn [fst snd ReadRowFacts.at_buf set_window stream_ delimiter_
           quotechar_ escapechar_ quoted_cell_spanner_
           unquoted_cell_spanner_ row_ yield_incomplete_row_]
        in Erc, Ec, T1, T5.
      subst rc2. cbn iota beta.
      cbn [fill MappedFileCursor_StreamCursor]. unfold MappedFileCursor.fill.
      cbn iota beta. rewrite (ReadRowFacts.set_stream_same r2).
      rewrite <- Ec, <- T5, Ey. do 2 eexists. split; [reflexivity|].
      congruence.
Qed.

End Mapped.

(** On a mapped file [read_row()] returns, whatever the bytes are. *)
Lemma read_row_returns_mapped k :
  forall r : CsvReader.t MappedFileCursor.t,
    well_formed r ->
    (Z.to_nat (size (stream_ r) + 1 - len (CsvCursor.cells (row_ r))) <= k)%nat ->
    exists b r' log, read_row (S k) r = Some (b, r', log).
Proof.
  assert (Hround : forall (r : CsvReader.t MappedFileCursor.t) m,
            well_formed r ->
            (fst (try_parse (ReadRowFacts.at_buf r)) = kCsmTryParseOverflow ->
             exists x,
               read_row m (resize_cells
                             (2 * len (CsvCursor.cells
                                         (row_ (snd (try_parse
                                                       (ReadRowFacts.at_buf r))))))
                             (snd (try_parse (ReadRowFacts.at_buf r))))
               = Some x) ->
            exists b r' log, read_row (S m) r = Some (b, r', log)).
  { intros r m Hwf Hov. cbn [read_row]. fold (ReadRowFacts.at_buf r).
    destruct (try_parse (ReadRowFacts.at_buf r)) as [[| |] r1] eqn:Et;
      cbn [fst snd] in Hov; cbn iota beta.
    - do 3 eexists. reflexivity.
    - destruct (Hov eq_refl) as [[[b r'] log] ->]. do 3 eexists. reflexivity.
    - cbn [fill MappedFileCursor_StreamCursor]. unfold MappedFileCursor.fill.
      cbn iota beta.
      destruct (negb (CsvCursor.count (row_ _) =? 0) && _);
        do 3 eexists; reflexivity. }
  induction k as [|k IH]; intros r Hwf Hk; apply Hround; try exact Hwf;
    intros Hov;
    assert (Hwf' : well_formed (ReadRowFacts.at_buf r))
      by (apply (TraceFacts.well_formed_ext r); try reflexivity;
          [apply Hwf | exact Hwf]);
    pose proof (overflow_bound _ Hwf' Hov) as Hb;
    unfold ReadRowFacts.at_buf in Hb at 1 2 3;
    cbn [endp_ p_ row_ set_window] in Hb;
    pose proof Hwf as [Hpos _].
  - exfalso. lia.
  - destruct (ReadRowFacts.try_parse_same_input (ReadRowFacts.at_buf r))
      as [(S1 & S2 & S3 & S4 & S5 & S6 & S7 & S8) _].
    cbn [ReadRowFacts.at_buf set_window stream_ delimiter_ quotechar_
         escapechar_ quoted_cell_spanner_ unquoted_cell_spanner_ row_]
      in S1, S2, S3, S4, S6, S7, S8.
    set (r1 := snd (try_parse (ReadRowFacts.at_buf r))) in *.
    set (c := 2 * len (CsvCursor.cells (row_ r1))).
    assert (Hlen : len (CsvCursor.cells (row_ (resize_cells c r1))) = c).
    { apply TraceFacts.len_resize_cells. unfold c. lia. }
    destruct (IH (resize_cells c r1)) as (b & r' & log & E).
    + apply (TraceFacts.well_formed_ext r); try assumption.
      rewrite Hlen. unfold c. lia.
    + rewrite Hlen. cbn [resize_cells set_row stream_]. rewrite <- S1.
      unfold c. lia.
    + eexists. exact E.
Qed.

End ReaderMore.

(** ** Reading back a written row *)

Module RoundTrip.

Import TryParse ParseFacts SimFacts RunFacts RowText.

Section Run.
Variable s : list byte.
Variables endp_ p0 : Z.
Variables delimiter_ quotechar_ escapechar_ : byte.
Variables qsp usp : StringSpanner.
Hypothesis Hq : stops_at qsp quotechar_ escapechar_ 0 0.
Hypothesis Hu : stops_at usp delimiter_ 13 10 escapechar_.
Hypothesis Hqx : skips_none qsp quotechar_ escapechar_ 0 0 s p0 endp_.
Hypothesis Hux : skips_none usp delimiter_ 13 10 escapechar_ s p0 endp_.
Hypothesis Hsane : sane delimiter_ quotechar_ escapechar_.

Local Abbreviation step := (step s endp_ delimiter_ quotechar_ qsp usp).
Local Abbreviation run := (run s endp_ delimiter_ quotechar_ qsp usp).

(** The run from [f] returns [r]. *)
Definition returns (f : frame) (r : result) : Prop :=
  exists n, run n f = Some r.

(** The run from [f] comes to [f']. *)
Definition reaches (f f' : frame) : Prop :=
  forall r, returns f' r -> returns f r.

Lemma returns_now f r : step f = inr r -> returns f r.
Proof. intros E. exists 1%nat. cbn [TryParse.run]. rewrite E. reflexivity. Qed.

Lemma reaches_refl f : reaches f f.
Proof. intros r Hr. exact Hr. Qed.

Lemma reaches_trans f g h : reaches f g -> reaches g h -> reaches f h.
Proof. intros H1 H2 r Hr. apply H1, H2, Hr. Qed.

Lemma reaches_step f f' : step f = inl f' -> reaches f f'.
Proof.
  intros E r [n Hn]. exists (S n). cbn [TryParse.run]. rewrite E. exact Hn.
Qed.

(** The unquoted scan passes over the bytes that are no targets and
    stops at the first target. *)
Lemma unquoted_scan n :
  forall k l pp st c cs cnt nls p_,
    (Z.to_nat k <= n)%nat -> 0 <= k -> p0 <= pp -> pp + k < endp_ ->
    (forall j, 0 <= j < k ->
               targets delimiter_ 13 10 escapechar_ (peek s (pp + j)) = false) ->
    targets delimiter_ 13 10 escapechar_ (peek s (pp + k)) = true ->
    l = in_unquoted_cell ->
    reaches (mk l pp st c cs cnt nls p_)
            (mk in_escape_or_end_of_unquoted_cell (pp + k) st c cs cnt nls p_).
Proof.
  induction n as [|n IH]; intros k l pp st c cs cnt nls p_ Hn Hk Hp Hend
                                 Hmiss Hhit ->.
  - assert (k = 0) by lia. subst k. rewrite Z.add_0_r in *.
    apply reaches_step. unfold_step.
    destruct (Z.leb_spec endp_ pp) as [L|_]; [lia|].
    destruct (Hu (window s pp)) as [R Hit].
    destruct (Z.eqb_spec (Spanner.call usp (window s pp)) 16) as [E|E].
    + exfalso.
      pose proof (Hux pp 0 Hp ltac:(lia) ltac:(lia)) as F.
      rewrite Z.add_0_r in F. congruence.
    + destruct (Z.eq_dec (Spanner.call usp (window s pp)) 0) as [E0|N0].
      * rewrite E0, Z.add_0_r. reflexivity.
      * exfalso.
        pose proof (Hux pp 0 Hp ltac:(lia) ltac:(lia)) as F.
        rewrite Z.add_0_r in F. congruence.
  - destruct (Hu (window s pp)) as [R Hit].
    destruct (Z.eqb_spec (Spanner.call usp (window s pp)) 16) as [E|E].
    + assert (Hk16 : 16 <= k).
      { destruct (Z.le_gt_cases 16 k) as [L|G]; [exact L|]. exfalso.
        pose proof (Hux pp k Hp ltac:(lia) Hend) as F. congruence. }
      apply (reaches_trans _ (mk in_unquoted_cell (pp + 16) st c cs cnt nls p_)).
      * apply reaches_step. unfold_step.
        destruct (Z.leb_spec endp_ pp) as [L|_]; [lia|].
        rewrite E. reflexivity.
      * replace (pp + k) with (pp + 16 + (k - 16)) by lia.
        apply IH; try lia; try reflexivity.
        -- intros j Hj. replace (pp + 16 + j) with (pp + (16 + j)) by lia.
           apply Hmiss. lia.
        -- replace (pp + 16 + (k - 16)) with (pp + k) by lia. exact Hhit.
    + assert (Hrc : Spanner.call usp (window s pp) = k).
      { specialize (Hit ltac:(lia)). rewrite peek_window in Hit by lia.
        destruct (Z.lt_trichotomy (Spanner.call usp (window s pp)) k)
          as [L|[Eq|G]]; [|exact Eq|].
        - rewrite Hmiss in Hit by lia. discriminate Hit.
        - pose proof (Hux pp k Hp ltac:(lia) Hend) as F. congruence. }
      apply reaches_step. unfold_step.
      destruct (Z.leb_spec endp_ pp) as [L|_]; [lia|].
      destruct (Z.eqb_spec (Spanner.call usp (window s pp)) 16) as [E'|_];
        [contradiction|].
      rewrite Hrc. reflexivity.
Qed.

(** The quoted scan passes over the bytes that are no targets and stops
    after the first target. *)
Lemma quoted_scan n :
  forall k l pp st c cs cnt nls p_,
    (Z.to_nat k <= n)%nat -> 0 <= k -> p0 <= pp -> pp + k < endp_ ->
    (forall j, 0 <= j < k ->
               targets quotechar_ escapechar_ 0 0 (peek s (pp + j)) = false) ->
    targets quotechar_ escapechar_ 0 0 (peek s (pp + k)) = true ->
    l = in_quoted_cell ->
    reaches (mk l pp st c cs cnt nls p_)
            (mk in_escape_or_end_of_quoted_cell (pp + k + 1) st c cs cnt nls
                p_).
Proof.
  induction n as [n IH] using lt_wf_ind.
  intros k l pp st c cs cnt nls p_ Hn Hk Hp Hend Hmiss Hhit ->.
  destruct (Hq (window s pp)) as [R Hit].
  destruct (Z.eqb_spec (Spanner.call qsp (window s pp)) 16) as [E|E].
  - assert (Hk16 : 16 <= k).
    { destruct (Z.le_gt_cases 16 k) as [L|G]; [exact L|]. exfalso.
      pose proof (Hqx pp k Hp ltac:(lia) Hend) as F. congruence. }
    apply (reaches_trans _ (mk in_quoted_cell (pp + 16) st c cs cnt nls p_)).
    + apply reaches_step. unfold_step.
      destruct (Z.leb_spec endp_ pp) as [L|_]; [lia|].
      rewrite E. reflexivity.
    + replace (pp + k + 1) with (pp + 16 + (k - 16) + 1) by lia.
      apply (IH (Z.to_nat (k - 16))); try lia; try reflexivity.
      * intros j Hj. replace (pp + 16 + j) with (pp + (16 + j)) by lia.
        apply Hmiss. lia.
      * replace (pp + 16 + (k - 16)) with (pp + k) by lia. exact Hhit.
  - assert (Hrc : Spanner.call qsp (window s pp) = k).
    { specialize (Hit ltac:(lia)). rewrite peek_window in Hit by lia.
      destruct (Z.lt_trichotomy (Spanner.call qsp (window s pp)) k)
        as [L|[Eq|G]]; [|exact Eq|].
      - rewrite Hmiss in Hit by lia. discriminate Hit.
      - pose proof (Hqx pp k Hp ltac:(lia) Hend) as F. congruence. }
    apply reaches_step. unfold_step.
    destruct (Z.leb_spec endp_ pp) as [L|_]; [lia|].
    destruct (Z.eqb_spec (Spanner.call qsp (window s pp)) 16) as [E'|_];
      [contradiction|].
    rewrite Hrc. f_equal. f_equal. lia.
Qed.

(** The bytes from [pp] on are those of [L]. *)
Fixpoint holds (pp : Z) (L : list byte) : Prop :=
  match L with
  | [] => True
  | b :: L' => peek s pp = b /\ holds (pp + 1) L'
  end.

Lemma holds_app A : forall pp B,
  holds pp (A ++ B) <-> holds pp A /\ holds (pp + len A) B.
Proof.
  induction A as [|a A IH]; intros pp B.
  - change (len (@nil Z)) with 0. rewrite Z.add_0_r. cbn [app holds]. tauto.
  - cbn [app holds]. rewrite IH.
    replace (pp + 1 + len A) with (pp + len (a :: A))
      by (unfold len; cbn [length]; lia).
    tauto.
Qed.

Lemma holds_nth L : forall pp j,
  holds pp L -> 0 <= j < len L ->
  peek s (pp + j) = nth (Z.to_nat j) L 0.
Proof.
  unfold len. induction L as [|a L IH]; intros pp j Hh Hj;
    cbn [length] in Hj; [lia|].
  destruct Hh as [Ha Hh]. destruct (Z.eq_dec j 0) as [->|Hne].
  - rewrite Z.add_0_r. exact Ha.
  - replace (Z.to_nat j) with (S (Z.to_nat (j - 1))) by lia. cbn [nth].
    replace (pp + j) with (pp + 1 + (j - 1)) by lia. apply IH; [exact Hh|lia].
Qed.

Lemma holds_in L pp j :
  holds pp L -> 0 <= j < len L -> In (peek s (pp + j)) L.
Proof.
  intros Hh Hj. rewrite (holds_nth L pp j Hh Hj). apply nth_In.
  unfold len in Hj. lia.
Qed.

Lemma holds_map L : forall pp,
  holds pp L ->
  map (fun j => peek s (pp + Z.of_nat j)) (seq 0 (length L)) = L.
Proof.
  induction L as [|a L IH]; intros pp Hh; [reflexivity|].
  destruct Hh as [Ha Hh]. cbn [length seq map].
  rewrite Z.add_0_r, Ha. f_equal.
  rewrite <- seq_shift, map_map. rewrite <- (IH (pp + 1) Hh) at 2.
  apply map_ext. intros j. f_equal. lia.
Qed.

Lemma slice_holds L : forall pp e rest,
  pp <= e -> slice s pp e = L ++ rest -> holds pp L /\ pp + len L <= e.
Proof.
  induction L as [|a L IH]; intros pp e rest Hpe E.
  - change (len (@nil Z)) with 0. split; [exact I | lia].
  - destruct (Z.lt_ge_cases pp e) as [Lt|Ge];
      [|rewrite slice_nil in E by lia; discriminate E].
    rewrite (slice_cons s pp e Lt) in E. cbn [app] in E.
    injection E as Ea El.
    destruct (IH (pp + 1) e rest ltac:(lia) El) as [Hh Hl].
    split; [split; assumption|]. unfold len in *. cbn [length]. lia.
Qed.

(** In a sane dialect the targets of the quoted scan are the bytes
    [as_str] takes for escape or quote characters. *)
Lemma quoted_target_is_escape b :
  targets quotechar_ escapechar_ 0 0 b
  = CsvCell.is_escape escapechar_ quotechar_ b.
Proof.
  destruct Hsane as (_ & Hq0 & _). unfold targets, CsvCell.is_escape.
  destruct (Z.eqb_spec b 0), (Z.eqb_spec b quotechar_),
    (Z.eqb_spec b escapechar_), (Z.eqb_spec escapechar_ 0);
    cbn [negb andb orb]; try reflexivity; exfalso; congruence.
Qed.

(** A byte [as_str] takes for an escape or quote character ends no cell
    and no row. *)
Lemma special_goes_on b :
  CsvCell.is_escape escapechar_ quotechar_ b = true ->
  (b =? delimiter_) = false /\ is_newline b = false.
Proof.
  destruct Hsane as (_ & _ & Hqd & _ & Hqn & He).
  unfold CsvCell.is_escape. intros Hb.
  apply orb_true_iff in Hb. destruct Hb as [Hb|Hb].
  - apply andb_true_iff in Hb. destruct Hb as [Hne Hbe].
    apply Z.eqb_eq in Hbe. subst b.
    apply negb_true_iff, Z.eqb_neq in Hne.
    destruct (He Hne) as [Hed Hen]. split; [apply Z.eqb_neq|]; assumption.
  - apply Z.eqb_eq in Hb. subst b. split; [apply Z.eqb_neq|]; assumption.
Qed.

(** A string is a run of bytes that are no escape or quote characters,
    followed by nothing or by such a character and the rest. *)
Lemma split_special t :
  exists pre rest,
    t = pre ++ rest
    /\ (forall b, In b pre ->
                  CsvCell.is_escape escapechar_ quotechar_ b = false)
    /\ (rest = []
        \/ exists b t2,
            rest = b :: t2
            /\ CsvCell.is_escape escapechar_ quotechar_ b = true).
Proof.
  induction t as [|a t (pre & rest & -> & Hpre & Hrest)].
  - exists [], []. split; [reflexivity|]. split; [intros b []|]. left.
    reflexivity.
  - destruct (CsvCell.is_escape escapechar_ quotechar_ a) eqn:Ea.
    + exists [], (a :: pre ++ rest). split; [reflexivity|].
      split; [intros b []|]. right. exists a, (pre ++ rest). auto.
    + exists (a :: pre), rest. split; [reflexivity|]. split; [|exact Hrest].
      intros b [<-|Hb]; [exact Ea | apply Hpre, Hb].
Qed.

Abbreviation double := (RowText.double quotechar_ escapechar_).

Lemma double_app a b : double (a ++ b) = double a ++ double b.
Proof.
  induction a as [|x a IH]; [reflexivity|]. cbn [app RowText.double].
  rewrite IH. destruct (CsvCell.is_escape escapechar_ quotechar_ x);
    reflexivity.
Qed.

Definition has_special (t : list byte) : bool :=
  existsb (CsvCell.is_escape escapechar_ quotechar_) t.

Lemma has_special_false t :
  has_special t = false ->
  forall b, In b t -> CsvCell.is_escape escapechar_ quotechar_ b = false.
Proof.
  unfold has_special. intros H b Hb.
  destruct (CsvCell.is_escape escapechar_ quotechar_ b) eqn:E;
    [|reflexivity].
  assert (T : existsb (CsvCell.is_escape escapechar_ quotechar_) t = true)
    by (apply existsb_exists; exists b; auto).
  congruence.
Qed.

Lemma has_special_plain t :
  (forall b, In b t -> CsvCell.is_escape escapechar_ quotechar_ b = false) ->
  has_special t = false.
Proof.
  unfold has_special. intros H.
  destruct (existsb _ t) eqn:E; [|reflexivity].
  apply existsb_exists in E. destruct E as (b & Hb & Eb).
  rewrite (H b Hb) in Eb. discriminate Eb.
Qed.

Lemma len_cons {A} (a : A) l : len (a :: l) = 1 + len l.
Proof. unfold len. cbn [length]. lia. Qed.

Lemma set_escaped_same c b :
  CsvCell.escaped c = b -> set_escaped b c = c.
Proof. intros <-. destruct c; reflexivity. Qed.

(** The body of a quoted field, up to the byte after its closing
    quote. *)
Lemma quoted_body n :
  forall t pp st c cs cnt nls p_ tail,
    (length t <= n)%nat -> p0 <= pp -> 0 <= c < len cs ->
    holds pp (double t ++ quotechar_ :: tail) ->
    pp + len (double t) < endp_ ->
    exists cs',
      reaches (mk in_quoted_cell pp st c cs cnt nls p_)
              (mk in_escape_or_end_of_quoted_cell (pp + len (double t) + 1)
                  st c cs' cnt nls p_)
      /\ len cs' = len cs
      /\ (forall i, 0 <= i -> i <> c -> cell_at cs' i = cell_at cs i)
      /\ cell_at cs' c
         = set_escaped (CsvCell.escaped (cell_at cs c) || has_special t)
                       (cell_at cs c).
Proof.
  induction n as [n IH] using lt_wf_ind.
  intros t pp st c cs cnt nls p_ tail Hn Hp Hc Hh Hend.
  destruct (split_special t) as (pre & rest & -> & Hpre & Hrest).
  assert (Hdpre : double pre = pre)
    by (apply CellMore.double_plain; exact Hpre).
  rewrite double_app, Hdpre in Hh, Hend |- *.
  rewrite <- app_assoc in Hh. apply holds_app in Hh. destruct Hh as [Hh1 Hh2].
  pose proof (CursorFacts.len_nonneg pre) as Hlp.
  assert (Hmiss : forall j, 0 <= j < len pre ->
            targets quotechar_ escapechar_ 0 0 (peek s (pp + j)) = false).
  { intros j Hj. rewrite quoted_target_is_escape. apply Hpre.
    apply holds_in; assumption. }
  destruct Hrest as [->|(b & t2 & -> & Hb)].
  - (* the closing quote *)
    cbn [RowText.double app] in *. rewrite app_nil_r in *.
    destruct Hh2 as [Hquote _].
    exists cs. split; [|split; [reflexivity|split; [reflexivity|]]].
    + apply (quoted_scan (Z.to_nat (len pre))); try lia; try assumption;
        try reflexivity.
      rewrite Hquote, quoted_target_is_escape. unfold CsvCell.is_escape.
      rewrite Z.eqb_refl. apply orb_true_r.
    + rewrite has_special_plain by exact Hpre.
      rewrite orb_false_r. symmetry. apply set_escaped_same. reflexivity.
  - (* an escape or quote character, written twice *)
    cbn [RowText.double] in *. rewrite Hb in *. cbn [app] in Hh2.
    destruct Hh2 as (Hb1 & Hb2 & Hh3).
    rewrite CursorFacts.len_app, !len_cons in Hend |- *.
    pose proof (CursorFacts.len_nonneg (double t2)) as Hl2.
    destruct (special_goes_on b Hb) as [Hbd Hbn].
    set (cs1 := list_set cs (Z.to_nat c)
                  (set_escaped true (nth (Z.to_nat c) cs CsvCell.zero))).
    destruct (IH (length t2)) with (t := t2) (pp := pp + len pre + 1 + 1)
      (st := st) (c := c) (cs := cs1) (cnt := cnt) (nls := nls) (p_ := p_)
      (tail := tail) as (cs' & Hreach & Hlen & Hother & Hcell).
    { rewrite length_app in Hn. cbn [length] in Hn. lia. }
    { lia. } { lia. }
    { unfold cs1. rewrite len_list_set. exact Hc. }
    { exact Hh3. } { lia. }
    exists cs'. split; [|split; [|split]].
    + eapply reaches_trans;
        [apply (quoted_scan (Z.to_nat (len pre)) (len pre)); try lia;
         try assumption; try reflexivity|].
      { rewrite Hb1, quoted_target_is_escape. exact Hb. }
      eapply reaches_trans; [apply reaches_step|].
      { unfold_step.
        destruct (Z.leb_spec endp_ (pp + len pre + 1)) as [L|_]; [lia|].
        rewrite Hb2, Hbd, Hbn. reflexivity. }
      fold cs1.
      replace (pp + (len pre + (1 + (1 + len (double t2)))) + 1)
        with (pp + len pre + 1 + 1 + len (double t2) + 1) by lia.
      exact Hreach.
    + rewrite Hlen. unfold cs1. apply len_list_set.
    + intros i Hi Hne. rewrite Hother by assumption. unfold cs1.
      apply cell_at_set_ne; lia.
    + rewrite Hcell. unfold cs1. rewrite cell_at_set_eq by lia.
      fold (cell_at cs c).
      assert (Hs : has_special (pre ++ b :: t2) = true).
      { unfold has_special. apply existsb_exists. exists b.
        split; [apply in_or_app; right; left; reflexivity | exact Hb]. }
      rewrite Hs, orb_true_r. destruct (cell_at cs c); reflexivity.
Qed.

Abbreviation written := (RowText.written quotechar_ escapechar_).
Abbreviation write_fields :=
  (RowText.write_fields delimiter_ quotechar_ escapechar_).
Abbreviation write_row :=
  (RowText.write_row delimiter_ quotechar_ escapechar_).
Abbreviation valid := (RowText.valid delimiter_ quotechar_ escapechar_).

(** Where the run is when it has passed a field, and what it has noted
    of it. *)
Definition end_label (fld : field) : label :=
  match fld with
  | Plain _ => in_escape_or_end_of_unquoted_cell
  | Quoted _ => in_escape_or_end_of_quoted_cell
  end.

Definition field_start (pp : Z) (fld : field) : Z :=
  match fld with Plain _ => pp | Quoted _ => pp + 1 end.

Definition field_escaped (fld : field) : bool :=
  match fld with Plain _ => false | Quoted t => has_special t end.

(** The bytes of the cell. *)
Definition body (fld : field) : list byte :=
  match fld with Plain t => t | Quoted t => double t end.

Lemma plain_not_newline t b :
  RowText.plain delimiter_ quotechar_ escapechar_ t -> In b t ->
  is_newline b = false /\ b <> delimiter_.
Proof.
  intros [Hp _] Hb. specialize (Hp b Hb). unfold targets, is_newline in *.
  destruct Hsane as (Hd0 & _).
  destruct (Z.eqb_spec b 0) as [E|Hb0].
  - rewrite E. split; [reflexivity | congruence].
  - cbn [negb andb] in Hp. apply orb_false_iff in Hp. destruct Hp as [Hp _].
    apply orb_false_iff in Hp. destruct Hp as [Hp H10].
    apply orb_false_iff in Hp. destruct Hp as [Hd H13].
    rewrite H13, H10. split; [reflexivity|]. apply Z.eqb_neq. exact Hd.
Qed.

Lemma terminator_is_target term :
  term = delimiter_ \/ is_newline term = true ->
  targets delimiter_ 13 10 escapechar_ term = true.
Proof.
  destruct Hsane as (Hd0 & _). unfold targets, is_newline.
  intros [->|Hnl].
  - rewrite Z.eqb_refl. destruct (Z.eqb_spec delimiter_ 0); [congruence|].
    reflexivity.
  - apply orb_true_iff in Hnl.
    destruct Hnl as [E|E]; apply Z.eqb_eq in E; subst term;
      [destruct (13 =? delimiter_) | destruct (10 =? delimiter_)];
      reflexivity.
Qed.

Lemma field_to_end fld pp st c cs cnt nls p_ term tail :
  valid fld -> p0 <= pp -> 0 <= c < len cs ->
  holds pp (written fld ++ term :: tail) ->
  pp + len (written fld) < endp_ ->
  term = delimiter_ \/ is_newline term = true ->
  (fld = Plain [] -> is_newline term = false) ->
  exists cs',
    reaches (mk cell_start pp st c cs cnt nls p_)
            (mk (end_label fld) (pp + len (written fld))
                (field_start pp fld) c cs' cnt false p_)
    /\ len cs' = len cs
    /\ (forall i, 0 <= i -> i <> c -> cell_at cs' i = cell_at cs i)
    /\ cell_at cs' c = set_escaped (field_escaped fld) (cell_at cs c).
Proof.
  intros Hv Hp Hc Hh Hend Hterm Hnull.
  destruct Hsane as (Hd0 & Hq0 & Hqd & Hdn & Hqn & He).
  set (cs1 := list_set cs (Z.to_nat c)
                (set_escaped false (nth (Z.to_nat c) cs CsvCell.zero))).
  assert (Hlen1 : len cs1 = len cs) by apply len_list_set.
  assert (Hother1 : forall i, 0 <= i -> i <> c ->
                              cell_at cs1 i = cell_at cs i).
  { intros i Hi Hne. apply cell_at_set_ne; lia. }
  assert (Hcell1 : cell_at cs1 c = set_escaped false (cell_at cs c)).
  { unfold cs1. rewrite cell_at_set_eq by lia. reflexivity. }
  pose proof (CursorFacts.len_nonneg (written fld)) as Hlw.
  destruct fld as [t|t]; cbn [RowText.written end_label field_start
                              field_escaped] in *.
  - (* a plain field *)
    exists cs1. split; [|auto].
    apply holds_app in Hh. destruct Hh as [Hh1 Hh2].
    destruct Hh2 as [Hterm' _].
    assert (Hfirst : is_newline (peek s pp) = false
                     /\ (peek s pp =? quotechar_) = false).
    { destruct t as [|b t].
      - change (len (@nil Z)) with 0 in Hterm'. rewrite Z.add_0_r in Hterm'.
        rewrite Hterm'. split; [apply Hnull; reflexivity|].
        destruct Hterm as [->|Hnl]; [apply Z.eqb_neq; congruence|].
        rewrite (Hnull eq_refl) in Hnl. discriminate Hnl.
      - destruct Hh1 as [Hb _]. rewrite Hb.
        destruct (plain_not_newline (b :: t) b Hv (or_introl eq_refl))
          as [Hn _].
        split; [exact Hn|]. apply Z.eqb_neq. apply Hv. }
    destruct Hfirst as [Hf1 Hf2].
    eapply reaches_trans; [apply reaches_step|].
    { unfold_step. destruct (Z.leb_spec endp_ pp) as [L|_]; [lia|].
      rewrite Hf1, Hf2. fold cs1. reflexivity. }
    apply (unquoted_scan (Z.to_nat (len t))); try lia; try reflexivity.
    + intros j Hj. apply Hv. apply holds_in; assumption.
    + rewrite Hterm'. apply terminator_is_target. exact Hterm.
  - (* a quoted field *)
    cbn [app] in Hh. destruct Hh as [Hquote Hh].
    rewrite <- app_assoc in Hh. cbn [app] in Hh.
    rewrite len_cons, CursorFacts.len_app, len_cons in Hend |- *.
    change (len (@nil Z)) with 0 in Hend |- *.
    pose proof (CursorFacts.len_nonneg (double t)) as Hld.
    destruct (quoted_body (length t) t (pp + 1) (pp + 1) c cs1 cnt false p_
                (term :: tail) (Nat.le_refl _))
      as (cs' & Hreach & Hlen & Hother & Hcell); try lia; try assumption.
    exists cs'. split; [|split; [lia|split]].
    + eapply reaches_trans; [apply reaches_step|].
      { unfold_step. destruct (Z.leb_spec endp_ pp) as [L|_]; [lia|].
        rewrite Hquote, Hqn, Z.eqb_refl. fold cs1. reflexivity. }
      replace (pp + (1 + (len (double t) + (1 + 0))))
        with (pp + 1 + len (double t) + 1) by lia.
      exact Hreach.
    + intros i Hi Hne. rewrite Hother, Hother1 by assumption. reflexivity.
    + rewrite Hcell, Hcell1. destruct (cell_at cs c); reflexivity.
Qed.

(** The cell vector after [cell->ptr = cell_start; cell->size = n]. *)
Definition closed (cs : list CsvCell.t) (c st n : Z) : list CsvCell.t :=
  let cs1 := list_set cs (Z.to_nat c)
               (set_ptr (Some st) (nth (Z.to_nat c) cs CsvCell.zero)) in
  list_set cs1 (Z.to_nat c) (set_size n (nth (Z.to_nat c) cs1 CsvCell.zero)).

Lemma closed_spec cs c st n :
  0 <= c < len cs ->
  len (closed cs c st n) = len cs
  /\ (forall i, 0 <= i -> i <> c ->
                cell_at (closed cs c st n) i = cell_at cs i)
  /\ cell_at (closed cs c st n) c
     = CsvCell.mk (Some st) n (CsvCell.escaped (cell_at cs c)).
Proof.
  intros Hc. unfold closed. cbv zeta. split; [|split].
  - rewrite !len_list_set. reflexivity.
  - intros i Hi Hne. rewrite !cell_at_set_ne by lia. reflexivity.
  - rewrite cell_at_set_eq by (rewrite len_list_set; lia).
    fold (cell_at (list_set cs (Z.to_nat c)
                     (set_ptr (Some st) (nth (Z.to_nat c) cs CsvCell.zero)))
                  c).
    rewrite cell_at_set_eq by lia. reflexivity.
Qed.

(** The size [try_parse] gives the cell at the end of a field. *)
Definition size_at (l : label) (pe st : Z) : Z :=
  match l with
  | in_escape_or_end_of_quoted_cell => pe - st - 1
  | _ => pe - st
  end.

Lemma step_at_delimiter l pe st c cs cnt nls p_ :
  l = in_escape_or_end_of_quoted_cell
  \/ l = in_escape_or_end_of_unquoted_cell ->
  pe < endp_ -> peek s pe = delimiter_ ->
  step (mk l pe st c cs cnt nls p_)
  = if cnt + 1 =? len (closed cs c st (size_at l pe st))
    then inr (kCsmTryParseOverflow,
              mk l pe st (c + 1) (closed cs c st (size_at l pe st))
                 (cnt + 1) nls p_)
    else inl (mk cell_start (pe + 1) st (c + 1)
                 (closed cs c st (size_at l pe st)) (cnt + 1) nls p_).
Proof.
  intros [-> | ->] Hend Hd; unfold_step; unfold closed, size_at; cbv zeta;
    (destruct (Z.leb_spec endp_ pe) as [L|_]; [lia|]);
    rewrite Hd, Z.eqb_refl; reflexivity.
Qed.

Lemma step_at_terminator l pe st c cs cnt nls p_ :
  l = in_escape_or_end_of_quoted_cell
  \/ l = in_escape_or_end_of_unquoted_cell ->
  pe < endp_ -> is_newline (peek s pe) = true ->
  step (mk l pe st c cs cnt nls p_)
  = inr (kCsmTryParseOkay,
         mk l pe st c (closed cs c st (size_at l pe st)) (cnt + 1) nls
            (pe + 1)).
Proof.
  destruct Hsane as (_ & _ & _ & Hdn & _).
  intros Hl Hend Hnl.
  assert (Hd : (peek s pe =? delimiter_) = false).
  { apply Z.eqb_neq. intros E. rewrite E in Hnl. congruence. }
  destruct Hl as [-> | ->]; unfold_step; unfold closed, size_at; cbv zeta;
    (destruct (Z.leb_spec endp_ pe) as [L|_]; [lia|]);
    rewrite Hd, Hnl; reflexivity.
Qed.

Lemma end_label_cases fld :
  end_label fld = in_escape_or_end_of_quoted_cell
  \/ end_label fld = in_escape_or_end_of_unquoted_cell.
Proof. destruct fld; [right | left]; reflexivity. Qed.

Lemma size_at_end fld pp :
  size_at (end_label fld) (pp + len (written fld)) (field_start pp fld)
  = len (body fld).
Proof.
  destruct fld as [t|t]; cbn [end_label field_start size_at RowText.written
                              body].
  - lia.
  - rewrite len_cons, CursorFacts.len_app, len_cons.
    change (len (@nil Z)) with 0. lia.
Qed.

(** What [as_str] makes of the cell of a field. *)
Lemma decode_field fld pp :
  holds pp (written fld) ->
  CsvCell.as_str escapechar_ quotechar_ s
    (CsvCell.mk (Some (field_start pp fld)) (len (body fld))
                (field_escaped fld))
  = text fld.
Proof.
  intros Hh. rewrite CellFacts.as_str_unescape.
  assert (Hraw : CsvCell.raw s
                   (CsvCell.mk (Some (field_start pp fld)) (len (body fld))
                               (field_escaped fld))
                 = body fld).
  { unfold CsvCell.raw. cbn [CsvCell.ptr CsvCell.size]. unfold len.
    rewrite Nat2Z.id. apply holds_map.
    destruct fld as [t|t]; cbn [RowText.written body field_start] in *;
      [exact Hh|].
    cbn [app] in Hh. destruct Hh as [_ Hh]. apply holds_app in Hh.
    apply Hh. }
  rewrite Hraw. cbn [CsvCell.escaped].
  destruct fld as [t|t]; cbn [field_escaped body text]; [reflexivity|].
  destruct (has_special t) eqn:Es.
  - apply CellMore.unescape_double.
  - apply CellMore.double_plain. apply has_special_false. exact Es.
Qed.

Lemma returns_from f g r : reaches f g -> returns g r -> returns f r.
Proof. intros H. apply H. Qed.

Lemma len_write_row fs nl : len (write_row fs nl) = len (write_fields fs) + 1.
Proof.
  unfold RowText.write_row. rewrite CursorFacts.len_app, len_cons.
  change (len (@nil Z)) with 0. lia.
Qed.

(** The fields of a row, from the start of a cell on: the row is
    returned with the cells of the fields when the vector has room for
    them, and an overflow otherwise. *)
Lemma row_run fs :
  forall pp st c cs nls p_ nl,
    fs <> [] -> Forall valid fs -> is_newline nl = true ->
    p0 <= pp -> 0 <= c < len cs ->
    holds pp (write_row fs nl) ->
    pp + len (write_fields fs) < endp_ ->
    exists rc f',
      returns (mk cell_start pp st c cs c nls p_) (rc, f')
      /\ len (cells f') = len cs
      /\ if c + len fs <=? len cs
         then rc = kCsmTryParseOkay
              /\ count f' = c + len fs
              /\ TryParse.p_ f' = pp + len (write_row fs nl)
              /\ (forall i, 0 <= i < c ->
                            cell_at (cells f') i = cell_at cs i)
              /\ (forall j, 0 <= j < len fs ->
                    CsvCell.as_str escapechar_ quotechar_ s
                      (cell_at (cells f') (c + j))
                    = text (nth (Z.to_nat j) fs (Plain [])))
         else rc = kCsmTryParseOverflow.
Proof.
  induction fs as [|fld fs IH]; intros pp st c cs nls p_ nl Hne Hv Hnl Hp Hc
                                       Hh Hend; [congruence|].
  clear Hne. inversion Hv as [|? ? Hv1 Hv2]; subst.
  destruct Hsane as (Hd0 & Hq0 & Hqd & Hdn & Hqn & He).
  pose proof (CursorFacts.len_nonneg (written fld)) as Hlw.
  destruct fs as [|fld2 fs].
  - (* the last field *)
    cbn [RowText.write_fields] in Hend.
    unfold RowText.write_row in Hh. cbn [RowText.write_fields] in Hh.
    rewrite len_write_row. cbn [RowText.write_fields].
    change (len [fld]) with 1.
    destruct (Z.leb_spec (c + 1) (len cs)) as [_|G]; [|lia].
    destruct (list_eq_dec Z.eq_dec (written fld) []) as [Eempty|Hnonempty].
    + (* nothing before the line terminator: the null cell *)
      assert (Etext : text fld = []).
      { destruct fld as [t|t]; cbn [RowText.written text] in *;
          [exact Eempty | discriminate Eempty]. }
      rewrite Eempty in *. cbn [app] in Hh. destruct Hh as [Hb _].
      change (len (@nil Z)) with 0 in *.
      eexists _, _. split; [apply returns_now; unfold_step|].
      { destruct (Z.leb_spec endp_ pp) as [L|_]; [lia|].
        rewrite Hb, Hnl. reflexivity. }
      cbn [cells count TryParse.p_]. rewrite !len_list_set.
      split; [reflexivity|]. split; [reflexivity|]. split; [reflexivity|].
      split; [lia|]. split.
      * intros i Hi. fold_cell_at. rewrite !cell_at_set_ne by lia.
        reflexivity.
      * intros j Hj. replace j with 0 by lia. rewrite Z.add_0_r.
        cbn [Z.to_nat nth]. rewrite Etext. fold_cell_at.
        rewrite !cell_at_set_eq by (rewrite ?len_list_set; lia).
        reflexivity.
    + assert (Hnotnull : fld = Plain [] -> is_newline nl = false).
      { intros ->. exfalso. apply Hnonempty. reflexivity. }
      destruct (field_to_end fld pp st c cs c nls p_ nl [] Hv1 Hp Hc Hh Hend
                  (or_intror Hnl) Hnotnull)
        as (cs' & Hreach & Hlen & Hother & Hcell).
      apply holds_app in Hh. destruct Hh as [Hh1 [Hterm _]].
      destruct (closed_spec cs' c (field_start pp fld)
                  (size_at (end_label fld) (pp + len (written fld))
                           (field_start pp fld)) ltac:(lia))
        as (Hlen2 & Hother2 & Hcell2).
      eexists _, _. split.
      { apply (returns_from _ _ _ Hreach). apply returns_now.
        apply step_at_terminator;
          [apply end_label_cases | lia | rewrite Hterm; exact Hnl]. }
      cbn [cells count TryParse.p_].
      split; [lia|]. split; [reflexivity|]. split; [reflexivity|].
      split; [lia|]. split.
      * intros i Hi. rewrite Hother2, Hother by lia. reflexivity.
      * intros j Hj. replace j with 0 by lia. rewrite Z.add_0_r.
        cbn [Z.to_nat nth]. rewrite Hcell2, Hcell, size_at_end.
        replace (CsvCell.escaped
                   (set_escaped (field_escaped fld) (cell_at cs c)))
          with (field_escaped fld) by reflexivity.
        apply decode_field. exact Hh1.
  - (* a field and the delimiter after it *)
    set (fs' := fld2 :: fs) in *.
    assert (Hfs' : fs' <> []) by discriminate.
    assert (Ewf : write_fields (fld :: fs')
                  = written fld ++ delimiter_ :: write_fields fs')
      by reflexivity.
    unfold RowText.write_row in Hh. rewrite Ewf in Hh, Hend.
    rewrite <- app_assoc in Hh. cbn [app] in Hh.
    rewrite CursorFacts.len_app, len_cons in Hend.
    pose proof (CursorFacts.len_nonneg (write_fields fs')) as Hlf.
    assert (Hnotnull : fld = Plain [] -> is_newline delimiter_ = false)
      by (intros _; exact Hdn).
    destruct (field_to_end fld pp st c cs c nls p_ delimiter_
                (write_fields fs' ++ [nl]) Hv1 Hp Hc Hh ltac:(lia)
                (or_introl eq_refl) Hnotnull)
      as (cs' & Hreach & Hlen & Hother & Hcell).
    apply holds_app in Hh. destruct Hh as [Hh1 [Hterm Hh2]].
    destruct (closed_spec cs' c (field_start pp fld)
                (size_at (end_label fld) (pp + len (written fld))
                         (field_start pp fld)) ltac:(lia))
      as (Hlen2 & Hother2 & Hcell2).
    pose proof (step_at_delimiter (end_label fld) (pp + len (written fld))
                  (field_start pp fld) c cs' c false p_
                  (end_label_cases fld) ltac:(lia) Hterm) as Hstep.
    assert (Hlfs : len (fld :: fs') = 1 + len fs') by apply len_cons.
    assert (Hlfs' : 1 <= len fs')
      by (unfold fs'; rewrite len_cons;
          pose proof (CursorFacts.len_nonneg fs); lia).
    rewrite Hlen2 in Hstep.
    destruct (Z.eqb_spec (c + 1) (len cs')) as [Efull|Hroom].
    + (* no room for a further cell *)
      eexists _, _. split.
      { apply (returns_from _ _ _ Hreach). apply returns_now. exact Hstep. }
      cbn [cells]. split; [lia|].
      destruct (Z.leb_spec (c + len (fld :: fs')) (len cs)) as [L|_]; [lia|].
      reflexivity.
    + destruct (IH (pp + len (written fld) + 1) (field_start pp fld) (c + 1)
                   (closed cs' c (field_start pp fld)
                           (size_at (end_label fld) (pp + len (written fld))
                                    (field_start pp fld)))
                   false p_ nl Hfs' Hv2 Hnl)
        as (rc & f' & Hret & Hlenf & Hres); try lia.
      { exact Hh2. }
      exists rc, f'. split.
      { apply (returns_from _ _ _ Hreach).
        destruct Hret as [n Hn]. exists (S n). cbn [TryParse.run].
        rewrite Hstep. exact Hn. }
      split; [lia|].
      rewrite Hlen2, Hlen in Hres.
      replace (c + len (fld :: fs')) with (c + 1 + len fs') by lia.
      destruct (Z.leb_spec (c + 1 + len fs') (len cs)) as [L|G];
        [|exact Hres].
      destruct Hres as (Hrc & Hcount & Hp_ & Hold & Hnew).
      split; [exact Hrc|]. split; [exact Hcount|].
      split.
      { rewrite Hp_, !len_write_row, Ewf, CursorFacts.len_app, len_cons.
        lia. }
      split.
      * intros i Hi. rewrite Hold, Hother2, Hother by lia. reflexivity.
      * intros j Hj. destruct (Z.eq_dec j 0) as [->|Hj0].
        -- rewrite Z.add_0_r. cbn [Z.to_nat nth].
           rewrite Hold, Hcell2, Hcell, size_at_end by lia.
           replace (CsvCell.escaped
                      (set_escaped (field_escaped fld) (cell_at cs c)))
             with (field_escaped fld) by reflexivity.
           apply decode_field. exact Hh1.
        -- replace (c + j) with (c + 1 + (j - 1)) by lia.
           rewrite Hnew by lia.
           replace (Z.to_nat j) with (S (Z.to_nat (j - 1))) by lia.
           reflexivity.
Qed.

(** The line terminators before a row are skipped. *)
Lemma skip_newlines blank :
  forall pp st c cs cnt nls p_ b tail,
    Forall (fun x => is_newline x = true) blank ->
    holds pp (blank ++ b :: tail) -> is_newline b = false ->
    pp + len blank < endp_ ->
    reaches (mk newline_skip pp st c cs cnt nls p_)
            (mk cell_start (pp + len blank) st c cs cnt true p_).
Proof.
  induction blank as [|x blank IH]; intros pp st c cs cnt nls p_ b tail Hall
                                           Hh Hb Hend.
  - change (len (@nil Z)) with 0 in *. rewrite Z.add_0_r in *.
    cbn [app] in Hh. destruct Hh as [Hpeek _].
    apply reaches_step. unfold_step.
    destruct (Z.leb_spec endp_ pp) as [L|_]; [lia|].
    rewrite Hpeek, Hb. reflexivity.
  - inversion Hall as [|? ? Hx Hall']; subst. cbn [app] in Hh.
    destruct Hh as [Hpeek Hh]. rewrite len_cons in Hend |- *.
    pose proof (CursorFacts.len_nonneg blank) as Hl.
    eapply reaches_trans; [apply reaches_step|].
    { unfold_step. destruct (Z.leb_spec endp_ pp) as [L|_]; [lia|].
      rewrite Hpeek, Hx. reflexivity. }
    replace (pp + (1 + len blank)) with (pp + 1 + len blank) by lia.
    apply (IH _ _ _ _ _ _ _ b tail Hall' Hh Hb). lia.
Qed.

(** A row that is not an empty line starts with a byte that is no line
    terminator. *)
Lemma first_byte fs nl :
  fs <> [] -> fs <> [Plain []] -> Forall valid fs ->
  exists b tail, write_row fs nl = b :: tail /\ is_newline b = false.
Proof.
  destruct Hsane as (Hd0 & Hq0 & Hqd & Hdn & Hqn & He).
  intros Hne Hnb Hv. destruct fs as [|fld fs]; [congruence|].
  inversion Hv as [|? ? Hv1 _]; subst. unfold RowText.write_row.
  destruct fld as [[|b t]|t].
  - destruct fs as [|fld2 fs]; [congruence|].
    cbn [RowText.write_fields RowText.written app].
    eexists _, _. split; [reflexivity | exact Hdn].
  - destruct (plain_not_newline (b :: t) b Hv1 (or_introl eq_refl))
      as [Hn _].
    destruct fs as [|fld2 fs]; cbn [RowText.write_fields RowText.written app];
      eexists _, _; (split; [reflexivity | exact Hn]).
  - destruct fs as [|fld2 fs]; cbn [RowText.write_fields RowText.written app];
      eexists _, _; (split; [reflexivity | exact Hqn]).
Qed.

(** What [try_parse] returns on the text of a row, from its first
    label on. *)
Lemma written_run blank fs nl rest cs nls :
  Forall (fun x => is_newline x = true) blank ->
  fs <> [] -> fs <> [Plain []] -> Forall valid fs -> is_newline nl = true ->
  0 < len cs -> p0 <= endp_ ->
  slice s p0 endp_ = blank ++ write_row fs nl ++ rest ->
  exists rc f',
    returns (mk newline_skip p0 0 0 cs 0 nls p0) (rc, f')
    /\ len (cells f') = len cs
    /\ if len fs <=? len cs
       then rc = kCsmTryParseOkay
            /\ count f' = len fs
            /\ TryParse.p_ f' = p0 + len blank + len (write_row fs nl)
            /\ (forall j, 0 <= j < len fs ->
                  CsvCell.as_str escapechar_ quotechar_ s
                    (cell_at (cells f') j)
                  = text (nth (Z.to_nat j) fs (Plain [])))
       else rc = kCsmTryParseOverflow.
Proof.
  intros Hblank Hne Hnb Hv Hnl Hcs Hpe Hslice.
  rewrite app_assoc in Hslice.
  destruct (slice_holds _ _ _ _ Hpe Hslice) as [Hh Hfit].
  rewrite CursorFacts.len_app, len_write_row in Hfit.
  destruct (first_byte fs nl Hne Hnb Hv) as (b & tail & Erow & Hb).
  pose proof (CursorFacts.len_nonneg blank) as Hlb.
  pose proof (CursorFacts.len_nonneg (write_fields fs)) as Hlf.
  assert (Hskip : reaches (mk newline_skip p0 0 0 cs 0 nls p0)
                          (mk cell_start (p0 + len blank) 0 0 cs 0 true p0)).
  { apply (skip_newlines blank _ _ _ _ _ _ _ b tail Hblank);
      [rewrite <- Erow; exact Hh | exact Hb | lia]. }
  apply holds_app in Hh. destruct Hh as [_ Hh].
  destruct (row_run fs (p0 + len blank) 0 0 cs true p0 nl Hne Hv Hnl)
    as (rc & f' & Hret & Hlen & Hres); try lia; try assumption.
  exists rc, f'. split; [exact (returns_from _ _ _ Hskip Hret)|].
  split; [exact Hlen|].
  rewrite Z.add_0_l in Hres.
  destruct (len fs <=? len cs); [|exact Hres].
  destruct Hres as (Hrc & Hcount & Hp_ & _ & Hnew).
  split; [exact Hrc|]. split; [exact Hcount|]. split; [exact Hp_|].
  intros j Hj. specialize (Hnew j Hj). rewrite Z.add_0_l in Hnew. exact Hnew.
Qed.

End Run.

Import ReaderFacts CsvReader.

Section Reader.
Context {C : Type} `{StreamCursor C}.

(** The text a reader has before it: line terminators, a written row,
    and whatever follows. *)
Definition before (r : CsvReader.t C) (blank : list byte) (fs : list field)
           (nl : byte) (rest : list byte) : Prop :=
  Forall (fun x => is_newline x = true) blank
  /\ fs <> [] /\ fs <> [Plain []]
  /\ Forall (RowText.valid (delimiter_ r) (quotechar_ r) (escapechar_ r)) fs
  /\ is_newline nl = true
  /\ slice (storage (stream_ r)) (p_ r) (endp_ r)
     = blank
       ++ RowText.write_row (delimiter_ r) (quotechar_ r) (escapechar_ r)
                            fs nl
       ++ rest.

Lemma try_parse_written (r : CsvReader.t C) blank fs nl rest :
  well_formed r -> CountFacts.exact r ->
  sane (delimiter_ r) (quotechar_ r) (escapechar_ r) ->
  before r blank fs nl rest ->
  if len fs <=? len (CsvCursor.cells (row_ r))
  then fst (try_parse r) = kCsmTryParseOkay
       /\ CsvCursor.count (row_ (snd (try_parse r))) = len fs
       /\ p_ (snd (try_parse r))
          = p_ r + len blank
            + len (RowText.write_row (delimiter_ r) (quotechar_ r)
                                     (escapechar_ r) fs nl)
       /\ (forall j, 0 <= j < len fs ->
             CsvCell.as_str (escapechar_ r) (quotechar_ r)
                            (storage (stream_ r))
                            (ReaderMore.row_cell (snd (try_parse r)) j)
             = text (nth (Z.to_nat j) fs (Plain [])))
  else fst (try_parse r) = kCsmTryParseOverflow.
Proof.
  intros Hwf [Hqx Hux] Hsane (Hblank & Hne & Hnb & Hv & Hnl & Hslice).
  destruct (well_formed_stops r Hwf) as [Hq Hu].
  pose proof Hwf as [Hpos _].
  assert (Hpe : p_ r <= endp_ r).
  { destruct (Z.le_gt_cases (p_ r) (endp_ r)) as [L|G]; [exact L|].
    rewrite slice_nil in Hslice by lia.
    destruct (first_byte _ _ _ Hsane fs nl Hne Hnb Hv) as (b & tail & E & _).
    rewrite E in Hslice. destruct blank; discriminate Hslice. }
  destruct (written_run _ _ _ _ _ _ _ _ Hq Hu Hqx Hux Hsane blank fs nl rest
              (CsvCursor.cells (row_ r)) (in_newline_skip r)
              Hblank Hne Hnb Hv Hnl Hpos Hpe Hslice)
    as (rc & f' & [n Hrun] & Hlen & Hres).
  apply run_steps in Hrun.
  destruct (try_parse_run r) as (f & Hrun' & Hleave).
  unfold run_frame, enter in Hrun'. unfold enter in Hrun.
  rewrite Hrun in Hrun'. injection Hrun' as Erc Ef. subst f.
  rewrite <- Erc, Hleave. unfold ReaderMore.row_cell.
  cbn [leave row_ p_ CsvCursor.cells CsvCursor.count].
  exact Hres.
Qed.

(** One round of [read_row()], by what [try_parse] returns. *)
Lemma read_row_okay n (r : CsvReader.t C) :
  fst (try_parse (ReadRowFacts.at_buf r)) = kCsmTryParseOkay ->
  exists log,
    read_row (S n) r
    = Some (true,
            set_stream
              (consume (p_ (snd (try_parse (ReadRowFacts.at_buf r)))
                        - buf (stream_ r))
                       (stream_ (snd (try_parse (ReadRowFacts.at_buf r)))))
              (snd (try_parse (ReadRowFacts.at_buf r))),
            log).
Proof.
  intros E. cbn [read_row]. fold (ReadRowFacts.at_buf r).
  destruct (try_parse (ReadRowFacts.at_buf r)) as [rc r1].
  cbn [fst snd] in *. subst rc. eexists. reflexivity.
Qed.

Lemma read_row_overflow n (r : CsvReader.t C) b r' log :
  fst (try_parse (ReadRowFacts.at_buf r)) = kCsmTryParseOverflow ->
  read_row n
    (resize_cells
       (2 * len (CsvCursor.cells
                   (row_ (snd (try_parse (ReadRowFacts.at_buf r))))))
       (snd (try_parse (ReadRowFacts.at_buf r))))
  = Some (b, r', log) ->
  exists log', read_row (S n) r = Some (b, r', log').
Proof.
  intros E Hrr. cbn [read_row]. fold (ReadRowFacts.at_buf r).
  destruct (try_parse (ReadRowFacts.at_buf r)) as [rc r1].
  cbn [fst snd] in *. subst rc. rewrite Hrr. eexists. reflexivity.
Qed.

(** [read_row()] on the text of a row: the row is returned, after as
    many doublings of the cell vector as it takes, and without a
    [fill()]. *)
Lemma read_row_written k :
  forall (r : CsvReader.t C) blank fs nl rest,
    well_formed r -> CountFacts.exact (ReadRowFacts.at_buf r) ->
    sane (delimiter_ r) (quotechar_ r) (escapechar_ r) ->
    before (ReadRowFacts.at_buf r) blank fs nl rest ->
    (Z.to_nat (len fs - len (CsvCursor.cells (row_ r))) <= k)%nat ->
    exists r' log,
      read_row (S k) r = Some (true, r', log)
      /\ stream_ r'
         = consume (len blank
                    + len (RowText.write_row (delimiter_ r) (quotechar_ r)
                                             (escapechar_ r) fs nl))
                   (stream_ r)
      /\ CsvCursor.count (row_ r') = len fs
      /\ len fs <= len (CsvCursor.cells (row_ r'))
      /\ (forall j, 0 <= j < len fs ->
            CsvCell.as_str (escapechar_ r) (quotechar_ r)
                           (storage (stream_ r)) (ReaderMore.row_cell r' j)
            = text (nth (Z.to_nat j) fs (Plain []))).
Proof.
  induction k as [|k IH]; intros r blank fs nl rest Hwf Hex Hsane Hbefore Hk;
    pose proof Hwf as [Hpos _];
    assert (Hwf' : well_formed (ReadRowFacts.at_buf r))
      by (apply (TraceFacts.well_formed_ext r); try reflexivity;
          [exact Hpos | exact Hwf]);
    pose proof (try_parse_written (ReadRowFacts.at_buf r) blank fs nl rest
                  Hwf' Hex Hsane Hbefore) as T;
    destruct (ReadRowFacts.try_parse_same_input (ReadRowFacts.at_buf r))
      as [(S1 & S2 & S3 & S4 & S5 & S6 & S7 & S8) _];
    cbn [ReadRowFacts.at_buf set_window stream_ delimiter_
         quotechar_ escapechar_ quoted_cell_spanner_
         unquoted_cell_spanner_ row_ yield_incomplete_row_ p_]
      in T, S1, S2, S3, S4, S5, S6, S7, S8;
    fold (ReadRowFacts.at_buf r) in T, S1, S2, S3, S4, S5, S6, S7, S8;
    destruct (Z.leb_spec (len fs) (len (CsvCursor.cells (row_ r))))
      as [Hfit|Hover];
    try (exfalso; lia);
    try (destruct T as (Hrc & Hcount & Hp_ & Hcells);
         match goal with
         | |- exists _ _, read_row (S ?n) _ = _ /\ _ =>
             destruct (read_row_okay n r Hrc) as [log Hrr]
         end;
         eexists _, _; split; [exact Hrr|];
         cbn [set_stream stream_ row_]; unfold ReaderMore.row_cell;
         cbn [set_stream stream_ row_];
         split; [rewrite <- S1, Hp_; f_equal; lia|];
         split; [exact Hcount|]; split; [lia | exact Hcells]).
  set (r1 := snd (try_parse (ReadRowFacts.at_buf r))) in *.
  set (c := 2 * len (CsvCursor.cells (row_ r1))).
  assert (Hlen : len (CsvCursor.cells (row_ (resize_cells c r1))) = c).
  { apply TraceFacts.len_resize_cells. unfold c. lia. }
  destruct (IH (resize_cells c r1) blank fs nl rest)
    as (r' & log & Hrr & Hstream & Hcount & Hroom & Hcells).
  - apply (TraceFacts.well_formed_ext r); try assumption.
    rewrite Hlen. unfold c. lia.
  - destruct Hex as [Hqx Hux]. split;
      cbn [ReadRowFacts.at_buf resize_cells set_row set_window stream_
           delimiter_ quotechar_ escapechar_ quoted_cell_spanner_
           unquoted_cell_spanner_ p_ endp_] in *;
      rewrite <- ?S1, <- ?S2, <- ?S3, <- ?S4, <- ?S6, <- ?S7; assumption.
  - cbn [resize_cells set_row delimiter_ quotechar_ escapechar_].
    rewrite <- S2, <- S3, <- S4. exact Hsane.
  - destruct Hbefore as (B1 & B2 & B3 & B4 & B5 & B6).
    unfold before.
    cbn [ReadRowFacts.at_buf resize_cells set_row set_window stream_
         delimiter_ quotechar_ escapechar_ p_ endp_] in *.
    rewrite <- ?S1, <- ?S2, <- ?S3, <- ?S4. auto 10.
  - rewrite Hlen. unfold c. lia.
  - destruct (read_row_overflow _ r _ _ _ T Hrr) as [log' Hrr'].
    exists r', log'. split; [exact Hrr'|].
    cbn [resize_cells set_row stream_ delimiter_ quotechar_ escapechar_]
      in Hstream, Hcells.
    rewrite <- S1, <- S2, <- S3, <- S4 in Hstream.
    rewrite <- S1, <- S3, <- S4 in Hcells. auto.
Qed.

Lemma peek_in_slice m lo hi i :
  lo <= i < hi -> In (peek m i) (slice m lo hi).
Proof.
  intros Hi. unfold slice. apply in_map_iff.
  exists (Z.to_nat (i - lo)). split; [f_equal; lia|]. apply in_seq. lia.
Qed.

(** The spanners of a reader skip no target in the window, the vector
    ones provided the window holds no zero byte. *)
Lemma exact_window sse (r : CsvReader.t C) :
  Spanner.new sse (quotechar_ r) (escapechar_ r) 0 0
  = Some (quoted_cell_spanner_ r) ->
  Spanner.new sse (delimiter_ r) 13 10 (escapechar_ r)
  = Some (unquoted_cell_spanner_ r) ->
  sane (delimiter_ r) (quotechar_ r) (escapechar_ r) ->
  (sse = true ->
   forall b, In b (slice (storage (stream_ r)) (p_ r) (endp_ r)) -> b <> 0) ->
  CountFacts.exact r.
Proof.
  intros Eq Eu (Hd0 & Hq0 & _) Hnz. unfold CountFacts.exact.
  destruct sse.
  - assert (Hpeek : forall i, p_ r <= i < endp_ r ->
                              peek (storage (stream_ r)) i <> 0).
    { intros i Hi. apply (Hnz eq_refl). apply peek_in_slice. exact Hi. }
    split; (eapply sse42_skips_none; [|eassumption|exact Hpeek]);
      unfold SpannerSpec.padded; repeat split; intros; try lia; auto;
      congruence.
  - split; eapply fallback_skips_none; eassumption.
Qed.

Lemma exact_at_buf sse (r : CsvReader.t C) :
  Spanner.new sse (quotechar_ r) (escapechar_ r) 0 0
  = Some (quoted_cell_spanner_ r) ->
  Spanner.new sse (delimiter_ r) 13 10 (escapechar_ r)
  = Some (unquoted_cell_spanner_ r) ->
  sane (delimiter_ r) (quotechar_ r) (escapechar_ r) ->
  (sse = true ->
   forall b, In b (CursorView.visible (stream_ r)) -> b <> 0) ->
  CountFacts.exact (ReadRowFacts.at_buf r).
Proof.
  intros Eq Eu Hsane Hnz. apply (exact_window sse); assumption.
Qed.

(** [read_row()] leaves the dialect and the spanners as they are. *)
Lemma read_row_same_dialect n :
  forall (r : CsvReader.t C) b r' log,
    read_row n r = Some (b, r', log) ->
    delimiter_ r' = delimiter_ r /\ quotechar_ r' = quotechar_ r
    /\ escapechar_ r' = escapechar_ r
    /\ quoted_cell_spanner_ r' = quoted_cell_spanner_ r
    /\ unquoted_cell_spanner_ r' = unquoted_cell_spanner_ r.
Proof.
  induction n as [|n IH]; intros r b r' log Hrr; [discriminate|].
  cbn [read_row] in Hrr. fold (ReadRowFacts.at_buf r) in Hrr.
  destruct (ReadRowFacts.try_parse_same_input (ReadRowFacts.at_buf r))
    as [(S1 & S2 & S3 & S4 & S5 & S6 & S7 & S8) _].
  destruct (try_parse (ReadRowFacts.at_buf r)) as [rc r1] eqn:Et.
  cbn [snd ReadRowFacts.at_buf set_window stream_ delimiter_ quotechar_
       escapechar_ quoted_cell_spanner_ unquoted_cell_spanner_ row_
       yield_incomplete_row_] in S1, S2, S3, S4, S5, S6, S7, S8.
  assert (Hr1 : delimiter_ r1 = delimiter_ r /\ quotechar_ r1 = quotechar_ r
                /\ escapechar_ r1 = escapechar_ r
                /\ quoted_cell_spanner_ r1 = quoted_cell_spanner_ r
                /\ unquoted_cell_spanner_ r1 = unquoted_cell_spanner_ r)
    by auto 10.
  destruct rc.
  - injection Hrr as _ <- _. exact Hr1.
  - destruct (read_row n _) as [[[b0 r0] log0]|] eqn:Er; [|discriminate].
    injection Hrr as _ <- _.
    destruct (IH _ _ _ _ Er) as (D1 & D2 & D3 & D4 & D5).
    cbn [resize_cells set_row delimiter_ quotechar_ escapechar_
         quoted_cell_spanner_ unquoted_cell_spanner_] in D1, D2, D3, D4, D5.
    repeat split; congruence.
  - destruct (fill (stream_ r1)) as [ok st]. destruct ok.
    + destruct (read_row n _) as [[[b0 r0] log0]|] eqn:Er; [|discriminate].
      injection Hrr as _ <- _.
      destruct (IH _ _ _ _ Er) as (D1 & D2 & D3 & D4 & D5).
      cbn [set_stream delimiter_ quotechar_ escapechar_
           quoted_cell_spanner_ unquoted_cell_spanner_] in D1, D2, D3, D4, D5.
      repeat split; congruence.
    + destruct (negb (CsvCursor.count (row_ (set_stream st r1)) =? 0) && _);
        injection Hrr as _ <- _; exact Hr1.
Qed.

(** The decoded cells, as a list. *)
Lemma decoded_cells (g : CsvCell.t -> list byte) cs n (fs : list field) :
  n = len fs -> n <= len cs ->
  (forall j, 0 <= j < n ->
             g (cell_at cs j) = text (nth (Z.to_nat j) fs (Plain []))) ->
  map g (firstn (Z.to_nat n) cs) = map text fs.
Proof.
  intros -> Hle Hall. unfold len in *.
  apply (nth_ext _ _ [] []).
  - rewrite !length_map, length_firstn. lia.
  - intros i Hi. rewrite length_map, length_firstn in Hi.
    rewrite (nth_indep _ [] (g CsvCell.zero))
      by (rewrite length_map, length_firstn; lia).
    rewrite (nth_indep (map text fs) [] (text (Plain [])))
      by (rewrite length_map; lia).
    rewrite !map_nth, nth_firstn_lt by lia.
    specialize (Hall (Z.of_nat i) ltac:(lia)). rewrite Nat2Z.id in Hall.
    unfold cell_at in Hall. rewrite Nat2Z.id in Hall. exact Hall.
Qed.

End Reader.

(** *** A whole file *)

(** The rows that successive calls of [read_row()] return, decoded with
    the reader's quote and escape characters, up to the call that returns
    false. *)
Inductive reads {C : Type} `{StreamCursor C}
  : CsvReader.t C -> list (list (list byte)) -> Prop :=
| reads_end r n r' log :
    read_row n r = Some (false, r', log) -> reads r []
| reads_row r n r' log rows :
    read_row n r = Some (true, r', log) ->
    reads r' rows -> reads r (decoded_row r' :: rows).

(** The rows that successive calls of [read_row()] return, and the
    reader they leave. *)
Inductive returns_rows {C : Type} `{StreamCursor C}
  : CsvReader.t C -> list (list (list byte)) -> CsvReader.t C -> Prop :=
| returns_none r : returns_rows r [] r
| returns_row r n r' log rows r'' :
    read_row n r = Some (true, r', log) ->
    returns_rows r' rows r'' ->
    returns_rows r (decoded_row r' :: rows) r''.

Lemma returns_rows_reads {C : Type} `{StreamCursor C}
      (r : CsvReader.t C) rows r' :
  returns_rows r rows r' ->
  forall n r'' log, read_row n r' = Some (false, r'', log) -> reads r rows.
Proof.
  induction 1 as [r | r n r' log rows r'' Hrr _ IH]; intros m r3 log3 Hend.
  - exact (reads_end r m r3 log3 Hend).
  - exact (reads_row r n r' log rows Hrr (IH m r3 log3 Hend)).
Qed.

(** A row a writer can write and the parser takes for a row: it has a
    field, it is not the empty line, and the fields written without quotes
    can be written so. *)
Definition row_ok (d q e : byte) (fs : list field) : Prop :=
  fs <> [] /\ fs <> [Plain []] /\ Forall (RowText.valid d q e) fs.

(** A reader in front of line terminators and written rows. *)
Definition reading (sse : bool) (eol : list byte)
           (r : CsvReader.t MappedFileCursor.t) (blank : list byte)
           (rows : list (list field)) : Prop :=
  well_formed r
  /\ Spanner.new sse (quotechar_ r) (escapechar_ r) 0 0
     = Some (quoted_cell_spanner_ r)
  /\ Spanner.new sse (delimiter_ r) 13 10 (escapechar_ r)
     = Some (unquoted_cell_spanner_ r)
  /\ sane (delimiter_ r) (quotechar_ r) (escapechar_ r)
  /\ Forall (fun x => is_newline x = true) blank
  /\ 0 <= size (stream_ r)
  /\ CursorView.visible (stream_ r)
     = blank ++ RowText.write_lines (delimiter_ r) (quotechar_ r)
                                    (escapechar_ r) eol rows
  /\ (sse = true ->
      forall b, In b (CursorView.visible (stream_ r)) -> b <> 0).

(** With nothing but line terminators left, [read_row()] returns
    false. *)
Lemma read_row_blank (r : CsvReader.t MappedFileCursor.t) :
  (forall b, In b (CursorView.visible (stream_ r)) -> is_newline b = true) ->
  exists r' log, read_row 1 r = Some (false, r', log).
Proof.
  intros Hall.
  destruct (ReaderMore.try_parse_skipped (ReadRowFacts.at_buf r))
    as [Hiff Hthen].
  assert (Hflag : in_newline_skip (snd (try_parse (ReadRowFacts.at_buf r)))
                  = true).
  { apply Hiff. intros i Hi. apply Hall. unfold CursorView.visible.
    apply peek_in_slice. exact Hi. }
  destruct (Hthen Hflag) as [Hrc Hcount].
  cbn [read_row]. fold (ReadRowFacts.at_buf r).
  destruct (try_parse (ReadRowFacts.at_buf r)) as [rc r1].
  cbn [fst snd] in Hrc, Hcount. subst rc. cbn iota beta.
  cbn [fill MappedFileCursor_StreamCursor]. unfold MappedFileCursor.fill.
  cbn iota beta. cbn [set_stream row_]. rewrite Hcount.
  cbn [Z.eqb negb andb]. eexists _, _. reflexivity.
Qed.

Lemma skipn_app_exact {A} (a b : list A) n :
  n = length a -> skipn n (a ++ b) = b.
Proof.
  intros ->. rewrite skipn_app, Nat.sub_diag, skipn_all. reflexivity.
Qed.

(** The rows of a written file are read back one by one. *)
Lemma reads_written sse nl more rows :
  is_newline nl = true -> Forall (fun x => is_newline x = true) more ->
  forall r blank,
    reading sse (nl :: more) r blank rows ->
    Forall (row_ok (delimiter_ r) (quotechar_ r) (escapechar_ r)) rows ->
    reads r (map (map text) rows).
Proof.
  intros Hnl Hmore. induction rows as [|fs rows IH]; intros r blank Hr Hrows;
    destruct Hr as (Hwf & Eq & Eu & Hsane & Hblank & Hsize & Hvis & Hnz).
  - (* the end of the file *)
    cbn [RowText.write_lines map concat] in Hvis. rewrite app_nil_r in Hvis.
    destruct (read_row_blank r) as (r' & log & Hrr).
    { rewrite Hvis. intros b Hb.
      exact (proj1 (Forall_forall _ _) Hblank b Hb). }
    exact (reads_end r 1 r' log Hrr).
  - (* a row *)
    inversion Hrows as [|? ? (Hne & Hnb & Hv) Hrows']; subst.
    assert (Etext : CursorView.visible (stream_ r)
                    = blank
                      ++ RowText.write_row (delimiter_ r) (quotechar_ r)
                           (escapechar_ r) fs nl
                      ++ (more
                          ++ RowText.write_lines (delimiter_ r) (quotechar_ r)
                               (escapechar_ r) (nl :: more) rows)).
    { rewrite Hvis. unfold RowText.write_lines, RowText.write_row.
      cbn [map concat]. rewrite <- !app_assoc. reflexivity. }
    destruct (read_row_written
                (Z.to_nat (len fs - len (CsvCursor.cells (row_ r))))
                r blank fs nl
                (more
                 ++ RowText.write_lines (delimiter_ r) (quotechar_ r)
                      (escapechar_ r) (nl :: more) rows)
                Hwf (exact_at_buf sse r Eq Eu Hsane Hnz) Hsane)
      as (r' & log & Hrr & Hstream & Hcount & Hroom & Hcells);
      [|apply Nat.le_refl|].
    { unfold before. auto 10. }
    destruct (read_row_same_dialect _ _ _ _ _ Hrr) as (D1 & D2 & D3 & D4 & D5).
    set (k := len blank
              + len (RowText.write_row (delimiter_ r) (quotechar_ r)
                                       (escapechar_ r) fs nl)) in *.
    assert (Hk : 0 <= k).
    { unfold k. pose proof (CursorFacts.len_nonneg blank).
      pose proof (CursorFacts.len_nonneg
                    (RowText.write_row (delimiter_ r) (quotechar_ r)
                                       (escapechar_ r) fs nl)). lia. }
    destruct (CursorView.mapped_consume (stream_ r) k Hk Hsize)
      as (Hvis' & Hsize' & Hstore).
    assert (Hrest : CursorView.visible (stream_ r')
                    = more
                      ++ RowText.write_lines (delimiter_ r') (quotechar_ r')
                           (escapechar_ r') (nl :: more) rows).
    { rewrite Hstream, Hvis', Etext, D1, D2, D3, app_assoc.
      apply skipn_app_exact. unfold k, len. rewrite length_app. lia. }
    assert (Hdec : decoded_row r' = map text fs).
    { unfold decoded_row, row_cells. rewrite D2, D3, Hstream, Hstore.
      apply (decoded_cells _ _ _ fs Hcount); rewrite Hcount;
        [exact Hroom | exact Hcells]. }
    rewrite map_cons, <- Hdec.
    apply (reads_row r _ r' log _ Hrr).
    apply (IH r' more).
    + split; [exact (ReaderMore.read_row_well_formed _ _ _ _ _ Hwf Hrr)|].
      rewrite D1, D2, D3, D4, D5.
      split; [exact Eq|]. split; [exact Eu|]. split; [exact Hsane|].
      split; [exact Hmore|].
      split; [rewrite Hstream, Hsize'; lia|].
      split; [rewrite <- D1, <- D2, <- D3; exact Hrest|].
      intros Hs b Hb. apply (Hnz Hs). rewrite Hstream, Hvis' in Hb.
      rewrite <- (firstn_skipn (Z.to_nat k)). apply in_or_app. right.
      exact Hb.
    + rewrite D1, D2, D3. exact Hrows'.
Qed.

End RoundTrip.

(** ** A row that is not yet complete *)

Module PrefixFacts.

Import RowSpec RowText.

Section Dialect.
Variables delimiter quotechar escapechar : byte.
Hypothesis Hsane : sane delimiter quotechar escapechar.

Local Abbreviation on_byte := (on_byte delimiter quotechar escapechar).
Local Abbreviation expect := (expect delimiter quotechar escapechar).
Local Abbreviation double := (double quotechar escapechar).
Local Abbreviation written := (written quotechar escapechar).
Local Abbreviation write_fields :=
  (write_fields delimiter quotechar escapechar).
Local Abbreviation valid := (valid delimiter quotechar escapechar).

(** The state the byte-by-byte machine is in after the bytes [t], when
    no row ends among them. *)
Fixpoint after (st : state) (t : list byte) : option state :=
  match t with
  | [] => Some st
  | b :: t' =>
      match on_byte st b with
      | Goto st' => after st' t'
      | EndCell => after CellStart t'
      | EndRow => None
      end
  end.

Lemma after_app a : forall st b,
  after st (a ++ b)
  = match after st a with Some st' => after st' b | None => None end.
Proof.
  induction a as [|x a IH]; intros st b; [reflexivity|].
  cbn [app after]. destruct (on_byte st x); [apply IH | apply IH | reflexivity].
Qed.

(** Where no row ends in a text, none is found in the beginning of it. *)
Lemma expect_prefix w :
  forall st st' rest cap k pos,
    after st (w ++ rest) = Some st' ->
    fst (fst (expect cap st k pos w)) <> kCsmTryParseOkay.
Proof.
  induction w as [|b w IH]; intros st st' rest cap k pos Ha;
    cbn [RowSpec.expect].
  - discriminate.
  - cbn [app after] in Ha. destruct (on_byte st b).
    + exact (IH _ _ _ _ _ _ Ha).
    + destruct (k + 1 =? cap); [discriminate | exact (IH _ _ _ _ _ _ Ha)].
    + discriminate.
Qed.

Definition fresh (st : state) : Prop := st = NewlineSkip \/ st = CellStart.

Lemma after_unquoted t :
  (forall b, In b t -> targets delimiter 13 10 escapechar b = false) ->
  after InUnquoted t = Some InUnquoted.
Proof.
  induction t as [|b t IH]; intros Ht; [reflexivity|].
  cbn [after RowSpec.on_byte]. unfold in_unquoted.
  rewrite (Ht b (or_introl eq_refl)). apply IH.
  intros x Hx. apply Ht. right. exact Hx.
Qed.

Lemma after_plain st t :
  fresh st -> plain delimiter quotechar escapechar t ->
  after st t = Some (match t with [] => st | _ :: _ => InUnquoted end).
Proof.
  intros Hst Hp. destruct t as [|b t]; [reflexivity|].
  destruct (RoundTrip.plain_not_newline _ _ _ Hsane _ b Hp (or_introl eq_refl))
    as [Hnl _].
  destruct Hp as [Ht Hq]. apply Z.eqb_neq in Hq.
  assert (E : on_byte st b = Goto InUnquoted).
  { destruct Hst as [-> | ->]; cbn [RowSpec.on_byte];
      unfold at_cell_start, in_unquoted;
      rewrite ?Hnl, Hq, (Ht b (or_introl eq_refl)); reflexivity. }
  cbn [after]. rewrite E. apply after_unquoted.
  intros x Hx. apply Ht. right. exact Hx.
Qed.

Lemma after_doubled t : after InQuoted (double t) = Some InQuoted.
Proof.
  induction t as [|b t IH]; [reflexivity|]. cbn [RowText.double].
  destruct (CsvCell.is_escape escapechar quotechar b) eqn:Eb.
  - destruct (RoundTrip.special_goes_on _ _ _ Hsane b Eb) as [Hd Hn].
    cbn [after RowSpec.on_byte].
    rewrite (RoundTrip.quoted_target_is_escape _ _ _ Hsane), Eb.
    cbn [after RowSpec.on_byte]. unfold after_break. rewrite Hd, Hn.
    exact IH.
  - cbn [after RowSpec.on_byte].
    rewrite (RoundTrip.quoted_target_is_escape _ _ _ Hsane), Eb. exact IH.
Qed.

Lemma after_quoted st t :
  fresh st -> after st (quotechar :: double t ++ [quotechar]) = Some AfterQuote.
Proof.
  intros Hst. pose proof Hsane as (_ & Hq0 & _ & _ & Hqn & _).
  assert (E : on_byte st quotechar = Goto InQuoted).
  { destruct Hst as [-> | ->]; cbn [RowSpec.on_byte]; unfold at_cell_start;
      rewrite ?Hqn, Z.eqb_refl; reflexivity. }
  cbn [after]. rewrite E, after_app, after_doubled.
  cbn [after RowSpec.on_byte].
  rewrite (RoundTrip.quoted_target_is_escape _ _ _ Hsane).
  unfold CsvCell.is_escape. rewrite Z.eqb_refl, orb_true_r. reflexivity.
Qed.

(** A written field ends no row, and the delimiter after it closes the
    cell. *)
Lemma after_written st fld :
  fresh st -> valid fld ->
  exists st', after st (written fld) = Some st'
              /\ on_byte st' delimiter = EndCell.
Proof.
  intros Hst Hv. pose proof Hsane as (Hd0 & _ & Hqd & Hdn & _).
  assert (Ht : targets delimiter 13 10 escapechar delimiter = true)
    by (apply (RoundTrip.terminator_is_target _ _ _ Hsane); left; reflexivity).
  assert (Hdq : (delimiter =? quotechar) = false)
    by (apply Z.eqb_neq; congruence).
  assert (Hfresh : forall s, fresh s -> on_byte s delimiter = EndCell).
  { intros s [-> | ->]; cbn [RowSpec.on_byte];
      unfold at_cell_start, in_unquoted, after_break;
      rewrite ?Hdn, Hdq, Ht, Z.eqb_refl; reflexivity. }
  destruct fld as [t|t]; cbn [RowText.written].
  - rewrite (after_plain st t Hst Hv). eexists. split; [reflexivity|].
    destruct t; [apply Hfresh; exact Hst|].
    cbn [RowSpec.on_byte]. unfold in_unquoted, after_break.
    rewrite Ht, Z.eqb_refl. reflexivity.
  - rewrite (after_quoted st t Hst). eexists. split; [reflexivity|].
    cbn [RowSpec.on_byte]. unfold after_break. rewrite Z.eqb_refl.
    reflexivity.
Qed.

Lemma after_fields fs :
  forall st, fresh st -> Forall valid fs ->
             exists st', after st (write_fields fs) = Some st'.
Proof.
  induction fs as [|fld fs IH]; intros st Hst Hv.
  - exists st. reflexivity.
  - inversion Hv as [|? ? Hv1 Hv2]; subst.
    destruct (after_written st fld Hst Hv1) as (st1 & E1 & Hd).
    cbn [RowText.write_fields]. destruct fs as [|fld2 fs].
    + exists st1. exact E1.
    + rewrite after_app, E1. cbn [after]. rewrite Hd.
      apply IH; [right; reflexivity | exact Hv2].
Qed.

Lemma after_blank blank :
  Forall (fun x => is_newline x = true) blank ->
  after NewlineSkip blank = Some NewlineSkip.
Proof.
  induction 1 as [|b blank Hb _ IH]; [reflexivity|].
  cbn [after RowSpec.on_byte]. rewrite Hb. exact IH.
Qed.

(** Line terminators and the beginning of a written row, short of its
    line terminator, are no row. *)
Lemma unfinished_row blank fs w rest cap pos :
  Forall (fun x => is_newline x = true) blank -> Forall valid fs ->
  blank ++ write_fields fs = w ++ rest ->
  fst (fst (expect cap NewlineSkip 0 pos w)) <> kCsmTryParseOkay.
Proof.
  intros Hblank Hv E.
  destruct (after_fields fs NewlineSkip (or_introl eq_refl) Hv) as [st' Ha].
  assert (Hall : after NewlineSkip (w ++ rest) = Some st')
    by (rewrite <- E, after_app, (after_blank blank Hblank); exact Ha).
  exact (expect_prefix _ _ _ _ _ _ _ Hall).
Qed.

(** A text in which no line terminator closes a row. *)
Lemma no_row_after t :
  forall st have_cell,
    rows delimiter quotechar escapechar false st have_cell t = 0%nat ->
    exists st', after st t = Some st'.
Proof.
  induction t as [|b t IH]; intros st hc Hr.
  - exists st. reflexivity.
  - cbn [RowSpec.rows after] in *. destruct (on_byte st b).
    + exact (IH _ _ Hr).
    + exact (IH _ _ Hr).
    + discriminate Hr.
Qed.

Lemma blank_no_row blank :
  Forall (fun x => is_newline x = true) blank ->
  expected_rows delimiter quotechar escapechar false blank = 0%nat.
Proof.
  unfold expected_rows. induction 1 as [|b blank Hb _ IH]; [reflexivity|].
  cbn [RowSpec.rows RowSpec.on_byte]. rewrite Hb. exact IH.
Qed.

Lemma no_row_prefix w rest cap pos :
  expected_rows delimiter quotechar escapechar false (w ++ rest) = 0%nat ->
  fst (fst (expect cap NewlineSkip 0 pos w)) <> kCsmTryParseOkay.
Proof.
  intros Hr. destruct (no_row_after _ _ _ Hr) as [st' Ha].
  exact (expect_prefix _ _ _ _ _ _ _ Ha).
Qed.

End Dialect.

End PrefixFacts.

(** ** Reading from a descriptor *)

Module DescriptorRead.

Import CsvReader ReaderFacts ReadRowFacts RowText SimFacts CursorFacts.
Import RoundTrip PrefixFacts.

(** A descriptor of which every [read()] delivers data until the end of
    the file is reached, and none fails. *)
Definition delivers (fd : Fd.t) : Prop :=
  Forall (fun ch => exists b bs, ch = Fd.Data (b :: bs)) fd.

Lemma delivers_read b bs rest count :
  delivers rest ->
  delivers (snd (Fd.read (Fd.Data (b :: bs) :: rest) count)).
Proof.
  intros Hrest. cbn [Fd.read].
  destruct (Z.leb_spec (len (b :: bs)) count) as [Le|Gt]; cbn [snd];
    [exact Hrest|].
  constructor; [|exact Hrest].
  destruct (skipn (Z.to_nat count) (b :: bs)) as [|x xs] eqn:E;
    [|exists x, xs; reflexivity].
  apply (f_equal (@length Z)) in E. rewrite length_skipn in E.
  unfold len in Gt. cbn [length] in *. lia.
Qed.

Lemma to_come_nil fd : delivers fd -> to_come fd = [] -> fd = [].
Proof.
  intros Hd E. destruct fd as [|ch rest]; [reflexivity|].
  inversion Hd as [|? ? (b & bs & ->) _]; subst. discriminate E.
Qed.

(** [fill()] while the descriptor has data: it returns true with more
    unread bytes than before, and no byte is lost. *)
Lemma fill_delivers c fd :
  well_formed c -> 2 <= len (BufferedStreamCursor.vec_ c) ->
  delivers fd -> fd <> [] ->
  exists c' fd',
    FdStreamCursor.fill (c, fd) = (true, (c', fd'))
    /\ well_formed c' /\ 2 <= len (BufferedStreamCursor.vec_ c')
    /\ delivers fd'
    /\ unread c' ++ to_come fd' = unread c ++ to_come fd
    /\ len (to_come fd') < len (to_come fd).
Proof.
  intros Hwf Hlen Hd Hne. destruct fd as [|ch rest]; [congruence|].
  inversion Hd as [|? ? (b & bs & ->) Hrest]; subst.
  pose proof (CursorView.prepared_room c Hwf Hlen) as Hroom.
  pose proof (CursorView.readmore_read (prepared c)
                (Fd.Data (b :: bs) :: rest)) as Hread.
  pose proof (CursorView.fill_vec_len c (Fd.Data (b :: bs) :: rest) Hwf)
    as Hvl.
  destruct (prepared_spec c Hwf) as (_ & _ & _ & _ & Hpl).
  destruct (fill_spec c (Fd.Data (b :: bs) :: rest) Hwf)
    as (rc & got & c1 & fd' & Erm & Ec & Hcase & _).
  rewrite Erm in Hread. destruct Hread as [Hrc Hfd].
  assert (Hpos : 0 < rc).
  { rewrite Hrc. apply read_data; [exact Hroom | discriminate]. }
  destruct Hcase as [(E & _)|(E & c2 & Hfill & Hwf2 & _ & Hu)]; [lia|].
  rewrite Hfill in Hvl. cbn [fst snd] in Hvl.
  pose proof (len_nonneg (unread c)) as Hun.
  exists c2, fd'. split.
  { rewrite Hfill. f_equal. apply Z.ltb_lt. lia. }
  split; [exact Hwf2|]. split.
  { rewrite Hvl, Hpl. pose proof (len_nonneg (BufferedStreamCursor.vec_ c)).
    assert (0 <= len (BufferedStreamCursor.vec_ c) / 2)
      by (apply Z.div_pos; lia).
    destruct (_ =? _); [destruct (_ <? _)|]; lia. }
  split; [rewrite Hfd; apply delivers_read; exact Hrest|].
  split; [rewrite Hu, Ec, app_assoc; reflexivity|].
  rewrite Ec, len_app. lia.
Qed.

(** [fill()] at the end of the file: nothing changes for the reader, and
    the result is true exactly when unread bytes are left. *)
Lemma fill_past_the_end c (fd : Fd.t) :
  well_formed c -> fd = [] ->
  exists c',
    FdStreamCursor.fill (c, fd) = (0 <? len (unread c), (c', fd))
    /\ well_formed c' /\ unread c' = unread c
    /\ len (BufferedStreamCursor.vec_ c)
       <= len (BufferedStreamCursor.vec_ c').
Proof.
  intros Hwf Efd.
  pose proof (CursorView.readmore_read (prepared c) fd) as Hread.
  pose proof (CursorView.fill_vec_len c fd Hwf) as Hvl.
  destruct (prepared_spec c Hwf) as (_ & _ & _ & _ & Hpl).
  destruct (fill_spec c fd Hwf)
    as (rc & got & c1 & fd' & Erm & Ec & Hcase & _).
  rewrite Erm in Hread. rewrite Efd in Hread at 1 2.
  cbn [Fd.read fst snd] in Hread.
  destruct Hread as [Hrc Hfd]. subst rc fd'.
  destruct Hcase as [(E & _)|(E & c2 & Hfill & Hwf2 & _ & Hu)];
    [discriminate E|].
  assert (Hgot : got = []).
  { rewrite Efd in Ec. cbn [to_come] in Ec. rewrite app_nil_r in Ec.
    symmetry. exact Ec. }
  subst got. rewrite app_nil_r in Hu.
  change (len (@nil Z)) with 0 in Hfill. rewrite Z.add_0_r in Hfill.
  rewrite Hfill in Hvl. cbn [fst snd] in Hvl.
  exists c2. split; [rewrite Hfill, Efd; reflexivity|]. split; [exact Hwf2|].
  split; [exact Hu|].
  rewrite Hvl, Hpl. pose proof (len_nonneg (BufferedStreamCursor.vec_ c)).
  assert (0 <= len (BufferedStreamCursor.vec_ c) / 2)
    by (apply Z.div_pos; lia).
  destruct (_ =? _); [destruct (_ <? _)|]; lia.
Qed.

(** [fill()] returns true as long as bytes are unread or to come. *)
Lemma fill_goes_on c fd :
  well_formed c -> 2 <= len (BufferedStreamCursor.vec_ c) ->
  delivers fd -> unread c ++ to_come fd <> [] ->
  exists c' fd',
    FdStreamCursor.fill (c, fd) = (true, (c', fd'))
    /\ well_formed c' /\ 2 <= len (BufferedStreamCursor.vec_ c')
    /\ delivers fd'
    /\ unread c' ++ to_come fd' = unread c ++ to_come fd.
Proof.
  intros Hwf Hlen Hd Hne. destruct fd as [|ch rest].
  - destruct (fill_past_the_end c [] Hwf eq_refl)
      as (c' & Hfill & Hwf' & Hu & Hl).
    exists c', []. cbn [to_come] in *. rewrite app_nil_r in Hne.
    assert (0 < len (unread c))
      by (destruct (unread c); [congruence | unfold len; cbn [length]; lia]).
    split.
    { etransitivity; [exact Hfill|]. f_equal. apply Z.ltb_lt. assumption. }
    split; [exact Hwf'|]. split; [lia|]. split; [constructor|].
    rewrite Hu. reflexivity.
  - destruct (fill_delivers c (ch :: rest) Hwf Hlen Hd ltac:(discriminate))
      as (c' & fd' & Hfill & Hwf' & Hl & Hd' & Hsame & _).
    exists c', fd'. auto.
Qed.

Section Rounds.
Context {C : Type} `{StreamCursor C}.

(** One round of [read_row()] that ends in a [fill()]. *)
Lemma read_row_fill n (r : CsvReader.t C) st b r' log :
  fst (try_parse (at_buf r)) = kCsmTryParseUnderrun ->
  fill (stream_ r) = (true, st) ->
  read_row n (set_stream st (snd (try_parse (at_buf r)))) = Some (b, r', log) ->
  exists log', read_row (S n) r = Some (b, r', log').
Proof.
  intros E Hf Hrr. cbn [read_row]. fold (at_buf r).
  destruct (try_parse_same_input (at_buf r)) as [(S1 & _) _].
  cbn [at_buf set_window stream_] in S1.
  destruct (try_parse (at_buf r)) as [rc r1].
  cbn [fst snd] in *. subst rc. rewrite <- S1, Hf, Hrr.
  eexists. reflexivity.
Qed.

Lemma read_row_end n (r : CsvReader.t C) st :
  fst (try_parse (at_buf r)) = kCsmTryParseUnderrun ->
  CsvCursor.count (row_ (snd (try_parse (at_buf r)))) = 0 ->
  fill (stream_ r) = (false, st) ->
  exists r' log, read_row (S n) r = Some (false, r', log).
Proof.
  intros E Hc Hf. cbn [read_row]. fold (at_buf r).
  destruct (try_parse_same_input (at_buf r)) as [(S1 & _) _].
  cbn [at_buf set_window stream_] in S1.
  destruct (try_parse (at_buf r)) as [rc r1].
  cbn [fst snd] in *. subst rc. rewrite <- S1, Hf.
  cbn [set_stream row_]. rewrite Hc. cbn [Z.eqb negb andb].
  eexists _, _. reflexivity.
Qed.

(** A round that is followed by another one does not return unless
    that one does. *)
Lemma read_row_overflow_none n (r : CsvReader.t C) :
  fst (try_parse (at_buf r)) = kCsmTryParseOverflow ->
  read_row n
    (resize_cells
       (2 * len (CsvCursor.cells (row_ (snd (try_parse (at_buf r))))))
       (snd (try_parse (at_buf r))))
  = None ->
  read_row (S n) r = None.
Proof.
  intros E Hrr. cbn [read_row]. fold (at_buf r).
  destruct (try_parse (at_buf r)) as [rc r1].
  cbn [fst snd] in *. subst rc. rewrite Hrr. reflexivity.
Qed.

Lemma read_row_fill_none n (r : CsvReader.t C) st :
  fst (try_parse (at_buf r)) = kCsmTryParseUnderrun ->
  fill (stream_ r) = (true, st) ->
  read_row n (set_stream st (snd (try_parse (at_buf r)))) = None ->
  read_row (S n) r = None.
Proof.
  intros E Hf Hrr. cbn [read_row]. fold (at_buf r).
  destruct (try_parse_same_input (at_buf r)) as [(S1 & _) _].
  cbn [at_buf set_window stream_] in S1.
  destruct (try_parse (at_buf r)) as [rc r1].
  cbn [fst snd] in *. subst rc. rewrite <- S1, Hf, Hrr. reflexivity.
Qed.

End Rounds.

(** A reader on a descriptor that is to deliver what is left of [text]:
    the unread bytes of the buffer and the bytes to come make up
    [text]. *)
Definition feeding (sse : bool) (d q e : byte)
           (r : CsvReader.t FdStreamCursor.t) (text : list byte) : Prop :=
  ReaderFacts.well_formed r
  /\ delimiter_ r = d /\ quotechar_ r = q /\ escapechar_ r = e
  /\ Spanner.new sse q e 0 0 = Some (quoted_cell_spanner_ r)
  /\ Spanner.new sse d 13 10 e = Some (unquoted_cell_spanner_ r)
  /\ sane d q e
  /\ CursorFacts.well_formed (fst (stream_ r))
  /\ 2 <= len (BufferedStreamCursor.vec_ (fst (stream_ r)))
  /\ delivers (snd (stream_ r))
  /\ CursorView.visible (stream_ r) ++ to_come (snd (stream_ r)) = text
  /\ (sse = true -> forall b, In b text -> b <> 0).

(** [feeding] looks at the cursor, the dialect and the spanners only. *)
Lemma feeding_ext sse d q e (r1 r2 : CsvReader.t FdStreamCursor.t) text :
  stream_ r2 = stream_ r1 ->
  delimiter_ r2 = delimiter_ r1 -> quotechar_ r2 = quotechar_ r1 ->
  escapechar_ r2 = escapechar_ r1 ->
  quoted_cell_spanner_ r2 = quoted_cell_spanner_ r1 ->
  unquoted_cell_spanner_ r2 = unquoted_cell_spanner_ r1 ->
  0 < len (CsvCursor.cells (row_ r2)) ->
  feeding sse d q e r1 text -> feeding sse d q e r2 text.
Proof.
  intros Es Ed Eq Ee Eqs Eus Hlen
         (Hwf & Hd & Hq & He & Sq & Su & Hsane & Hc & Hv & Hdl & Hcons & Hnz).
  unfold feeding. rewrite Es, Ed, Eq, Ee, Eqs, Eus.
  split; [|auto 12].
  apply (TraceFacts.well_formed_ext r1); auto.
Qed.

Lemma feeding_exact sse d q e r text :
  feeding sse d q e r text -> CountFacts.exact (at_buf r).
Proof.
  intros (Hwf & <- & <- & <- & Sq & Su & Hsane & Hc & Hv & Hdl & Hcons & Hnz).
  apply (exact_at_buf sse); try assumption.
  intros Hs b Hb. apply (Hnz Hs). rewrite <- Hcons. apply in_or_app. left.
  exact Hb.
Qed.

Lemma well_formed_at_buf (r : CsvReader.t FdStreamCursor.t) :
  ReaderFacts.well_formed r -> ReaderFacts.well_formed (at_buf r).
Proof.
  intros Hwf. apply (TraceFacts.well_formed_ext r); try reflexivity;
    [destruct Hwf as [Hpos _]; exact Hpos | exact Hwf].
Qed.

(** What a round of [read_row()] leaves when it is followed by another
    one: the reader with a larger cell vector, or on the refilled
    cursor. *)
Lemma feeding_resized sse d q e (r : CsvReader.t FdStreamCursor.t) text :
  feeding sse d q e r text ->
  let r1 := resize_cells
              (2 * len (CsvCursor.cells (row_ (snd (try_parse (at_buf r))))))
              (snd (try_parse (at_buf r))) in
  feeding sse d q e r1 text
  /\ stream_ r1 = stream_ r
  /\ len (CsvCursor.cells (row_ r1)) = 2 * len (CsvCursor.cells (row_ r)).
Proof.
  intros Hf r1. pose proof Hf as ([Hpos _] & _).
  destruct (try_parse_same_input (at_buf r))
    as [(S1 & S2 & S3 & S4 & S5 & S6 & S7 & S8) _].
  cbn [at_buf set_window stream_ delimiter_ quotechar_ escapechar_
       quoted_cell_spanner_ unquoted_cell_spanner_ row_
       yield_incomplete_row_] in S1, S2, S3, S4, S5, S6, S7, S8.
  assert (Hlen : len (CsvCursor.cells (row_ r1))
                 = 2 * len (CsvCursor.cells (row_ r))).
  { unfold r1. rewrite TraceFacts.len_resize_cells by lia.
    rewrite <- S8. reflexivity. }
  split; [|split; [symmetry; exact S1 | exact Hlen]].
  apply (feeding_ext sse d q e r); try (symmetry; assumption);
    [lia | exact Hf].
Qed.

Lemma feeding_refilled sse d q e (r : CsvReader.t FdStreamCursor.t) text
      c' fd' :
  feeding sse d q e r text ->
  well_formed c' -> 2 <= len (BufferedStreamCursor.vec_ c') ->
  delivers fd' ->
  unread c' ++ to_come fd'
  = unread (fst (stream_ r)) ++ to_come (snd (stream_ r)) ->
  feeding sse d q e (set_stream (c', fd') (snd (try_parse (at_buf r)))) text.
Proof.
  intros (Hwf & Hd & Hq & He & Sq & Su & Hsane & Hc & Hv & Hdl & Hcons & Hnz)
         Hc' Hv' Hdl' Hsame.
  pose proof Hwf as [Hpos _].
  destruct (try_parse_same_input (at_buf r))
    as [(S1 & S2 & S3 & S4 & S5 & S6 & S7 & S8) _].
  cbn [at_buf set_window stream_ delimiter_ quotechar_ escapechar_
       quoted_cell_spanner_ unquoted_cell_spanner_ row_
       yield_incomplete_row_] in S1, S2, S3, S4, S5, S6, S7, S8.
  unfold feeding.
  cbn [set_stream stream_ delimiter_ quotechar_ escapechar_
       quoted_cell_spanner_ unquoted_cell_spanner_ fst snd].
  split.
  { apply (TraceFacts.well_formed_ext r); cbn [set_stream delimiter_
      quotechar_ escapechar_ quoted_cell_spanner_ unquoted_cell_spanner_
      row_]; try assumption.
    exact (eq_ind _ (fun x => 0 < x) Hpos _ S8). }
  split; [exact (eq_trans (eq_sym S2) Hd)|].
  split; [exact (eq_trans (eq_sym S3) Hq)|].
  split; [exact (eq_trans (eq_sym S4) He)|].
  split; [exact (eq_trans Sq (f_equal Some S6))|].
  split; [exact (eq_trans Su (f_equal Some S7))|].
  split; [exact Hsane|]. split; [exact Hc'|]. split; [exact Hv'|].
  split; [exact Hdl'|]. split; [|exact Hnz].
  rewrite (CursorView.visible_unread (c', fd') Hc').
  rewrite (CursorView.visible_unread (stream_ r) Hc) in Hcons.
  cbn [fst] in *. rewrite Hsame. exact Hcons.
Qed.

(** What [try_parse] returns is what the byte-by-byte machine expects of
    the unread bytes. *)
Lemma feeding_expect sse d q e (r : CsvReader.t FdStreamCursor.t) text :
  feeding sse d q e r text ->
  fst (try_parse (at_buf r))
  = fst (fst (RowSpec.expect d q e (len (CsvCursor.cells (row_ r)))
                             RowSpec.NewlineSkip 0 (buf (stream_ r))
                             (CursorView.visible (stream_ r)))).
Proof.
  intros Hf. pose proof (feeding_exact _ _ _ _ _ _ Hf) as Hex.
  destruct Hf as (Hwf & Hd & Hq & He & _).
  pose proof (CountFacts.try_parse_expect (at_buf r)
                (well_formed_at_buf r Hwf) Hex) as Hexp.
  apply (f_equal (fun x => fst (fst x))) in Hexp. cbn [fst] in Hexp.
  rewrite Hexp. cbn [at_buf set_window delimiter_ quotechar_ escapechar_].
  rewrite Hd, Hq, He. reflexivity.
Qed.

(** With a whole row among the unread bytes, [read_row()] returns it
    without a [fill()]. *)
Lemma feeds_complete sse d q e nl r blank fs l rest :
  feeding sse d q e r (blank ++ write_row d q e fs nl ++ rest) ->
  Forall (fun x => is_newline x = true) blank ->
  row_ok d q e fs -> is_newline nl = true ->
  CursorView.visible (stream_ r) = blank ++ write_row d q e fs nl ++ l ->
  exists k r' log,
    read_row k r = Some (true, r', log)
    /\ decoded_row r' = map text fs
    /\ feeding sse d q e r' rest.
Proof.
  intros Hf Hblank (Hne & Hnb & Hvalid) Hnl Hvis.
  pose proof (feeding_exact _ _ _ _ _ _ Hf) as Hex.
  destruct Hf
    as (Hwf & Hd & Hq & He & Sq & Su & Hsane & Hc & Hv & Hdl & Hcons & Hnz).
  subst d q e.
  destruct (read_row_written
              (Z.to_nat (len fs - len (CsvCursor.cells (row_ r))))
              r blank fs nl l Hwf Hex Hsane)
    as (r' & log & Hrr & Hstream & Hcount & Hroom & Hcells);
    [|apply Nat.le_refl|].
  { unfold before. auto 10. }
  destruct (read_row_same_dialect _ _ _ _ _ Hrr) as (D1 & D2 & D3 & D4 & D5).
  set (k := len blank
            + len (write_row (delimiter_ r) (quotechar_ r) (escapechar_ r)
                             fs nl)) in *.
  assert (Hk : 0 <= k).
  { unfold k. pose proof (len_nonneg blank).
    pose proof (len_nonneg
                  (write_row (delimiter_ r) (quotechar_ r)
                             (escapechar_ r) fs nl)). lia. }
  destruct (CursorView.buffered_consume (stream_ r) k Hk Hc)
    as (Hvis' & _ & Hstore & Hc').
  assert (Hl : CursorView.visible (stream_ r') = l).
  { rewrite Hstream, Hvis', Hvis, app_assoc. apply skipn_app_exact.
    unfold k, len. rewrite length_app. lia. }
  eexists. exists r', log. split; [exact Hrr|]. split.
  { unfold decoded_row, row_cells. rewrite D2, D3, Hstream, Hstore.
    apply (decoded_cells _ _ _ fs Hcount); rewrite Hcount;
      [exact Hroom | exact Hcells]. }
  unfold feeding. rewrite D1, D2, D3, D4, D5.
  split; [exact (ReaderMore.read_row_well_formed _ _ _ _ _ Hwf Hrr)|].
  do 3 (split; [reflexivity|]). split; [exact Sq|]. split; [exact Su|].
  split; [exact Hsane|]. rewrite Hl. rewrite Hstream.
  split; [exact Hc'|]. split; [exact Hv|]. split; [exact Hdl|].
  split.
  - cbn [FdStreamCursor_StreamCursor consume snd].
    rewrite Hvis, <- !app_assoc in Hcons.
    apply app_inv_head in Hcons. apply app_inv_head in Hcons.
    exact Hcons.
  - intros Hs b Hb. apply (Hnz Hs). apply in_or_app. right.
    apply in_or_app. right. exact Hb.
Qed.

(** With the beginning of a row only among the unread bytes, a round of
    [read_row()] either enlarges the cell vector or fills the buffer,
    and goes on. *)
Lemma feeds_incomplete sse d q e (r : CsvReader.t FdStreamCursor.t)
      blank fs l text :
  feeding sse d q e r text ->
  Forall (fun x => is_newline x = true) blank -> Forall (valid d q e) fs ->
  blank ++ write_fields d q e fs = CursorView.visible (stream_ r) ++ l ->
  to_come (snd (stream_ r)) <> [] ->
  exists r1,
    feeding sse d q e r1 text
    /\ (forall k b r' log,
          read_row k r1 = Some (b, r', log) ->
          exists log', read_row (S k) r = Some (b, r', log'))
    /\ ((stream_ r1 = stream_ r
         /\ len (CsvCursor.cells (row_ r))
            <= len (CursorView.visible (stream_ r))
         /\ len (CsvCursor.cells (row_ r1))
            = 2 * len (CsvCursor.cells (row_ r)))
        \/ len (to_come (snd (stream_ r1)))
           < len (to_come (snd (stream_ r)))).
Proof.
  intros Hf Hblank Hvalid Hpre Hmore.
  pose proof (feeding_expect _ _ _ _ _ _ Hf) as Hexp.
  pose proof Hf
    as (Hwf & Hd & Hq & He & Sq & Su & Hsane & Hc & Hv & Hdl & Hcons & Hnz).
  pose proof (well_formed_at_buf r Hwf) as Hwf'.
  assert (Hno : fst (try_parse (at_buf r)) <> kCsmTryParseOkay).
  { rewrite Hexp.
    exact (unfinished_row d q e Hsane blank fs _ l _ _ Hblank Hvalid Hpre). }
  destruct (fst (try_parse (at_buf r))) eqn:Erc; [congruence| |].
  - (* the cell vector is full *)
    destruct (feeding_resized sse d q e r text Hf) as (Hf1 & Es & Hlen).
    eexists. split; [exact Hf1|]. split.
    + intros k b r' log Hrr.
      exact (read_row_overflow k r b r' log Erc Hrr).
    + left. split; [exact Es|]. split; [|exact Hlen].
      pose proof (ReaderMore.overflow_bound (at_buf r) Hwf' Erc) as Hb.
      cbn [at_buf set_window row_ p_ endp_] in Hb.
      unfold CursorView.visible. rewrite len_slice; [lia|].
      destruct Hc as [Hr Hw].
      cbn [FdStreamCursor_StreamCursor size].
      unfold BufferedStreamCursor.size. lia.
  - (* more is to be read *)
    assert (Hfd : snd (stream_ r) <> [])
      by (intros E; apply Hmore; rewrite E; reflexivity).
    destruct (fill_delivers _ _ Hc Hv Hdl Hfd)
      as (c' & fd' & Hfill & Hc' & Hv' & Hdl' & Hsame & Hless).
    assert (Hfill' : fill (stream_ r) = (true, (c', fd')))
      by (destruct (stream_ r); exact Hfill).
    exists (set_stream (c', fd') (snd (try_parse (at_buf r)))).
    split; [|split].
    + exact (feeding_refilled sse d q e r text c' fd' Hf Hc' Hv' Hdl' Hsame).
    + intros k b r' log Hrr.
      exact (read_row_fill k r (c', fd') b r' log Erc Hfill' Hrr).
    + right. cbn [set_stream stream_ snd]. exact Hless.
Qed.

(** One round of [read_row()] in front of a written row: the row is
    returned, or the round is followed by another one, with a larger
    cell vector or with fewer bytes to come. *)
Lemma feeds_step sse d q e nl (r : CsvReader.t FdStreamCursor.t)
      blank fs rest :
  Forall (fun x => is_newline x = true) blank ->
  row_ok d q e fs -> is_newline nl = true ->
  feeding sse d q e r (blank ++ write_row d q e fs nl ++ rest) ->
  (exists k r' log,
      read_row k r = Some (true, r', log)
      /\ decoded_row r' = map text fs
      /\ feeding sse d q e r' rest)
  \/ exists r1,
      feeding sse d q e r1 (blank ++ write_row d q e fs nl ++ rest)
      /\ (forall k b r' log,
            read_row k r1 = Some (b, r', log) ->
            exists log', read_row (S k) r = Some (b, r', log'))
      /\ ((stream_ r1 = stream_ r
           /\ len (CsvCursor.cells (row_ r))
              <= len (blank ++ write_row d q e fs nl ++ rest)
           /\ len (CsvCursor.cells (row_ r1))
              = 2 * len (CsvCursor.cells (row_ r)))
          \/ len (to_come (snd (stream_ r1)))
             < len (to_come (snd (stream_ r)))).
Proof.
  intros Hblank Hok Hnl Hf.
  pose proof Hf as (_ & _ & _ & _ & _ & _ & _ & _ & _ & _ & Hcons & _).
  pose proof Hcons as Hsplit. rewrite app_assoc in Hsplit.
  apply app_eq_app in Hsplit. destruct Hsplit as [l [[E1 E2] | [E1 E2]]].
  - left. rewrite <- app_assoc in E1.
    exact (feeds_complete sse d q e nl r blank fs l rest Hf Hblank Hok Hnl E1).
  - destruct l as [|y l' _] using rev_ind.
    + left. rewrite app_nil_r in E1.
      apply (feeds_complete sse d q e nl r blank fs [] rest Hf Hblank Hok Hnl).
      rewrite app_nil_r. symmetry. exact E1.
    + right. unfold write_row in E1. rewrite !app_assoc in E1.
      apply app_inj_tail in E1. destruct E1 as [E1 _].
      destruct Hok as (_ & _ & Hvalid).
      destruct (feeds_incomplete sse d q e r blank fs l' _ Hf Hblank Hvalid E1)
        as (r1 & Hf1 & Hcont & Hcase).
      { rewrite E2. destruct l'; discriminate. }
      exists r1. split; [exact Hf1|]. split; [exact Hcont|].
      destruct Hcase as [(Es & Hcap & Hdouble) | Hless];
        [left | right; exact Hless].
      split; [exact Es|]. split; [|exact Hdouble].
      rewrite <- Hcons, len_app.
      pose proof (len_nonneg (to_come (snd (stream_ r)))). lia.
Qed.

(** The next row of the text is returned, after as many fills and
    doublings of the cell vector as it takes. *)
Lemma feeds_row sse d q e nl blank fs rest :
  Forall (fun x => is_newline x = true) blank ->
  row_ok d q e fs -> is_newline nl = true ->
  forall a b (r : CsvReader.t FdStreamCursor.t),
    feeding sse d q e r (blank ++ write_row d q e fs nl ++ rest) ->
    len (to_come (snd (stream_ r))) <= Z.of_nat a ->
    len (blank ++ write_row d q e fs nl ++ rest) + 1
    - len (CsvCursor.cells (row_ r)) <= Z.of_nat b ->
    exists k r' log,
      read_row k r = Some (true, r', log)
      /\ decoded_row r' = map text fs
      /\ feeding sse d q e r' rest.
Proof.
  intros Hblank Hok Hnl.
  assert (Hgo : forall (r r1 : CsvReader.t FdStreamCursor.t),
            (forall k b r' log,
                read_row k r1 = Some (b, r', log) ->
                exists log', read_row (S k) r = Some (b, r', log')) ->
            (exists k r' log,
                read_row k r1 = Some (true, r', log)
                /\ decoded_row r' = map text fs
                /\ feeding sse d q e r' rest) ->
            exists k r' log,
              read_row k r = Some (true, r', log)
              /\ decoded_row r' = map text fs
              /\ feeding sse d q e r' rest).
  { intros r r1 Hcont (k & r' & log & Hrr & Hdec & Hf').
    destruct (Hcont k true r' log Hrr) as [log' Hrr'].
    exists (S k), r', log'. auto. }
  induction a as [|a IHa]; intro b; induction b as [|b IHb];
    intros r Hf Ha Hb;
    pose proof Hf as ([Hpos _] & _);
    destruct (feeds_step sse d q e nl r blank fs rest Hblank Hok Hnl Hf)
      as [Done | (r1 & Hf1 & Hcont & [(Es & Hcap & Hdouble) | Hless])];
    try exact Done;
    pose proof (len_nonneg (to_come (snd (stream_ r1)))) as Hn1;
    try lia.
  - apply (Hgo r r1 Hcont).
    apply IHb; [exact Hf1 | rewrite Es; exact Ha | lia].
  - apply (Hgo r r1 Hcont).
    apply (IHa (Z.to_nat (len (blank ++ write_row d q e fs nl ++ rest) + 1
                          - len (CsvCursor.cells (row_ r1)))));
      [exact Hf1 | lia | lia].
  - apply (Hgo r r1 Hcont).
    apply IHb; [exact Hf1 | rewrite Es; exact Ha | lia].
  - apply (Hgo r r1 Hcont).
    apply (IHa (Z.to_nat (len (blank ++ write_row d q e fs nl ++ rest) + 1
                          - len (CsvCursor.cells (row_ r1)))));
      [exact Hf1 | lia | lia].
Qed.

(** The rows of a written text are returned one by one; what is left
    then is the end of line of the last one, short of its first byte. *)
Lemma fed_rows sse d q e nl more rows :
  is_newline nl = true -> Forall (fun x => is_newline x = true) more ->
  Forall (row_ok d q e) rows ->
  forall blank (r : CsvReader.t FdStreamCursor.t),
    Forall (fun x => is_newline x = true) blank ->
    feeding sse d q e r (blank ++ write_lines d q e (nl :: more) rows) ->
    exists r',
      returns_rows r (map (map text) rows) r'
      /\ feeding sse d q e r'
                 (match rows with [] => blank | _ :: _ => more end).
Proof.
  intros Hnl Hmore.
  induction rows as [|fs rows IH]; intros Hrows blank r Hblank Hf.
  - exists r. split; [constructor|].
    cbn [write_lines map concat] in Hf. rewrite app_nil_r in Hf. exact Hf.
  - inversion Hrows as [|? ? Hok Hrows']; subst.
    assert (E : write_lines d q e (nl :: more) (fs :: rows)
                = write_row d q e fs nl
                  ++ (more ++ write_lines d q e (nl :: more) rows)).
    { unfold write_lines, write_row. cbn [map concat].
      rewrite <- !app_assoc. reflexivity. }
    rewrite E in Hf.
    destruct (feeds_row sse d q e nl blank fs _ Hblank Hok Hnl
                (Z.to_nat (len (to_come (snd (stream_ r)))))
                (Z.to_nat (len (blank ++ write_row d q e fs nl
                                ++ (more
                                    ++ write_lines d q e (nl :: more) rows))
                           + 1 - len (CsvCursor.cells (row_ r))))
                r Hf ltac:(lia) ltac:(lia))
      as (k & r' & log & Hrr & Hdec & Hf').
    destruct (IH Hrows' more r' Hmore Hf') as (r'' & Hret & Hf'').
    exists r''. split.
    + rewrite map_cons, <- Hdec. exact (returns_row r k r' log _ r'' Hrr Hret).
    + destruct rows; exact Hf''.
Qed.

(** At the end of the text [read_row()] returns false. *)
Lemma feeds_end sse d q e (r : CsvReader.t FdStreamCursor.t) :
  feeding sse d q e r [] ->
  exists r' log, read_row 1 r = Some (false, r', log).
Proof.
  intros (Hwf & _ & _ & _ & _ & _ & _ & Hc & _ & Hdl & Hcons & _).
  apply app_eq_nil in Hcons. destruct Hcons as [Hvis Hcome].
  pose proof (to_come_nil _ Hdl Hcome) as Hfd.
  destruct (ReaderMore.try_parse_skipped (at_buf r)) as [Hiff Hthen].
  assert (Hflag : in_newline_skip (snd (try_parse (at_buf r))) = true).
  { apply Hiff. intros i Hi. exfalso.
    pose proof (peek_in_slice (storage (stream_ r)) _ _ i Hi) as Hin.
    unfold CursorView.visible in Hvis.
    cbn [at_buf set_window p_ endp_ stream_] in Hin.
    rewrite Hvis in Hin. exact Hin. }
  destruct (Hthen Hflag) as [Hrc Hcount].
  rewrite (CursorView.visible_unread (stream_ r) Hc) in Hvis.
  destruct (fill_past_the_end _ _ Hc Hfd) as (c' & Hfill & _).
  rewrite Hvis in Hfill.
  apply (read_row_end 0 r (c', snd (stream_ r)) Hrc Hcount).
  destruct (stream_ r) as [c fd]. exact Hfill.
Qed.

(** With bytes left that hold no row, [read_row()] does not return:
    every round underruns or enlarges the cell vector, and every
    [fill()] returns true, at the end of the file as well. *)
Lemma never_returns sse d q e text :
  text <> [] -> RowSpec.expected_rows d q e false text = 0%nat ->
  forall n (r : CsvReader.t FdStreamCursor.t),
    feeding sse d q e r text -> read_row n r = None.
Proof.
  intros Hne Hrows. induction n as [|n IH]; intros r Hf; [reflexivity|].
  pose proof (feeding_expect _ _ _ _ _ _ Hf) as Hexp.
  pose proof Hf
    as (Hwf & Hd & Hq & He & Sq & Su & Hsane & Hc & Hv & Hdl & Hcons & Hnz).
  assert (Hno : fst (try_parse (at_buf r)) <> kCsmTryParseOkay).
  { rewrite Hexp. apply (no_row_prefix d q e _ (to_come (snd (stream_ r)))).
    rewrite Hcons. exact Hrows. }
  destruct (fst (try_parse (at_buf r))) eqn:Erc; [congruence| |].
  - destruct (feeding_resized sse d q e r text Hf) as (Hf1 & _).
    apply (read_row_overflow_none n r Erc). apply IH. exact Hf1.
  - rewrite (CursorView.visible_unread (stream_ r) Hc) in Hcons.
    destruct (fill_goes_on _ _ Hc Hv Hdl)
      as (c' & fd' & Hfill & Hc' & Hv' & Hdl' & Hsame);
      [rewrite Hcons; exact Hne|].
    assert (Hfill' : fill (stream_ r) = (true, (c', fd')))
      by (destruct (stream_ r); exact Hfill).
    apply (read_row_fill_none n r (c', fd') Erc Hfill'). apply IH.
    exact (feeding_refilled sse d q e r text c' fd' Hf Hc' Hv' Hdl' Hsame).
Qed.

(** A reader built on a fresh descriptor cursor has the whole text
    before it. *)
Lemma to_come_data chunks : to_come (map Fd.Data chunks) = concat chunks.
Proof.
  induction chunks as [|bs chunks IH]; [reflexivity|].
  cbn [map to_come concat]. rewrite IH. reflexivity.
Qed.

Lemma new_feeding sse y d q e chunks (r : CsvReader.t FdStreamCursor.t) :
  sane d q e -> Forall (fun bs => bs <> []) chunks ->
  (sse = true -> ~ In 0 (concat chunks)) ->
  CsvReader.new sse (FdStreamCursor.new (map Fd.Data chunks)) d q e y
  = Some r ->
  feeding sse d q e r (concat chunks).
Proof.
  intros Hsane Hchunks Hnz Hnew.
  pose proof (new_well_formed _ _ _ _ _ _ _ Hnew) as Hwf.
  unfold CsvReader.new in Hnew.
  destruct (Spanner.new sse q e 0 0) as [qs|] eqn:Eq; [|discriminate].
  destruct (Spanner.new sse d 13 10 e) as [us|] eqn:Eu; [|discriminate].
  injection Hnew as <-. unfold feeding, FdStreamCursor.new.
  cbn [stream_ delimiter_ quotechar_ escapechar_ quoted_cell_spanner_
       unquoted_cell_spanner_ fst snd].
  assert (Hlen : len (BufferedStreamCursor.vec_ BufferedStreamCursor.new)
                 = 131072).
  { unfold BufferedStreamCursor.new, len.
    cbn [BufferedStreamCursor.vec_]. rewrite repeat_length. lia. }
  split; [exact Hwf|]. do 3 (split; [reflexivity|]).
  split; [exact Eq|]. split; [exact Eu|]. split; [exact Hsane|].
  split.
  { unfold well_formed. rewrite Hlen. unfold BufferedStreamCursor.new.
    cbn [BufferedStreamCursor.read_pos_ BufferedStreamCursor.write_pos_].
    lia. }
  split; [rewrite Hlen; lia|]. split.
  { apply Forall_map. apply (Forall_impl _ (P := fun bs => bs <> []));
      [|exact Hchunks].
    intros [|b bs] Hbs; [congruence|]. exists b, bs. reflexivity. }
  split.
  { rewrite to_come_data. unfold CursorView.visible.
    rewrite slice_nil; [reflexivity|].
    cbn [FdStreamCursor_StreamCursor buf size fst].
    unfold BufferedStreamCursor.buf, BufferedStreamCursor.size,
      BufferedStreamCursor.new.
    cbn [BufferedStreamCursor.read_pos_ BufferedStreamCursor.write_pos_].
    lia. }
  intros Hs b Hb ->. exact (Hnz Hs Hb).
Qed.

End DescriptorRead.
(** * The claims *)

(** ** The spanners *)

(** C7.  The two spanners differ on a window that holds a zero byte
    before the first target: the scalar one returns the offset of the
    target, the vector one returns 16, as PCMPISTRI takes the zero byte
    for the end of the data. *)
Theorem sse42_spanner_misses_target_after_nul :
  exists fb ve,
    Spanner.new false 44 13 10 0 = Some fb
    /\ Spanner.new true 44 13 10 0 = Some ve
    /\ Spanner.call fb (window [97; 0; 44; 98; 10] 0) = 2
    /\ Spanner.call ve (window [97; 0; 44; 98; 10] 0) = 16.
Proof.
  do 2 eexists. split; [vm_compute; reflexivity|].
  split; [vm_compute; reflexivity|]. split; reflexivity.
Qed.

(** C9.  Whatever the four target bytes, zero among them or not, a
    spanner that was built from them returns an offset in [0, 16], and an
    offset below 16 never is that of a zero byte. *)
Theorem spanner_never_stops_at_nul (sse : bool) (c1 c2 c3 c4 : byte)
        (sp : StringSpanner) (w : list byte) :
  Spanner.new sse c1 c2 c3 c4 = Some sp ->
  0 <= Spanner.call sp w <= 16
  /\ (Spanner.call sp w < 16 -> peek w (Spanner.call sp w) <> 0).
Proof.
  intros E. destruct (SpannerSpec.call_sound sse c1 c2 c3 c4 sp w E) as [R Hit].
  split; [exact R|]. intros Hk.
  apply (proj1 (SpannerSpec.targets_true _ _ _ _ _) (Hit Hk)).
Qed.

(** Zero is the first target and the first byte of the window: both
    spanners pass over it. *)
Lemma spanner_never_stops_at_nul_witness :
  exists sp,
    Spanner.new false 0 44 13 10 = Some sp
    /\ Spanner.call sp (0 :: 97 :: 44 :: repeat 0 13) = 2
    /\ 0 <= Spanner.call sp (0 :: 97 :: 44 :: repeat 0 13) <= 16
    /\ (Spanner.call sp (0 :: 97 :: 44 :: repeat 0 13) < 16 ->
        peek (0 :: 97 :: 44 :: repeat 0 13)
             (Spanner.call sp (0 :: 97 :: 44 :: repeat 0 13)) <> 0).
Proof.
  eexists. split; [vm_compute; reflexivity|]. split; [reflexivity|].
  apply (spanner_never_stops_at_nul false 0 44 13 10).
  vm_compute. reflexivity.
Defined.

(** ** The buffered cursor *)

(** C2.  At end of file with three unread bytes in the buffer, [fill()]
    returns true although it made no byte available: the cursor is the
    same before and after the call. *)
Theorem fill_true_at_eof_without_progress :
  let c1 := snd (FdStreamCursor.fill
                   (FdStreamCursor.new [Fd.Data [97; 44; 98]])) in
  snd c1 = []
  /\ size c1 = 3
  /\ fst (FdStreamCursor.fill c1) = true
  /\ size (snd (FdStreamCursor.fill c1)) = 3
  /\ buf (snd (FdStreamCursor.fill c1)) = buf c1.
Proof.
  cbv zeta.
  split; [vm_compute; reflexivity|]. split; [vm_compute; reflexivity|].
  split; [vm_compute; reflexivity|]. split; vm_compute; reflexivity.
Qed.

(** C4.  A descriptor that delivers 131072 bytes to the first [read()]
    fills [vec_] to its last byte: after that [fill()], [write_pos_] is
    [vec_.size()] and no allocated byte is left past it. *)
Theorem fill_leaves_no_margin :
  let c := FdStreamCursor.fill
             (FdStreamCursor.new [Fd.Data (repeat 97 (Z.to_nat 131072))]) in
  fst c = true
  /\ BufferedStreamCursor.write_pos_ (fst (snd c)) = 131072
  /\ len (BufferedStreamCursor.vec_ (fst (snd c))) = 131072
  /\ (len (BufferedStreamCursor.vec_ (fst (snd c)))
      <? BufferedStreamCursor.write_pos_ (fst (snd c)) + 16) = true.
Proof.
  cbv zeta.
  split; [vm_compute; reflexivity|]. split; [vm_compute; reflexivity|].
  split; vm_compute; reflexivity.
Qed.

(** ** The cells of a row *)

(** The cells that [try_parse] hands out, read against the buffer they
    were parsed from, have their [escaped] flag set exactly when [as_str],
    called with the parser's escape and quote characters, gives something
    else than the cell's raw bytes. *)
Lemma escaped_iff_decoded_differs {C} `{StreamCursor C}
      (r : CsvReader.t C) (c : CsvCell.t) :
  ReaderFacts.well_formed r ->
  In c (CsvReader.row_cells (snd (CsvReader.try_parse r))) ->
  CsvCell.escaped c = true <->
  CsvCell.as_str (CsvReader.escapechar_ r) (CsvReader.quotechar_ r)
                 (storage (CsvReader.stream_ r)) c
  <> CsvCell.raw (storage (CsvReader.stream_ r)) c.
Proof.
  intros Hwf Hin.
  destruct (ReaderFacts.row_cells_post r c Hwf Hin) as [Hf|Hn].
  - exact (ReaderFacts.finished_decoded _ _ _ _ _ _ Hf).
  - exact (ReaderFacts.null_decoded _ _ _ _ Hn).
Qed.

(** Evaluate the two spanners of a [CsvReader.new] in the goal, and
    nothing else. *)
Ltac build_spanners :=
  unfold CsvReader.new;
  repeat match goal with
         | |- context [Spanner.new ?s ?a ?b ?c ?d] =>
             let x := eval vm_compute in (Spanner.new s a b c d) in
             change (Spanner.new s a b c d) with x
         end;
  cbv beta iota.

(** C5.  A row that [read_row()] yields after a failed read() can hold a
    cell that is flagged although decoding leaves its bytes as they are.
    The descriptor delivers a first row of ten digits and then the
    beginning of a second one, a quoted field with a doubled quote, a
    delimiter and ten letters c, and its next read() fails.  The first
    call returns the first row.  The second call parses the quoted field
    into the cell at offset 12 of the buffer, of size 4 and flagged, which
    decodes to a, quote, b; then it underruns and calls [fill()], which
    moves the unread bytes to the start of the buffer before the read()
    that fails; the call yields the incomplete row, and its cell, still
    at offset 12, now lies on four of the letters c: decoded and raw bytes
    are the same, and the flag is set. *)
Theorem yielded_cell_is_stale_after_failed_read (sse : bool) :
  exists r,
    CsvReader.new sse
      (FdStreamCursor.new
         [Fd.Data [48; 49; 50; 51; 52; 53; 54; 55; 56; 57; 10;
                   34; 97; 34; 34; 98; 34; 44;
                   99; 99; 99; 99; 99; 99; 99; 99; 99; 99];
          Fd.Fail])
      44 34 0 true
    = Some r
    /\ match CsvReader.read_row 2 r with
       | Some (true, r1, _) =>
           CsvReader.decoded_row r1
           = [[48; 49; 50; 51; 52; 53; 54; 55; 56; 57]]
           /\ CsvReader.row_cells
                (snd (CsvReader.try_parse (ReadRowFacts.at_buf r1)))
              = [CsvCell.mk (Some 12) 4 true]
           /\ CsvCell.as_str (CsvReader.escapechar_ r1)
                             (CsvReader.quotechar_ r1)
                             (storage (CsvReader.stream_ r1))
                             (CsvCell.mk (Some 12) 4 true)
              = [97; 34; 98]
           /\ match CsvReader.read_row 1 r1 with
              | Some (true, r2, _) =>
                  CsvReader.row_cells r2 = [CsvCell.mk (Some 12) 4 true]
                  /\ CsvCell.as_str (CsvReader.escapechar_ r2)
                                    (CsvReader.quotechar_ r2)
                                    (storage (CsvReader.stream_ r2))
                                    (CsvCell.mk (Some 12) 4 true)
                     = [99; 99; 99; 99]
                  /\ CsvCell.raw (storage (CsvReader.stream_ r2))
                                 (CsvCell.mk (Some 12) 4 true)
                     = [99; 99; 99; 99]
              | _ => False
              end
       | _ => False
       end.
Proof.
  destruct sse; eexists; (split; [build_spanners; reflexivity|]);
    vm_compute; repeat split; reflexivity.
Qed.

(** C10.  When [try_parse] returns a row from the label [cell_start],
    that is, on a line terminator met where a cell would start, the last
    cell of the row it leaves in [row_] has a null [ptr] and size 0, and
    the row ends in a delimiter and that line terminator; when it returns
    a row from another label the last cell has a non-null [ptr].  Every
    cell before the last one, empty or not, has a non-null [ptr] into the
    bytes between [p_] and [endp_], and a size that stays inside them. *)
Theorem trailing_empty_cell_is_null {C} `{StreamCursor C}
        (r : CsvReader.t C) (n : nat) (f : TryParse.frame) :
  ReaderFacts.well_formed r ->
  CsvReader.run_frame r n (CsvReader.enter r)
  = Some (kCsmTryParseOkay, f) ->
  let r' := snd (CsvReader.try_parse r) in
  let row := CsvReader.row_ r' in
  let last := ParseFacts.cell_at (CsvCursor.cells row)
                                 (CsvCursor.count row - 1) in
  fst (CsvReader.try_parse r) = kCsmTryParseOkay
  /\ (TryParse.pc f = cell_start ->
      CsvCell.ptr last = None /\ CsvCell.size last = 0
      /\ peek (storage (CsvReader.stream_ r)) (CsvReader.p_ r' - 2)
         = CsvReader.delimiter_ r
      /\ is_newline (peek (storage (CsvReader.stream_ r))
                          (CsvReader.p_ r' - 1)) = true)
  /\ (TryParse.pc f <> cell_start ->
      exists a, CsvCell.ptr last = Some a
                /\ CsvReader.p_ r <= a
                /\ 0 <= CsvCell.size last
                /\ a + CsvCell.size last < CsvReader.endp_ r)
  /\ (forall i, 0 <= i < CsvCursor.count row - 1 ->
      let c := ParseFacts.cell_at (CsvCursor.cells row) i in
      exists a, CsvCell.ptr c = Some a
                /\ CsvReader.p_ r <= a
                /\ 0 <= CsvCell.size c
                /\ a + CsvCell.size c < CsvReader.endp_ r).
Proof.
  intros Hwf Hrun.
  pose proof (ReaderMore.try_parse_after_delimiter r n f Hrun) as Hdelim.
  pose proof (ReaderMore.try_parse_moved r) as Hmoved.
  apply ParseFacts.run_steps in Hrun.
  destruct (ReaderFacts.try_parse_post r Hwf) as (f' & Hleave & Hrun' & Hpost & _).
  unfold CsvReader.run_frame in Hrun'. rewrite Hrun in Hrun'.
  assert (Hrc : fst (CsvReader.try_parse r) = kCsmTryParseOkay) by congruence.
  assert (Hf : f' = f) by congruence. subst f'.
  rewrite Hrc in Hpost, Hmoved. rewrite Hleave in *.
  cbv zeta. cbn [CsvReader.leave CsvReader.row_ CsvReader.p_
                 CsvCursor.cells CsvCursor.count] in *.
  split; [exact Hrc|].
  destruct Hpost as (Hcount & Hpos & Hdone & Hlast).
  destruct (Hpos eq_refl) as [Hpos' _]. clear Hpos. rename Hpos' into Hpos.
  specialize (Hlast Hpos). unfold ParseFacts.last_is_null in Hlast.
  split; [|split].
  - intros Hpc. rewrite Hpc in Hlast. destruct Hlast as (Hp & Hs & _).
    auto.
  - intros Hpc.
    assert (Hfin : ParseFacts.finished
                     (storage (CsvReader.stream_ r)) (CsvReader.endp_ r)
                     (CsvReader.p_ r) (CsvReader.quotechar_ r)
                     (CsvReader.escapechar_ r)
                     (ParseFacts.cell_at (TryParse.cells f)
                                         (TryParse.count f - 1)))
      by (destruct (TryParse.pc f); try exact Hlast; congruence).
    destruct Hfin as (a & Ha & Hlo & Hsz & Hhi & _). exists a. auto.
  - intros i Hi. destruct (Hdone i Hi) as (a & Ha & Hlo & Hsz & Hhi & _).
    exists a. auto.
Qed.

(** A row that ends in a delimiter and the line terminator: the third
    cell is the null cell, the empty second cell is not. *)
Lemma trailing_empty_cell_is_null_witness :
  exists c r (f : TryParse.frame),
    MappedFileCursor.open [97; 44; 44; 10] = Some c
    /\ CsvReader.new false c 44 34 0 false = Some r
    /\ CsvReader.run_frame r 20 (CsvReader.enter r)
       = Some (kCsmTryParseOkay, f)
    /\ TryParse.pc f = cell_start
    /\ CsvReader.row_cells (snd (CsvReader.try_parse r))
       = [CsvCell.mk (Some 0) 1 false; CsvCell.mk (Some 2) 0 false;
          CsvCell.mk None 0 false]
    /\ let r' := snd (CsvReader.try_parse r) in
       let row := CsvReader.row_ r' in
       let last := ParseFacts.cell_at (CsvCursor.cells row)
                                      (CsvCursor.count row - 1) in
       fst (CsvReader.try_parse r) = kCsmTryParseOkay
       /\ (TryParse.pc f = cell_start ->
           CsvCell.ptr last = None /\ CsvCell.size last = 0
           /\ peek (storage (CsvReader.stream_ r)) (CsvReader.p_ r' - 2)
              = CsvReader.delimiter_ r
           /\ is_newline (peek (storage (CsvReader.stream_ r))
                               (CsvReader.p_ r' - 1)) = true)
       /\ (TryParse.pc f <> cell_start ->
           exists a, CsvCell.ptr last = Some a
                     /\ CsvReader.p_ r <= a
                     /\ 0 <= CsvCell.size last
                     /\ a + CsvCell.size last < CsvReader.endp_ r)
       /\ (forall i, 0 <= i < CsvCursor.count row - 1 ->
           let c := ParseFacts.cell_at (CsvCursor.cells row) i in
           exists a, CsvCell.ptr c = Some a
                     /\ CsvReader.p_ r <= a
                     /\ 0 <= CsvCell.size c
                     /\ a + CsvCell.size c < CsvReader.endp_ r).
Proof.
  do 3 eexists. split; [reflexivity|]. split; [vm_compute; reflexivity|].
  split; [vm_compute; reflexivity|].
  split; [reflexivity|]. split; [vm_compute; reflexivity|].
  apply (trailing_empty_cell_is_null _ 20).
  - split; [reflexivity|]. exists false. split; reflexivity.
  - vm_compute. reflexivity.
Defined.

(** ** Rows without a line terminator *)

(** C1.  With [yield_incomplete_row] set, the mapped file [a,b] without a
    line terminator gives one row, and that row holds the cell [a] only:
    the cell [b], open when the input ended, is not in it. *)
Theorem yield_incomplete_row_drops_open_cell (sse : bool) :
  exists c r r' log,
    MappedFileCursor.open [97; 44; 98] = Some c
    /\ CsvReader.new sse c 44 34 0 true = Some r
    /\ CsvReader.read_row 1 r = Some (true, r', log)
    /\ CsvReader.decoded_row r' = [[97]]
    /\ size (CsvReader.stream_ r') = 0.
Proof.
  destruct sse; do 4 eexists; (split; [reflexivity|]);
    (split; [vm_compute; reflexivity|]);
    (split; [vm_compute; reflexivity|]); split; reflexivity.
Qed.

(** C3.  On a descriptor that delivers the three bytes of [a,b] and then
    is at end of file, [read_row()] never returns, with either spanner and
    whatever [yield_incomplete_row] is: the first [fill()] reads the three
    bytes, and from then on every round underruns and every [fill()]
    returns true. *)
Theorem read_row_never_returns_on_unterminated_row (sse yield : bool) :
  exists r,
    CsvReader.new sse (FdStreamCursor.new [Fd.Data [97; 44; 98]])
                  44 34 0 yield = Some r
    /\ forall n, CsvReader.read_row n r = None.
Proof.
  destruct sse, yield; eexists; (split; [build_spanners; reflexivity|]);
    intros n; (destruct n as [|n]; [reflexivity|]);
    (apply ReadRowFacts.read_row_refill; [vm_compute; reflexivity ..|]);
    (apply ReadRowFacts.read_row_stuck_at_eof;
     [vm_compute; reflexivity | vm_compute; reflexivity
      | split; vm_compute; reflexivity | vm_compute; reflexivity]).
Qed.

(** ** The cursor during one [read_row()] *)

(** C8, as the code has it.  The trace of a [read_row()] that returns is
    one of [TraceFacts.rounds]: after an overflow the capacity is doubled
    and [try_parse()] runs again on the cursor as it was; after an
    underrun comes a [fill()] and, when it returns true, [try_parse()] on
    the refilled cursor; when it returns false, the call ends, and it
    ends with a [consume] of all the bytes that were left exactly when
    [row_.count] is not zero and [yield_incomplete_row_] is set: it then
    returns true, and false otherwise.  [consume] is called once, as the
    last thing a call that returns true does: with the number of bytes of
    the row when the row was parsed, which is positive and not more than
    [size()], and with all the bytes that were left when an incomplete
    row is yielded. *)
Theorem read_row_consumes_once_at_the_end {C} `{StreamCursor C}
        (n : nat) (r : CsvReader.t C) (b : bool) (r' : CsvReader.t C)
        (log : list (CsvReader.event C)) :
  ReaderFacts.well_formed r ->
  CsvReader.read_row n r = Some (b, r', log) ->
  TraceFacts.rounds (CsvReader.yield_incomplete_row_ r)
                    (CsvCursor.count (CsvReader.row_ r'))
                    (CsvReader.stream_ r)
                    (len (CsvCursor.cells (CsvReader.row_ r))) b
                    (CsvReader.stream_ r') (CsvReader.p_ r') log
  /\ (forall pre k post,
         log = pre ++ CsvReader.EvConsume k :: post -> post = [] /\ b = true)
  /\ (b = true -> exists pre k, log = pre ++ [CsvReader.EvConsume k])
  /\ (In (CsvReader.EvFill false) log ->
      b = true <->
      CsvCursor.count (CsvReader.row_ r') <> 0
      /\ CsvReader.yield_incomplete_row_ r = true).
Proof.
  intros Hwf Hrr.
  pose proof (TraceFacts.read_row_rounds n r b r' log Hwf Hrr) as Hr.
  split; [exact Hr|].
  split; [exact (TraceFacts.rounds_consume _ _ _ _ _ _ _ _ Hr)|].
  split; [intros ->; exact (TraceFacts.rounds_true _ _ _ _ _ _ _ Hr)|].
  exact (TraceFacts.rounds_failed_fill _ _ _ _ _ _ _ _ Hr).
Qed.

(** The mapped file [a,b] LF [c,d] without a last line terminator, read
    with [yield_incomplete_row] set, after its first row: the call
    underruns with one cell counted, [fill()] returns false, and the
    incomplete row is yielded with a [consume] of the three bytes left. *)
Lemma read_row_consumes_once_at_the_end_witness :
  exists c r r1 log1 r' log,
    MappedFileCursor.open [97; 44; 98; 10; 99; 44; 100] = Some c
    /\ CsvReader.new false c 44 34 0 true = Some r
    /\ CsvReader.read_row 1 r = Some (true, r1, log1)
    /\ CsvReader.read_row 1 r1 = Some (true, r', log)
    /\ log = [CsvReader.EvParse kCsmTryParseUnderrun (CsvReader.stream_ r1)
                                32;
              CsvReader.EvFill false;
              CsvReader.EvConsume 3]
    /\ CsvCursor.count (CsvReader.row_ r') = 1
    /\ TraceFacts.rounds (CsvReader.yield_incomplete_row_ r1)
                         (CsvCursor.count (CsvReader.row_ r'))
                         (CsvReader.stream_ r1)
                         (len (CsvCursor.cells (CsvReader.row_ r1))) true
                         (CsvReader.stream_ r') (CsvReader.p_ r') log
    /\ (forall pre k post,
           log = pre ++ CsvReader.EvConsume k :: post ->
           post = [] /\ true = true)
    /\ (true = true -> exists pre k, log = pre ++ [CsvReader.EvConsume k])
    /\ (In (CsvReader.EvFill false) log ->
        true = true <->
        CsvCursor.count (CsvReader.row_ r') <> 0
        /\ CsvReader.yield_incomplete_row_ r1 = true).
Proof.
  do 6 eexists. split; [reflexivity|].
  split; [vm_compute; reflexivity|].
  split; [vm_compute; reflexivity|].
  split; [vm_compute; reflexivity|].
  split; [reflexivity|]. split; [reflexivity|].
  apply (read_row_consumes_once_at_the_end 1).
  - split; [reflexivity|]. exists false. split; reflexivity.
  - vm_compute. reflexivity.
Defined.

(** C8, as it is stated, fails when an incomplete row is yielded: on the
    mapped file [a,b] the only [try_parse()] of the call underruns, and the
    call then calls [consume(3)] and leaves an empty cursor. *)
Lemma consume_follows_underrun_when_yielding :
  exists c r r',
    MappedFileCursor.open [97; 44; 98] = Some c
    /\ CsvReader.new false c 44 34 0 true = Some r
    /\ CsvReader.read_row 1 r
       = Some (true, r',
               [CsvReader.EvParse kCsmTryParseUnderrun (CsvReader.stream_ r) 32;
                CsvReader.EvFill false;
                CsvReader.EvConsume 3])
    /\ size (CsvReader.stream_ r) = 3
    /\ size (CsvReader.stream_ r') = 0.
Proof.
  do 3 eexists. split; [reflexivity|]. split; [vm_compute; reflexivity|].
  split; [vm_compute; reflexivity|]. split; reflexivity.
Qed.

(** ** The number of rows *)

(** C6, as the code has it.  For a reader built on a mapped file, the
    calls of [read_row()] return true once for every row of the input and
    then false, where the rows are counted byte by byte
    ([RowSpec.stated_rows]): one for every line terminator that closes a
    row, which one inside a quoted cell or among the leading line
    terminators of a row does not, and, with [yield_incomplete_row], one
    more when a partial trailing row exists.  This is for inputs that,
    with [yield_incomplete_row] set, do not end inside the first cell of
    a row.  With the vector spanner it is for inputs without a zero byte
    and a dialect whose delimiter is not zero and whose escape character
    comes with a quote character. *)
Theorem rows_emitted_are_rows_of_input
        (sse : bool) (data : list byte) (d q e : byte) (y : bool)
        (c : MappedFileCursor.t) (r : CsvReader.t MappedFileCursor.t) :
  MappedFileCursor.open data = Some c ->
  CsvReader.new sse c d q e y = Some r ->
  (sse = true ->
   d <> 0 /\ (q = 0 -> e = 0) /\ forall b, In b data -> b <> 0) ->
  (y = true -> RowSpec.ends_in_first_cell d q e data = false) ->
  forall k,
    CountFacts.rows_emitted r k <-> k = RowSpec.stated_rows d q e y data.
Proof.
  intros Hopen Hnew Hsse Hend k.
  destruct (CountFacts.new_ready sse data c d q e y r Hopen Hnew Hsse)
    as (Hready & Hrest & Hd & Hq & He & Hy).
  pose proof (CountFacts.rows_emitted_mapped data (length data) r Hready)
    as Hrows.
  rewrite Hrest in Hrows. specialize (Hrows (Nat.le_refl _)).
  unfold CountFacts.rows_of in Hrows. rewrite Hd, Hq, He, Hy in Hrows.
  rewrite (RowSpecFacts.rows_stated d q e y data RowSpec.NewlineSkip false)
    in Hrows; [|discriminate | exact Hend].
  fold (RowSpec.stated_rows d q e y data) in Hrows.
  split.
  - intros Hk. exact (CountFacts.rows_emitted_unique r k Hk _ Hrows).
  - intros ->. exact Hrows.
Qed.

(** A file of two rows and a partial third one, read with
    [yield_incomplete_row] set: the first row is closed by CR LF, the
    second is followed by an empty line, the third has one closed cell
    and no line terminator. *)
Lemma rows_emitted_are_rows_of_input_witness :
  exists c r,
    MappedFileCursor.open [97; 13; 10; 98; 44; 99; 10; 10; 100; 44; 101]
    = Some c
    /\ CsvReader.new false c 44 34 0 true = Some r
    /\ RowSpec.stated_rows 44 34 0 true
         [97; 13; 10; 98; 44; 99; 10; 10; 100; 44; 101]
       = 3%nat
    /\ forall k,
        CountFacts.rows_emitted r k <->
        k = RowSpec.stated_rows 44 34 0 true
              [97; 13; 10; 98; 44; 99; 10; 10; 100; 44; 101].
Proof.
  do 2 eexists. split; [reflexivity|]. split; [vm_compute; reflexivity|].
  split; [reflexivity|].
  eapply (rows_emitted_are_rows_of_input false).
  - reflexivity.
  - vm_compute. reflexivity.
  - intros E. discriminate E.
  - intros _. reflexivity.
Defined.

(** Outside these inputs the code emits a row less than the
    specification counts: the mapped file [a] LF [b] ends inside the
    first cell of its second row, and with [yield_incomplete_row] set
    one row is emitted.  The cell that is open when the input ends is
    never stored, so the partial row counts no cell and is not yielded:
    the same defect that makes a yielded row lack its last cell. *)
Lemma open_first_cell_is_not_yielded :
  exists c r,
    MappedFileCursor.open [97; 10; 98] = Some c
    /\ CsvReader.new false c 44 34 0 true = Some r
    /\ RowSpec.ends_in_first_cell 44 34 0 [97; 10; 98] = true
    /\ RowSpec.stated_rows 44 34 0 true [97; 10; 98] = 2%nat
    /\ CountFacts.rows_emitted r 1.
Proof.
  do 2 eexists. split; [reflexivity|]. split; [vm_compute; reflexivity|].
  split; [reflexivity|]. split; [reflexivity|].
  eapply (CountFacts.emitted_one_more _ 1%nat); [vm_compute; reflexivity|].
  eapply (CountFacts.emitted_none _ 1%nat). vm_compute. reflexivity.
Qed.

(** C6, as it is stated, fails on a line closed by CR LF: the file holds
    two line terminator bytes, none of them in a quoted cell, and one row
    is emitted, not two. *)
Lemma crlf_line_is_one_row :
  exists c r,
    MappedFileCursor.open [97; 13; 10] = Some c
    /\ CsvReader.new false c 44 34 0 false = Some r
    /\ length (filter is_newline [97; 13; 10]) = 2%nat
    /\ CountFacts.rows_emitted r 1
    /\ ~ CountFacts.rows_emitted r (length (filter is_newline [97; 13; 10])).
Proof.
  do 2 eexists. split; [reflexivity|]. split; [vm_compute; reflexivity|].
  split; [reflexivity|].
  match goal with
  | |- CountFacts.rows_emitted ?r 1 /\ _ =>
      assert (H1 : CountFacts.rows_emitted r 1)
  end.
  { eapply (CountFacts.emitted_one_more _ 1%nat); [vm_compute; reflexivity|].
    eapply (CountFacts.emitted_none _ 1%nat). vm_compute. reflexivity. }
  split; [exact H1|]. intros H2.
  pose proof (CountFacts.rows_emitted_unique _ _ H1 _ H2) as E.
  discriminate E.
Qed.

(** * Further properties *)

(** ** The spanners *)

(** X1.  The constructor of the scalar spanner indexes its table with
    [(unsigned) c] for a signed [char c]: for four bytes, its stores stay
    inside the 256 entries exactly when each byte is below 0x80.  A byte of
    0x80 or above makes it store outside the table. *)
Theorem fallback_constructor_in_bounds_iff (c1 c2 c3 c4 : byte) :
  0 <= c1 < 256 -> 0 <= c2 < 256 -> 0 <= c3 < 256 -> 0 <= c4 < 256 ->
  StringSpannerFallback.new c1 c2 c3 c4 = None <->
  (128 <= c1 \/ 128 <= c2 \/ 128 <= c3 \/ 128 <= c4).
Proof.
  intros H1 H2 H3 H4.
  unfold StringSpannerFallback.new, StringSpannerFallback.bind,
    StringSpannerFallback.store, StringSpannerFallback.unsigned_of_char.
  change (2 ^ 32 - 256) with 4294967040.
  destruct (Z.ltb_spec c1 128), (Z.ltb_spec c2 128), (Z.ltb_spec c3 128),
    (Z.ltb_spec c4 128);
    repeat match goal with
           | |- context [(0 <=? ?x) && (?x <? 256)] =>
               let E := fresh in
               first
                 [ assert (E : (0 <=? x) && (x <? 256) = true)
                     by (apply andb_true_iff; split;
                         [apply Z.leb_le | apply Z.ltb_lt]; lia)
                 | assert (E : (0 <=? x) && (x <? 256) = false)
                     by (apply andb_false_iff; right; apply Z.ltb_ge; lia) ];
               rewrite E; clear E
           end;
    cbv beta iota; (split; [intros E; try discriminate E; lia | intros ?]);
    try reflexivity; exfalso; lia.
Qed.

Lemma fallback_constructor_in_bounds_iff_witness :
  StringSpannerFallback.new 44 13 10 233 = None <->
  (128 <= 44 \/ 128 <= 13 \/ 128 <= 10 \/ 128 <= 233).
Proof.
  apply fallback_constructor_in_bounds_iff; lia.
Defined.

(** X2.  The scalar spanner returns the offset of the first byte of the
    window that is one of its non-zero target bytes, and 16 when the
    window holds none. *)
Theorem fallback_returns_first_target (c1 c2 c3 c4 : byte)
        (charset_ : list Z) (w : list byte) :
  StringSpannerFallback.new c1 c2 c3 c4 = Some charset_ ->
  let k := StringSpannerFallback.call charset_ w in
  0 <= k <= 16
  /\ (k < 16 -> targets c1 c2 c3 c4 (peek w k) = true)
  /\ (forall j, 0 <= j < k -> targets c1 c2 c3 c4 (peek w j) = false).
Proof.
  intros Hnew k.
  destruct (SpannerFacts.new_some c1 c2 c3 c4 charset_ Hnew) as [_ Ht].
  destruct (SpannerFacts.call_first_hit charset_ w) as (R & Hit & Miss).
  fold k in R, Hit, Miss. split; [exact R|]. split.
  - intros Hk. rewrite <- Ht. exact (Hit Hk).
  - intros j Hj. rewrite <- Ht. exact (Miss j Hj).
Qed.

Lemma fallback_returns_first_target_witness :
  exists t,
    StringSpannerFallback.new 44 13 10 0 = Some t
    /\ StringSpannerFallback.call t (window [97; 98; 0; 99; 13; 44] 0) = 4
    /\ let k := StringSpannerFallback.call t (window [97; 98; 0; 99; 13; 44] 0)
       in 0 <= k <= 16
          /\ (k < 16 ->
              targets 44 13 10 0
                      (peek (window [97; 98; 0; 99; 13; 44] 0) k) = true)
          /\ (forall j, 0 <= j < k ->
              targets 44 13 10 0
                      (peek (window [97; 98; 0; 99; 13; 44] 0) j) = false).
Proof.
  eexists. split; [vm_compute; reflexivity|]. split; [reflexivity|].
  apply (fallback_returns_first_target 44 13 10 0). vm_compute. reflexivity.
Defined.

(** X3.  On a window without a zero byte the two spanners return the
    same offset, provided the zero bytes among the four constructor
    arguments come last, as they do in both spanners of a [CsvReader]
    with a non-zero delimiter and quote character. *)
Theorem spanners_agree_without_nul (c1 c2 c3 c4 : byte)
        (fb ve : StringSpanner) (w : list byte) :
  (c1 = 0 -> c2 = 0) -> (c2 = 0 -> c3 = 0) -> (c3 = 0 -> c4 = 0) ->
  Spanner.new false c1 c2 c3 c4 = Some fb ->
  Spanner.new true c1 c2 c3 c4 = Some ve ->
  (forall i, 0 <= i < 16 -> peek w i <> 0) ->
  Spanner.call fb w = Spanner.call ve w.
Proof.
  intros P1 P2 P3. apply SpannerSpec.spanners_agree.
  split; [exact P1|]. split; [exact P2 | exact P3].
Qed.

Lemma spanners_agree_without_nul_witness :
  exists fb ve,
    Spanner.new false 34 92 0 0 = Some fb
    /\ Spanner.new true 34 92 0 0 = Some ve
    /\ Spanner.call fb (repeat 97 5 ++ 92 :: repeat 98 10) = 5
    /\ Spanner.call fb (repeat 97 5 ++ 92 :: repeat 98 10)
       = Spanner.call ve (repeat 97 5 ++ 92 :: repeat 98 10).
Proof.
  do 2 eexists. split; [vm_compute; reflexivity|].
  split; [vm_compute; reflexivity|]. split; [reflexivity|].
  apply (spanners_agree_without_nul 34 92 0 0);
    try (vm_compute; reflexivity); try (intros E; try discriminate E; reflexivity).
  intros i Hi.
  assert (D : i = 0 \/ i = 1 \/ i = 2 \/ i = 3 \/ i = 4 \/ i = 5 \/ i = 6
              \/ i = 7 \/ i = 8 \/ i = 9 \/ i = 10 \/ i = 11 \/ i = 12
              \/ i = 13 \/ i = 14 \/ i = 15) by lia.
  repeat (destruct D as [->|D]; [discriminate|]). subst i. discriminate.
Defined.

(** X4.  The vector spanner sees nothing from the first zero byte of the
    window on: when the window holds a zero byte at offset [z], the result
    is an offset before [z], or 16; whatever follows the zero byte, a
    target or not, is passed over. *)
Theorem sse42_blind_from_first_nul (v_ : list byte) (w : list byte) (z : Z) :
  0 <= z < 16 -> peek w z = 0 ->
  Spanner.call (Sse42 v_) w < z \/ Spanner.call (Sse42 v_) w = 16.
Proof.
  intros Hz Hnul. cbn [Spanner.call]. unfold StringSpannerSse42.call.
  destruct (SpannerFacts.mm_cmpistri_spec v_ w) as (R & _ & _).
  destruct (Z.lt_ge_cases (StringSpannerSse42.mm_cmpistri v_ w) z) as [L|G];
    [left; exact L|].
  right.
  destruct (Z.eq_dec (StringSpannerSse42.mm_cmpistri v_ w) 16) as [E|N];
    [exact E|].
  exfalso.
  apply (Sse42Facts.mm_cmpistri_before_nul v_ w z); [lia | lia | exact Hnul].
Qed.

Lemma sse42_blind_from_first_nul_witness :
  Spanner.call (Sse42 (StringSpannerSse42.new 44 13 10 0))
               [97; 98; 0; 44; 99; 10; 0; 0; 0; 0; 0; 0; 0; 0; 0; 0] < 2
  \/ Spanner.call (Sse42 (StringSpannerSse42.new 44 13 10 0))
                  [97; 98; 0; 44; 99; 10; 0; 0; 0; 0; 0; 0; 0; 0; 0; 0] = 16.
Proof.
  apply sse42_blind_from_first_nul; [lia | reflexivity].
Defined.

(** ** The mapped file *)

(** X5.  [consume(n)] on a mapped file drops the first [n] of the bytes
    that [buf()] and [size()] show, all of them when [n] is more than
    [size()], and leaves the mapping alone. *)
Theorem mapped_consume_drops_prefix (c : MappedFileCursor.t) (n : Z) :
  0 <= n -> 0 <= size c ->
  CursorView.visible (consume n c)
  = skipn (Z.to_nat n) (CursorView.visible c)
  /\ size (consume n c) = Z.max 0 (size c - n)
  /\ storage (consume n c) = storage c.
Proof.
  apply CursorView.mapped_consume.
Qed.

Lemma mapped_consume_drops_prefix_witness :
  exists c,
    MappedFileCursor.open [97; 44; 98; 10; 99; 10] = Some c
    /\ CursorView.visible (consume 4 c) = [99; 10]
    /\ CursorView.visible (consume 4 c)
       = skipn (Z.to_nat 4) (CursorView.visible c)
    /\ size (consume 4 c) = Z.max 0 (size c - 4)
    /\ storage (consume 4 c) = storage c.
Proof.
  eexists. split; [reflexivity|]. split; [reflexivity|].
  apply mapped_consume_drops_prefix; [lia | vm_compute; discriminate].
Defined.

(** X6.  In [open()], for a page size of [2^k] bytes, [rounded] is the
    file size rounded up to the next multiple of the page size: the guard
    page starts on a page boundary at or after the end of the file data
    and less than a page after it.  With pages of 16 bytes or more, the
    16 bytes after the last byte of the file are inside the reservation of
    [rounded + page_size] bytes. *)
Theorem guard_page_follows_file_data (k st_size : Z) :
  4 <= k -> 0 <= st_size -> st_size + 2 ^ k < 2 ^ 64 ->
  let rounded := MappedFileCursor.rounded (2 ^ k) st_size in
  rounded mod 2 ^ k = 0
  /\ st_size <= rounded < st_size + 2 ^ k
  /\ st_size + 16 <= rounded + 2 ^ k.
Proof.
  intros Hk Hs Hfit rounded.
  destruct (CursorFacts.rounded_spec k st_size) as [Hm Hr];
    [lia | exact Hs | exact Hfit |].
  fold rounded in Hm, Hr. split; [exact Hm|]. split; [exact Hr|].
  assert (2 ^ 4 <= 2 ^ k) by (apply Z.pow_le_mono_r; lia).
  change (2 ^ 4) with 16 in *. lia.
Qed.

Lemma guard_page_follows_file_data_witness :
  MappedFileCursor.rounded (2 ^ 12) 4097 = 8192
  /\ let rounded := MappedFileCursor.rounded (2 ^ 12) 4097 in
     rounded mod 2 ^ 12 = 0
     /\ 4097 <= rounded < 4097 + 2 ^ 12
     /\ 4097 + 16 <= rounded + 2 ^ 12.
Proof.
  split; [reflexivity|].
  apply guard_page_follows_file_data; [lia | lia | reflexivity].
Defined.

(** ** The buffered cursor, in general *)

(** X7.  [ensure(capacity)] leaves at least [capacity] bytes of room
    after [write_pos_]; it keeps every byte of the vector and both
    positions, and when it enlarges the vector the new size is the old
    one plus [capacity] plus 16. *)
Theorem ensure_makes_room (capacity : Z) (c : BufferedStreamCursor.t) :
  0 <= capacity -> CursorFacts.well_formed c ->
  let c' := BufferedStreamCursor.ensure capacity c in
  capacity <= len (BufferedStreamCursor.vec_ c')
              - BufferedStreamCursor.write_pos_ c'
  /\ firstn (length (BufferedStreamCursor.vec_ c))
            (BufferedStreamCursor.vec_ c')
     = BufferedStreamCursor.vec_ c
  /\ BufferedStreamCursor.read_pos_ c' = BufferedStreamCursor.read_pos_ c
  /\ BufferedStreamCursor.write_pos_ c' = BufferedStreamCursor.write_pos_ c
  /\ (len (BufferedStreamCursor.vec_ c') = len (BufferedStreamCursor.vec_ c)
      \/ len (BufferedStreamCursor.vec_ c')
         = 16 + (len (BufferedStreamCursor.vec_ c) + capacity)).
Proof.
  intros Hc Hwf c'.
  destruct (CursorFacts.ensure_spec capacity c Hc Hwf)
    as (_ & Hr & Hw & Hv & Hroom & Hlen).
  fold c' in Hr, Hw, Hv, Hroom, Hlen.
  split; [rewrite Hw; exact Hroom|]. auto.
Qed.

Lemma ensure_makes_room_witness :
  let c := BufferedStreamCursor.mk [97; 98; 99; 0] 1 3 in
  let c' := BufferedStreamCursor.ensure 2 c in
  BufferedStreamCursor.vec_ c' = [97; 98; 99; 0] ++ repeat 0 18
  /\ 2 <= len (BufferedStreamCursor.vec_ c')
          - BufferedStreamCursor.write_pos_ c'
  /\ firstn (length (BufferedStreamCursor.vec_ c))
            (BufferedStreamCursor.vec_ c')
     = BufferedStreamCursor.vec_ c
  /\ BufferedStreamCursor.read_pos_ c' = BufferedStreamCursor.read_pos_ c
  /\ BufferedStreamCursor.write_pos_ c' = BufferedStreamCursor.write_pos_ c
  /\ (len (BufferedStreamCursor.vec_ c') = len (BufferedStreamCursor.vec_ c)
      \/ len (BufferedStreamCursor.vec_ c')
         = 16 + (len (BufferedStreamCursor.vec_ c) + 2)).
Proof.
  cbv zeta. split; [reflexivity|].
  apply (ensure_makes_room 2 (BufferedStreamCursor.mk [97; 98; 99; 0] 1 3));
    [lia | unfold CursorFacts.well_formed, len; cbn; lia].
Defined.

(** X8.  [consume(n)] on a buffered cursor drops the first [n] of the
    unread bytes, all of them when [n] is more than [size()]; the
    positions stay in order and the vector is not touched. *)
Theorem buffered_consume_drops_prefix (c : FdStreamCursor.t) (n : Z) :
  0 <= n -> CursorFacts.well_formed (fst c) ->
  CursorView.visible (consume n c)
  = skipn (Z.to_nat n) (CursorView.visible c)
  /\ size (consume n c) = Z.max 0 (size c - n)
  /\ storage (consume n c) = storage c
  /\ CursorFacts.well_formed (fst (consume n c)).
Proof. apply CursorView.buffered_consume. Qed.

Lemma buffered_consume_drops_prefix_witness :
  let c : FdStreamCursor.t :=
    (BufferedStreamCursor.mk [97; 10; 98; 44; 99; 0; 0; 0] 2 5, []) in
  CursorView.visible c = [98; 44; 99]
  /\ CursorView.visible (consume 2 c) = [99]
  /\ CursorView.visible (consume 2 c)
     = skipn (Z.to_nat 2) (CursorView.visible c)
  /\ size (consume 2 c) = Z.max 0 (size c - 2)
  /\ storage (consume 2 c) = storage c
  /\ CursorFacts.well_formed (fst (consume 2 c)).
Proof.
  cbv zeta. split; [reflexivity|]. split; [reflexivity|].
  apply (buffered_consume_drops_prefix
           (BufferedStreamCursor.mk [97; 10; 98; 44; 99; 0; 0; 0] 2 5, []));
    [lia | unfold CursorFacts.well_formed, len; cbn; lia].
Defined.

(** X9.  [fill()] on a descriptor loses no byte and reorders none: the
    unread bytes are still there afterwards, now at the start of the
    vector ([buf()] is [&vec_[0]]), with the bytes that were read after
    them; and the unread bytes followed by what the descriptor has yet to
    deliver are the same sequence before and after the call. *)
Theorem fill_conserves_bytes (c : FdStreamCursor.t) :
  CursorFacts.well_formed (fst c) ->
  let c' := snd (fill c) in
  CursorFacts.well_formed (fst c')
  /\ buf c' = 0
  /\ (exists bs, CursorView.visible c' = CursorView.visible c ++ bs)
  /\ CursorView.visible c' ++ CursorFacts.to_come (snd c')
     = CursorView.visible c ++ CursorFacts.to_come (snd c).
Proof.
  destruct c as [c fd]. cbn [fst snd]. intros Hwf. cbv zeta.
  destruct (CursorFacts.fill_spec c fd Hwf)
    as (rc & bs & c' & fd' & _ & Ecome & Hcase & _).
  cbn [FdStreamCursor_StreamCursor fill buf].
  rewrite (CursorView.visible_unread (c, fd) Hwf).
  destruct Hcase as [(_ & -> & -> & Hwf' & Hr & Hu)
                    |(_ & c'' & -> & Hwf' & Hr & Hu)];
    cbn [fst snd];
    match goal with
    | |- context [CursorView.visible (?a, ?b)] =>
        rewrite (CursorView.visible_unread (a, b) Hwf')
    end; cbn [fst];
    (split; [exact Hwf'|]); (split; [exact Hr|]); rewrite Hu, Ecome.
  - split; [exists []; symmetry; apply app_nil_r | reflexivity].
  - split; [exists bs; reflexivity | symmetry; apply app_assoc].
Qed.

Lemma fill_conserves_bytes_witness :
  let c : FdStreamCursor.t :=
    (BufferedStreamCursor.mk [97; 10; 98; 44; 0; 0; 0; 0] 2 4,
     [Fd.Data [99; 10; 100]; Fd.Fail; Fd.Data [10]]) in
  let c' := snd (fill c) in
  CursorView.visible c = [98; 44]
  /\ CursorView.visible c' = [98; 44; 99; 10; 100]
  /\ CursorFacts.well_formed (fst c')
  /\ buf c' = 0
  /\ (exists bs, CursorView.visible c' = CursorView.visible c ++ bs)
  /\ CursorView.visible c' ++ CursorFacts.to_come (snd c')
     = CursorView.visible c ++ CursorFacts.to_come (snd c).
Proof.
  cbv zeta. split; [reflexivity|]. split; [reflexivity|].
  apply (fill_conserves_bytes
           (BufferedStreamCursor.mk [97; 10; 98; 44; 0; 0; 0; 0] 2 4,
            [Fd.Data [99; 10; 100]; Fd.Fail; Fd.Data [10]])).
  unfold CursorFacts.well_formed, len; cbn; lia.
Defined.

(** X10.  When the descriptor has data to deliver, [fill()] returns true
    and [size()] has grown: the [read()] is always asked for at least one
    byte, because the vector is enlarged when the unread bytes fill it. *)
Theorem fill_makes_progress_when_data (c : FdStreamCursor.t)
        (b : byte) (bs : list byte) (rest : Fd.t) :
  CursorFacts.well_formed (fst c) ->
  2 <= len (BufferedStreamCursor.vec_ (fst c)) ->
  snd c = Fd.Data (b :: bs) :: rest ->
  fst (fill c) = true /\ size c < size (snd (fill c)).
Proof.
  destruct c as [c fd]. cbn [fst snd]. intros Hwf Hlen ->.
  pose proof (CursorView.prepared_room c Hwf Hlen) as Hroom.
  pose proof (CursorView.readmore_read (CursorFacts.prepared c)
                (Fd.Data (b :: bs) :: rest)) as Hread.
  destruct (CursorFacts.fill_spec c (Fd.Data (b :: bs) :: rest) Hwf)
    as (rc & bs' & c' & fd' & Erm & _ & Hcase & _).
  rewrite Erm in Hread. destruct Hread as [Hrc _].
  assert (Hpos : 0 < rc).
  { rewrite Hrc. apply CursorFacts.read_data; [exact Hroom | discriminate]. }
  pose proof (CursorFacts.len_unread c Hwf) as Lu.
  cbn [FdStreamCursor_StreamCursor fill size fst].
  destruct Hcase as [(E & _)|(E & c'' & -> & Hwf' & Hr & Hu)]; [lia|].
  cbn [fst snd]. pose proof (CursorFacts.len_unread c'' Hwf') as Lu'.
  rewrite Hu, CursorFacts.len_app in Lu'.
  unfold BufferedStreamCursor.size. destruct Hwf as [Hrw _].
  split; [apply Z.ltb_lt; lia | lia].
Qed.

Lemma fill_makes_progress_when_data_witness :
  let c : FdStreamCursor.t :=
    (BufferedStreamCursor.mk [97; 10; 98; 44] 0 4, [Fd.Data [99; 10; 100]]) in
  CursorView.visible (snd (fill c)) = [97; 10; 98; 44; 99; 10; 100]
  /\ fst (fill c) = true /\ size c < size (snd (fill c)).
Proof.
  cbv zeta. split; [reflexivity|].
  apply (fill_makes_progress_when_data
           (BufferedStreamCursor.mk [97; 10; 98; 44] 0 4,
            [Fd.Data [99; 10; 100]]) 99 [10; 100] []);
    [unfold CursorFacts.well_formed, len; cbn; lia
    | unfold len; cbn; lia | reflexivity].
Defined.

(** X11.  What [fill()] returns on a descriptor: false when the [read()]
    fails, true when it delivers at least one byte, and otherwise, at end
    of file or after a read of no bytes, whether unread bytes are left in
    the buffer.  A failed [read()] costs no unread byte. *)
Theorem fill_result (c : FdStreamCursor.t) :
  CursorFacts.well_formed (fst c) ->
  2 <= len (BufferedStreamCursor.vec_ (fst c)) ->
  match snd c with
  | Fd.Fail :: rest =>
      fst (fill c) = false
      /\ CursorView.visible (snd (fill c)) = CursorView.visible c
      /\ snd (snd (fill c)) = rest
  | Fd.Data (_ :: _) :: _ => fst (fill c) = true
  | Fd.Data [] :: _ | [] => fst (fill c) = (0 <? size c)
  end.
Proof.
  destruct c as [c fd]. cbn [fst snd]. intros Hwf Hlen.
  pose proof (CursorView.prepared_room c Hwf Hlen) as Hroom.
  pose proof (CursorView.readmore_read (CursorFacts.prepared c) fd) as Hread.
  destruct (CursorFacts.fill_spec c fd Hwf)
    as (rc & bs' & c' & fd' & Erm & Ecome & Hcase & _).
  rewrite Erm in Hread. destruct Hread as [Hrc Hfd].
  pose proof (CursorFacts.len_unread c Hwf) as Lu.
  pose proof (CursorFacts.len_nonneg bs') as Hbs.
  pose proof (CursorFacts.len_nonneg (CursorFacts.unread c)) as Hun.
  cbn [FdStreamCursor_StreamCursor fill size fst].
  unfold BufferedStreamCursor.size.
  destruct fd as [|[[|b bs]|] rest].
  - cbn [Fd.read fst] in Hrc.
    destruct Hcase as [(E & _)|(E & c'' & -> & _)]; [lia|].
    cbn [fst]. f_equal. lia.
  - cbn [Fd.read] in Hrc.
    change (len (@nil Z)) with 0 in Hrc.
    destruct (Z.leb_spec 0 (len (BufferedStreamCursor.vec_
                                   (CursorFacts.prepared c))
                            - BufferedStreamCursor.write_pos_
                                (CursorFacts.prepared c))); [|lia].
    cbn [fst] in Hrc.
    destruct Hcase as [(E & _)|(E & c'' & -> & _)]; [lia|].
    cbn [fst]. f_equal. lia.
  - assert (Hpos : 0 < rc).
    { rewrite Hrc. apply CursorFacts.read_data; [exact Hroom | discriminate]. }
    destruct Hcase as [(E & _)|(E & c'' & -> & _)]; [lia|].
    cbn [fst]. apply Z.ltb_lt. lia.
  - cbn [Fd.read fst snd] in Hrc, Hfd.
    destruct Hcase as [(_ & _ & -> & Hwf' & _ & Hu)|(E & _)]; [|lia].
    cbn [fst snd]. split; [reflexivity|]. split; [|exact Hfd].
    rewrite (CursorView.visible_unread (c', fd') Hwf').
    match goal with
    | |- _ = CursorView.visible ?x =>
        rewrite (CursorView.visible_unread x Hwf)
    end.
    exact Hu.
Qed.

Lemma fill_result_witness :
  let c : FdStreamCursor.t :=
    (BufferedStreamCursor.mk [97; 10; 98; 44; 0; 0; 0; 0] 2 4,
     [Fd.Fail; Fd.Data [99; 10]]) in
  fst (fill c) = false
  /\ CursorView.visible (snd (fill c)) = CursorView.visible c
  /\ snd (snd (fill c)) = [Fd.Data [99; 10]].
Proof.
  cbv zeta.
  apply (fill_result
           (BufferedStreamCursor.mk [97; 10; 98; 44; 0; 0; 0; 0] 2 4,
            [Fd.Fail; Fd.Data [99; 10]]));
    [unfold CursorFacts.well_formed, len; cbn; lia | unfold len; cbn; lia].
Defined.

(** X12.  [fill()] enlarges the vector exactly when the unread bytes fill
    all of it, by half its size and 16 bytes; otherwise the vector keeps
    its size.  A row longer than the vector is therefore never refused:
    the buffer grows until the row fits. *)
Theorem fill_grows_full_vector (c : FdStreamCursor.t) :
  CursorFacts.well_formed (fst c) ->
  2 <= len (BufferedStreamCursor.vec_ (fst c)) ->
  len (storage (snd (fill c)))
  = if size c =? len (storage c)
    then 16 + (len (storage c) + len (storage c) / 2)
    else len (storage c).
Proof.
  destruct c as [c fd]. cbn [fst snd]. intros Hwf Hlen.
  cbn [FdStreamCursor_StreamCursor fill size storage fst].
  rewrite (CursorView.fill_vec_len c fd Hwf).
  destruct (CursorFacts.prepared_spec c Hwf) as (_ & _ & _ & _ & ->).
  unfold BufferedStreamCursor.size.
  assert (1 <= len (BufferedStreamCursor.vec_ c) / 2)
    by (apply Z.div_le_lower_bound; lia).
  destruct (Z.ltb_spec 0 (len (BufferedStreamCursor.vec_ c) / 2)); [|lia].
  reflexivity.
Qed.

Lemma fill_grows_full_vector_witness :
  let c : FdStreamCursor.t :=
    (BufferedStreamCursor.mk [97; 44; 98; 44; 99; 44] 0 6, [Fd.Data [100]]) in
  len (storage (snd (fill c))) = 25
  /\ len (storage (snd (fill c)))
     = if size c =? len (storage c)
       then 16 + (len (storage c) + len (storage c) / 2)
       else len (storage c).
Proof.
  cbv zeta. split; [reflexivity|].
  apply (fill_grows_full_vector
           (BufferedStreamCursor.mk [97; 44; 98; 44; 99; 44] 0 6,
            [Fd.Data [100]]));
    [unfold CursorFacts.well_formed, len; cbn; lia | unfold len; cbn; lia].
Defined.

(** ** Cells *)

(** X13.  [as_str] never returns more bytes than the cell holds, and
    returns the cell's bytes as they are when the cell is not flagged as
    escaped. *)
Theorem as_str_never_longer (escapechar quotechar : byte) (m : list byte)
        (c : CsvCell.t) :
  len (CsvCell.as_str escapechar quotechar m c) <= Z.max 0 (CsvCell.size c)
  /\ (CsvCell.escaped c = false ->
      CsvCell.as_str escapechar quotechar m c = CsvCell.raw m c).
Proof.
  rewrite CellFacts.as_str_unescape.
  assert (Hraw : len (CsvCell.raw m c) <= Z.max 0 (CsvCell.size c)).
  { unfold len. rewrite CellMore.length_raw. destruct (CsvCell.ptr c); lia. }
  split.
  - destruct (CsvCell.escaped c); [|exact Hraw].
    pose proof (CellFacts.length_unescape escapechar quotechar
                  (length (CsvCell.raw m c)) (CsvCell.raw m c)
                  (Nat.le_refl _)) as L.
    unfold len in *. lia.
  - intros ->. reflexivity.
Qed.

(** X14.  [as_str] undoes the doubling of escape and quote characters:
    for a cell whose bytes are a string [t] with every quote character,
    and every escape character when there is one, written twice, it
    returns [t].  The cell has to be flagged as escaped, unless [t] holds
    no such character. *)
Theorem as_str_undoes_doubling (escapechar quotechar : byte)
        (m : list byte) (c : CsvCell.t) (t : list byte) :
  CsvCell.raw m c = RowText.double quotechar escapechar t ->
  (CsvCell.escaped c = false ->
   forall b, In b t -> CsvCell.is_escape escapechar quotechar b = false) ->
  CsvCell.as_str escapechar quotechar m c = t.
Proof.
  intros Hraw Hflag. rewrite CellFacts.as_str_unescape, Hraw.
  destruct (CsvCell.escaped c).
  - apply CellMore.unescape_double.
  - apply CellMore.double_plain. apply Hflag. reflexivity.
Qed.

(** The cell of ten bytes at offset 1 of a line that opens with the
    quoted field [say hi], the [hi] in doubled quotes: the decoded
    string has one quote on each side of [hi]. *)
Lemma as_str_undoes_doubling_witness :
  let m := [34; 115; 97; 121; 32; 34; 34; 104; 105; 34; 34; 34; 44; 120; 10] in
  CsvCell.as_str 0 34 m (CsvCell.mk (Some 1) 10 true)
  = [115; 97; 121; 32; 34; 104; 105; 34].
Proof.
  cbv zeta. apply as_str_undoes_doubling; [reflexivity|].
  intros E. discriminate E.
Defined.

(** X15.  [startswith(str)] is true exactly when the characters of the
    C string [str] are a prefix of the cell's bytes; a string longer than
    the cell never is, the empty string always. *)
Theorem startswith_iff_prefix (m : list byte) (c : CsvCell.t)
        (str : list byte) :
  CsvCell.startswith m c str = true <->
  exists rest, CsvCell.raw m c = c_str str ++ rest.
Proof.
  apply CellMore.startswith_prefix.
Qed.

(** X16.  [equals(str)] is true exactly when the cell's bytes are the
    characters of the C string [str], for a cell whose size is that of
    its bytes: a null cell has size 0. *)
Theorem equals_iff_same_bytes (m : list byte) (c : CsvCell.t)
        (str : list byte) :
  0 <= CsvCell.size c ->
  (CsvCell.ptr c = None -> CsvCell.size c = 0) ->
  CsvCell.equals m c str = true <-> CsvCell.raw m c = c_str str.
Proof.
  intros Hsize Hnull. unfold CsvCell.equals.
  rewrite andb_true_iff, Z.eqb_eq.
  assert (Hlen : length (CsvCell.raw m c) = Z.to_nat (CsvCell.size c)).
  { rewrite CellMore.length_raw. destruct (CsvCell.ptr c); [reflexivity|].
    rewrite Hnull by reflexivity. reflexivity. }
  pose proof (CellMore.strlen_range str) as Hstr.
  pose proof (CellMore.length_c_str str) as Hc.
  rewrite CellMore.startswith_prefix. split.
  - intros (Es & rest & E).
    assert (Hrest : length rest = 0%nat).
    { apply (f_equal (@length Z)) in E. rewrite length_app in E. lia. }
    destruct rest; [|discriminate Hrest]. rewrite app_nil_r in E. exact E.
  - intros E. split; [rewrite E in Hlen; lia|].
    exists []. rewrite app_nil_r. exact E.
Qed.

Lemma equals_iff_same_bytes_witness :
  let m := [110; 97; 109; 101; 44; 97; 103; 101; 10] in
  CsvCell.equals m (CsvCell.mk (Some 0) 4 false) [110; 97; 109; 101; 0] = true
  /\ CsvCell.equals m (CsvCell.mk (Some 0) 4 false) [110; 97; 0] = false
  /\ (CsvCell.equals m (CsvCell.mk (Some 0) 4 false) [110; 97; 109; 101; 0]
      = true <->
      CsvCell.raw m (CsvCell.mk (Some 0) 4 false)
      = c_str [110; 97; 109; 101; 0]).
Proof.
  cbv zeta. split; [reflexivity|]. split; [reflexivity|].
  apply equals_iff_same_bytes; [cbn; lia | intros E; discriminate E].
Defined.

(** X17.  [by_value] finds the first cell of the row whose
    [as_str(0, 0)] is [value]: when it returns true, [cell] points at that
    cell and no cell before it matches; when it returns false, no cell of
    the row matches and [cell] is left as it was.  Cells past [count] are
    not looked at. *)
Theorem by_value_finds_first_match (m : list byte) (cur : CsvCursor.t)
        (value : list byte) (cell : option Z) :
  let decoded j :=
    CsvCell.as_str 0 0 m (ParseFacts.cell_at (CsvCursor.cells cur) j) in
  match CsvCursor.by_value m cur value cell with
  | (true, p) =>
      exists i, p = Some i /\ 0 <= i < CsvCursor.count cur
                /\ decoded i = value
                /\ forall j, 0 <= j < i -> decoded j <> value
  | (false, p) =>
      p = cell /\ forall j, 0 <= j < CsvCursor.count cur -> decoded j <> value
  end.
Proof.
  intros decoded. unfold CsvCursor.by_value.
  pose proof (CellMore.by_value_loop_spec m cur value
                (Z.to_nat (CsvCursor.count cur)) 0 (Z.le_refl 0)) as L.
  rewrite Z.sub_0_r in L. specialize (L (Nat.le_refl _)). cbv zeta in L.
  destruct (CsvCursor.by_value_loop _ m cur value 0) as [k|].
  - destruct L as (Hk & Hhit & Hbefore). exists k. auto.
  - split; [reflexivity | exact L].
Qed.

(** X18.  With its default arguments [as_str] decodes nothing in a cell
    without a NUL byte: [as_str(0, 0)] returns the bytes of the cell as
    they are, flagged as escaped or not.  The comparison in [by_value] is
    such a call, so a cell is found by its raw bytes, doubled quotes
    included. *)
Theorem as_str_defaults_keep_bytes (m : list byte) (c : CsvCell.t) :
  ~ In 0 (CsvCell.raw m c) -> CsvCell.as_str 0 0 m c = CsvCell.raw m c.
Proof.
  intros Hnz. rewrite CellFacts.as_str_unescape.
  destruct (CsvCell.escaped c); [|reflexivity].
  apply CellMore.unescape_plain. intros b Hb.
  unfold CsvCell.is_escape. cbn [Z.eqb negb andb orb].
  apply Z.eqb_neq. intros ->. exact (Hnz Hb).
Qed.

Lemma as_str_defaults_keep_bytes_witness :
  let m := [34; 97; 34; 34; 98; 34; 10] in
  CsvCell.as_str 0 34 m (CsvCell.mk (Some 1) 4 true) = [97; 34; 98]
  /\ CsvCell.as_str 0 0 m (CsvCell.mk (Some 1) 4 true)
     = CsvCell.raw m (CsvCell.mk (Some 1) 4 true).
Proof.
  cbv zeta. split; [reflexivity|].
  apply as_str_defaults_keep_bytes. cbn.
  intros [E|[E|[E|[E|[]]]]]; discriminate E.
Defined.

(** ** One row *)

(** X19.  [try_parse] writes [p_] only when it returns a row: [p_] then
    is the position just after a line terminator inside the window, past
    where it was, and the row has at least one cell; on an underrun and on
    an overflow [p_] is what it was. *)
Theorem try_parse_moves_p_past_a_terminator {C} `{StreamCursor C}
        (r : CsvReader.t C) :
  ReaderFacts.well_formed r ->
  match fst (CsvReader.try_parse r) with
  | kCsmTryParseOkay =>
      CsvReader.p_ r < CsvReader.p_ (snd (CsvReader.try_parse r))
                     <= CsvReader.endp_ r
      /\ is_newline (peek (storage (CsvReader.stream_ r))
                          (CsvReader.p_ (snd (CsvReader.try_parse r)) - 1))
         = true
      /\ 0 < CsvCursor.count (CsvReader.row_ (snd (CsvReader.try_parse r)))
  | _ => CsvReader.p_ (snd (CsvReader.try_parse r)) = CsvReader.p_ r
  end.
Proof.
  intros Hwf. pose proof (ReaderMore.try_parse_moved r) as Hm.
  destruct (ReaderFacts.try_parse_post r Hwf)
    as (f & Hleave & _ & (_ & Hok & _) & _).
  destruct (fst (CsvReader.try_parse r)); try exact Hm.
  destruct (Hok eq_refl) as [Hc Hp]. rewrite Hleave in *.
  cbn [CsvReader.leave CsvReader.p_ CsvReader.row_ CsvCursor.count] in *.
  auto.
Qed.

Lemma try_parse_moves_p_past_a_terminator_witness :
  exists c r,
    MappedFileCursor.open [10; 97; 44; 98; 13; 10; 99] = Some c
    /\ CsvReader.new false c 44 34 0 false = Some r
    /\ fst (CsvReader.try_parse r) = kCsmTryParseOkay
    /\ CsvReader.p_ (snd (CsvReader.try_parse r)) = 5
    /\ match fst (CsvReader.try_parse r) with
       | kCsmTryParseOkay =>
           CsvReader.p_ r < CsvReader.p_ (snd (CsvReader.try_parse r))
                          <= CsvReader.endp_ r
           /\ is_newline (peek (storage (CsvReader.stream_ r))
                               (CsvReader.p_ (snd (CsvReader.try_parse r))
                                - 1))
              = true
           /\ 0 < CsvCursor.count
                    (CsvReader.row_ (snd (CsvReader.try_parse r)))
       | _ => CsvReader.p_ (snd (CsvReader.try_parse r)) = CsvReader.p_ r
       end.
Proof.
  do 2 eexists. split; [reflexivity|]. split; [vm_compute; reflexivity|].
  split; [vm_compute; reflexivity|]. split; [vm_compute; reflexivity|].
  apply try_parse_moves_p_past_a_terminator.
  split; [reflexivity|]. exists false. split; reflexivity.
Defined.

(** X20.  After [try_parse], the public flag [in_newline_skip] is set
    exactly when every byte between [p_] and [endp_] is a line terminator
    (none at all included); the call then has returned an underrun with no
    cell.  A false returned by [read_row()] with the flag clear means that
    the input ended inside a row. *)
Theorem in_newline_skip_iff_only_terminators {C} `{StreamCursor C}
        (r : CsvReader.t C) :
  (CsvReader.in_newline_skip (snd (CsvReader.try_parse r)) = true <->
   forall i, CsvReader.p_ r <= i < CsvReader.endp_ r ->
             is_newline (peek (storage (CsvReader.stream_ r)) i) = true)
  /\ (CsvReader.in_newline_skip (snd (CsvReader.try_parse r)) = true ->
      fst (CsvReader.try_parse r) = kCsmTryParseUnderrun
      /\ CsvCursor.count (CsvReader.row_ (snd (CsvReader.try_parse r))) = 0).
Proof.
  exact (ReaderMore.try_parse_skipped r).
Qed.

(** X21.  The cells of a row lie in the buffer in the order of their
    indexes and apart from each other: a cell ends before the next cell
    with a non-null [ptr] starts, with at least the delimiter between
    them.  This holds for the cells counted at an underrun or an overflow
    as well. *)
Theorem cells_lie_in_order {C} `{StreamCursor C}
        (r : CsvReader.t C) (i j a a' : Z) :
  ReaderFacts.well_formed r ->
  0 <= i < j ->
  j < CsvCursor.count (CsvReader.row_ (snd (CsvReader.try_parse r))) ->
  CsvCell.ptr (ReaderMore.row_cell (snd (CsvReader.try_parse r)) i)
  = Some a ->
  CsvCell.ptr (ReaderMore.row_cell (snd (CsvReader.try_parse r)) j)
  = Some a' ->
  a + CsvCell.size (ReaderMore.row_cell (snd (CsvReader.try_parse r)) i)
  < a'.
Proof.
  apply ReaderMore.try_parse_in_order.
Qed.

Lemma cells_lie_in_order_witness :
  exists c r,
    MappedFileCursor.open [97; 98; 44; 34; 99; 34; 44; 100; 10] = Some c
    /\ CsvReader.new false c 44 34 0 false = Some r
    /\ CsvCell.ptr (ReaderMore.row_cell (snd (CsvReader.try_parse r)) 0)
       = Some 0
    /\ CsvCell.ptr (ReaderMore.row_cell (snd (CsvReader.try_parse r)) 1)
       = Some 4
    /\ 0 + CsvCell.size
             (ReaderMore.row_cell (snd (CsvReader.try_parse r)) 0) < 4.
Proof.
  do 2 eexists. split; [reflexivity|]. split; [vm_compute; reflexivity|].
  split; [vm_compute; reflexivity|]. split; [vm_compute; reflexivity|].
  apply (cells_lie_in_order _ 0 1 0 4).
  - split; [reflexivity|]. exists false. split; reflexivity.
  - lia.
  - vm_compute. reflexivity.
  - vm_compute. reflexivity.
  - vm_compute. reflexivity.
Defined.

(** X22.  With the scalar spanner, on any bytes, [try_parse] returns what
    the byte-by-byte automaton [RowSpec.expect] returns on the bytes of
    the window: the same result, the same number of cells and, for a row,
    the same position after the row's line terminator. *)
Theorem try_parse_follows_automaton {C} `{StreamCursor C}
        (r : CsvReader.t C) :
  0 < len (CsvCursor.cells (CsvReader.row_ r)) ->
  Spanner.new false (CsvReader.quotechar_ r) (CsvReader.escapechar_ r) 0 0
  = Some (CsvReader.quoted_cell_spanner_ r) ->
  Spanner.new false (CsvReader.delimiter_ r) 13 10 (CsvReader.escapechar_ r)
  = Some (CsvReader.unquoted_cell_spanner_ r) ->
  (fst (CsvReader.try_parse r),
   CsvCursor.count (CsvReader.row_ (snd (CsvReader.try_parse r))),
   match fst (CsvReader.try_parse r) with
   | kCsmTryParseOkay => CsvReader.p_ (snd (CsvReader.try_parse r))
   | _ => 0
   end)
  = RowSpec.expect (CsvReader.delimiter_ r) (CsvReader.quotechar_ r)
                   (CsvReader.escapechar_ r)
                   (len (CsvCursor.cells (CsvReader.row_ r)))
                   RowSpec.NewlineSkip 0 (CsvReader.p_ r)
                   (SimFacts.slice (storage (CsvReader.stream_ r))
                                   (CsvReader.p_ r) (CsvReader.endp_ r)).
Proof.
  intros Hpos Hq Hu. apply CountFacts.try_parse_expect.
  - split; [exact Hpos|]. exists false. split; assumption.
  - split; eapply SimFacts.fallback_skips_none; eassumption.
Qed.

Lemma try_parse_follows_automaton_witness :
  exists c r,
    MappedFileCursor.open [34; 97; 44; 0; 34; 44; 98; 10; 99] = Some c
    /\ CsvReader.new false c 44 34 0 false = Some r
    /\ RowSpec.expect 44 34 0 32 RowSpec.NewlineSkip 0 0
                      [34; 97; 44; 0; 34; 44; 98; 10; 99]
       = (kCsmTryParseOkay, 2, 8)
    /\ (fst (CsvReader.try_parse r),
        CsvCursor.count (CsvReader.row_ (snd (CsvReader.try_parse r))),
        match fst (CsvReader.try_parse r) with
        | kCsmTryParseOkay => CsvReader.p_ (snd (CsvReader.try_parse r))
        | _ => 0
        end)
       = RowSpec.expect (CsvReader.delimiter_ r) (CsvReader.quotechar_ r)
                        (CsvReader.escapechar_ r)
                        (len (CsvCursor.cells (CsvReader.row_ r)))
                        RowSpec.NewlineSkip 0 (CsvReader.p_ r)
                        (SimFacts.slice (storage (CsvReader.stream_ r))
                                        (CsvReader.p_ r)
                                        (CsvReader.endp_ r)).
Proof.
  do 2 eexists. split; [reflexivity|]. split; [vm_compute; reflexivity|].
  split; [reflexivity|].
  apply try_parse_follows_automaton;
    [reflexivity | vm_compute; reflexivity | vm_compute; reflexivity].
Defined.

(** ** Reading a mapped file *)

(** X23.  On a mapped file every [read_row()] returns, whatever the bytes
    of the file and with either spanner: each overflow doubles a capacity
    that the number of bytes left bounds, and [fill()] returns false.  The
    reader it leaves is well formed again, so the next call returns as
    well. *)
Theorem read_row_returns_on_mapped_file
        (r : CsvReader.t MappedFileCursor.t) :
  ReaderFacts.well_formed r ->
  exists n b r' log,
    CsvReader.read_row n r = Some (b, r', log)
    /\ ReaderFacts.well_formed r'.
Proof.
  intros Hwf.
  destruct (ReaderMore.read_row_returns_mapped _ r Hwf (Nat.le_refl _))
    as (b & r' & log & E).
  eexists _, b, r', log. split; [exact E|].
  exact (ReaderMore.read_row_well_formed _ r b r' log Hwf E).
Qed.

Lemma read_row_returns_on_mapped_file_witness :
  exists c r,
    MappedFileCursor.open [34; 97; 0; 44; 98] = Some c
    /\ CsvReader.new true c 44 34 0 true = Some r
    /\ exists n b r' log,
        CsvReader.read_row n r = Some (b, r', log)
        /\ ReaderFacts.well_formed r'.
Proof.
  do 2 eexists. split; [reflexivity|]. split; [vm_compute; reflexivity|].
  apply read_row_returns_on_mapped_file.
  split; [reflexivity|]. exists true. split; reflexivity.
Defined.

(** X24.  Once [read_row()] has returned false on a mapped file, the
    cursor is where it was before the call and the next call returns
    false again, in one round and without moving the cursor. *)
Theorem read_row_false_is_final (n : nat)
        (r r' : CsvReader.t MappedFileCursor.t)
        (log : list (CsvReader.event MappedFileCursor.t)) :
  CsvReader.read_row n r = Some (false, r', log) ->
  CsvReader.stream_ r' = CsvReader.stream_ r
  /\ exists r'' log',
      CsvReader.read_row 1 r' = Some (false, r'', log')
      /\ CsvReader.stream_ r'' = CsvReader.stream_ r'.
Proof.
  apply ReaderMore.read_row_false_final.
Qed.

Lemma read_row_false_is_final_witness :
  exists c r r' log,
    MappedFileCursor.open [10; 97; 44; 98] = Some c
    /\ CsvReader.new false c 44 34 0 false = Some r
    /\ CsvReader.read_row 1 r = Some (false, r', log)
    /\ CsvReader.stream_ r' = CsvReader.stream_ r
    /\ exists r'' log',
        CsvReader.read_row 1 r' = Some (false, r'', log')
        /\ CsvReader.stream_ r'' = CsvReader.stream_ r'.
Proof.
  do 4 eexists. split; [reflexivity|]. split; [vm_compute; reflexivity|].
  split; [vm_compute; reflexivity|].
  eapply (read_row_false_is_final 1). vm_compute. reflexivity.
Defined.

(** ** Reading back what a writer wrote *)

(** X25.  A row as a writer lays it out is read back as it was written:
    when the bytes at [buf()] are line terminators, then the fields of a
    row, plain or quoted with doubled quote and escape characters,
    separated by the delimiter and closed by a line terminator, then
    anything, [read_row()] returns true without a [fill()], whatever the
    number of fields, consumes the bytes up to and including that line
    terminator, and the cells of the row decode to the texts of the
    fields.  With the vector spanner this is for a window without a zero
    byte. *)
Theorem read_row_reads_back_written_row {C} `{StreamCursor C}
        (sse : bool) (r : CsvReader.t C) (blank : list byte)
        (fs : list RowText.field) (nl : byte) (rest : list byte) :
  0 < len (CsvCursor.cells (CsvReader.row_ r)) ->
  Spanner.new sse (CsvReader.quotechar_ r) (CsvReader.escapechar_ r) 0 0
  = Some (CsvReader.quoted_cell_spanner_ r) ->
  Spanner.new sse (CsvReader.delimiter_ r) 13 10 (CsvReader.escapechar_ r)
  = Some (CsvReader.unquoted_cell_spanner_ r) ->
  RowText.sane (CsvReader.delimiter_ r) (CsvReader.quotechar_ r)
               (CsvReader.escapechar_ r) ->
  Forall (fun x => is_newline x = true) blank ->
  RoundTrip.row_ok (CsvReader.delimiter_ r) (CsvReader.quotechar_ r)
                   (CsvReader.escapechar_ r) fs ->
  is_newline nl = true ->
  CursorView.visible (CsvReader.stream_ r)
  = blank
    ++ RowText.write_row (CsvReader.delimiter_ r) (CsvReader.quotechar_ r)
                         (CsvReader.escapechar_ r) fs nl
    ++ rest ->
  (sse = true ->
   forall b, In b (CursorView.visible (CsvReader.stream_ r)) -> b <> 0) ->
  exists n r' log,
    CsvReader.read_row n r = Some (true, r', log)
    /\ CsvReader.stream_ r'
       = consume (len blank
                  + len (RowText.write_row
                           (CsvReader.delimiter_ r) (CsvReader.quotechar_ r)
                           (CsvReader.escapechar_ r) fs nl))
                 (CsvReader.stream_ r)
    /\ map (CsvCell.as_str (CsvReader.escapechar_ r) (CsvReader.quotechar_ r)
                           (storage (CsvReader.stream_ r)))
           (CsvReader.row_cells r')
       = map RowText.text fs.
Proof.
  intros Hpos Eq Eu Hsane Hblank (Hne & Hnb & Hv) Hnl Hvis Hnz.
  assert (Hwf : ReaderFacts.well_formed r).
  { split; [exact Hpos|]. exists sse. split; assumption. }
  destruct (RoundTrip.read_row_written
              (Z.to_nat (len fs
                         - len (CsvCursor.cells (CsvReader.row_ r))))
              r blank fs nl rest Hwf
              (RoundTrip.exact_at_buf sse r Eq Eu Hsane Hnz) Hsane)
    as (r' & log & Hrr & Hstream & Hcount & Hroom & Hcells);
    [|apply Nat.le_refl|].
  { unfold RoundTrip.before. auto 10. }
  eexists _, r', log. split; [exact Hrr|]. split; [exact Hstream|].
  unfold CsvReader.row_cells.
  apply (RoundTrip.decoded_cells _ _ _ fs Hcount); rewrite Hcount;
    [exact Hroom | exact Hcells].
Qed.

(** An empty line, then the row of a plain field and a quoted field
    holding a quote character, closed by CR LF, then the start of a
    further row. *)
Lemma read_row_reads_back_written_row_witness :
  exists c r,
    MappedFileCursor.open [10; 97; 44; 34; 98; 34; 34; 34; 13; 10; 99]
    = Some c
    /\ CsvReader.new false c 44 34 0 false = Some r
    /\ exists n r' log,
        CsvReader.read_row n r = Some (true, r', log)
        /\ CsvReader.stream_ r' = consume 9 (CsvReader.stream_ r)
        /\ map (CsvCell.as_str 0 34 (storage (CsvReader.stream_ r)))
               (CsvReader.row_cells r')
           = [[97]; [98; 34]].
Proof.
  do 2 eexists. split; [reflexivity|]. split; [vm_compute; reflexivity|].
  match goal with
  | |- exists n r' log, CsvReader.read_row n ?r = _ /\ _ =>
      apply (read_row_reads_back_written_row
               false r [10] [RowText.Plain [97]; RowText.Quoted [98; 34]] 13
               [10; 99])
  end.
  - reflexivity.
  - vm_compute. reflexivity.
  - vm_compute. reflexivity.
  - repeat split; discriminate.
  - repeat constructor.
  - split; [discriminate|]. split; [discriminate|].
    constructor; [|constructor; [exact I | constructor]].
    split; [intros b [<-|[]]; reflexivity | discriminate].
  - reflexivity.
  - reflexivity.
  - intros E. discriminate E.
Defined.

(** X26.  On the text of a written row [try_parse] returns an overflow
    exactly when the row has more fields than [row_.cells] has elements;
    otherwise it returns the row, with one cell for each field.  A row of
    [n] fields needs a vector of [n] cells, not more. *)
Theorem try_parse_overflows_iff_more_fields {C} `{StreamCursor C}
        (sse : bool) (r : CsvReader.t C) (blank : list byte)
        (fs : list RowText.field) (nl : byte) (rest : list byte) :
  0 < len (CsvCursor.cells (CsvReader.row_ r)) ->
  Spanner.new sse (CsvReader.quotechar_ r) (CsvReader.escapechar_ r) 0 0
  = Some (CsvReader.quoted_cell_spanner_ r) ->
  Spanner.new sse (CsvReader.delimiter_ r) 13 10 (CsvReader.escapechar_ r)
  = Some (CsvReader.unquoted_cell_spanner_ r) ->
  RowText.sane (CsvReader.delimiter_ r) (CsvReader.quotechar_ r)
               (CsvReader.escapechar_ r) ->
  Forall (fun x => is_newline x = true) blank ->
  RoundTrip.row_ok (CsvReader.delimiter_ r) (CsvReader.quotechar_ r)
                   (CsvReader.escapechar_ r) fs ->
  is_newline nl = true ->
  SimFacts.slice (storage (CsvReader.stream_ r)) (CsvReader.p_ r)
                 (CsvReader.endp_ r)
  = blank
    ++ RowText.write_row (CsvReader.delimiter_ r) (CsvReader.quotechar_ r)
                         (CsvReader.escapechar_ r) fs nl
    ++ rest ->
  (sse = true ->
   forall b, In b (SimFacts.slice (storage (CsvReader.stream_ r))
                                  (CsvReader.p_ r) (CsvReader.endp_ r)) ->
             b <> 0) ->
  (len fs <= len (CsvCursor.cells (CsvReader.row_ r)) ->
   fst (CsvReader.try_parse r) = kCsmTryParseOkay
   /\ CsvCursor.count (CsvReader.row_ (snd (CsvReader.try_parse r)))
      = len fs)
  /\ (len (CsvCursor.cells (CsvReader.row_ r)) < len fs ->
      fst (CsvReader.try_parse r) = kCsmTryParseOverflow).
Proof.
  intros Hpos Eq Eu Hsane Hblank (Hne & Hnb & Hv) Hnl Hslice Hnz.
  assert (Hwf : ReaderFacts.well_formed r).
  { split; [exact Hpos|]. exists sse. split; assumption. }
  pose proof (RoundTrip.try_parse_written r blank fs nl rest Hwf
                (RoundTrip.exact_window sse r Eq Eu Hsane Hnz) Hsane) as T.
  destruct (Z.leb_spec (len fs) (len (CsvCursor.cells (CsvReader.row_ r))))
    as [Hfit|Hover].
  - destruct T as (Hrc & Hcount & _); [unfold RoundTrip.before; auto 10|].
    split; [auto | intros; lia].
  - split; [intros; lia|]. intros _. apply T.
    unfold RoundTrip.before. auto 10.
Qed.

(** Three fields before a reader whose cell vector has been left with
    two elements. *)
Lemma try_parse_overflows_iff_more_fields_witness :
  let r : CsvReader.t MappedFileCursor.t :=
    CsvReader.mk 6 0 44 34 0 false false
                 (MappedFileCursor.mk [97; 44; 98; 44; 99; 10] 6 0)
                 (Sse42 (StringSpannerSse42.new 34 0 0 0))
                 (Sse42 (StringSpannerSse42.new 44 13 10 0))
                 (CsvCursor.mk [CsvCell.zero; CsvCell.zero] 0) in
  (3 <= len (CsvCursor.cells (CsvReader.row_ r)) ->
   fst (CsvReader.try_parse r) = kCsmTryParseOkay
   /\ CsvCursor.count (CsvReader.row_ (snd (CsvReader.try_parse r))) = 3)
  /\ (len (CsvCursor.cells (CsvReader.row_ r)) < 3 ->
      fst (CsvReader.try_parse r) = kCsmTryParseOverflow).
Proof.
  cbv zeta.
  apply (try_parse_overflows_iff_more_fields
           true _ [] [RowText.Plain [97]; RowText.Plain [98];
                      RowText.Plain [99]] 10 []).
  - reflexivity.
  - reflexivity.
  - reflexivity.
  - repeat split; discriminate.
  - constructor.
  - split; [discriminate|]. split; [discriminate|].
    repeat (constructor;
            [split; [intros b [<-|[]]; reflexivity | discriminate]|]).
    constructor.
  - reflexivity.
  - reflexivity.
  - intros _ b Hb. cbn in Hb.
    repeat (destruct Hb as [<-|Hb]; [discriminate|]). destruct Hb.
Defined.

(** X27.  A mapped file that holds written rows, each closed by the same
    end of line of one or more line terminators, is read back row by row:
    the successive calls of [read_row()] return true once for each row,
    with cells that decode to the texts of its fields, and then false.
    With the vector spanner this is for a file without a zero byte. *)
Theorem mapped_file_reads_back_written_rows
        (sse : bool) (d q e : byte) (y : bool) (nl : byte) (more : list byte)
        (rows : list (list RowText.field))
        (c : MappedFileCursor.t) (r : CsvReader.t MappedFileCursor.t) :
  RowText.sane d q e ->
  is_newline nl = true -> Forall (fun x => is_newline x = true) more ->
  Forall (RoundTrip.row_ok d q e) rows ->
  MappedFileCursor.open (RowText.write_lines d q e (nl :: more) rows)
  = Some c ->
  CsvReader.new sse c d q e y = Some r ->
  (sse = true ->
   forall b, In b (RowText.write_lines d q e (nl :: more) rows) -> b <> 0) ->
  RoundTrip.reads r (map (map RowText.text) rows).
Proof.
  intros Hsane Hnl Hmore Hrows Hopen Hnew Hnz.
  pose proof (ReaderFacts.new_well_formed _ _ _ _ _ _ _ Hnew) as Hwf.
  set (data := RowText.write_lines d q e (nl :: more) rows) in *.
  assert (Hc : c = MappedFileCursor.mk data (len data) 0).
  { unfold MappedFileCursor.open in Hopen.
    destruct data; inversion Hopen; reflexivity. }
  subst c. unfold CsvReader.new in Hnew.
  destruct (Spanner.new sse q e 0 0) as [qs|] eqn:Eq; [|discriminate].
  destruct (Spanner.new sse d 13 10 e) as [us|] eqn:Eu; [|discriminate].
  injection Hnew as <-.
  assert (Hvis : CursorView.visible (MappedFileCursor.mk data (len data) 0)
                 = data).
  { unfold CursorView.visible.
    cbn [MappedFileCursor_StreamCursor storage buf size].
    unfold MappedFileCursor.buf, MappedFileCursor.size.
    cbn [MappedFileCursor.mapping MappedFileCursor.endp_ MappedFileCursor.p_].
    replace (0 + (len data - 0)) with (len data) by lia.
    rewrite CountFacts.slice_skipn by (unfold len; lia). reflexivity. }
  apply (RoundTrip.reads_written sse nl more rows Hnl Hmore _ []);
    [|exact Hrows].
  unfold RoundTrip.reading.
  cbn [CsvReader.stream_ CsvReader.delimiter_ CsvReader.quotechar_
       CsvReader.escapechar_ CsvReader.quoted_cell_spanner_
       CsvReader.unquoted_cell_spanner_].
  rewrite Hvis. cbn [app].
  split; [exact Hwf|]. split; [exact Eq|]. split; [exact Eu|].
  split; [exact Hsane|]. split; [constructor|].
  split; [|split; [reflexivity | exact Hnz]].
  cbn [MappedFileCursor_StreamCursor size]. unfold MappedFileCursor.size.
  cbn [MappedFileCursor.endp_ MappedFileCursor.p_]. unfold len. lia.
Qed.

(** A file of two rows with CR LF line ends; the second field of the
    first row is quoted and holds a delimiter and a quote character, the
    first field of the second row is empty. *)
Lemma mapped_file_reads_back_written_rows_witness :
  exists c r,
    RowText.write_lines 44 34 0 [13; 10]
      [[RowText.Plain [97]; RowText.Quoted [98; 44; 34]];
       [RowText.Plain []; RowText.Plain [100]]]
    = [97; 44; 34; 98; 44; 34; 34; 34; 13; 10; 44; 100; 13; 10]
    /\ MappedFileCursor.open
         (RowText.write_lines 44 34 0 [13; 10]
            [[RowText.Plain [97]; RowText.Quoted [98; 44; 34]];
             [RowText.Plain []; RowText.Plain [100]]])
       = Some c
    /\ CsvReader.new false c 44 34 0 false = Some r
    /\ RoundTrip.reads r [[[97]; [98; 44; 34]]; [[]; [100]]].
Proof.
  do 2 eexists. split; [reflexivity|]. split; [reflexivity|].
  split; [vm_compute; reflexivity|].
  eapply (mapped_file_reads_back_written_rows
            false 44 34 0 false 13 [10]
           [[RowText.Plain [97]; RowText.Quoted [98; 44; 34]];
            [RowText.Plain []; RowText.Plain [100]]]).
  - repeat split; discriminate.
  - reflexivity.
  - repeat constructor.
  - constructor; [|constructor; [|constructor]].
    + split; [discriminate|]. split; [discriminate|].
      constructor; [|constructor; [exact I | constructor]].
      split; [intros b [<-|[]]; reflexivity | discriminate].
    + split; [discriminate|]. split; [discriminate|].
      constructor; [split; [intros b [] | exact I]|].
      constructor; [|constructor].
      split; [intros b [<-|[]]; reflexivity | discriminate].
  - reflexivity.
  - vm_compute. reflexivity.
  - intros E. discriminate E.
Defined.

(** ** Reading from a descriptor *)

(** X28.  A text that a writer laid out with one line terminator after
    every row is read back from a file descriptor row by row, field by
    field, however the calls of read() cut it into pieces, as long as
    none of them fails or returns nothing before the end; after the last
    row [read_row()] returns false.  With the vector spanners the text
    must hold no zero byte. *)
Theorem descriptor_reads_back_written_rows
        (sse y : bool) (d q e nl : byte)
        (rows : list (list RowText.field)) (chunks : list (list byte))
        (r : CsvReader.t FdStreamCursor.t) :
  RowText.sane d q e -> is_newline nl = true ->
  Forall (RoundTrip.row_ok d q e) rows ->
  Forall (fun bs => bs <> []) chunks ->
  concat chunks = RowText.write_lines d q e [nl] rows ->
  (sse = true -> ~ In 0 (concat chunks)) ->
  CsvReader.new sse (FdStreamCursor.new (map Fd.Data chunks)) d q e y
  = Some r ->
  RoundTrip.reads r (map (map RowText.text) rows).
Proof.
  intros Hsane Hnl Hrows Hchunks Htext Hnz Hnew.
  pose proof (DescriptorRead.new_feeding sse y d q e chunks r Hsane Hchunks
                Hnz Hnew) as Hf.
  rewrite Htext in Hf.
  destruct (DescriptorRead.fed_rows sse d q e nl [] rows Hnl (Forall_nil _)
              Hrows [] r (Forall_nil _) Hf) as (r' & Hret & Hf').
  assert (Hend : DescriptorRead.feeding sse d q e r' [])
    by (destruct rows; exact Hf').
  destruct (DescriptorRead.feeds_end sse d q e r' Hend) as (r'' & log & Hrr).
  exact (RoundTrip.returns_rows_reads r _ r' Hret 1%nat r'' log Hrr).
Qed.

(** Two rows delivered in three pieces: the first read ends inside a
    quoted field, between the two quote characters that stand for one,
    the second in the middle of the second row. *)
Lemma descriptor_reads_back_written_rows_witness :
  exists r,
    CsvReader.new false
      (FdStreamCursor.new
         (map Fd.Data [[97; 44; 34; 98; 34]; [34; 99; 34; 10; 100]; [10]]))
      44 34 0 false
    = Some r
    /\ RowText.write_lines 44 34 0 [10]
         [[RowText.Plain [97]; RowText.Quoted [98; 34; 99]];
          [RowText.Plain [100]]]
       = [97; 44; 34; 98; 34; 34; 99; 34; 10; 100; 10]
    /\ RoundTrip.reads r [[[97]; [98; 34; 99]]; [[100]]].
Proof.
  eexists. split; [reflexivity|]. split; [reflexivity|].
  eapply (descriptor_reads_back_written_rows
            false false 44 34 0 10
            [[RowText.Plain [97]; RowText.Quoted [98; 34; 99]];
             [RowText.Plain [100]]]
            [[97; 44; 34; 98; 34]; [34; 99; 34; 10; 100]; [10]]).
  - repeat split; discriminate.
  - reflexivity.
  - constructor; [|constructor; [|constructor]].
    + split; [discriminate|]. split; [discriminate|].
      constructor; [|constructor; [exact I | constructor]].
      split; [intros b [<-|[]]; reflexivity | discriminate].
    + split; [discriminate|]. split; [discriminate|].
      constructor; [|constructor].
      split; [intros b [<-|[]]; reflexivity | discriminate].
  - repeat constructor; discriminate.
  - reflexivity.
  - intros E. discriminate E.
  - reflexivity.
Defined.

(** X29.  When the bytes a descriptor delivers are not empty and no line
    terminator among them closes a row, [read_row()] never returns,
    whatever [yield_incomplete_row] is and however the bytes arrive:
    every round ends in an underrun or in a larger cell vector, and
    [fill()] returns true at the end of the file as well, because bytes
    are left unread. *)
Theorem descriptor_read_row_never_returns_without_row
        (sse y : bool) (d q e : byte) (chunks : list (list byte))
        (r : CsvReader.t FdStreamCursor.t) (n : nat) :
  RowText.sane d q e ->
  Forall (fun bs => bs <> []) chunks ->
  concat chunks <> [] ->
  RowSpec.expected_rows d q e false (concat chunks) = 0%nat ->
  (sse = true -> ~ In 0 (concat chunks)) ->
  CsvReader.new sse (FdStreamCursor.new (map Fd.Data chunks)) d q e y
  = Some r ->
  CsvReader.read_row n r = None.
Proof.
  intros Hsane Hchunks Hne Hrows Hnz Hnew.
  apply (DescriptorRead.never_returns sse d q e (concat chunks) Hne Hrows).
  exact (DescriptorRead.new_feeding sse y d q e chunks r Hsane Hchunks Hnz
           Hnew).
Qed.

(** A quoted field that is never closed, with a line terminator in it,
    delivered in two pieces. *)
Lemma descriptor_read_row_never_returns_without_row_witness :
  exists r,
    CsvReader.new false
      (FdStreamCursor.new (map Fd.Data [[97; 44; 34]; [98; 10; 99]]))
      44 34 0 true
    = Some r
    /\ forall n, CsvReader.read_row n r = None.
Proof.
  eexists. split; [reflexivity|]. intros n.
  eapply (descriptor_read_row_never_returns_without_row
            false true 44 34 0 [[97; 44; 34]; [98; 10; 99]]).
  - repeat split; discriminate.
  - repeat constructor; discriminate.
  - discriminate.
  - reflexivity.
  - intros E. discriminate E.
  - reflexivity.
Defined.

(** X30.  A text whose rows end in more than one line terminator, as
    with CR LF, read from a descriptor: every row is returned, decoded
    as it was written, and the call of [read_row()] after the last row
    never returns.  The rest of the last end of line stays unread, so
    [fill()] goes on returning true at the end of the file. *)
Theorem descriptor_hangs_after_rows_with_long_line_ends
        (sse y : bool) (d q e nl : byte) (more : list byte)
        (rows : list (list RowText.field)) (chunks : list (list byte))
        (r : CsvReader.t FdStreamCursor.t) :
  RowText.sane d q e -> is_newline nl = true ->
  more <> [] -> Forall (fun x => is_newline x = true) more ->
  rows <> [] -> Forall (RoundTrip.row_ok d q e) rows ->
  Forall (fun bs => bs <> []) chunks ->
  concat chunks = RowText.write_lines d q e (nl :: more) rows ->
  (sse = true -> ~ In 0 (concat chunks)) ->
  CsvReader.new sse (FdStreamCursor.new (map Fd.Data chunks)) d q e y
  = Some r ->
  exists r',
    RoundTrip.returns_rows r (map (map RowText.text) rows) r'
    /\ forall n, CsvReader.read_row n r' = None.
Proof.
  intros Hsane Hnl Hmne Hmore Hrne Hrows Hchunks Htext Hnz Hnew.
  pose proof (DescriptorRead.new_feeding sse y d q e chunks r Hsane Hchunks
                Hnz Hnew) as Hf.
  rewrite Htext in Hf.
  destruct (DescriptorRead.fed_rows sse d q e nl more rows Hnl Hmore
              Hrows [] r (Forall_nil _) Hf) as (r' & Hret & Hf').
  exists r'. split; [exact Hret|]. intros n.
  apply (DescriptorRead.never_returns sse d q e more Hmne
           (PrefixFacts.blank_no_row d q e more Hmore)).
  destruct rows; [congruence | exact Hf'].
Qed.

(** Two rows with CR LF line ends, delivered in two pieces. *)
Lemma descriptor_hangs_after_rows_with_long_line_ends_witness :
  exists r,
    CsvReader.new false
      (FdStreamCursor.new
         (map Fd.Data [[97; 44; 98; 13]; [10; 99; 13; 10]]))
      44 34 0 false
    = Some r
    /\ exists r',
        RoundTrip.returns_rows r [[[97]; [98]]; [[99]]] r'
        /\ forall n, CsvReader.read_row n r' = None.
Proof.
  eexists. split; [reflexivity|].
  eapply (descriptor_hangs_after_rows_with_long_line_ends
            false false 44 34 0 13 [10]
            [[RowText.Plain [97]; RowText.Plain [98]];
             [RowText.Plain [99]]]
            [[97; 44; 98; 13]; [10; 99; 13; 10]]).
  - repeat split; discriminate.
  - reflexivity.
  - discriminate.
  - repeat constructor.
  - discriminate.
  - constructor; [|constructor; [|constructor]].
    + split; [discriminate|]. split; [discriminate|].
      constructor; [|constructor; [|constructor]];
        (split; [intros b [<-|[]]; reflexivity | discriminate]).
    + split; [discriminate|]. split; [discriminate|].
      constructor; [|constructor].
      split; [intros b [<-|[]]; reflexivity | discriminate].
  - repeat constructor; discriminate.
  - reflexivity.
  - intros E. discriminate E.
  - reflexivity.
Defined.
